(** * Maze generation and path-finding engines

    A shallow embedding of [src/utils/mazeGenerator.ts] and
    [src/utils/algorithms.ts].

    Conventions of the embedding:
    - a JavaScript [number] used as a row or column is a [Z]; counters that
      only grow from zero are [nat];
    - [Cell[][]] and [boolean[][]] are lists of lists; reading or writing
      through an index that is out of range is the failure [None] (in
      JavaScript, reading a field of [undefined] raises a TypeError);
    - the string keys [`${row},${col}`] of sets and objects are the pairs
      [(row, col)], which the template encodes injectively;
    - [Math.random()] is read from an explicit random source;
    - loops that the source bounds only through its data carry a fuel
      argument; running out of fuel is [None] as well, and the theorems
      exhibit a fuel that is enough;
    - [performance.now()] and the visualisation [delay] are wall-clock
      effects and are left out: the field [executionTime] is not modelled. *)

From Stdlib Require Import ZArith QArith Qround Lia.
From stdpp Require Import base option list gmap.

#[local] Open Scope Z_scope.
Set Warnings "-clear-no-such-hyp".

(** ** The grid model *)

Record Cell := mkCell {
  row : Z;
  col : Z;
  isWall : bool;
  isStart : bool;
  isEnd : bool;
  isVisited : bool;
  isPath : bool
}.

Definition MazeGrid := list (list Cell).
Definition Pos := (Z * Z)%type.

Definition setWall (b : bool) (x : Cell) : Cell :=
  mkCell (row x) (col x) b (isStart x) (isEnd x) (isVisited x) (isPath x).
Definition setStart (b : bool) (x : Cell) : Cell :=
  mkCell (row x) (col x) (isWall x) b (isEnd x) (isVisited x) (isPath x).
Definition setEnd (b : bool) (x : Cell) : Cell :=
  mkCell (row x) (col x) (isWall x) (isStart x) b (isVisited x) (isPath x).
Definition setVisited (b : bool) (x : Cell) : Cell :=
  mkCell (row x) (col x) (isWall x) (isStart x) (isEnd x) b (isPath x).
Definition setPath (b : bool) (x : Cell) : Cell :=
  mkCell (row x) (col x) (isWall x) (isStart x) (isEnd x) (isVisited x) b.

(** [const dx = [-1, 0, 1, 0]; const dy = [0, 1, 0, -1];] *)
Definition dx (i : nat) : Z := nth i [-1; 0; 1; 0] 0.
Definition dy (i : nat) : Z := nth i [0; 1; 0; -1] 0.

(** Two-dimensional arrays: [m[r][c]] and [m[r][c] = f(m[r][c])]. *)
Definition get2 {A} (m : list (list A)) (r c : Z) : option A :=
  if decide (0 ≤ r ∧ 0 ≤ c)
  then m !! Z.to_nat r ≫= λ line, line !! Z.to_nat c
  else None.

Definition upd2 {A} (f : A → A) (m : list (list A)) (r c : Z)
  : option (list (list A)) :=
  if decide (0 ≤ r ∧ 0 ≤ c)
  then line ← m !! Z.to_nat r;
       x ← line !! Z.to_nat c;
       Some (<[Z.to_nat r := <[Z.to_nat c := f x]> line]> m)
  else None.

(** [grid.length] and [grid[0].length]. *)
Definition rows {A} (m : list (list A)) : Z := Z.of_nat (length m).
Definition cols {A} (m : list (list A)) : Z :=
  match m with
  | [] => 0
  | line :: _ => Z.of_nat (length line)
  end.

(** The test [nr >= 0 && nr < rows && nc >= 0 && nc < cols]. *)
Definition inBounds (R C r c : Z) : bool :=
  (0 <=? r) && (r <? R) && (0 <=? c) && (c <? C).

(** Index pairs in the order of [for i < R { for j < C { .. } }]. *)
Definition positions (R C : nat) : list Pos :=
  i ← seq 0 R; j ← seq 0 C; [(Z.of_nat i, Z.of_nat j)].

(** [findPositions]: the last cell flagged [isStart] and the last cell
    flagged [isEnd] in row-major order, each [[0, 0]] when there is none. *)
Definition findStep (grid : MazeGrid) (acc : option (Pos * Pos)) (p : Pos)
  : option (Pos * Pos) :=
  se ← acc;
  x ← get2 grid p.1 p.2;
  Some (if isStart x then p else se.1, if isEnd x then p else se.2).

Definition findPositions (grid : MazeGrid) : option (Pos * Pos) :=
  foldl (findStep grid) (Some ((0, 0), (0, 0)))
        (positions (length grid) (Z.to_nat (cols grid))).

(** [cloneGrid]: a fresh cell object per cell, with the same fields. *)
Definition cloneGrid (grid : MazeGrid) : MazeGrid :=
  map (map (λ x, mkCell (row x) (col x) (isWall x) (isStart x) (isEnd x)
                        (isVisited x) (isPath x))) grid.

(** A grid is rectangular when every row is as long as the first one. *)
Definition Rect {A} (m : list (list A)) : Prop :=
  Forall (λ line, Z.of_nat (length line) = cols m) m.

Definition hasStart (grid : MazeGrid) : Prop :=
  ∃ r c x, get2 grid r c = Some x ∧ isStart x = true.
Definition hasEnd (grid : MazeGrid) : Prop :=
  ∃ r c x, get2 grid r c = Some x ∧ isEnd x = true.

Definition startAt (grid : MazeGrid) (p : Pos) : Prop :=
  ∃ x, get2 grid p.1 p.2 = Some x ∧ isStart x = true.
Definition endAt (grid : MazeGrid) (p : Pos) : Prop :=
  ∃ x, get2 grid p.1 p.2 = Some x ∧ isEnd x = true.

(** ** The random source

    [Math.random()] returns a number in [[0, 1)]; the [k]-th call of a run
    returns [ω k].  [Math.floor(Math.random() * n)] is [randomIndex]. *)

Definition RandomSource := nat → Q.

Definition ValidRandom (ω : RandomSource) : Prop :=
  ∀ k, (0 <= ω k)%Q ∧ (ω k < 1)%Q.

Definition randomIndex (u : Q) (n : nat) : nat :=
  Z.to_nat (Qfloor (u * inject_Z (Z.of_nat n))).

(** [[l[i], l[j]] = [l[j], l[i]]]. *)
Definition swap (l : list nat) (i j : nat) : list nat :=
  <[j := nth i l 0%nat]> (<[i := nth j l 0%nat]> l).

(** The shuffling loop shared by [carvePath] and [runDFS]:
    [for (i = 0; i < l.length; i++) swap l[i] with l[floor(random * l.length)]].
    The second component is the number of random draws consumed so far. *)
Definition shuffleStep (ω : RandomSource) (acc : list nat * nat) (i : nat)
  : list nat * nat :=
  (swap acc.1 i (randomIndex (ω acc.2) (length acc.1)), S acc.2).

Definition shuffle (ω : RandomSource) (k : nat) (l : list nat) : list nat * nat :=
  foldl (shuffleStep ω) (l, k) (seq 0 (length l)).

(** ** Traversal engines: shared pieces *)

Record AlgorithmMetrics := mkMetrics {
  nodesVisited : nat;
  pathLength : Z;
  isPathFound : bool
}.

Record AlgorithmStep := mkStep {
  stepGrid : MazeGrid;
  stepMetrics : AlgorithmMetrics
}.

(** What a run leaves behind: the returned metrics, the steps handed to
    [onStep] in order, and the engine's working grid at the end. *)
Record Run := mkRun {
  result : AlgorithmMetrics;
  emitted : list AlgorithmStep;
  working : MazeGrid
}.

(** A frontier entry [[row, col, path]]. *)
Definition Entry := (Z * Z * list Pos)%type.
Definition entryPos (e : Entry) : Pos := (e.1.1, e.1.2).
Definition entryPath (e : Entry) : list Pos := e.2.

(** [Array(grid.length).fill(false).map(() => Array(grid[0].length).fill(false))] *)
Definition freshVisited (grid : MazeGrid) : list (list bool) :=
  replicate (length grid) (replicate (Z.to_nat (cols grid)) false).

(** [if (!grid[r][c].isStart && !grid[r][c].isEnd) grid[r][c].isVisited = true] *)
Definition markVisited (grid : MazeGrid) (r c : Z) : option MazeGrid :=
  x ← get2 grid r c;
  if negb (isStart x) && negb (isEnd x)
  then upd2 (setVisited true) grid r c
  else Some grid.

(** [for (const [r, c] of path)
       if (!grid[r][c].isStart && !grid[r][c].isEnd) grid[r][c].isPath = true] *)
Definition markPathCell (acc : option MazeGrid) (p : Pos) : option MazeGrid :=
  grid ← acc;
  x ← get2 grid p.1 p.2;
  if negb (isStart x) && negb (isEnd x)
  then upd2 (setPath true) grid p.1 p.2
  else Some grid.

Definition markPath (grid : MazeGrid) (path : list Pos) : option MazeGrid :=
  foldl markPathCell (Some grid) path.

(** One round of the neighbour loop of [runDFS], [runBFS] and
    [ensurePathExists]: the in-bounds, non-wall, unvisited neighbour in
    direction [dir] is marked visited and pushed with its extended path.
    The accumulator holds [visited] and the entries pushed so far, oldest
    first. *)
Definition tryNeighbour (grid : MazeGrid) (r c : Z) (path : list Pos)
    (acc : option (list (list bool) * list Entry)) (dir : nat)
  : option (list (list bool) * list Entry) :=
  acc ≫= λ a : list (list bool) * list Entry,
  let newRow := r + dx dir in
  let newCol := c + dy dir in
  if inBounds (rows grid) (cols grid) newRow newCol then
    x ← get2 grid newRow newCol;
    if isWall x then Some a else
    get2 a.1 newRow newCol ≫= λ v : bool,
    if v then Some a else
    visited' ← upd2 (λ _, true) a.1 newRow newCol;
    Some (visited', a.2 ++ [(newRow, newCol, path ++ [(newRow, newCol)])])
  else Some a.

Definition expand (grid : MazeGrid) (visited : list (list bool))
    (r c : Z) (path : list Pos) (dirs : list nat)
  : option (list (list bool) * list Entry) :=
  foldl (tryNeighbour grid r c path) (Some (visited, [])) dirs.

Definition countVisit (m : AlgorithmMetrics) : AlgorithmMetrics :=
  mkMetrics (S (nodesVisited m)) (pathLength m) (isPathFound m).

Definition foundWith (m : AlgorithmMetrics) (path : list Pos) : AlgorithmMetrics :=
  mkMetrics (nodesVisited m) (Z.of_nat (length path) - 1) true.

Definition notFound (m : AlgorithmMetrics) : AlgorithmMetrics :=
  mkMetrics (nodesVisited m) (pathLength m) false.

(** ** [runBFS] *)

(** The [while (queue.length > 0)] loop; [queue.shift()] takes the head. *)
Fixpoint bfsLoop (fuel : nat) (grid : MazeGrid) (visited : list (list bool))
    (queue : list Entry) (metrics : AlgorithmMetrics) (out : list AlgorithmStep)
  : option Run :=
  match fuel with
  | O => None
  | S fuel =>
    match queue with
    | [] =>
      let metrics := notFound metrics in
      Some (mkRun metrics (out ++ [mkStep (cloneGrid grid) metrics]) grid)
    | (currentRow, currentCol, path) :: queue =>
      grid ← markVisited grid currentRow currentCol;
      let metrics := countVisit metrics in
      let out := out ++ [mkStep (cloneGrid grid) metrics] in
      x ← get2 grid currentRow currentCol;
      if isEnd x then
        grid ← markPath grid path;
        let metrics := foundWith metrics path in
        Some (mkRun metrics (out ++ [mkStep (cloneGrid grid) metrics]) grid)
      else
        vn ← expand grid visited currentRow currentCol path [0; 1; 2; 3]%nat;
        bfsLoop fuel grid vn.1 (queue ++ vn.2) metrics out
    end
  end.

Definition runBFS (fuel : nat) (initialGrid : MazeGrid) : option Run :=
  let grid := cloneGrid initialGrid in
  se ← findPositions grid;
  let start := se.1 in
  visited ← upd2 (λ _, true) (freshVisited grid) start.1 start.2;
  bfsLoop fuel grid visited [(start.1, start.2, [start])] (mkMetrics 0 0 false) [].

(** ** [runDFS] *)

(** The [while (stack.length > 0)] loop.  The stack is kept with its top
    first: [stack.pop()] takes the head and [stack.push(e)] conses [e], so
    the entries pushed by one neighbour loop end up in reverse order on top.
    [k] counts the random draws consumed so far. *)
Fixpoint dfsLoop (ω : RandomSource) (fuel : nat) (k : nat) (grid : MazeGrid)
    (visited : list (list bool)) (stack : list Entry)
    (metrics : AlgorithmMetrics) (out : list AlgorithmStep)
  : option Run :=
  match fuel with
  | O => None
  | S fuel =>
    match stack with
    | [] =>
      let metrics := notFound metrics in
      Some (mkRun metrics (out ++ [mkStep (cloneGrid grid) metrics]) grid)
    | (currentRow, currentCol, path) :: stack =>
      grid ← markVisited grid currentRow currentCol;
      let metrics := countVisit metrics in
      let out := out ++ [mkStep (cloneGrid grid) metrics] in
      x ← get2 grid currentRow currentCol;
      if isEnd x then
        grid ← markPath grid path;
        let metrics := foundWith metrics path in
        Some (mkRun metrics (out ++ [mkStep (cloneGrid grid) metrics]) grid)
      else
        let dk := shuffle ω k [0; 1; 2; 3]%nat in
        vn ← expand grid visited currentRow currentCol path dk.1;
        dfsLoop ω fuel dk.2 grid vn.1 (reverse vn.2 ++ stack) metrics out
    end
  end.

Definition runDFS (ω : RandomSource) (fuel : nat) (initialGrid : MazeGrid)
  : option Run :=
  let grid := cloneGrid initialGrid in
  se ← findPositions grid;
  let start := se.1 in
  visited ← upd2 (λ _, true) (freshVisited grid) start.1 start.2;
  dfsLoop ω fuel 0 grid visited [(start.1, start.2, [start])]
          (mkMetrics 0 0 false) [].

(** ** Paths in a grid *)

Definition openAt (grid : MazeGrid) (p : Pos) : Prop :=
  ∃ x, get2 grid p.1 p.2 = Some x ∧ isWall x = false.

(** Orthogonally adjacent: one step up, right, down or left. *)
Definition adjacent (p q : Pos) : Prop :=
  ∃ d, (d < 4)%nat ∧ q = (p.1 + dx d, p.2 + dy d).

(** [steps grid p l q]: from [p], the cells of [l] are entered one after
    the other, each a non-wall cell adjacent to the one before, ending in
    [q].  The number of steps is [length l]. *)
Fixpoint steps (grid : MazeGrid) (p : Pos) (l : list Pos) (q : Pos) : Prop :=
  match l with
  | [] => q = p
  | p' :: l => adjacent p p' ∧ openAt grid p' ∧ steps grid p' l q
  end.

(** A path over non-wall cells from [p] to [q]: the list of its cells, [p]
    first and [q] last. *)
Definition pathBetween (grid : MazeGrid) (p q : Pos) (path : list Pos) : Prop :=
  ∃ l, path = p :: l ∧ openAt grid p ∧ steps grid p l q.

(** Edge count of a path given as its list of cells. *)
Definition edges (path : list Pos) : Z := Z.of_nat (length path) - 1.

Definition reachable (grid : MazeGrid) (p q : Pos) : Prop :=
  ∃ path, pathBetween grid p q path.

(** ** Specification vocabulary for the traversal engines *)

(** The part of a cell that no engine writes. *)
Definition staticOf (x : Cell) : Z * Z * bool * bool * bool :=
  (row x, col x, isWall x, isStart x, isEnd x).

(** Two grids describe the same maze: same dimensions, and position by
    position the same coordinates, walls and terminals. *)
Definition sameMaze (g g' : MazeGrid) : Prop :=
  rows g' = rows g ∧ cols g' = cols g ∧ Rect g' ∧
  ∀ r c, staticOf <$> get2 g' r c = staticOf <$> get2 g r c.

(** [g'] differs from [g] at most in annotations, and [isPath] of wall
    cells is as in [g]. *)
Definition annotatedFrom (g g' : MazeGrid) : Prop :=
  sameMaze g g' ∧
  ∀ r c x x', get2 g r c = Some x → get2 g' r c = Some x' →
    isWall x = true → isPath x' = isPath x.

Definition visitedAt (visited : list (list bool)) (p : Pos) : Prop :=
  get2 visited p.1 p.2 = Some true.

Definition shapeOf (g : MazeGrid) (visited : list (list bool)) : Prop :=
  Rect visited ∧ rows visited = rows g ∧ cols visited = cols g.

(** The path carried by an entry leads from [start] to the entry's cell. *)
Definition entryOk (g : MazeGrid) (start : Pos) (e : Entry) : Prop :=
  ∃ l, entryPath e = start :: l ∧ steps g start l (entryPos e).

(** The invariant of a worklist search from [start]: [frontier] holds the
    entries waiting, [done] the entries already expanded (a ghost of the
    proof), [goal] the cells at which the search stops. *)
Record SearchInv (g : MazeGrid) (start : Pos) (goal : Pos → Prop)
    (visited : list (list bool)) (frontier done : list Entry) : Prop := {
  si_shape : shapeOf g visited;
  si_entries : ∀ e, e ∈ frontier ++ done → entryOk g start e;
  si_nodup : NoDup (entryPos <$> (frontier ++ done));
  si_visited : ∀ p, visitedAt visited p ↔ p ∈ entryPos <$> (frontier ++ done);
  si_closed : ∀ e w, e ∈ done → adjacent (entryPos e) w → openAt g w →
                visitedAt visited w;
  si_goal : ∀ e, e ∈ done → ¬ goal (entryPos e);
  si_start : ∃ e, e ∈ frontier ++ done ∧ entryPos e = start ∧ entryPath e = [start]
}.

(** Breadth-first order: the waiting entries carry paths of [d] edges
    followed by paths of [d + 1] edges, and every expanded entry a path of
    at most [d] edges. *)
Definition BfsLevels (frontier done : list Entry) : Prop :=
  ∃ (d : Z) (A B : list Entry), frontier = A ++ B ∧
    (∀ e, e ∈ A → edges (entryPath e) = d) ∧
    (∀ e, e ∈ B → edges (entryPath e) = d + 1) ∧
    (∀ e, e ∈ done → edges (entryPath e) ≤ d) ∧
    (∀ e w, e ∈ done → adjacent (entryPos e) w →
       ∀ e', e' ∈ frontier ++ done → entryPos e' = w →
       edges (entryPath e') ≤ edges (entryPath e) + 1).

(** The two loops [bfsLoop] and [dfsLoop] are instances of one scheme,
    which differs in the order of directions ([dirsOf], which may draw
    random numbers) and in where the new entries go ([merge]). *)
Fixpoint searchLoop (dirsOf : nat → list nat * nat)
    (merge : list Entry → list Entry → list Entry)
    (fuel : nat) (k : nat) (grid : MazeGrid)
    (visited : list (list bool)) (frontier : list Entry)
    (metrics : AlgorithmMetrics) (out : list AlgorithmStep)
  : option Run :=
  match fuel with
  | O => None
  | S fuel =>
    match frontier with
    | [] =>
      let metrics := notFound metrics in
      Some (mkRun metrics (out ++ [mkStep (cloneGrid grid) metrics]) grid)
    | (currentRow, currentCol, path) :: frontier =>
      grid ← markVisited grid currentRow currentCol;
      let metrics := countVisit metrics in
      let out := out ++ [mkStep (cloneGrid grid) metrics] in
      x ← get2 grid currentRow currentCol;
      if isEnd x then
        grid ← markPath grid path;
        let metrics := foundWith metrics path in
        Some (mkRun metrics (out ++ [mkStep (cloneGrid grid) metrics]) grid)
      else
        let dk := dirsOf k in
        vn ← expand grid visited currentRow currentCol path dk.1;
        searchLoop dirsOf merge fuel dk.2 grid vn.1 (merge vn.2 frontier)
                   metrics out
    end
  end.

Definition bfsDirs (k : nat) : list nat * nat := ([0; 1; 2; 3]%nat, k).
Definition bfsMerge (new rest : list Entry) : list Entry := rest ++ new.
Definition dfsDirs (ω : RandomSource) (k : nat) : list nat * nat :=
  shuffle ω k [0; 1; 2; 3]%nat.
Definition dfsMerge (new rest : list Entry) : list Entry := reverse new ++ rest.

(** Every emitted snapshot is the input grid with annotations only. *)
Definition stepsFrom (g0 : MazeGrid) (out : list AlgorithmStep) : Prop :=
  Forall (λ s, annotatedFrom g0 (stepGrid s)) out.

(** How a search ended, in terms of the ghost state of its last round. *)
Inductive SearchEnd (g : MazeGrid) (start : Pos)
    (Extra : list Entry → list Entry → Prop) (run : Run) : Prop :=
| SearchFound (e : Entry) (rest done : list Entry) (visited : list (list bool)) :
    SearchInv g start (endAt g) visited (e :: rest) done →
    Extra (e :: rest) done →
    endAt g (entryPos e) →
    result run = mkMetrics (S (length done)) (edges (entryPath e)) true →
    SearchEnd g start Extra run
| SearchExhausted (done : list Entry) (visited : list (list bool)) :
    SearchInv g start (endAt g) visited [] done →
    result run = mkMetrics (length done) 0 false →
    SearchEnd g start Extra run.

(** ** [runAStar] *)

(** [Math.abs(x1 - x2) + Math.abs(y1 - y2)] *)
Definition manhattanDistance (x1 y1 x2 y2 : Z) : Z :=
  Z.abs (x1 - x2) + Z.abs (y1 - y2).

(** An open-set node [[row, col, path, fScore]]. *)
Definition AStarNode := (Z * Z * list Pos * Z)%type.
Definition nodePos (n : AStarNode) : Pos := (n.1.1.1, n.1.1.2).
Definition nodePath (n : AStarNode) : list Pos := n.1.2.
Definition nodeF (n : AStarNode) : Z := n.2.

(** The open set is a [TinyQueue] ordered by [(a, b) => a[3] - b[3]].
    TinyQueue is an npm package, not code of this repository; the engine is
    modelled over any priority queue that keeps the items pushed and whose
    [pop] removes an item with the least [fScore].  [pqItems] is the
    abstract content of a queue. *)
Class PriorityQueue (Q : Type) := {
  pqEmpty : Q;
  pqPush : AStarNode → Q → Q;
  pqPop : Q → option (AStarNode * Q);
  pqItems : Q → list AStarNode;
  pqEmpty_items : pqItems pqEmpty = [];
  pqPush_items : ∀ x q, pqItems (pqPush x q) ≡ₚ x :: pqItems q;
  pqPop_None : ∀ q, pqPop q = None → pqItems q = [];
  pqPop_Some : ∀ q x q', pqPop q = Some (x, q') →
    pqItems q ≡ₚ x :: pqItems q' ∧ ∀ y, y ∈ pqItems q → nodeF x ≤ nodeF y
}.

(** A simple instance: an unordered list, [pop] extracts the first item
    among those with the least [fScore]. *)
Fixpoint listPop (q : list AStarNode) : option (AStarNode * list AStarNode) :=
  match q with
  | [] => None
  | x :: q =>
    match listPop q with
    | None => Some (x, [])
    | Some (y, q') =>
      if nodeF x <=? nodeF y then Some (x, q) else Some (y, x :: q')
    end
  end.

Section AStar.
Context {Q : Type} `{PriorityQueue Q}.

(** One round of the neighbour loop of [runAStar].  The accumulator holds
    the open set and [gScore]; an absent [gScore] entry reads as
    [Infinity], and [Infinity + 1 < x] is false for every [x]. *)
Definition relaxNeighbour (grid : MazeGrid) (endp : Pos) (closedSet : gset Pos)
    (currentKey : Pos) (path : list Pos)
    (acc : option (Q * gmap Pos Z)) (i : nat) : option (Q * gmap Pos Z) :=
  acc ≫= λ a : Q * gmap Pos Z,
  let newRow := currentKey.1 + dx i in
  let newCol := currentKey.2 + dy i in
  let neighborKey := (newRow, newCol) in
  if inBounds (rows grid) (cols grid) newRow newCol then
    x ← get2 grid newRow newCol;
    if isWall x then Some a else
    if decide (neighborKey ∈ closedSet) then Some a else
    match a.2 !! currentKey with
    | None => Some a
    | Some gCurrent =>
      let tentativeGScore := gCurrent + 1 in
      let better := match a.2 !! neighborKey with
                    | None => true
                    | Some gNeighbor => tentativeGScore <? gNeighbor
                    end in
      if better then
        let neighborHScore := manhattanDistance newRow newCol endp.1 endp.2 in
        let neighborFScore := tentativeGScore + neighborHScore in
        let newPath := path ++ [neighborKey] in
        Some (pqPush (newRow, newCol, newPath, neighborFScore) a.1,
              <[neighborKey := tentativeGScore]> a.2)
      else Some a
    end
  else Some a.

Definition relax (grid : MazeGrid) (endp : Pos) (closedSet : gset Pos)
    (currentKey : Pos) (path : list Pos) (openSet : Q) (gScore : gmap Pos Z)
  : option (Q * gmap Pos Z) :=
  foldl (relaxNeighbour grid endp closedSet currentKey path)
        (Some (openSet, gScore)) [0; 1; 2; 3]%nat.

(** The [while (openSet.length > 0)] loop, followed by the final
    [onStep] that [runAStar] sends after the loop on every exit. *)
Fixpoint astarLoop (fuel : nat) (grid : MazeGrid) (endp : Pos)
    (openSet : Q) (gScore : gmap Pos Z) (closedSet : gset Pos)
    (metrics : AlgorithmMetrics) (out : list AlgorithmStep) : option Run :=
  match fuel with
  | O => None
  | S fuel =>
    match pqPop openSet with
    | None =>
      Some (mkRun metrics (out ++ [mkStep (cloneGrid grid) metrics]) grid)
    | Some (currentNode, openSet) =>
      let currentKey := nodePos currentNode in
      let path := nodePath currentNode in
      if decide (currentKey ∈ closedSet) then
        astarLoop fuel grid endp openSet gScore closedSet metrics out
      else
        let closedSet := {[currentKey]} ∪ closedSet in
        let metrics := countVisit metrics in
        grid ← markVisited grid currentKey.1 currentKey.2;
        let out := out ++ [mkStep (cloneGrid grid) metrics] in
        if decide (currentKey = endp) then
          grid ← markPath grid path;
          let metrics := foundWith metrics path in
          Some (mkRun metrics (out ++ [mkStep (cloneGrid grid) metrics]) grid)
        else
          og ← relax grid endp closedSet currentKey path openSet gScore;
          astarLoop fuel grid endp og.1 og.2 closedSet metrics out
    end
  end.

Definition runAStar (fuel : nat) (initialGrid : MazeGrid) : option Run :=
  let grid := cloneGrid initialGrid in
  se ← findPositions grid;
  let start := se.1 in
  let endp := se.2 in
  let hScore := manhattanDistance start.1 start.2 endp.1 endp.2 in
  let openSet := pqPush (start.1, start.2, [start], hScore) pqEmpty in
  let gScore : gmap Pos Z := {[start := 0]} in
  astarLoop fuel grid endp openSet gScore ∅ (mkMetrics 0 0 false) [].
End AStar.

(** *** Specification vocabulary for A* *)

Definition heuristic (endp p : Pos) : Z :=
  manhattanDistance p.1 p.2 endp.1 endp.2.

(** An open-set node carries a path from [start] to its cell, its
    [fScore] is the length of that path plus the heuristic, and [gScore]
    of its cell is at most that length. *)
Definition nodeOk (g : MazeGrid) (start endp : Pos) (gScore : gmap Pos Z)
    (n : AStarNode) : Prop :=
  ∃ l, nodePath n = start :: l ∧ steps g start l (nodePos n)
    ∧ nodeF n = Z.of_nat (length l) + heuristic endp (nodePos n)
    ∧ ∃ gp, gScore !! nodePos n = Some gp ∧ gp ≤ Z.of_nat (length l).

Record AStarInv (g : MazeGrid) (start endp : Pos) (items : list AStarNode)
    (gScore : gmap Pos Z) (closed : gset Pos) : Prop := {
  ai_nodes : ∀ n, n ∈ items → nodeOk g start endp gScore n;
  ai_open : ∀ p gp, gScore !! p = Some gp → p ∉ closed →
    ∃ n, n ∈ items ∧ nodePos n = p ∧ edges (nodePath n) = gp;
  ai_closed : ∀ p, p ∈ closed →
    p ≠ endp ∧ (p = start ∨ openAt g p) ∧
    ∃ gp, gScore !! p = Some gp
      ∧ (∀ l, steps g start l p → gp ≤ Z.of_nat (length l))
      ∧ ∀ w, adjacent p w → openAt g w →
          ∃ gw, gScore !! w = Some gw ∧ gw ≤ gp + 1;
  ai_start : ∃ g0, gScore !! start = Some g0 ∧ g0 ≤ 0
}.

(** How a run of A* ended: [seen] is the final closed set. *)
Inductive AStarEnd (g : MazeGrid) (start endp : Pos) (run : Run) : Prop :=
| AStarFound (l : list Pos) (seen : gset Pos) :
    steps g start l endp →
    (∀ l', steps g start l' endp → (length l ≤ length l')%nat) →
    (∀ p, p ∈ seen → p = start ∨ openAt g p) →
    result run = mkMetrics (size seen) (Z.of_nat (length l)) true →
    AStarEnd g start endp run
| AStarExhausted (seen : gset Pos) :
    (∀ l, ¬ steps g start l endp) →
    (∀ p, p ∈ seen → p = start ∨ openAt g p) →
    result run = mkMetrics (size seen) 0 false →
    AStarEnd g start endp run.

(** The invariant of the neighbour loop of A*, after the directions [ds],
    while the cell [cur] (with [gScore] [gp], already in [closed]) is
    expanded from the open-set content [items0] and the scores [gs0]. *)
Record RelaxInv (g : MazeGrid) (start endp cur : Pos) (gp : Z)
    (closed : gset Pos) (items0 : list AStarNode) (gs0 : gmap Pos Z)
    (ds : list nat) (items : list AStarNode) (gs : gmap Pos Z) : Prop := {
  ri_nodes : ∀ n, n ∈ items → nodeOk g start endp gs n;
  ri_open : ∀ p gq, gs !! p = Some gq → p ∉ closed →
    ∃ n, n ∈ items ∧ nodePos n = p ∧ edges (nodePath n) = gq;
  ri_closed : ∀ p, p ∈ closed → gs !! p = gs0 !! p;
  ri_mono : ∀ p g0, gs0 !! p = Some g0 → ∃ g1, gs !! p = Some g1 ∧ g1 ≤ g0;
  ri_length : (length items ≤ length items0 + length ds)%nat;
  ri_dirs : ∀ d, d ∈ ds →
    openAt g (cur.1 + dx d, cur.2 + dy d) →
    (cur.1 + dx d, cur.2 + dy d) ∉ closed →
    ∃ gw, gs !! (cur.1 + dx d, cur.2 + dy d) = Some gw ∧ gw ≤ gp + 1
}.

(** ** Well-formed grids (the data model's invariants)

    Rectangular, exactly one start cell [s] and one end cell [e], neither
    of them a wall. *)
Definition WellFormed (grid : MazeGrid) (s e : Pos) : Prop :=
  Rect grid ∧ openAt grid s ∧ openAt grid e ∧
  (∀ p, startAt grid p ↔ p = s) ∧ (∀ p, endAt grid p ↔ p = e).

(** A decision procedure for [WellFormed], for concrete grids. *)
Definition wellFormedb (grid : MazeGrid) (s e : Pos) : bool :=
  forallb (λ line, Z.of_nat (length line) =? cols grid) grid
  && forallb (λ p, match get2 grid p.1 p.2 with
                   | Some x => eqb (isStart x) (bool_decide (p = s))
                               && eqb (isEnd x) (bool_decide (p = e))
                   | None => false
                   end)
             (positions (length grid) (Z.to_nat (cols grid)))
  && match get2 grid s.1 s.2, get2 grid e.1 e.2 with
     | Some x, Some y => negb (isWall x) && negb (isWall y)
     | _, _ => false
     end.

(** The number of non-wall cells of a grid. *)
Definition nonWallCount (grid : MazeGrid) : nat :=
  length (filter (λ x, isWall x = false) (mjoin grid)).

(** ** Concrete grids

    Grids written as rows of codes: [0] a passage, [1] a wall, [2] the
    start cell, [3] the end cell; annotations are clear. *)
Definition cellOf (r c : nat) (code : nat) : Cell :=
  mkCell (Z.of_nat r) (Z.of_nat c)
         (Nat.eqb code 1) (Nat.eqb code 2) (Nat.eqb code 3) false false.

Definition gridOf (codes : list (list nat)) : MazeGrid :=
  imap (λ r line, imap (cellOf r) line) codes.

(** A 5 by 5 maze with a ring corridor; start at (0, 1), end at (4, 3). *)
Definition ringMaze : MazeGrid :=
  gridOf [ [1; 2; 1; 1; 1];
           [1; 0; 0; 0; 1];
           [1; 0; 1; 0; 1];
           [1; 0; 0; 0; 1];
           [1; 1; 1; 3; 1] ]%nat.

(** A grid without a start cell and without an end cell. *)
Definition noTerminals : MazeGrid :=
  gridOf [ [1; 0]; [0; 1] ]%nat.

(** The constant random source. *)
Definition zeroSource : RandomSource := λ _, 0%Q.

(** ** [generateMaze] *)

(** The grid of the initialisation loops: every cell a wall. *)
Definition allWalls (rows cols : nat) : MazeGrid :=
  (λ i, (λ j, mkCell (Z.of_nat i) (Z.of_nat j) true false false false false)
          <$> seq 0 cols) <$> seq 0 rows.

(** The state threaded through [carvePath]: the grid, the generator's
    [visited] array and the number of random draws consumed. *)
Record CarveState := mkCarve {
  cGrid : MazeGrid;
  cVisited : list (list bool);
  cRand : nat
}.

(** One round of the loop [for (const dir of directions)] of [carvePath];
    [carve] is the recursive call. *)
Definition carveDir (carve : Z → Z → CarveState → option CarveState)
    (rows cols : Z) (r c : Z) (acc : option CarveState) (dir : nat)
  : option CarveState :=
  acc ≫= λ st : CarveState,
  let nr := r + dx dir * 2 in
  let nc := c + dy dir * 2 in
  if inBounds rows cols nr nc then
    get2 (cVisited st) nr nc ≫= λ v : bool,
    if v then Some st else
    grid ← upd2 (setWall false) (cGrid st) (r + dx dir) (c + dy dir);
    carve nr nc (mkCarve grid (cVisited st) (cRand st))
  else Some st.

(** [carvePath(r, c)].  The recursion depth is bounded by the number of
    unvisited cells; [fuel] bounds it in the model. *)
Fixpoint carvePath (ω : RandomSource) (rows cols : Z) (fuel : nat)
    (r c : Z) (st : CarveState) : option CarveState :=
  match fuel with
  | O => None
  | S fuel =>
    visited ← upd2 (λ _, true) (cVisited st) r c;
    grid ← upd2 (setWall false) (cGrid st) r c;
    let dk := shuffle ω (cRand st) [0; 1; 2; 3]%nat in
    foldl (carveDir (carvePath ω rows cols fuel) rows cols r c)
          (Some (mkCarve grid visited dk.2)) dk.1
  end.

(** [for (const [pr, pc] of path) grid[pr][pc].isWall = false] *)
Definition openPath (grid : MazeGrid) (path : list Pos) : option MazeGrid :=
  foldl (λ (acc : option MazeGrid) (p : Pos),
           acc ≫= λ grid : MazeGrid, upd2 (setWall false) grid p.1 p.2)
        (Some grid) path.

(** The breadth-first loop of [ensurePathExists]: [inl grid] when the end
    was dequeued (the function returns [true] there), [inr visited] when
    the queue ran empty. *)
Fixpoint ensureLoop (fuel : nat) (grid : MazeGrid) (endp : Pos)
    (visited : list (list bool)) (queue : list Entry)
  : option (MazeGrid + list (list bool)) :=
  match fuel with
  | O => None
  | S fuel =>
    match queue with
    | [] => Some (inr visited)
    | (r, c, path) :: queue =>
      if decide (r = endp.1 ∧ c = endp.2) then
        grid ← openPath grid path; Some (inl grid)
      else
        vn ← expand grid visited r c path [0; 1; 2; 3]%nat;
        ensureLoop fuel grid endp vn.1 (queue ++ vn.2)
    end
  end.

(** The fallback loop [while (currentRow !== endRow || currentCol !== endCol)]. *)
Fixpoint carveToEnd (fuel : nat) (grid : MazeGrid)
    (currentRow currentCol endRow endCol : Z) : option MazeGrid :=
  match fuel with
  | O => None
  | S fuel =>
    if decide (currentRow ≠ endRow ∨ currentCol ≠ endCol) then
      let next :=
        if currentRow <? endRow then (currentRow + 1, currentCol)
        else if endRow <? currentRow then (currentRow - 1, currentCol)
        else if currentCol <? endCol then (currentRow, currentCol + 1)
        else if endCol <? currentCol then (currentRow, currentCol - 1)
        else (currentRow, currentCol) in
      grid ← upd2 (setWall false) grid next.1 next.2;
      carveToEnd fuel grid next.1 next.2 endRow endCol
    else Some grid
  end.

(** [ensurePathExists]: the grid it leaves and the boolean it returns. *)
Definition ensurePathExists (fuel : nat) (grid : MazeGrid)
    (startRow startCol endRow endCol : Z) : option (MazeGrid * bool) :=
  visited ← upd2 (λ _, true) (freshVisited grid) startRow startCol;
  r ← ensureLoop fuel grid (endRow, endCol) visited
         [(startRow, startCol, [(startRow, startCol)])];
  match r with
  | inl grid => Some (grid, true)
  | inr visited =>
    get2 visited endRow endCol ≫= λ v : bool,
    if v then Some (grid, false)
    else grid ← carveToEnd fuel grid startRow startCol endRow endCol;
         Some (grid, false)
  end.

Definition generateMaze (ω : RandomSource) (fuel : nat) (rows cols : nat)
  : option MazeGrid :=
  let grid := allWalls rows cols in
  let startRow := 0 in
  let startCol := 1 in
  grid ← upd2 (setWall false) grid startRow startCol;
  grid ← upd2 (setStart true) grid startRow startCol;
  let endRow := Z.of_nat rows - 1 in
  let endCol := Z.of_nat cols - 2 in
  grid ← upd2 (setWall false) grid endRow endCol;
  grid ← upd2 (setEnd true) grid endRow endCol;
  let visited := replicate rows (replicate cols false) in
  st ← carvePath ω (Z.of_nat rows) (Z.of_nat cols) fuel 1 1
                 (mkCarve grid visited 0);
  r ← ensurePathExists fuel (cGrid st) startRow startCol endRow endCol;
  Some r.1.

(** *** Specification vocabulary for the generator *)

(** Number of [false] entries of a [visited] array. *)
Definition unvisited (visited : list (list bool)) : nat :=
  sum_list ((λ line, length (filter (λ b, b = false) line)) <$> visited).

(** Every non-wall cell other than [endp] is reachable from [start]. *)
Definition connected (g : MazeGrid) (start endp : Pos) : Prop :=
  ∀ p, openAt g p → p ≠ endp → reachable g start p.

(** [g'] has the cells of [g], some of them opened: same dimensions,
    coordinates and terminals, and no new wall. *)
Definition opened (g g' : MazeGrid) : Prop :=
  rows g' = rows g ∧ cols g' = cols g ∧ Rect g' ∧
  ∀ r c x, get2 g r c = Some x →
    ∃ x', get2 g' r c = Some x' ∧ isStart x' = isStart x ∧ isEnd x' = isEnd x
      ∧ (isWall x = false → isWall x' = false).

(** The invariant of [carvePath] on a grid of [R] by [C] cells. *)
Definition carveOk (R C : Z) (start endp : Pos) (st : CarveState) : Prop :=
  Rect (cGrid st) ∧ rows (cGrid st) = R ∧ cols (cGrid st) = C
  ∧ shapeOf (cGrid st) (cVisited st)
  ∧ connected (cGrid st) start endp.

(** ** Learned tables

    The numbers of the learners are JavaScript doubles; they are modelled
    as rationals, so rounding, overflow and NaN are outside the model.
    [-Infinity] as the initial maximum is [None]. *)

(** [valueFunction[key] || 0] *)
Definition valueAt (valueFunction : gmap Pos Q) (key : Pos) : Q :=
  default 0%Q (valueFunction !! key).

(** [(qTable[key] || {})[a] ?? 0] *)
Definition qValueAt (qTable : gmap Pos (gmap nat Q)) (key : Pos) (a : nat) : Q :=
  default 0%Q (default ∅ (qTable !! key) !! a).

(** [x > max], where [max] starts as [-Infinity]. *)
Definition exceeds (x : Q) (max : option Q) : bool :=
  match max with
  | None => true
  | Some m => if Qlt_le_dec m x then true else false
  end.

(** [x === max] *)
Definition equals (x : Q) (max : option Q) : bool :=
  match max with
  | None => false
  | Some m => Qeq_bool x m
  end.

(** [path.length > 0 ? path.length - 1 : 0] *)
Definition walkedLength (path : list Pos) : Z :=
  if decide (0 < length path)%nat then Z.of_nat (length path) - 1 else 0.

(** What an exploration run leaves behind: as [Run], and the local [path]
    of the walk. *)
Record Walk := mkWalk {
  walkRun : Run;
  walkPath : list Pos
}.

(** ** [runMonteCarloExploration] *)

(** One round of the loop that looks for the best action; the accumulator
    is [(bestValue, bestAction)], with [bestAction = -1] as [None]. *)
Definition bestStep (grid : MazeGrid) (valueFunction : gmap Pos Q) (r c : Z)
    (acc : option (option Q * option nat)) (i : nat)
  : option (option Q * option nat) :=
  acc ≫= λ a : option Q * option nat,
  let newRow := r + dx i in
  let newCol := c + dy i in
  if inBounds (rows grid) (cols grid) newRow newCol then
    x ← get2 grid newRow newCol;
    if isWall x then Some a else
    let value := valueAt valueFunction (newRow, newCol) in
    if exceeds value a.1 then Some (Some value, Some i) else Some a
  else Some a.

Definition bestAction (grid : MazeGrid) (valueFunction : gmap Pos Q) (r c : Z)
  : option (option nat) :=
  snd <$> foldl (bestStep grid valueFunction r c) (Some (None, None))
                [0; 1; 2; 3]%nat.

(** The loop [while (steps < maxSteps)]; [budget] is [maxSteps - steps].
    The result is the state at the exit of the loop. *)
Fixpoint mcExploreLoop (budget : nat) (grid : MazeGrid) (start endp : Pos)
    (valueFunction : gmap Pos Q) (currentRow currentCol : Z)
    (path : list Pos) (visited : gset Pos)
    (metrics : AlgorithmMetrics) (out : list AlgorithmStep)
  : option (MazeGrid * list Pos * AlgorithmMetrics * list AlgorithmStep) :=
  match budget with
  | O => Some (grid, path, metrics, out)
  | S budget =>
    let key := (currentRow, currentCol) in
    if decide (key ∈ visited ∧ key ≠ start) then Some (grid, path, metrics, out)
    else
      let visited := {[key]} ∪ visited in
      let metrics := countVisit metrics in
      if decide (key = endp) then
        Some (grid, path,
              mkMetrics (nodesVisited metrics) (pathLength metrics) true, out)
      else
        grid ← markVisited grid currentRow currentCol;
        let out := out ++ [mkStep (cloneGrid grid) metrics] in
        best ← bestAction grid valueFunction currentRow currentCol;
        match best with
        | None => Some (grid, path, metrics, out)
        | Some a =>
          let currentRow := currentRow + dx a in
          let currentCol := currentCol + dy a in
          mcExploreLoop budget grid start endp valueFunction
                        currentRow currentCol
                        (path ++ [(currentRow, currentCol)])
                        visited metrics out
        end
  end.

(** [runMonteCarloExploration]; of the returned [MonteCarloMetrics] the
    common fields are modelled, the others are the copy of the value
    function and constants. *)
Definition runMonteCarloExploration (initialGrid : MazeGrid)
    (valueFunction : gmap Pos Q) : option Walk :=
  let grid := cloneGrid initialGrid in
  se ← findPositions grid;
  let start := se.1 in
  let endp := se.2 in
  let maxSteps := (length grid * Z.to_nat (cols grid) * 2)%nat in
  s ← mcExploreLoop maxSteps grid start endp valueFunction start.1 start.2
                    [start] ∅ (mkMetrics 0 0 false) [];
  let '(grid, path, metrics, out) := s in
  grid ← markPath grid path;
  let metrics := mkMetrics (nodesVisited metrics) (walkedLength path)
                           (isPathFound metrics) in
  Some (mkWalk (mkRun metrics (out ++ [mkStep (cloneGrid grid) metrics]) grid)
               path).

(** ** [runQLearningExploration] *)

(** One round of the loop over the four actions; the accumulator is
    [(validActions, maxQ, bestActionsList)]. *)
Definition qBestStep (grid : MazeGrid) (qTable : gmap Pos (gmap nat Q))
    (r c : Z) (acc : option (list nat * option Q * list nat)) (a : nat)
  : option (list nat * option Q * list nat) :=
  acc ≫= λ s : list nat * option Q * list nat,
  let nextRow := r + dx a in
  let nextCol := c + dy a in
  if inBounds (rows grid) (cols grid) nextRow nextCol then
    x ← get2 grid nextRow nextCol;
    if isWall x then Some s else
    let validActions := s.1.1 ++ [a] in
    let qVal := qValueAt qTable (r, c) a in
    if exceeds qVal s.1.2 then Some (validActions, Some qVal, [a])
    else if equals qVal s.1.2 then Some (validActions, s.1.2, s.2 ++ [a])
    else Some (validActions, s.1.2, s.2)
  else Some s.

Definition qBest (grid : MazeGrid) (qTable : gmap Pos (gmap nat Q)) (r c : Z)
  : option (list nat * option Q * list nat) :=
  foldl (qBestStep grid qTable r c) (Some ([], None, [])) [0; 1; 2; 3]%nat.

(** The loop [while (steps < maxSteps)]; [k] counts the random draws. *)
Fixpoint qExploreLoop (ω : RandomSource) (budget : nat) (k : nat)
    (grid : MazeGrid) (endp : Pos) (qTable : gmap Pos (gmap nat Q))
    (currentRow currentCol : Z) (path : list Pos)
    (visitedInExploration : gset Pos)
    (metrics : AlgorithmMetrics) (out : list AlgorithmStep)
  : option (MazeGrid * list Pos * AlgorithmMetrics * list AlgorithmStep) :=
  match budget with
  | O => Some (grid, path, metrics, out)
  | S budget =>
    let metrics := countVisit metrics in
    if decide ((currentRow, currentCol) = endp) then
      Some (grid, path,
            mkMetrics (nodesVisited metrics) (pathLength metrics) true, out)
    else
      grid ← markVisited grid currentRow currentCol;
      let out := out ++ [mkStep (cloneGrid grid) metrics] in
      s ← qBest grid qTable currentRow currentCol;
      let validActions := s.1.1 in
      let bestActionsList := s.2 in
      if decide (length validActions = 0%nat) then Some (grid, path, metrics, out)
      else
        let choices :=
          if decide (0 < length bestActionsList)%nat then bestActionsList
          else validActions in
        bestAction ← choices !! randomIndex (ω k) (length choices);
        let currentRow := currentRow + dx bestAction in
        let currentCol := currentCol + dy bestAction in
        let nextStateKey := (currentRow, currentCol) in
        if decide (nextStateKey ∈ visitedInExploration) then
          Some (grid, path, metrics, out)
        else
          qExploreLoop ω budget (S k) grid endp qTable currentRow currentCol
                       (path ++ [nextStateKey])
                       ({[nextStateKey]} ∪ visitedInExploration) metrics out
  end.

Definition runQLearningExploration (ω : RandomSource) (initialGrid : MazeGrid)
    (qTable : gmap Pos (gmap nat Q)) : option Walk :=
  let grid := cloneGrid initialGrid in
  se ← findPositions grid;
  let start := se.1 in
  let endp := se.2 in
  let maxSteps := (length grid * Z.to_nat (cols grid) * 2)%nat in
  s ← qExploreLoop ω maxSteps 0 grid endp qTable start.1 start.2
                   [start] {[start]} (mkMetrics 0 0 false) [];
  let '(grid, path, metrics, out) := s in
  grid ← markPath grid path;
  let metrics := mkMetrics (nodesVisited metrics) (walkedLength path)
                           (isPathFound metrics) in
  Some (mkWalk (mkRun metrics (out ++ [mkStep (cloneGrid grid) metrics]) grid)
               path).

(** *** Specification vocabulary for the greedy walk *)

Definition nbr (p : Pos) (d : nat) : Pos := (p.1 + dx d, p.2 + dy d).

(** Direction [a] leads from [p] to a non-wall neighbour whose learned
    value is the highest among the non-wall neighbours of [p]. *)
Definition greedyAny (g : MazeGrid) (vf : gmap Pos Q) (p : Pos) (a : nat) : Prop :=
  (a < 4)%nat ∧ openAt g (nbr p a)
  ∧ ∀ d, (d < 4)%nat → openAt g (nbr p d) →
      (valueAt vf (nbr p d) <= valueAt vf (nbr p a))%Q.

(** ... and [a] is the first such direction in the order up, right, down,
    left. *)
Definition greedyFirst (g : MazeGrid) (vf : gmap Pos Q) (p : Pos) (a : nat) : Prop :=
  greedyAny g vf p a
  ∧ ∀ d, (d < a)%nat → openAt g (nbr p d) →
      (valueAt vf (nbr p d) < valueAt vf (nbr p a))%Q.

Definition noMove (g : MazeGrid) (p : Pos) : Prop :=
  ∀ d, (d < 4)%nat → ¬ openAt g (nbr p d).

(** The greedy walk as the code performs it.  [mcWalk g vf s e budget seen
    p rest found]: with [budget] rounds left, the cells [seen] behind it
    and standing on [p], the walk goes on through [rest] and ends with
    [isPathFound = found].  The loop guard never fires on the start cell. *)
Inductive mcWalk (g : MazeGrid) (vf : gmap Pos Q) (s e : Pos)
  : nat → list Pos → Pos → list Pos → bool → Prop :=
| mcWalk_budget seen p :
    mcWalk g vf s e 0 seen p [] false
| mcWalk_loop budget seen p :
    p ∈ seen → p ≠ s →
    mcWalk g vf s e (S budget) seen p [] false
| mcWalk_goal budget seen p :
    ¬ (p ∈ seen ∧ p ≠ s) → p = e →
    mcWalk g vf s e (S budget) seen p [] true
| mcWalk_stuck budget seen p :
    ¬ (p ∈ seen ∧ p ≠ s) → p ≠ e → noMove g p →
    mcWalk g vf s e (S budget) seen p [] false
| mcWalk_move budget seen p a rest found :
    ¬ (p ∈ seen ∧ p ≠ s) → p ≠ e → greedyFirst g vf p a →
    mcWalk g vf s e budget (seen ++ [p]) (nbr p a) rest found →
    mcWalk g vf s e (S budget) seen p (nbr p a :: rest) found.

(** The greedy walk as the claim words it: ties are broken by an
    unspecified (random) choice, and the walk stops on any cell it has
    already visited; on the very first step nothing is visited yet, so the
    start cell passes the guard there and only there. *)
Inductive mcWalkClaimed (g : MazeGrid) (vf : gmap Pos Q) (e : Pos)
  : nat → list Pos → Pos → list Pos → bool → Prop :=
| mcClaimed_budget seen p :
    mcWalkClaimed g vf e 0 seen p [] false
| mcClaimed_loop budget seen p :
    p ∈ seen →
    mcWalkClaimed g vf e (S budget) seen p [] false
| mcClaimed_goal budget seen p :
    p ∉ seen → p = e →
    mcWalkClaimed g vf e (S budget) seen p [] true
| mcClaimed_stuck budget seen p :
    p ∉ seen → p ≠ e → noMove g p →
    mcWalkClaimed g vf e (S budget) seen p [] false
| mcClaimed_move budget seen p a rest found :
    p ∉ seen → p ≠ e → greedyAny g vf p a →
    mcWalkClaimed g vf e budget (seen ++ [p]) (nbr p a) rest found →
    mcWalkClaimed g vf e (S budget) seen p (nbr p a :: rest) found.

(** Every cell of [path] that is neither start nor end is marked
    [isPath] in [grid]. *)
Definition pathMarked (grid : MazeGrid) (path : list Pos) : Prop :=
  ∀ p, p ∈ path → ∃ x, get2 grid p.1 p.2 = Some x
    ∧ (isStart x = true ∨ isEnd x = true ∨ isPath x = true).

(** A value function on [ringMaze] that sends the greedy walk back to the
    start cell. *)
Definition backToStart : gmap Pos Q :=
  {[ (0, 1) := 10%Q; (1, 1) := 5%Q ]}.

(** ** [runMonteCarlo]: one training episode *)

Inductive EpisodeOutcome := OutcomeGoal | OutcomeStuck | OutcomeMaxSteps.

(** One round of the loop that collects [validActions] and
    [actionValues]: the in-bounds, non-wall neighbours not yet visited in
    this episode. *)
Definition validStep (grid : MazeGrid) (valueFunction : gmap Pos Q)
    (episodeVisits : gset Pos) (r c : Z)
    (acc : option (list nat * list Q)) (i : nat)
  : option (list nat * list Q) :=
  acc ≫= λ a : list nat * list Q,
  let newRow := r + dx i in
  let newCol := c + dy i in
  if inBounds (rows grid) (cols grid) newRow newCol then
    x ← get2 grid newRow newCol;
    if negb (isWall x) && bool_decide ((newRow, newCol) ∉ episodeVisits)
    then Some (a.1 ++ [i], a.2 ++ [valueAt valueFunction (newRow, newCol)])
    else Some a
  else Some a.

Definition validActionsOf (grid : MazeGrid) (valueFunction : gmap Pos Q)
    (episodeVisits : gset Pos) (r c : Z) : option (list nat * list Q) :=
  foldl (validStep grid valueFunction episodeVisits r c) (Some ([], []))
        [0; 1; 2; 3]%nat.

(** One round of the greedy loop over [actionValues]; the accumulator is
    [(maxValue, maxIndices)]. *)
Definition maxStep (acc : option Q * list nat) (iv : nat * Q)
  : option Q * list nat :=
  if exceeds iv.2 acc.1 then (Some iv.2, [iv.1])
  else if equals iv.2 acc.1 then (acc.1, acc.2 ++ [iv.1])
  else acc.

Definition maxIndicesOf (actionValues : list Q) : list nat :=
  (foldl maxStep (None, []) (imap pair actionValues)).2.

(** The epsilon-greedy choice of [actionIndex]; it draws [ω k] for the
    test against [epsilon] and [ω (S k)] for the index. *)
Definition chooseAction (ω : RandomSource) (k : nat) (epsilon : Q)
    (validActions : list nat) (actionValues : list Q) : option nat :=
  if Qlt_le_dec (ω k) epsilon then
    Some (randomIndex (ω (S k)) (length validActions))
  else
    let maxIndices := maxIndicesOf actionValues in
    maxIndices !! randomIndex (ω (S k)) (length maxIndices).

(** The loop [while (!isEpisodeComplete && steps < maxSteps)]; [budget] is
    [maxSteps - steps] and [k] counts the random draws.  The result is the
    trajectory, the outcome and the draw counter at the exit. *)
Fixpoint episodeLoop (ω : RandomSource) (budget : nat) (k : nat)
    (grid : MazeGrid) (endp : Pos) (valueFunction : gmap Pos Q) (epsilon : Q)
    (currentRow currentCol : Z) (trajectory : list Pos)
    (episodeVisits : gset Pos)
  : option (list Pos * EpisodeOutcome * nat) :=
  match budget with
  | O => Some (trajectory, OutcomeMaxSteps, k)
  | S budget =>
    let key := (currentRow, currentCol) in
    let trajectory := trajectory ++ [key] in
    let episodeVisits := {[key]} ∪ episodeVisits in
    if decide (key = endp) then Some (trajectory, OutcomeGoal, k)
    else
      va ← validActionsOf grid valueFunction episodeVisits currentRow currentCol;
      let validActions := va.1 in
      let actionValues := va.2 in
      if decide (length validActions = 0%nat)
      then Some (trajectory, OutcomeStuck, k)
      else
        actionIndex ← chooseAction ω k epsilon validActions actionValues;
        action ← validActions !! actionIndex;
        episodeLoop ω budget (S (S k)) grid endp valueFunction epsilon
                    (currentRow + dx action) (currentCol + dy action)
                    trajectory episodeVisits
  end.

(** [reward] as the backward loop assigns it at index [i] of a trajectory
    of length [n]. *)
Definition reward (episodeOutcome : EpisodeOutcome) (rewardValue stuckPenalty : Q)
    (n i : nat) : Q :=
  if decide (i = (n - 1)%nat) then
    match episodeOutcome with
    | OutcomeGoal => rewardValue
    | _ => stuckPenalty
    end
  else 0%Q.

(** [!returns[key]]: the entry is missing or is zero. *)
Definition falsy (v : option Q) : bool :=
  match v with
  | None => true
  | Some x => Qeq_bool x 0
  end.

(** One round of the backward loop; the accumulator is [(returns, G)]. *)
Definition returnsStep (episodeOutcome : EpisodeOutcome)
    (rewardValue stuckPenalty discountFactor : Q) (n : nat)
    (acc : gmap Pos Q * Q) (ik : nat * Pos) : gmap Pos Q * Q :=
  let G := (reward episodeOutcome rewardValue stuckPenalty n ik.1
            + discountFactor * acc.2)%Q in
  (if falsy (acc.1 !! ik.2) then <[ik.2 := G]> acc.1 else acc.1, G).

(** [for (let i = trajectory.length - 1; i >= 0; i--)] *)
Definition computeReturns (episodeOutcome : EpisodeOutcome)
    (rewardValue stuckPenalty discountFactor : Q) (trajectory : list Pos)
  : gmap Pos Q :=
  (foldl (returnsStep episodeOutcome rewardValue stuckPenalty discountFactor
                      (length trajectory))
         (∅, 0%Q) (reverse (imap pair trajectory))).1.

(** [discountFactor] to the power [k]. *)
Fixpoint discount (discountFactor : Q) (k : nat) : Q :=
  match k with
  | O => 1%Q
  | S k => (discountFactor * discount discountFactor k)%Q
  end.

(** The reward the claim speaks of for the last cell of a trajectory. *)
Definition terminalReward (episodeOutcome : EpisodeOutcome)
    (rewardValue stuckPenalty : Q) : Q :=
  match episodeOutcome with
  | OutcomeGoal => rewardValue
  | OutcomeStuck => stuckPenalty
  | OutcomeMaxSteps => 0%Q
  end.

(** ** [runMonteCarlo]: the objects it shares

    The value function and its history are JavaScript objects;
    [{ ...metrics }] copies the references to them, not the objects.  The
    heap holds the objects, a location is an index into it. *)

Definition Loc := nat.

Inductive Obj :=
| DictObj (d : gmap Pos Q)
| ArrayObj (a : list Loc)
| RowObj (r : gmap nat Q)
| TableObj (t : gmap Pos Loc)
| GridObj (g : MazeGrid).

Definition Heap := list Obj.

Definition alloc (h : Heap) (o : Obj) : Heap * Loc := (h ++ [o], length h).

Definition readDict (h : Heap) (l : Loc) : option (gmap Pos Q) :=
  match h !! l with
  | Some (DictObj d) => Some d
  | _ => None
  end.

Definition readArray (h : Heap) (l : Loc) : option (list Loc) :=
  match h !! l with
  | Some (ArrayObj a) => Some a
  | _ => None
  end.

(** [obj[key] = v] *)
Definition setKey (h : Heap) (l : Loc) (key : Pos) (v : Q) : option Heap :=
  d ← readDict h l;
  Some (<[l := DictObj (<[key := v]> d)]> h).

(** [arr.push(x)] *)
Definition pushLoc (h : Heap) (l : Loc) (x : Loc) : option Heap :=
  a ← readArray h l;
  Some (<[l := ArrayObj (a ++ [x])]> h).

Record MonteCarloMetrics := mkMcMetrics {
  mcCommon : AlgorithmMetrics;
  mcValueFunction : Loc;
  mcValueFunctionHistory : Loc;
  epsilonUsed : Q;
  discountFactorUsed : Q;
  episodesCompleted : nat;
  totalEpisodes : nat;
  rewardValueUsed : Q;
  stuckPenaltyUsed : Q
}.

Definition setEpisodesCompleted (n : nat) (m : MonteCarloMetrics)
  : MonteCarloMetrics :=
  mkMcMetrics (mcCommon m) (mcValueFunction m) (mcValueFunctionHistory m)
              (epsilonUsed m) (discountFactorUsed m) n (totalEpisodes m)
              (rewardValueUsed m) (stuckPenaltyUsed m).

(** [{ ...metrics }]: a new object with the same fields; the fields that
    are references refer to the same objects as before. *)
Definition spreadMetrics (m : MonteCarloMetrics) : MonteCarloMetrics :=
  mkMcMetrics (mcCommon m) (mcValueFunction m) (mcValueFunctionHistory m)
              (epsilonUsed m) (discountFactorUsed m) (episodesCompleted m)
              (totalEpisodes m) (rewardValueUsed m) (stuckPenaltyUsed m).

Record MonteCarloStep := mkMcStep {
  mcStepGrid : MazeGrid;
  mcStepMetrics : MonteCarloMetrics
}.

(** The state of a training run between episodes.  [mcEmitted] lists the
    steps handed to [onStep], each with the heap as it was at that call. *)
Record McState := mkMcState {
  mcHeap : Heap;
  mcMetrics : MonteCarloMetrics;
  mcVisitCounts : gmap Pos nat;
  mcRand : nat;
  mcEmitted : list (MonteCarloStep * Heap)
}.

(** [saveValueFunctionSnapshot]:
    [metrics.valueFunctionHistory.push({...metrics.valueFunction})] *)
Definition saveValueFunctionSnapshot (m : MonteCarloMetrics) (h : Heap)
  : option Heap :=
  d ← readDict h (mcValueFunction m);
  let hl := alloc h (DictObj d) in
  pushLoc hl.1 (mcValueFunctionHistory m) hl.2.

(** One round of the loop that sets up the value function: the non-wall
    cell [p] gets the value 0. *)
Definition initStep (grid : MazeGrid) (vf : Loc) (acc : option Heap) (p : Pos)
  : option Heap :=
  acc ≫= λ h : Heap,
  x ← get2 grid p.1 p.2;
  if isWall x then Some h else setKey h vf p 0%Q.

(** One round of the first-visit update of the value function; the
    accumulator is the heap, [visitCounts] and [firstVisitUpdates]. *)
Definition updateStep (vf : Loc) (returns : gmap Pos Q)
    (acc : option (Heap * gmap Pos nat * gset Pos)) (key : Pos)
  : option (Heap * gmap Pos nat * gset Pos) :=
  acc ≫= λ a : Heap * gmap Pos nat * gset Pos,
  let h := a.1.1 in
  let visitCounts := a.1.2 in
  let firstVisitUpdates := a.2 in
  if decide (key ∈ firstVisitUpdates) then Some a else
  let firstVisitUpdates := {[key]} ∪ firstVisitUpdates in
  let count := (default 0 (visitCounts !! key) + 1)%nat in
  let visitCounts := <[key := count]> visitCounts in
  readDict h vf ≫= λ d : gmap Pos Q,
  let oldValue := valueAt d key in
  match returns !! key with
  | Some currentReturn =>
    h ← setKey h vf key
          (oldValue + (currentReturn - oldValue) / inject_Z (Z.of_nat count))%Q;
    Some (h, visitCounts, firstVisitUpdates)
  | None => Some (h, visitCounts, firstVisitUpdates)
  end.

(** Whether the history gets a snapshot after episode [episode]. *)
Definition savesSnapshot (episodes episode : nat) : bool :=
  if (episode <? 20)%nat then true
  else if (episodes <=? 100)%nat
       then (episode mod (Nat.max 1 (episodes / 20)) =? 0)%nat
       else (episode mod (Nat.max 1 (episodes / 100)) =? 0)%nat.

(** Whether [onStep] is called after episode [episode]. *)
Definition reportsProgress (episodes episode : nat) : bool :=
  (episode mod (Nat.max 1 (episodes / 10)) =? 0)%nat
  || (episode =? episodes - 1)%nat.

(** The body of the loop [for (episode = 0; episode < episodes; episode++)]. *)
Definition trainEpisode (ω : RandomSource) (initialGrid grid : MazeGrid)
    (start endp : Pos) (episodes : nat)
    (epsilon discountFactor rewardValue stuckPenalty : Q)
    (acc : option McState) (episode : nat) : option McState :=
  acc ≫= λ st : McState,
  let metrics := setEpisodesCompleted (episode + 1) (mcMetrics st) in
  let maxSteps := (length grid * Z.to_nat (cols grid) * 2)%nat in
  readDict (mcHeap st) (mcValueFunction metrics) ≫= λ d : gmap Pos Q,
  episodeLoop ω maxSteps (mcRand st) grid endp d epsilon start.1 start.2 [] ∅
    ≫= λ ep : list Pos * EpisodeOutcome * nat,
  let trajectory := ep.1.1 in
  let returns :=
    computeReturns ep.1.2 rewardValue stuckPenalty discountFactor trajectory in
  foldl (updateStep (mcValueFunction metrics) returns)
        (Some (mcHeap st, mcVisitCounts st, ∅)) trajectory
    ≫= λ up : Heap * gmap Pos nat * gset Pos,
  (if savesSnapshot episodes episode
   then saveValueFunctionSnapshot metrics up.1.1 else Some up.1.1)
    ≫= λ h : Heap,
  let out :=
    if reportsProgress episodes episode
    then mcEmitted st ++ [(mkMcStep (cloneGrid initialGrid) (spreadMetrics metrics), h)]
    else mcEmitted st in
  Some (mkMcState h metrics up.1.2 ep.2 out).

(** [runMonteCarlo]; [executionTime] is not modelled. *)
Definition runMonteCarlo (ω : RandomSource) (initialGrid : MazeGrid)
    (episodes : nat) (epsilon discountFactor rewardValue stuckPenalty : Q)
  : option McState :=
  let grid := cloneGrid initialGrid in
  se ← findPositions grid;
  let start := se.1 in
  let endp := se.2 in
  let hv := alloc [] (DictObj ∅) in
  let hh := alloc hv.1 (ArrayObj []) in
  let metrics :=
    mkMcMetrics (mkMetrics 0 0 false) hv.2 hh.2 epsilon discountFactor 0
                episodes rewardValue stuckPenalty in
  h ← foldl (initStep grid hv.2) (Some hh.1)
            (positions (length grid) (Z.to_nat (cols grid)));
  h ← setKey h hv.2 endp rewardValue;
  h ← saveValueFunctionSnapshot metrics h;
  st ← foldl (trainEpisode ω initialGrid grid start endp episodes epsilon
                           discountFactor rewardValue stuckPenalty)
             (Some (mkMcState h metrics ∅ 0 [])) (seq 0 episodes);
  h ← saveValueFunctionSnapshot (mcMetrics st) (mcHeap st);
  Some (mkMcState h (mcMetrics st) (mcVisitCounts st) (mcRand st)
                  (mcEmitted st)).

(** What the holder of an emitted step reads through its metrics in the
    heap [h]: the value of the cell [key] and the number of entries of the
    history. *)
Definition readThrough (step : MonteCarloStep) (h : Heap) (key : Pos)
  : option (Q * nat) :=
  d ← readDict h (mcValueFunction (mcStepMetrics step));
  a ← readArray h (mcValueFunctionHistory (mcStepMetrics step));
  Some (Qred (valueAt d key), length a).

(** The first step handed to [onStep], read at the time of the call
    ([atEnd = false]) or at the end of the run ([atEnd = true]). *)
Definition firstStepRead (run : option McState) (atEnd : bool) (key : Pos)
  : option (Q * nat) :=
  st ← run;
  sh ← mcEmitted st !! 0%nat;
  readThrough sh.1 (if atEnd then mcHeap st else sh.2) key.

(** Whether the first emitted step refers to the value function object of
    the engine's own metrics. *)
Definition firstStepShares (run : option McState) : option bool :=
  st ← run;
  sh ← mcEmitted st !! 0%nat;
  Some (bool_decide (mcValueFunction (mcStepMetrics sh.1)
                     = mcValueFunction (mcMetrics st))
        && bool_decide (mcValueFunctionHistory (mcStepMetrics sh.1)
                        = mcValueFunctionHistory (mcMetrics st))).

(** ** [runQLearning]

    The Q-table is an object that maps a state key to a row object, and a
    row maps the four actions to numbers; [{ ...qTable }] makes a new table
    object that refers to the same rows.  The caller's grid is an object of
    the caller's heap, known to the engine by its location. *)

Definition readRow (h : Heap) (l : Loc) : option (gmap nat Q) :=
  match h !! l with
  | Some (RowObj r) => Some r
  | _ => None
  end.

Definition readTable (h : Heap) (l : Loc) : option (gmap Pos Loc) :=
  match h !! l with
  | Some (TableObj t) => Some t
  | _ => None
  end.

Definition readGrid (h : Heap) (l : Loc) : option MazeGrid :=
  match h !! l with
  | Some (GridObj g) => Some g
  | _ => None
  end.

(** [{0:0, 1:0, 2:0, 3:0}] *)
Definition zeroRow : gmap nat Q :=
  {[ 0%nat := 0%Q; 1%nat := 0%Q; 2%nat := 0%Q; 3%nat := 0%Q ]}.

(** One round of the loop that sets up the Q-table: the non-wall cell [p]
    gets a row of zeros. *)
Definition qInitStep (grid : MazeGrid) (qt : Loc) (acc : option Heap) (p : Pos)
  : option Heap :=
  acc ≫= λ h : Heap,
  x ← get2 grid p.1 p.2;
  if isWall x then Some h else
  let hr := alloc h (RowObj zeroRow) in
  t ← readTable hr.1 qt;
  Some (<[qt := TableObj (<[p := hr.2]> t)]> hr.1).

(** [qTable[currentStateKey] || {0:0, 1:0, 2:0, 3:0}] *)
Definition rowOf (h : Heap) (table : gmap Pos Loc) (key : Pos)
  : option (gmap nat Q) :=
  match table !! key with
  | Some l => readRow h l
  | None => Some zeroRow
  end.

(** One round of the loop over the four actions in training; the
    accumulator is [(validActions, maxQValue, bestActions)].  A row holds
    all four actions; a missing entry is outside the model. *)
Definition qlActionStep (grid : MazeGrid) (qValues : gmap nat Q) (r c : Z)
    (acc : option (list nat * option Q * list nat)) (a : nat)
  : option (list nat * option Q * list nat) :=
  acc ≫= λ s : list nat * option Q * list nat,
  let nextRow := r + dx a in
  let nextCol := c + dy a in
  if inBounds (rows grid) (cols grid) nextRow nextCol then
    x ← get2 grid nextRow nextCol;
    if isWall x then Some s else
    qValues !! a ≫= λ qVal : Q,
    let validActions := s.1.1 ++ [a] in
    if exceeds qVal s.1.2 then Some (validActions, Some qVal, [a])
    else if equals qVal s.1.2 then Some (validActions, s.1.2, s.2 ++ [a])
    else Some (validActions, s.1.2, s.2)
  else Some s.

(** The loop that collects [nextValidActions]. *)
Definition openStep (grid : MazeGrid) (r c : Z) (acc : option (list nat))
    (a : nat) : option (list nat) :=
  acc ≫= λ l : list nat,
  if inBounds (rows grid) (cols grid) (r + dx a) (c + dy a) then
    x ← get2 grid (r + dx a) (c + dy a);
    if isWall x then Some l else Some (l ++ [a])
  else Some l.

(** [Math.max(...Object.values(row))]; [None] is [-Infinity]. *)
Definition maxOfRow (row : gmap nat Q) : option Q :=
  foldr (λ v acc, match acc with
                  | None => Some v
                  | Some m => Some (if Qlt_le_dec m v then v else m)
                  end)
        None (snd <$> map_to_list row).

(** The loop [while (!isTerminal && steps < maxSteps)] of one training
    episode; [table] is the content of the engine's table object, which
    training does not change: only rows are written. *)
Fixpoint qlEpisodeLoop (ω : RandomSource) (budget : nat) (k : nat)
    (grid : MazeGrid) (endp : Pos) (table : gmap Pos Loc)
    (epsilon discountFactor learningRate rewardValue stuckPenalty : Q)
    (currentRow currentCol : Z) (h : Heap) : option (Heap * nat) :=
  match budget with
  | O => Some (h, k)
  | S budget =>
    qValues ← rowOf h table (currentRow, currentCol);
    s ← foldl (qlActionStep grid qValues currentRow currentCol)
              (Some ([], None, [])) [0; 1; 2; 3]%nat;
    let validActions := s.1.1 in
    let bestActions := s.2 in
    if decide (length validActions = 0%nat) then Some (h, k)
    else
      action ←
        (if Qlt_le_dec (ω k) epsilon
         then validActions !! randomIndex (ω (S k)) (length validActions)
         else bestActions !! randomIndex (ω (S k)) (length bestActions));
      let nextRow := currentRow + dx action in
      let nextCol := currentCol + dy action in
      (if decide ((nextRow, nextCol) = endp) then Some (rewardValue, true)
       else
         nextValidActions ←
           foldl (openStep grid nextRow nextCol) (Some []) [0; 1; 2; 3]%nat;
         if decide (length nextValidActions = 0%nat)
         then Some (stuckPenalty, true) else Some (0%Q, false))
        ≫= λ outcome : Q * bool,
      let reward := outcome.1 in
      let isTerminal := outcome.2 in
      maxNextQValue ←
        (if isTerminal then Some 0%Q else
         match table !! (nextRow, nextCol) with
         | Some l => readRow h l ≫= maxOfRow
         | None => Some 0%Q
         end);
      l ← table !! (currentRow, currentCol);
      row ← readRow h l;
      oldQValue ← row !! action;
      let temporalDifference :=
        (reward + discountFactor * maxNextQValue - oldQValue)%Q in
      let h :=
        <[l := RowObj (<[action := (oldQValue + learningRate * temporalDifference)%Q]> row)]> h in
      if isTerminal then Some (h, S (S k))
      else qlEpisodeLoop ω budget (S (S k)) grid endp table epsilon
                         discountFactor learningRate rewardValue stuckPenalty
                         nextRow nextCol h
  end.

Record QLearningMetrics := mkQlMetrics {
  qlCommon : AlgorithmMetrics;
  qlQTable : Loc;
  qlEpisodesCompleted : nat;
  qlTotalEpisodes : nat
}.

Record QLearningStep := mkQlStep {
  qlStepGrid : Loc;
  qlStepMetrics : QLearningMetrics
}.

(** The state of a Q-learning run between episodes; [qlEmitted] lists the
    steps handed to [onStep], each with the heap as it was at that call. *)
Record QlState := mkQlState {
  qlHeap : Heap;
  qlMetrics : QLearningMetrics;
  qlRand : nat;
  qlEmitted : list (QLearningStep * Heap)
}.

(** Whether [onStep] is called after episode [episode] of [runQLearning]. *)
Definition qlReportsProgress (episodes episode : nat) : bool :=
  (episode mod (Nat.max 1 (episodes / 20)) =? 0)%nat
  || (episode =? episodes - 1)%nat.

(** The body of the training loop of [runQLearning]; [qt] is the engine's
    table object.  The step handed to [onStep] is
    [{ grid: initialGrid, metrics: { ...metrics, qTable: { ...qTable } } }]. *)
Definition trainQEpisode (ω : RandomSource) (initialGrid : Loc)
    (grid : MazeGrid) (start endp : Pos) (qt : Loc) (episodes : nat)
    (epsilon discountFactor learningRate rewardValue stuckPenalty : Q)
    (acc : option QlState) (episode : nat) : option QlState :=
  acc ≫= λ st : QlState,
  let metrics :=
    mkQlMetrics (qlCommon (qlMetrics st)) (qlQTable (qlMetrics st))
                (episode + 1) (qlTotalEpisodes (qlMetrics st)) in
  let maxSteps := (length grid * Z.to_nat (cols grid) * 2)%nat in
  readTable (qlHeap st) qt ≫= λ table : gmap Pos Loc,
  qlEpisodeLoop ω maxSteps (qlRand st) grid endp table epsilon discountFactor
                learningRate rewardValue stuckPenalty start.1 start.2
                (qlHeap st)
    ≫= λ hk : Heap * nat,
  if qlReportsProgress episodes episode then
    readTable hk.1 qt ≫= λ table : gmap Pos Loc,
    let hc := alloc hk.1 (TableObj table) in
    let step :=
      mkQlStep initialGrid
               (mkQlMetrics (qlCommon metrics) hc.2 (qlEpisodesCompleted metrics)
                            (qlTotalEpisodes metrics)) in
    Some (mkQlState hc.1 metrics hk.2 (qlEmitted st ++ [(step, hc.1)]))
  else Some (mkQlState hk.1 metrics hk.2 (qlEmitted st)).

(** [runQLearning]; [h] is the caller's heap and [initialGrid] the location
    of the caller's grid in it.  Of the metrics the table and the episode
    counters are modelled. *)
Definition runQLearning (ω : RandomSource) (h : Heap) (initialGrid : Loc)
    (episodes : nat)
    (epsilon discountFactor learningRate rewardValue stuckPenalty : Q)
  : option QlState :=
  g ← readGrid h initialGrid;
  let grid := cloneGrid g in
  se ← findPositions grid;
  let start := se.1 in
  let endp := se.2 in
  let hq := alloc h (TableObj ∅) in
  h ← foldl (qInitStep grid hq.2) (Some hq.1)
            (positions (length grid) (Z.to_nat (cols grid)));
  let hm := alloc h (TableObj ∅) in
  let metrics := mkQlMetrics (mkMetrics 0 0 false) hm.2 0 episodes in
  st ← foldl (trainQEpisode ω initialGrid grid start endp hq.2 episodes
                            epsilon discountFactor learningRate rewardValue
                            stuckPenalty)
             (Some (mkQlState hm.1 metrics 0 [])) (seq 0 episodes);
  Some (mkQlState (qlHeap st)
                  (mkQlMetrics (qlCommon (qlMetrics st)) hq.2
                               (qlEpisodesCompleted (qlMetrics st))
                               (qlTotalEpisodes (qlMetrics st)))
                  (qlRand st) (qlEmitted st)).

(** The Q-value of action [a] in state [key], read through the metrics of
    an emitted step in the heap [h]. *)
Definition qReadThrough (step : QLearningStep) (h : Heap) (key : Pos) (a : nat)
  : option Q :=
  t ← readTable h (qlQTable (qlStepMetrics step));
  l ← t !! key;
  row ← readRow h l;
  Qred <$> row !! a.

(** The first step handed to [onStep] by [runQLearning], read at the time
    of the call or at the end of the run. *)
Definition firstQStepRead (run : option QlState) (atEnd : bool) (key : Pos)
    (a : nat) : option Q :=
  st ← run;
  sh ← qlEmitted st !! 0%nat;
  qReadThrough sh.1 (if atEnd then qlHeap st else sh.2) key a.

(** The location of the grid carried by the first emitted step. *)
Definition firstQStepGrid (run : option QlState) : option Loc :=
  st ← run;
  sh ← qlEmitted st !! 0%nat;
  Some (qlStepGrid sh.1).

(** Whether the table of the first emitted step is an object of its own
    ([.1]) whose row for [key] is the engine's row object ([.2]). *)
Definition firstQStepTable (run : option QlState) (key : Pos)
  : option (bool * bool) :=
  st ← run;
  sh ← qlEmitted st !! 0%nat;
  t ← readTable (qlHeap st) (qlQTable (qlStepMetrics sh.1));
  t' ← readTable (qlHeap st) (qlQTable (qlMetrics st));
  Some (bool_decide (qlQTable (qlStepMetrics sh.1) ≠ qlQTable (qlMetrics st)),
        bool_decide (is_Some (t !! key) ∧ t !! key = t' !! key)).

(** The random source that repeats the given draws. *)
Definition cycleSource (draws : list Q) : RandomSource :=
  λ k, nth (k mod length draws) draws 0%Q.

(** Draws that lead an always exploring agent on [ringMaze] from the start
    down the left corridor and along the bottom one to the end. *)
Definition leftCorridor : RandomSource :=
  cycleSource [0; 0; 0; 9 # 10; 0; 9 # 10; 0; 9 # 10; 0; 0; 0; 1 # 2]%Q.

(** A random source whose draws are all 0 but the sixteenth, which is
    1/2: on [ringMaze] with [epsilon > 0] every action is an exploring one,
    the first valid action everywhere except at the second visit of (1, 1),
    where it is the second. *)
Definition downSecondTime : RandomSource :=
  λ k, if (k =? 15)%nat then (1 # 2)%Q else 0%Q.

(** A grid of one row without cells. *)
Definition noCells : MazeGrid := [[]].

(** ** The sequence of [onStep] calls of a traversal *)

(** [nodesVisited] as carried by each emitted step, in order. *)
Definition visitCounts (out : list AlgorithmStep) : list nat :=
  (λ st, nodesVisited (stepMetrics st)) <$> out.

(** What a finished loop has emitted, after the steps [out] it started
    with: one step per visited node, numbered consecutively, and a final
    step that is the working grid with the returned metrics. *)
Definition traceFrom (m : AlgorithmMetrics) (out : list AlgorithmStep)
    (run : Run) : Prop :=
  (nodesVisited m ≤ nodesVisited (result run))%nat
  ∧ ∃ tail, emitted run = out ++ tail
      ∧ visitCounts tail
        = seq (S (nodesVisited m)) (nodesVisited (result run) - nodesVisited m)
          ++ [nodesVisited (result run)]
      ∧ last tail = Some (mkStep (working run) (result run)).

(** ** What a traversal leaves untouched and what it marks *)

(** Walls and the two terminals of [g] are in [g'] exactly as they are in
    [g], annotations included. *)
Definition fixedKept (g g' : MazeGrid) : Prop :=
  ∀ r c x, get2 g r c = Some x →
    isWall x = true ∨ isStart x = true ∨ isEnd x = true →
    get2 g' r c = Some x.

(** [isPath] is in [g'] as in [g], except that it is set on the cells of
    [path] that are neither start nor end. *)
Definition pathDrawn (g g' : MazeGrid) (path : list Pos) : Prop :=
  ∀ r c x, get2 g r c = Some x →
    ∃ x', get2 g' r c = Some x'
      ∧ (isPath x' = true ↔
         isPath x = true
         ∨ ((r, c) ∈ path ∧ isStart x = false ∧ isEnd x = false)).

(** What a finished traversal from [start] to a cell satisfying [target]
    has done to the grid: walls and terminals are untouched in the working
    grid and in every emitted snapshot; a run that found a path has drawn
    exactly that path, whose edge count is [pathLength]; a run that found
    none has drawn nothing. *)
Definition markedRun (g : MazeGrid) (start : Pos) (target : Pos → Prop)
    (run : Run) : Prop :=
  fixedKept g (working run)
  ∧ Forall (λ st, fixedKept g (stepGrid st)) (emitted run)
  ∧ if isPathFound (result run)
    then ∃ l q, steps g start l q ∧ target q
           ∧ pathLength (result run) = Z.of_nat (length l)
           ∧ pathDrawn g (working run) (start :: l)
    else pathDrawn g (working run) [].

(** The state of the working grid between two rounds of a traversal loop:
    the maze of [g], walls and terminals untouched, nothing drawn. *)
Definition unmarked (g grid : MazeGrid) : Prop :=
  sameMaze g grid ∧ fixedKept g grid ∧ pathDrawn g grid [].

(** A 3 by 3 grid whose end cell (2, 2) is walled off from the start
    cell (0, 0). *)
Definition blockedMaze : MazeGrid :=
  gridOf [ [2; 0; 1];
           [1; 1; 1];
           [1; 0; 3] ]%nat.

(** ** Scan order *)

(** [p] comes before [q] in the order of the loops
    [for i { for j { .. } }]. *)
Definition scanBefore (p q : Pos) : Prop :=
  p.1 < q.1 ∨ (p.1 = q.1 ∧ p.2 < q.2).

(** ** What the generator never writes *)

(** The coordinates and the annotations of a cell. *)
Definition notesOf (x : Cell) : Z * Z * bool * bool :=
  (row x, col x, isVisited x, isPath x).

(** [g'] has the cells of [g] with the same coordinates and annotations. *)
Definition sameNotes (g g' : MazeGrid) : Prop :=
  ∀ r c, notesOf <$> get2 g' r c = notesOf <$> get2 g r c.

(** A grid with two cells flagged [isStart], at (0, 0) and (1, 0). *)
Definition twoStarts : MazeGrid :=
  gridOf [ [2; 0];
           [2; 3] ]%nat.

(** One row: the start cell, a wall, the end cell. *)
Definition wallBetween : MazeGrid :=
  gridOf [ [2; 1; 3] ]%nat.

(** ** The objects of a Monte Carlo training run *)

(** The heap of [runMonteCarlo]: the value function is its first object
    and the history its second. *)
Definition mcShape (h : Heap) (d : gmap Pos Q) (a : list Loc) : Prop :=
  readDict h 0%nat = Some d ∧ readArray h 1%nat = Some a.

(** The value function holds the number [rv] for the cell [e]. *)
Definition endValued (e : Pos) (rv : Q) (d : gmap Pos Q) : Prop :=
  ∃ v, d !! e = Some v ∧ (v == rv)%Q.

(** Every value of the value function lies between [lo] and [hi]. *)
Definition valuesWithin (lo hi : Q) (d : gmap Pos Q) : Prop :=
  ∀ key v, d !! key = Some v → (lo <= v)%Q ∧ (v <= hi)%Q.

(** Where a run of [runMonteCarlo] on [g] stands after [n] episodes: its
    two objects are in place, the value function has the property [P],
    and the steps handed to [onStep] so far carry the input grid and the
    number of an episode up to [n]. *)
Definition trained (g : MazeGrid) (P : gmap Pos Q → Prop) (episodes n : nat)
    (st : McState) : Prop :=
  mcValueFunction (mcMetrics st) = 0%nat
  ∧ mcValueFunctionHistory (mcMetrics st) = 1%nat
  ∧ (∃ d a, mcShape (mcHeap st) d a ∧ P d)
  ∧ episodesCompleted (mcMetrics st) = n
  ∧ Forall (λ sh : MonteCarloStep * Heap,
              mcStepGrid sh.1 = g
              ∧ (1 ≤ episodesCompleted (mcStepMetrics sh.1) ≤ n)%nat
              ∧ totalEpisodes (mcStepMetrics sh.1)
                = totalEpisodes (mcMetrics st)
              ∧ mcValueFunction (mcStepMetrics sh.1) = 0%nat)
           (mcEmitted st)
  ∧ (∀ m, n = S m → reportsProgress episodes m = true →
       ∃ sh, last (mcEmitted st) = Some sh
         ∧ episodesCompleted (mcStepMetrics sh.1) = n).

(** ** The objects of a Q-learning training run *)

(** A row of the Q-table that holds a number with the property [V] for
    each of the four actions. *)
Definition fullRow (V : Q → Prop) (row : gmap nat Q) : Prop :=
  (∀ a, (a < 4)%nat → is_Some (row !! a)) ∧ ∀ a v, row !! a = Some v → V v.

(** The heap of [runQLearning]: the object at [qt] is the table [table],
    which has a row object, allocated after the table, for the non-wall
    cells of [g] and for no other cell. *)
Definition qlShape (g : MazeGrid) (V : Q → Prop) (qt : Loc) (h : Heap)
    (table : gmap Pos Loc) : Prop :=
  readTable h qt = Some table
  ∧ (∀ p l, table !! p = Some l →
       (qt < l)%nat ∧ openAt g p
       ∧ ∃ row, readRow h l = Some row ∧ fullRow V row)
  ∧ (∀ p, openAt g p → is_Some (table !! p)).

(** Where a run of [runQLearning] stands after [n] episodes; [h0] is the
    caller's heap, whose objects are as they were. *)
Definition qTrained (g : MazeGrid) (V : Q → Prop) (h0 : Heap)
    (initialGrid qt : Loc) (episodes n : nat) (st : QlState) : Prop :=
  (∃ table, qlShape g V qt (qlHeap st) table)
  ∧ (∀ l, (l < length h0)%nat → qlHeap st !! l = h0 !! l)
  ∧ qlEpisodesCompleted (qlMetrics st) = n
  ∧ qlTotalEpisodes (qlMetrics st) = episodes
  ∧ Forall (λ sh : QLearningStep * Heap,
              qlStepGrid sh.1 = initialGrid
              ∧ (1 ≤ qlEpisodesCompleted (qlStepMetrics sh.1) ≤ n)%nat
              ∧ qlTotalEpisodes (qlStepMetrics sh.1) = episodes)
           (qlEmitted st)
  ∧ (∀ m, n = S m → qlReportsProgress episodes m = true →
       ∃ sh, last (qlEmitted st) = Some sh
         ∧ qlEpisodesCompleted (qlStepMetrics sh.1) = n).

(** One row: a wall cell flagged [isStart], an open cell, the end cell. *)
Definition wallStart : MazeGrid :=
  [ [ mkCell 0 0 true true false false false;
      mkCell 0 1 false false false false false;
      mkCell 0 2 false false true false false ] ].

(** ** The component [Maze] *)

(** The grid [runAlgorithm] hands to every engine:
    [maze.map(row => row.map(cell =>
       ({ ...cell, isVisited: false, isPath: false })))]. *)
Definition cleanMaze (maze : MazeGrid) : MazeGrid :=
  map (map (λ cell, mkCell (row cell) (col cell) (isWall cell) (isStart cell)
                           (isEnd cell) false false)) maze.

(** ** The component [App] *)

(** The state of [App]: [rows] and [cols], both 15 at first. *)
Definition AppState := (Z * Z)%type.
Definition appInitial : AppState := (15, 15).

(** [handleRowsChange] and [handleColsChange]; [value] is what [parseInt]
    made of the text of the input field, [None] for [NaN]. *)
Definition handleRowsChange (value : option Z) (st : AppState) : AppState :=
  match value with
  | Some v => if (4 <? v) && (v <=? 30) then (v, st.2) else st
  | None => st
  end.

Definition handleColsChange (value : option Z) (st : AppState) : AppState :=
  match value with
  | Some v => if (4 <? v) && (v <=? 30) then (st.1, v) else st
  | None => st
  end.

Inductive AppEvent :=
| RowsChange (value : option Z)
| ColsChange (value : option Z).

Definition appStep (st : AppState) (ev : AppEvent) : AppState :=
  match ev with
  | RowsChange value => handleRowsChange value st
  | ColsChange value => handleColsChange value st
  end.

(** ** The component [ValueFunctionViz] *)

(** The effect that fills [processedHistory]: the history mapped to
    [{ index, value }] pairs, without the entry of index 0. *)
Definition processHistory (selectedCell : option Pos)
    (valueFunctionHistory : list (gmap Pos Q)) : list (nat * Q) :=
  match selectedCell with
  | None => []
  | Some cellKey =>
    if (length valueFunctionHistory <=? 1)%nat then []
    else filter (λ point, (0 < point.1)%nat)
                (imap (λ index vf, (index, valueAt vf cellKey))
                      valueFunctionHistory)
  end.

(** The view extent the same effect sets:
    [[1, Math.min(21, fullProcessed.length + 1)]]. *)
Definition resetExtent (fullProcessed : list (nat * Q)) : Z * Z :=
  (1, Z.min 21 (Z.of_nat (length fullProcessed) + 1)).

(** [d3.min(allIndices) ?? 1] and [d3.max(allIndices) ?? minIndex]. *)
Definition minIndex (processedHistory : list (nat * Q)) : Z :=
  match processedHistory.*1 with
  | [] => 1
  | i :: l => foldl Z.min (Z.of_nat i) (Z.of_nat <$> l)
  end.

Definition maxIndex (processedHistory : list (nat * Q)) : Z :=
  match processedHistory.*1 with
  | [] => minIndex processedHistory
  | i :: l => foldl Z.max (Z.of_nat i) (Z.of_nat <$> l)
  end.

(** The click handlers of the two arrow buttons and of the button [All],
    on a view extent of whole numbers. *)
Definition panLeft (minIndex : Z) (viewExtent : Z * Z) : Z * Z :=
  let min := viewExtent.1 in
  let max := viewExtent.2 in
  let rangeSize := max - min in
  let step := Z.max 1 (rangeSize / 4) in
  if minIndex <=? min - step then (min - step, max - step)
  else if minIndex <? min then
    let diff := min - minIndex in (minIndex, max - diff)
  else viewExtent.

Definition panRight (maxIndex : Z) (viewExtent : Z * Z) : Z * Z :=
  let min := viewExtent.1 in
  let max := viewExtent.2 in
  let rangeSize := max - min in
  let step := Z.max 1 (rangeSize / 4) in
  if max + step <=? maxIndex then (min + step, max + step)
  else if max <? maxIndex then
    let diff := maxIndex - max in (min + diff, maxIndex)
  else viewExtent.

Inductive Button := PanLeft | PanRight | ShowAll.

Definition press (minIndex maxIndex : Z) (viewExtent : Z * Z) (b : Button)
  : Z * Z :=
  match b with
  | PanLeft => panLeft minIndex viewExtent
  | PanRight => panRight maxIndex viewExtent
  | ShowAll => (minIndex, maxIndex)
  end.

(** ** The parameter fields of [Maze] *)

(** [Math.max] and [Math.min] of two numbers. *)
Definition mathMax (x y : Q) : Q := if Qlt_le_dec x y then y else x.
Definition mathMin (x y : Q) : Q := if Qlt_le_dec x y then x else y.

(** [value || d] for the number [parseFloat] or [parseInt] made of a text:
    [d] when that is [NaN] ([None]) or zero.  The infinities that
    [parseFloat] can return are not modelled. *)
Definition orDefault (value : option Q) (d : Q) : Q :=
  match value with
  | Some v => if Qeq_bool v 0 then d else v
  | None => d
  end.

(** The parameters [Maze] keeps in its state, with their initial values. *)
Record Params := mkParams {
  epsilon : Q;
  discountFactor : Q;
  learningRate : Q;
  monteCarloReward : Q;
  stuckPenalty : Q
}.

Definition paramsInitial : Params :=
  mkParams (1 # 10) (9 # 10) (1 # 10) 100 (-1).

(** The [onChange] handlers of the parameter fields; the two whole-number
    fields go through [parseInt]. *)
Inductive ParamEvent :=
| EpsilonChange (value : option Q)
| DiscountFactorChange (value : option Q)
| LearningRateChange (value : option Q)
| RewardChange (value : option Z)
| StuckPenaltyChange (value : option Z).

Definition paramStep (p : Params) (ev : ParamEvent) : Params :=
  match ev with
  | EpsilonChange value =>
      mkParams (mathMax 0 (mathMin 1 (orDefault value (1 # 10))))
               (discountFactor p) (learningRate p) (monteCarloReward p)
               (stuckPenalty p)
  | DiscountFactorChange value =>
      mkParams (epsilon p)
               (mathMax 0 (mathMin 1 (orDefault value (9 # 10))))
               (learningRate p) (monteCarloReward p) (stuckPenalty p)
  | LearningRateChange value =>
      mkParams (epsilon p) (discountFactor p)
               (mathMax (1 # 100) (mathMin 1 (orDefault value (1 # 10))))
               (monteCarloReward p) (stuckPenalty p)
  | RewardChange value =>
      mkParams (epsilon p) (discountFactor p) (learningRate p)
               (mathMax 0 (orDefault (inject_Z <$> value) 0))
               (stuckPenalty p)
  | StuckPenaltyChange value =>
      mkParams (epsilon p) (discountFactor p) (learningRate p)
               (monteCarloReward p)
               (mathMin 0 (orDefault (inject_Z <$> value) 0))
  end.

(** ** Snapshots of a Monte Carlo training run *)

(** The heap [h] of [runMonteCarlo] has grown from its earlier heap [h0]:
    every object of [h0] other than the value function (location 0) and
    the history array (location 1) is in [h] as it was, and the history of
    [h0] is an initial part of the history of [h]. *)
Definition grewFrom (h0 h : Heap) : Prop :=
  (length h0 ≤ length h)%nat
  ∧ (∀ l, (2 ≤ l < length h0)%nat → h !! l = h0 !! l)
  ∧ ∀ a0, readArray h0 1%nat = Some a0 →
      ∃ a, readArray h 1%nat = Some a ∧ a0 `prefix_of` a.

(** ** The traversal engines on the caller's objects

    [initialGrid] is an object of the caller.  [cloneGrid(initialGrid)]
    makes a new object, [grid]; every [grid[r][c].isVisited = true] and
    [grid[r][c].isPath = true] of an engine is a write to the object that
    [grid] refers to, and every step handed to [onStep] refers to one more
    new object, [cloneGrid(grid)].  The rows and cells of a grid are
    reached through the grid only, and [cloneGrid] copies them all, so a
    grid with its rows and cells is one object of the heap. *)











Section AStarOn.
Context {Q : Type} `{PriorityQueue Q}.


End AStarOn.

(** *** Specification vocabulary *)






(** ** The moves of the exploration walks

    The loops of [runMonteCarloExploration] and [runQLearningExploration]
    with one more variable, [trail], which is not a variable of the code:
    it starts as [[start]] and receives the new [[currentRow, currentCol]]
    each time the loop has executed
    [currentRow += dx[bestAction]; currentCol += dy[bestAction]].  So
    [trail] lists the cells the walk stood on, in order, and the walk has
    made one move per cell after the first. *)





(** ** Two-dimensional arrays *)

Section Array2.
Context {A : Type}.
Implicit Types (m : list (list A)) (r c : Z).

Lemma inBounds_spec R C r c :
  inBounds R C r c = true ↔ 0 ≤ r < R ∧ 0 ≤ c < C.
Proof. unfold inBounds. rewrite !andb_true_iff. lia. Qed.

Lemma get2_Some_inv m r c x :
  get2 m r c = Some x → 0 ≤ r < rows m ∧ 0 ≤ c.
Proof.
  unfold get2, rows. case_decide; [|done].
  destruct (m !! Z.to_nat r) as [line|] eqn:E; [|done].
  apply lookup_lt_Some in E. lia.
Qed.

Lemma get2_Some_lookup m r c x :
  get2 m r c = Some x →
  ∃ line, m !! Z.to_nat r = Some line ∧ line !! Z.to_nat c = Some x
          ∧ 0 ≤ r ∧ 0 ≤ c.
Proof.
  unfold get2. case_decide; [|done].
  destruct (m !! Z.to_nat r) as [line|] eqn:E; [|done]. simpl.
  intros Hx. by exists line.
Qed.

Lemma Rect_lookup m i line :
  Rect m → m !! i = Some line → Z.of_nat (length line) = cols m.
Proof.
  intros HR E. unfold Rect in HR. rewrite Forall_forall in HR.
  apply HR, list_elem_of_lookup. eauto.
Qed.

Lemma get2_is_Some m r c :
  Rect m → is_Some (get2 m r c) ↔ inBounds (rows m) (cols m) r c = true.
Proof.
  intros HR. rewrite inBounds_spec. unfold get2, rows. split.
  - intros [x Hx]. case_decide; [|done].
    destruct (m !! Z.to_nat r) as [line|] eqn:E; [|done]. simpl in Hx.
    pose proof (lookup_lt_Some _ _ _ E).
    pose proof (lookup_lt_Some _ _ _ Hx).
    pose proof (Rect_lookup _ _ _ HR E). lia.
  - intros [Hr Hc]. rewrite decide_True by lia.
    destruct (lookup_lt_is_Some_2 m (Z.to_nat r)) as [line E]; [lia|].
    rewrite E. simpl. apply lookup_lt_is_Some_2.
    pose proof (Rect_lookup _ _ _ HR E). lia.
Qed.

Lemma upd2_is_Some f m r c :
  is_Some (upd2 f m r c) ↔ is_Some (get2 m r c).
Proof.
  unfold upd2, get2. case_decide; [|by split; intros [? ?]].
  destruct (m !! Z.to_nat r) as [line|]; simpl; [|by split; intros [? ?]].
  destruct (line !! Z.to_nat c); simpl; split; intros [? ?]; eauto; done.
Qed.

Lemma upd2_length f m m' r c : upd2 f m r c = Some m' → length m' = length m.
Proof.
  unfold upd2. case_decide; [|done].
  destruct (m !! Z.to_nat r) as [line|]; simpl; [|done].
  destruct (line !! Z.to_nat c); simpl; [|done].
  intros [= <-]. by rewrite length_insert.
Qed.

Lemma upd2_rows f m m' r c : upd2 f m r c = Some m' → rows m' = rows m.
Proof. intros H. unfold rows. by rewrite (upd2_length _ _ _ _ _ H). Qed.

Lemma upd2_cols f m m' r c : upd2 f m r c = Some m' → cols m' = cols m.
Proof.
  unfold upd2. case_decide; [|done].
  destruct (m !! Z.to_nat r) as [line|] eqn:E; simpl; [|done].
  destruct (line !! Z.to_nat c); simpl; [|done].
  intros [= <-]. destruct m as [|l0 m]; [done|].
  destruct (Z.to_nat r); simpl in *; [|done].
  injection E as ->. by rewrite length_insert.
Qed.

Lemma upd2_Rect f m m' r c : Rect m → upd2 f m r c = Some m' → Rect m'.
Proof.
  intros HR H. unfold Rect. rewrite (upd2_cols _ _ _ _ _ H).
  revert H. unfold upd2. case_decide; [|done].
  destruct (m !! Z.to_nat r) as [line|] eqn:E; simpl; [|done].
  destruct (line !! Z.to_nat c); simpl; [|done].
  intros [= <-]. apply Forall_insert; [exact HR|].
  rewrite length_insert. by eapply Rect_lookup.
Qed.

Lemma get2_upd2 f m m' r c r' c' :
  upd2 f m r c = Some m' →
  get2 m' r' c' =
    if decide (r' = r ∧ c' = c) then f <$> get2 m r c else get2 m r' c'.
Proof.
  unfold upd2, get2. case_decide as Hrc; [|done].
  destruct (m !! Z.to_nat r) as [line|] eqn:E; simpl; [|done].
  destruct (line !! Z.to_nat c) as [x|] eqn:Ex; simpl; [|done].
  intros [= <-].
  pose proof (lookup_lt_Some _ _ _ E). pose proof (lookup_lt_Some _ _ _ Ex).
  destruct (decide (r' = r ∧ c' = c)) as [Heq|Heq].
  - destruct Heq as [-> ->]. rewrite decide_True by done.
    rewrite list_lookup_insert_eq by done. simpl.
    by rewrite list_lookup_insert_eq by done.
  - destruct (decide (0 ≤ r' ∧ 0 ≤ c')) as [Hb|Hb]; [|done].
    destruct (decide (Z.to_nat r' = Z.to_nat r)) as [Er|Er].
    + rewrite Er, list_lookup_insert_eq by done. rewrite E. simpl.
      rewrite list_lookup_insert_ne; [done|]. intros Ec. apply Heq. lia.
    + by rewrite list_lookup_insert_ne.
Qed.

Lemma get2_upd2_eq f m m' r c :
  upd2 f m r c = Some m' → get2 m' r c = f <$> get2 m r c.
Proof. intros H. rewrite (get2_upd2 _ _ _ _ _ r c H). by rewrite decide_True. Qed.

Lemma get2_upd2_ne f m m' r c r' c' :
  upd2 f m r c = Some m' → (r', c') ≠ (r, c) → get2 m' r' c' = get2 m r' c'.
Proof.
  intros H Hne. rewrite (get2_upd2 _ _ _ _ _ r' c' H).
  rewrite decide_False; [done|]. intros [-> ->]. done.
Qed.

Lemma upd2_id f m m' r c :
  upd2 f m r c = Some m' → (∀ x, get2 m r c = Some x → f x = x) → m' = m.
Proof.
  unfold upd2, get2. case_decide as Hrc; [|done].
  destruct (m !! Z.to_nat r) as [line|] eqn:E; simpl; [|done].
  destruct (line !! Z.to_nat c) as [x|] eqn:Ex; simpl; [|done].
  intros [= <-] Hf. rewrite (Hf x eq_refl).
  by rewrite (list_insert_id line), (list_insert_id m).
Qed.
End Array2.

Lemma positions_elem R C p :
  p ∈ positions R C ↔ 0 ≤ p.1 < Z.of_nat R ∧ 0 ≤ p.2 < Z.of_nat C.
Proof.
  unfold positions. rewrite list_elem_of_bind. split.
  - intros (i & Hp & Hi). apply list_elem_of_bind in Hp as (j & Hp & Hj).
    apply list_elem_of_singleton in Hp as ->.
    apply elem_of_seq in Hi, Hj. simpl. lia.
  - intros [Hr Hc]. exists (Z.to_nat p.1). split.
    + apply list_elem_of_bind. exists (Z.to_nat p.2). split.
      * apply list_elem_of_singleton. destruct p; simpl in *. f_equal; lia.
      * apply elem_of_seq. lia.
    + apply elem_of_seq. lia.
Qed.

Lemma positions_NoDup R C : NoDup (positions R C).
Proof.
  unfold positions. apply NoDup_bind.
  - intros i j p _ _ Hi Hj.
    apply list_elem_of_bind in Hi as (a & Hi & _).
    apply list_elem_of_bind in Hj as (b & Hj & _).
    apply list_elem_of_singleton in Hi, Hj. subst p. injection Hj. lia.
  - intros i _. apply NoDup_bind.
    + intros a b p _ _ Ha Hb.
      apply list_elem_of_singleton in Ha, Hb. subst p. injection Hb. lia.
    + intros. apply NoDup_singleton.
    + apply NoDup_seq.
  - apply NoDup_seq.
Qed.

Lemma positions_length R C : length (positions R C) = (R * C)%nat.
Proof.
  unfold positions.
  assert (∀ (k : nat) (l : list nat),
    length (l ≫= λ j : nat, [(Z.of_nat k, Z.of_nat j)]) = length l) as Hl.
  { intros k l. induction l as [|? ? IHl]; [done|].
    rewrite bind_cons, length_app, IHl. done. }
  assert (∀ s, length (seq s R ≫= λ i,
            seq 0 C ≫= λ j, [(Z.of_nat i, Z.of_nat j)]) = (R * C)%nat) as Hs;
    [|apply Hs].
  induction R as [|R IH]; intros s; [done|].
  cbn [seq]. rewrite bind_cons, length_app, IH, Hl, length_seq. lia.
Qed.

Lemma cloneGrid_id g : cloneGrid g = g.
Proof.
  unfold cloneGrid. rewrite <- (map_id g) at 2. apply map_ext. intros line.
  rewrite <- (map_id line) at 2. apply map_ext. by intros [].
Qed.

(** ** [findPositions] *)

Section FindPositions.
Variable grid : MazeGrid.

Lemma findStep_foldl l s0 e0 :
  (∀ p, p ∈ l → is_Some (get2 grid p.1 p.2)) →
  ∃ s e, foldl (findStep grid) (Some (s0, e0)) l = Some (s, e)
    ∧ ((s = s0 ∧ ∀ p, p ∈ l → ¬ startAt grid p) ∨ (s ∈ l ∧ startAt grid s))
    ∧ ((e = e0 ∧ ∀ p, p ∈ l → ¬ endAt grid p) ∨ (e ∈ l ∧ endAt grid e)).
Proof.
  revert s0 e0. induction l as [|p l IH]; intros s0 e0 Hin.
  - exists s0, e0. simpl. split; [done|]. split; left; split; try done;
      intros ? H; by apply elem_of_nil in H.
  - destruct (Hin p) as [x Hx]; [left|].
    change (foldl (findStep grid) (Some (s0, e0)) (p :: l))
      with (foldl (findStep grid) (findStep grid (Some (s0, e0)) p) l).
    assert (findStep grid (Some (s0, e0)) p
      = Some (if isStart x then p else s0, if isEnd x then p else e0)) as ->.
    { unfold findStep. simpl. rewrite Hx. done. }
    destruct (IH (if isStart x then p else s0) (if isEnd x then p else e0))
      as (s & e & Hf & Hs & He).
    { intros q Hq. apply Hin. by right. }
    exists s, e. split; [exact Hf|]. split.
    + destruct Hs as [[-> Hno]|[Hs1 Hs2]].
      * destruct (isStart x) eqn:Ex.
        -- right. split; [left|]. by exists x.
        -- left. split; [done|]. intros q Hq [y [Hy1 Hy2]].
           apply elem_of_cons in Hq as [->|Hq].
           ++ congruence.
           ++ apply (Hno q Hq). by exists y.
      * right. split; [by right|done].
    + destruct He as [[-> Hno]|[He1 He2]].
      * destruct (isEnd x) eqn:Ex.
        -- right. split; [left|]. by exists x.
        -- left. split; [done|]. intros q Hq [y [Hy1 Hy2]].
           apply elem_of_cons in Hq as [->|Hq].
           ++ congruence.
           ++ apply (Hno q Hq). by exists y.
      * right. split; [by right|done].
Qed.

Lemma get2_in_positions r c x :
  Rect grid → get2 grid r c = Some x →
  (r, c) ∈ positions (length grid) (Z.to_nat (cols grid)).
Proof.
  intros HR Hx. apply positions_elem. simpl.
  assert (is_Some (get2 grid r c)) as Hs by eauto.
  apply get2_is_Some in Hs; [|done]. apply inBounds_spec in Hs.
  unfold rows in Hs. lia.
Qed.

Lemma findPositions_total :
  Rect grid →
  ∃ s e, findPositions grid = Some (s, e)
    ∧ ((s = (0, 0) ∧ ¬ hasStart grid) ∨ startAt grid s)
    ∧ ((e = (0, 0) ∧ ¬ hasEnd grid) ∨ endAt grid e).
Proof.
  intros HR. unfold findPositions.
  destruct (findStep_foldl (positions (length grid) (Z.to_nat (cols grid)))
              (0, 0) (0, 0)) as (s & e & Hf & Hs & He).
  { intros p Hp. apply positions_elem in Hp. apply get2_is_Some; [done|].
    apply inBounds_spec. unfold rows. lia. }
  exists s, e. split; [done|]. split.
  - destruct Hs as [[-> Hno]|[_ Hs]]; [left|by right]. split; [done|].
    intros (r & c & x & Hx & Hst).
    apply (Hno (r, c)); [by eapply get2_in_positions|]. by exists x.
  - destruct He as [[-> Hno]|[_ He]]; [left|by right]. split; [done|].
    intros (r & c & x & Hx & Hst).
    apply (Hno (r, c)); [by eapply get2_in_positions|]. by exists x.
Qed.
End FindPositions.

(** ** Paths *)

Lemma dx_dy_cases d :
  (dx d, dy d) = (-1, 0) ∨ (dx d, dy d) = (0, 1) ∨ (dx d, dy d) = (1, 0)
  ∨ (dx d, dy d) = (0, -1) ∨ (dx d, dy d) = (0, 0).
Proof. do 4 (destruct d as [|d]; [tauto|]). destruct d; tauto. Qed.

Lemma adjacent_dist p q :
  adjacent p q ↔ Z.abs (q.1 - p.1) + Z.abs (q.2 - p.2) = 1.
Proof.
  destruct p as [r c], q as [r' c']. simpl. split.
  - intros (d & Hd & [= -> ->]). unfold dx, dy.
    do 4 (destruct d as [|d]; [simpl; lia|]). lia.
  - intros H.
    assert ((r' = r - 1 ∧ c' = c) ∨ (r' = r ∧ c' = c + 1)
            ∨ (r' = r + 1 ∧ c' = c) ∨ (r' = r ∧ c' = c - 1))
      as [[-> ->]|[[-> ->]|[[-> ->]|[-> ->]]]] by lia.
    + exists 0%nat. split; [lia|]. unfold dx, dy. simpl. f_equal; lia.
    + exists 1%nat. split; [lia|]. unfold dx, dy. simpl. f_equal; lia.
    + exists 2%nat. split; [lia|]. unfold dx, dy. simpl. f_equal; lia.
    + exists 3%nat. split; [lia|]. unfold dx, dy. simpl. f_equal; lia.
Qed.

Lemma adjacent_sym p q : adjacent p q → adjacent q p.
Proof. rewrite !adjacent_dist. lia. Qed.

Lemma steps_snoc g p l q q' :
  steps g p l q → adjacent q q' → openAt g q' → steps g p (l ++ [q']) q'.
Proof.
  revert p. induction l as [|p' l IH]; simpl; intros p.
  - intros -> Ha Ho. done.
  - intros (Ha & Ho & Hs) Ha' Ho'. split_and!; [done..|]. by apply IH.
Qed.

Lemma steps_app g p l1 q l2 q' :
  steps g p l1 q → steps g q l2 q' → steps g p (l1 ++ l2) q'.
Proof.
  revert p. induction l1 as [|p' l1 IH]; simpl; intros p.
  - by intros ->.
  - intros (Ha & Ho & Hs) H2. split_and!; [done..|]. by apply IH.
Qed.

Lemma steps_last g p l q : steps g p l q → last (p :: l) = Some q.
Proof.
  revert p. induction l as [|p' l IH]; simpl; intros p.
  - by intros ->.
  - intros (_ & _ & Hs). apply IH in Hs. by destruct l.
Qed.

Lemma steps_open g p l q : openAt g p → steps g p l q → openAt g q.
Proof.
  revert p. induction l as [|p' l IH]; simpl; intros p Hp.
  - by intros ->.
  - intros (_ & Ho & Hs). by apply (IH p').
Qed.

Lemma steps_all_open g p l q : steps g p l q → Forall (openAt g) l.
Proof.
  revert p. induction l as [|p' l IH]; simpl; intros p; [constructor|].
  intros (_ & Ho & Hs). constructor; [done|]. by apply (IH p').
Qed.

(** ** Grids that describe the same maze *)

Lemma sameMaze_refl g : Rect g → sameMaze g g.
Proof. intros HR. by split_and!. Qed.

Lemma sameMaze_trans g1 g2 g3 : sameMaze g1 g2 → sameMaze g2 g3 → sameMaze g1 g3.
Proof.
  intros (Hr1 & Hc1 & HR1 & H1) (Hr2 & Hc2 & HR2 & H2).
  split_and!; [congruence..|done|]. intros r c. by rewrite H2, H1.
Qed.

Lemma sameMaze_get2 g g' r c x :
  sameMaze g g' → get2 g r c = Some x →
  ∃ x', get2 g' r c = Some x' ∧ staticOf x' = staticOf x.
Proof.
  intros (_ & _ & _ & H) Hx. specialize (H r c). rewrite Hx in H.
  destruct (get2 g' r c) as [x'|]; [|done]. exists x'. split; [done|].
  simpl in H. congruence.
Qed.

Lemma sameMaze_get2_rev g g' r c x' :
  sameMaze g g' → get2 g' r c = Some x' →
  ∃ x, get2 g r c = Some x ∧ staticOf x' = staticOf x.
Proof.
  intros (_ & _ & _ & H) Hx. specialize (H r c). rewrite Hx in H.
  destruct (get2 g r c) as [x|]; [|done]. exists x. split; [done|].
  simpl in H. congruence.
Qed.

Lemma staticOf_inv x y :
  staticOf x = staticOf y →
  row x = row y ∧ col x = col y ∧ isWall x = isWall y
  ∧ isStart x = isStart y ∧ isEnd x = isEnd y.
Proof. unfold staticOf. intros [= -> -> -> -> ->]. done. Qed.

Lemma upd2_sameMaze f g g' r c :
  Rect g → (∀ x, staticOf (f x) = staticOf x) →
  upd2 f g r c = Some g' → sameMaze g g'.
Proof.
  intros HR Hf H. split_and!.
  - by eapply upd2_rows.
  - by eapply upd2_cols.
  - by eapply upd2_Rect.
  - intros r' c'. rewrite (get2_upd2 _ _ _ _ _ r' c' H).
    case_decide as Heq; [|done]. destruct Heq as [-> ->].
    destruct (get2 g r c); simpl; [|done]. by rewrite Hf.
Qed.

Lemma upd2_annotatedFrom f g g' r c :
  Rect g → (∀ x, staticOf (f x) = staticOf x) →
  (∀ x, get2 g r c = Some x → isWall x = true → isPath (f x) = isPath x) →
  upd2 f g r c = Some g' → annotatedFrom g g'.
Proof.
  intros HR Hf Hp H. split; [by eapply upd2_sameMaze|].
  intros r' c' x x' Hx Hx' Hw.
  rewrite (get2_upd2 _ _ _ _ _ r' c' H) in Hx'.
  case_decide as Heq; [|congruence]. destruct Heq as [-> ->].
  rewrite Hx in Hx'. injection Hx' as <-. by apply Hp.
Qed.

Lemma annotatedFrom_refl g : Rect g → annotatedFrom g g.
Proof.
  intros HR. split; [by apply sameMaze_refl|]. intros; congruence.
Qed.

Lemma annotatedFrom_trans g1 g2 g3 :
  annotatedFrom g1 g2 → annotatedFrom g2 g3 → annotatedFrom g1 g3.
Proof.
  intros [S1 P1] [S2 P2]. split; [by eapply sameMaze_trans|].
  intros r c x x3 Hx Hx3 Hw.
  destruct (sameMaze_get2 _ _ _ _ _ S1 Hx) as (x2 & Hx2 & Hs).
  apply staticOf_inv in Hs as (_ & _ & Hw2 & _).
  rewrite (P2 r c x2 x3), (P1 r c x x2); congruence.
Qed.

Lemma sameMaze_openAt g g' p : sameMaze g g' → openAt g p ↔ openAt g' p.
Proof.
  intros HS. split; intros (x & Hx & Hw).
  - destruct (sameMaze_get2 _ _ _ _ _ HS Hx) as (x' & Hx' & Hs).
    apply staticOf_inv in Hs as (_ & _ & Hw' & _). exists x'.
    split; [done|]. congruence.
  - destruct (sameMaze_get2_rev _ _ _ _ _ HS Hx) as (x' & Hx' & Hs).
    apply staticOf_inv in Hs as (_ & _ & Hw' & _). exists x'.
    split; [done|]. congruence.
Qed.

Lemma markVisited_spec g g' r c :
  Rect g → markVisited g r c = Some g' → annotatedFrom g g'.
Proof.
  intros HR. unfold markVisited.
  destruct (get2 g r c) as [x|]; simpl; [|done].
  destruct (negb (isStart x) && negb (isEnd x)).
  - intros H. eapply upd2_annotatedFrom; [done| | |exact H]; by intros [].
  - intros [= <-]. by apply annotatedFrom_refl.
Qed.

Lemma markVisited_is_Some g r c :
  is_Some (get2 g r c) → is_Some (markVisited g r c).
Proof.
  intros [x Hx]. unfold markVisited. rewrite Hx. simpl.
  destruct (negb (isStart x) && negb (isEnd x)); [|eauto].
  apply upd2_is_Some. eauto.
Qed.

(** Marking a path touches only cells that are neither start nor end; when
    those cells are not walls, [isPath] of wall cells is untouched. *)
Lemma markPath_spec g path :
  Rect g →
  Forall (λ p, ∃ x, get2 g p.1 p.2 = Some x
             ∧ (isStart x = true ∨ isEnd x = true ∨ isWall x = false)) path →
  ∃ g', markPath g path = Some g' ∧ annotatedFrom g g'.
Proof.
  intros HR Hall. unfold markPath.
  assert (∀ g1, annotatedFrom g g1 →
    ∃ g', foldl markPathCell (Some g1) path = Some g' ∧ annotatedFrom g g')
    as Hgen; [|apply Hgen, annotatedFrom_refl, HR].
  induction Hall as [|p path (x & Hx & Hp) _ IH]; intros g1 Hg1.
  - exists g1. done.
  - destruct (sameMaze_get2 _ _ _ _ _ (proj1 Hg1) Hx) as (x1 & Hx1 & Hs).
    apply staticOf_inv in Hs as (_ & _ & Hw & Hst & Hen).
    cbn [foldl]. unfold markPathCell at 2. simpl. rewrite Hx1. simpl.
    destruct (negb (isStart x1) && negb (isEnd x1)) eqn:Eb.
    + destruct (upd2_is_Some (setPath true) g1 p.1 p.2) as [_ Hsome].
      destruct Hsome as [g2 Hg2]; [eauto|]. rewrite Hg2.
      apply IH. eapply annotatedFrom_trans; [exact Hg1|].
      eapply upd2_annotatedFrom; [apply Hg1| | |exact Hg2].
      * by intros [].
      * intros y Hy Hwy. rewrite Hx1 in Hy. injection Hy as <-.
        apply andb_true_iff in Eb as [E1 E2].
        apply negb_true_iff in E1, E2. 
        destruct Hp as [Hp|[Hp|Hp]]; congruence.
    + by apply IH.
Qed.

(** ** The neighbour loop *)

Lemma tryNeighbour_sameMaze g g' r c path acc d :
  sameMaze g g' →
  tryNeighbour g' r c path acc d = tryNeighbour g r c path acc d.
Proof.
  intros (Hr & Hc & _ & H). unfold tryNeighbour.
  destruct acc as [a|]; simpl; [|done]. rewrite Hr, Hc.
  destruct (inBounds _ _ _ _); [|done].
  specialize (H (r + dx d) (c + dy d)).
  destruct (get2 g' _ _) as [x'|], (get2 g _ _) as [x|]; simpl in *; try done.
  assert (staticOf x' = staticOf x) as H' by congruence.
  apply staticOf_inv in H' as (_ & _ & -> & _). done.
Qed.

Lemma expand_sameMaze g g' visited r c path dirs :
  sameMaze g g' →
  expand g' visited r c path dirs = expand g visited r c path dirs.
Proof.
  intros HS. unfold expand. generalize (Some (visited, @nil Entry)).
  induction dirs as [|d dirs IH]; intros acc; [done|].
  simpl. rewrite (tryNeighbour_sameMaze g g'); [|done]. apply IH.
Qed.

Lemma shapeOf_get2 g visited p :
  Rect g → shapeOf g visited →
  is_Some (get2 visited p.1 p.2) ↔ is_Some (get2 g p.1 p.2).
Proof.
  intros HR (HRv & Hr & Hc).
  rewrite !get2_is_Some by done. by rewrite Hr, Hc.
Qed.

Lemma shapeOf_upd2 f g visited visited' r c :
  shapeOf g visited → upd2 f visited r c = Some visited' → shapeOf g visited'.
Proof.
  intros (HRv & Hr & Hc) H. split_and!.
  - by eapply upd2_Rect.
  - by rewrite (upd2_rows _ _ _ _ _ H).
  - by rewrite (upd2_cols _ _ _ _ _ H).
Qed.

Lemma visitedAt_upd2 visited visited' r c p :
  upd2 (λ _, true) visited r c = Some visited' →
  visitedAt visited' p ↔ visitedAt visited p ∨ p = (r, c).
Proof.
  intros H. unfold visitedAt. rewrite (get2_upd2 _ _ _ _ _ p.1 p.2 H).
  destruct (upd2_is_Some (λ _ : bool, true) visited r c) as [[v Hv] _]; [eauto|].
  destruct p as [pr pc]. simpl. case_decide as Heq.
  - destruct Heq as [-> ->]. rewrite Hv. simpl. split; [by right|done].
  - split; [by left|]. intros [?|[= -> ->]]; [done|]. by destruct Heq.
Qed.

Section Expand.
Variable g : MazeGrid.
Hypothesis HR : Rect g.
Variables (r c : Z) (path : list Pos).

(** What one neighbour loop does: the entries it pushes are distinct,
    were unvisited, are open neighbours of [(r, c)] and extend [path];
    [visited] grows by exactly their cells; afterwards every open
    neighbour in a direction of [dirs] is visited. *)
Lemma expand_spec visited dirs :
  shapeOf g visited → Forall (λ d, (d < 4)%nat) dirs →
  ∃ visited' new, expand g visited r c path dirs = Some (visited', new)
    ∧ shapeOf g visited'
    ∧ NoDup (entryPos <$> new)
    ∧ (∀ e, e ∈ new → ¬ visitedAt visited (entryPos e)
              ∧ adjacent (r, c) (entryPos e) ∧ openAt g (entryPos e)
              ∧ entryPath e = path ++ [entryPos e])
    ∧ (∀ p, visitedAt visited' p ↔
              visitedAt visited p ∨ p ∈ entryPos <$> new)
    ∧ (∀ d, d ∈ dirs → openAt g (r + dx d, c + dy d) →
              visitedAt visited' (r + dx d, c + dy d)).
Proof.
  intros Hsh Hd. unfold expand.
  induction dirs as [|d dirs' IH] using rev_ind.
  - exists visited, []. simpl. split_and!; try done.
    + constructor.
    + intros e He. by apply elem_of_nil in He.
    + intros p. split; [by left|]. intros [?|He]; [done|].
      by apply elem_of_nil in He.
    + intros d Hd'. by apply elem_of_nil in Hd'.
  - apply Forall_app in Hd as [Hd Hd1]. rewrite Forall_singleton in Hd1.
    destruct (IH Hd) as (v1 & new1 & Hex & Hsh1 & Hnd & Hnew & Hvis & Hcl).
    rewrite foldl_snoc, Hex. unfold tryNeighbour. simpl.
    set (w := (r + dx d, c + dy d)).
    assert (∀ b, b ∈ dirs' ++ [d] → b ∈ dirs' ∨ b = d) as Hsplit.
    { intros b Hb. apply elem_of_app in Hb as [?|Hb]; [by left|].
      apply list_elem_of_singleton in Hb. by right. }
    destruct (inBounds (rows g) (cols g) (r + dx d) (c + dy d)) eqn:Eb.
    + destruct (proj2 (get2_is_Some g _ _ HR) Eb) as [x Hx]. rewrite Hx. simpl.
      destruct (isWall x) eqn:Ew.
      { exists v1, new1. split_and!; try done.
        intros b Hb Ho. destruct (Hsplit b Hb) as [?| ->]; [by apply Hcl|].
        destruct Ho as (y & Hy & Hwy). simpl in Hy. congruence. }
      destruct (proj2 (shapeOf_get2 g v1 w HR Hsh1)) as [v Hv]; [by eexists|].
      simpl in Hv. rewrite Hv. simpl. destruct v.
      { exists v1, new1. split_and!; try done.
        intros b Hb Ho. destruct (Hsplit b Hb) as [?| ->]; [by apply Hcl|].
        exact Hv. }
      destruct (proj2 (upd2_is_Some (λ _ : bool, true) v1 (r + dx d) (c + dy d)))
        as [v2 Hv2]; [by eexists|].
      rewrite Hv2. simpl. exists v2, (new1 ++ [(r + dx d, c + dy d, path ++ [w])]).
      assert (¬ visitedAt v1 w) as Hnv.
      { unfold visitedAt. simpl. rewrite Hv. done. }
      split_and!.
      * done.
      * by eapply shapeOf_upd2.
      * rewrite fmap_app. apply NoDup_app. split_and!; [done| |apply NoDup_singleton].
        intros p Hp Hp'. apply list_elem_of_singleton in Hp'. 
        change (entryPos (r + dx d, c + dy d, path ++ [w])) with w in Hp'.
        subst p. apply Hnv, Hvis. by right.
      * intros e He. apply elem_of_app in He as [He|He]; [by apply Hnew|].
        apply list_elem_of_singleton in He. subst e.
        change (entryPos (r + dx d, c + dy d, path ++ [w])) with w.
        split_and!.
        -- intros Hv0. apply Hnv, Hvis. by left.
        -- exists d. split; [exact Hd1|reflexivity].
        -- exists x. split; [exact Hx|exact Ew].
        -- done.
      * intros p. rewrite (visitedAt_upd2 _ _ _ _ _ Hv2), Hvis, fmap_app.
        rewrite elem_of_app, list_fmap_singleton, list_elem_of_singleton.
        change (entryPos (r + dx d, c + dy d, path ++ [w])) with w.
        unfold w. tauto.
      * intros b Hb Ho. apply (visitedAt_upd2 _ _ _ _ _ Hv2).
        destruct (Hsplit b Hb) as [?| ->]; [left; by apply Hcl|by right].
    + exists v1, new1. split_and!; try done.
      intros b Hb Ho. destruct (Hsplit b Hb) as [?| ->]; [by apply Hcl|].
      destruct Ho as (y & Hy & _). simpl in Hy.
      assert (is_Some (get2 g (r + dx d) (c + dy d))) as Hs by eauto.
      apply get2_is_Some in Hs; [|done]. congruence.
Qed.
End Expand.

(** ** The worklist invariant *)

Lemma freshVisited_shape g : shapeOf g (freshVisited g).
Proof.
  unfold shapeOf, freshVisited, Rect, rows. split_and!.
  - apply Forall_forall. intros line Hl. apply elem_of_replicate in Hl as [-> Hn].
    destruct (length g); [done|]. done.
  - by rewrite length_replicate.
  - destruct g as [|l0 g]; [done|]. simpl. rewrite length_replicate. lia.
Qed.

Lemma freshVisited_get2 g p : ¬ visitedAt (freshVisited g) p.
Proof.
  unfold visitedAt, freshVisited, get2. case_decide; [|done].
  destruct (replicate _ _ !! _) as [line|] eqn:E; [|done].
  apply lookup_replicate in E as [-> _]. simpl.
  destruct (replicate _ _ !! _) as [b|] eqn:E'; [|done].
  apply lookup_replicate in E' as [-> _]. done.
Qed.

Section Invariant.
Variables (g : MazeGrid) (start : Pos) (goal : Pos → Prop).
Hypothesis HR : Rect g.

Lemma SearchInv_init visited :
  upd2 (λ _, true) (freshVisited g) start.1 start.2 = Some visited →
  SearchInv g start goal visited [(start.1, start.2, [start])] [].
Proof.
  intros Hv.
  assert (entryPos (start.1, start.2, [start]) = start) as Hpos
    by by destruct start.
  split.
  - eapply shapeOf_upd2; [apply freshVisited_shape|exact Hv].
  - intros e He. rewrite app_nil_r in He. apply list_elem_of_singleton in He as ->.
    exists []. rewrite Hpos. done.
  - rewrite app_nil_r. apply NoDup_singleton.
  - intros p. rewrite (visitedAt_upd2 _ _ _ _ _ Hv), app_nil_r.
    rewrite list_fmap_singleton, list_elem_of_singleton, Hpos.
    destruct start. simpl. split; [|by right].
    intros [H|H]; [|done]. by apply freshVisited_get2 in H.
  - intros e w He. by apply elem_of_nil in He.
  - intros e He. by apply elem_of_nil in He.
  - exists (start.1, start.2, [start]). split_and!; [left|done..].
Qed.

Lemma SearchInv_bound visited frontier done :
  SearchInv g start goal visited frontier done →
  (length frontier + length done ≤ length g * Z.to_nat (cols g))%nat.
Proof.
  intros I. rewrite <- length_app, <- (length_fmap entryPos).
  rewrite <- positions_length. apply submseteq_length, NoDup_submseteq.
  - apply I.
  - intros p Hp. apply (si_visited _ _ _ _ _ _ I) in Hp.
    apply positions_elem.
    assert (is_Some (get2 visited p.1 p.2)) as Hs by (by eexists).
    destruct (si_shape _ _ _ _ _ _ I) as (HRv & Hr & Hc).
    apply get2_is_Some in Hs; [|done]. apply inBounds_spec in Hs.
    unfold rows in *. lia.
Qed.

Lemma SearchInv_step visited e rest done dirs visited' new frontier' :
  SearchInv g start goal visited (e :: rest) done →
  ¬ goal (entryPos e) →
  Forall (λ d, (d < 4)%nat) dirs → (∀ d, (d < 4)%nat → d ∈ dirs) →
  expand g visited e.1.1 e.1.2 (entryPath e) dirs = Some (visited', new) →
  frontier' ≡ₚ rest ++ new →
  SearchInv g start goal visited' frontier' (e :: done).
Proof.
  intros I Hng Hd Hall Hex Hperm.
  destruct (expand_spec g HR e.1.1 e.1.2 (entryPath e) visited dirs
              (si_shape _ _ _ _ _ _ I) Hd)
    as (v' & n' & Hex' & Hsh & Hnd & Hnew & Hvis & Hcl).
  rewrite Hex in Hex'. injection Hex' as <- <-.
  assert (frontier' ++ e :: done ≡ₚ ((e :: rest) ++ done) ++ new) as HP.
  { rewrite Hperm, <- Permutation_middle. simpl. constructor.
    rewrite <- !app_assoc. f_equiv. apply Permutation_app_comm. }
  split.
  - done.
  - intros e' He'. rewrite HP in He'. apply elem_of_app in He' as [He'|He'].
    + by apply (si_entries _ _ _ _ _ _ I).
    + destruct (Hnew e' He') as (_ & Hadj & Hop & Hpath).
      destruct (si_entries _ _ _ _ _ _ I e) as (l & Hl & Hs); [left|].
      exists (l ++ [entryPos e']). split; [by rewrite Hpath, Hl|].
      eapply steps_snoc; [done| |done]. by destruct e as [[??]?].
  - rewrite HP, fmap_app. apply NoDup_app. split_and!; [apply I| |done].
    intros p Hp Hp'. apply list_elem_of_fmap in Hp' as (e' & -> & He').
    apply (Hnew e' He'). by apply (si_visited _ _ _ _ _ _ I).
  - intros p. rewrite Hvis, HP, fmap_app, elem_of_app.
    by rewrite (si_visited _ _ _ _ _ _ I).
  - intros e' w He' Hadj Hop. apply elem_of_cons in He' as [->|He'].
    + destruct Hadj as (d & Hd4 & ->).
      destruct e as [[er ec] ep]. apply Hcl; [by apply Hall|done].
    + apply Hvis. left. by eapply (si_closed _ _ _ _ _ _ I).
  - intros e' He'. apply elem_of_cons in He' as [->|He']; [done|].
    by apply (si_goal _ _ _ _ _ _ I).
  - destruct (si_start _ _ _ _ _ _ I) as (e0 & He0 & Hp0).
    exists e0. split; [|done]. rewrite HP. apply elem_of_app. by left.
Qed.

(** Every cell ever put on the frontier is the start cell or a non-wall
    cell. *)
Lemma SearchInv_open visited frontier done e :
  SearchInv g start goal visited frontier done →
  e ∈ frontier ++ done → entryPos e = start ∨ openAt g (entryPos e).
Proof.
  intros I He. destruct (si_entries _ _ _ _ _ _ I e He) as (l & Hl & Hs).
  destruct l as [|p l]; [left; by simpl in Hs|]. right.
  assert (Forall (openAt g) (p :: l)) as Hall by by eapply steps_all_open.
  apply steps_last in Hs.
  rewrite Forall_forall in Hall. apply Hall.
  change (last (start :: p :: l)) with (last (p :: l)) in Hs.
  by apply last_Some_elem_of.
Qed.

(** When the frontier is exhausted, everything reachable was expanded. *)
Lemma SearchInv_exhausted visited done l q :
  SearchInv g start goal visited [] done →
  steps g start l q → q ∈ entryPos <$> done.
Proof.
  intros I.
  assert (∀ p, p ∈ entryPos <$> done → steps g p l q → q ∈ entryPos <$> done)
    as Hgen.
  { induction l as [|p' l IH]; simpl; intros p Hp.
    - by intros ->.
    - intros (Ha & Ho & Hs). apply (IH p'); [|done].
      apply list_elem_of_fmap in Hp as (e & -> & He).
      apply (si_visited _ _ _ _ _ _ I). by eapply (si_closed _ _ _ _ _ _ I). }
  apply Hgen. destruct (si_start _ _ _ _ _ _ I) as (e0 & He0 & <- & _).
  apply list_elem_of_fmap. by exists e0.
Qed.
End Invariant.

(** ** The random source and the shuffle *)

Lemma randomIndex_lt u n :
  (0 <= u)%Q → (u < 1)%Q → (0 < n)%nat → (randomIndex u n < n)%nat.
Proof.
  intros H0 H1 Hn. unfold randomIndex.
  set (x := (u * inject_Z (Z.of_nat n))%Q).
  assert (0 <= x)%Q as Hx0.
  { unfold x. apply Qmult_le_0_compat; [done|].
    change 0%Q with (inject_Z 0). rewrite <- Zle_Qle. lia. }
  assert (x < inject_Z (Z.of_nat n))%Q as Hx1.
  { unfold x. rewrite <- (Qmult_1_l (inject_Z (Z.of_nat n))) at 2.
    apply Qmult_lt_compat_r; [|done].
    change 0%Q with (inject_Z 0). rewrite <- Zlt_Qlt. lia. }
  assert (0 ≤ Qfloor x).
  { change 0 with (Qfloor 0). by apply Qfloor_resp_le. }
  assert (Qfloor x < Z.of_nat n).
  { apply Z.lt_nge. intros Hge. rewrite Zle_Qle in Hge.
    pose proof (Qfloor_le x) as Hfl.
    apply (Qlt_irrefl x). eapply Qlt_le_trans; [exact Hx1|].
    eapply Qle_trans; [exact Hge|exact Hfl]. }
  lia.
Qed.

Lemma swap_length l i j : length (swap l i j) = length l.
Proof. unfold swap. by rewrite !length_insert. Qed.

Lemma swap_Forall (P : nat → Prop) l i j :
  P 0%nat → Forall P l → Forall P (swap l i j).
Proof.
  intros H0 Hl. unfold swap.
  assert (∀ k, P (nth k l 0%nat)) as Hn.
  { intros k. rewrite nth_lookup. destruct (l !! k) as [x|] eqn:E; [|done].
    simpl. rewrite Forall_forall in Hl. apply Hl.
    apply list_elem_of_lookup. eauto. }
  destruct (decide (j < length l)%nat) as [Hj|Hj];
    [|rewrite (list_insert_ge _ j) by (rewrite length_insert; lia)].
  - apply Forall_insert; [|apply Hn].
    destruct (decide (i < length l)%nat);
      [apply Forall_insert; [done|apply Hn]|by rewrite list_insert_ge by lia].
  - destruct (decide (i < length l)%nat);
      [apply Forall_insert; [done|apply Hn]|by rewrite list_insert_ge by lia].
Qed.

Lemma swap_elem4 l i j x :
  length l = 4%nat → (i < 4)%nat → (j < 4)%nat → x ∈ swap l i j ↔ x ∈ l.
Proof.
  intros Hl Hi Hj.
  destruct l as [|a [|b [|c [|d [|? ?]]]]]; try done.
  assert (i = 0 ∨ i = 1 ∨ i = 2 ∨ i = 3)%nat as [->|[->|[->| ->]]] by lia;
  (assert (j = 0 ∨ j = 1 ∨ j = 2 ∨ j = 3)%nat as [->|[->|[->| ->]]] by lia);
  unfold swap; simpl; rewrite !elem_of_cons; tauto.
Qed.

Lemma shuffle_spec ω k :
  let dk := shuffle ω k [0; 1; 2; 3]%nat in
  Forall (λ d, (d < 4)%nat) dk.1
  ∧ (ValidRandom ω → ∀ d, (d < 4)%nat → d ∈ dk.1).
Proof.
  unfold shuffle. simpl length. simpl seq.
  assert (∀ idx acc,
    Forall (λ i, (i < 4)%nat) idx →
    length acc.1 = 4%nat → Forall (λ d, (d < 4)%nat) acc.1 →
    let dk := foldl (shuffleStep ω) acc idx in
    Forall (λ d, (d < 4)%nat) dk.1
    ∧ (ValidRandom ω → ∀ d, d ∈ acc.1 → d ∈ dk.1)) as Hgen.
  { induction idx as [|i idx IH]; intros acc Hidx Hlen Hall; [done|].
    apply Forall_cons in Hidx as [Hi Hidx]. cbn [foldl].
    destruct (IH (shuffleStep ω acc i)) as [IH1 IH2]; [done|..].
    - unfold shuffleStep. simpl. by rewrite swap_length.
    - unfold shuffleStep. simpl. apply swap_Forall; [lia|done].
    - split; [done|]. intros Hv d Hd. apply IH2; [done|].
      unfold shuffleStep. simpl. apply swap_elem4; [done..| |done].
      rewrite Hlen. destruct (Hv acc.2). apply randomIndex_lt; [done..|lia]. }
  destruct (Hgen [0; 1; 2; 3]%nat ([0; 1; 2; 3]%nat, k)) as [H1 H2].
  - repeat constructor.
  - done.
  - simpl. repeat constructor.
  - split; [done|]. intros Hv d Hd. apply H2; [done|]. simpl.
    rewrite !elem_of_cons. lia.
Qed.

(** ** [bfsLoop] and [dfsLoop] as instances of [searchLoop] *)

Lemma bfsLoop_searchLoop fuel k grid visited queue metrics out :
  bfsLoop fuel grid visited queue metrics out
  = searchLoop bfsDirs bfsMerge fuel k grid visited queue metrics out.
Proof.
  revert k grid visited queue metrics out.
  induction fuel as [|fuel IH]; intros k grid visited queue metrics out; [done|].
  simpl. destruct queue as [|[[r c] path] queue]; [done|].
  destruct (markVisited grid r c) as [grid1|]; simpl; [|done].
  destruct (get2 grid1 r c) as [x|]; simpl; [|done].
  destruct (isEnd x); [done|].
  destruct (expand grid1 visited r c path [0; 1; 2; 3]%nat) as [vn|]; simpl; [|done].
  apply IH.
Qed.

Lemma dfsLoop_searchLoop ω fuel k grid visited stack metrics out :
  dfsLoop ω fuel k grid visited stack metrics out
  = searchLoop (dfsDirs ω) dfsMerge fuel k grid visited stack metrics out.
Proof.
  revert k grid visited stack metrics out.
  induction fuel as [|fuel IH]; intros k grid visited stack metrics out; [done|].
  simpl. destruct stack as [|[[r c] path] stack]; [done|].
  destruct (markVisited grid r c) as [grid1|]; simpl; [|done].
  destruct (get2 grid1 r c) as [x|]; simpl; [|done].
  destruct (isEnd x); [done|].
  destruct (expand grid1 visited r c path _) as [vn|]; simpl; [|done].
  apply IH.
Qed.

(** ** The generic search loop *)

Section SearchLoop.
Variables (g : MazeGrid) (start : Pos).
Hypothesis HR : Rect g.
Hypothesis Hstart : ∃ x, get2 g start.1 start.2 = Some x
  ∧ (isStart x = true ∨ isEnd x = true ∨ isWall x = false).

Variable dirsOf : nat → list nat * nat.
Variable merge : list Entry → list Entry → list Entry.
Hypothesis dirs_lt : ∀ k, Forall (λ d, (d < 4)%nat) (dirsOf k).1.
Hypothesis dirs_all : ∀ k d, (d < 4)%nat → d ∈ (dirsOf k).1.
Hypothesis merge_perm : ∀ new rest, merge new rest ≡ₚ rest ++ new.

Variable Extra : list Entry → list Entry → Prop.
Hypothesis Extra_step : ∀ visited e rest done dirs visited' new,
  SearchInv g start (endAt g) visited (e :: rest) done →
  Extra (e :: rest) done →
  Forall (λ d, (d < 4)%nat) dirs →
  expand g visited e.1.1 e.1.2 (entryPath e) dirs = Some (visited', new) →
  Extra (merge new rest) (e :: done).

Lemma searchLoop_spec fuel :
  ∀ k grid visited frontier done out,
  annotatedFrom g grid →
  SearchInv g start (endAt g) visited frontier done →
  Extra frontier done →
  (length g * Z.to_nat (cols g) < fuel + length done)%nat →
  stepsFrom g out →
  ∃ run, searchLoop dirsOf merge fuel k grid visited frontier
           (mkMetrics (length done) 0 false) out = Some run
    ∧ SearchEnd g start Extra run
    ∧ annotatedFrom g (working run)
    ∧ stepsFrom g (emitted run).
Proof.
  induction fuel as [|fuel IH];
    intros k grid visited frontier done out Hgrid I HE Hfuel Hout.
  { pose proof (SearchInv_bound _ _ _ _ _ _ I). lia. }
  cbn [searchLoop]. destruct frontier as [|[[r c] path] rest].
  { eexists. split; [done|]. rewrite cloneGrid_id. split_and!.
    - by eapply SearchExhausted.
    - done.
    - apply Forall_app. split; [done|]. by apply Forall_singleton. }
  set (e := (r, c, path)) in *.
  assert (visitedAt visited (r, c)) as Hvis.
  { apply (si_visited _ _ _ _ _ _ I). apply list_elem_of_fmap.
    exists e. split; [done|]. left. }
  assert (is_Some (get2 g r c)) as [x Hx].
  { apply (shapeOf_get2 g visited (r, c) HR (si_shape _ _ _ _ _ _ I)).
    by eexists. }
  destruct (sameMaze_get2 _ _ _ _ _ (proj1 Hgrid) Hx) as (x0 & Hx0 & _).
  destruct (markVisited_is_Some grid r c) as [grid1 Hg1]; [by eexists|].
  rewrite Hg1. simpl.
  assert (annotatedFrom g grid1) as Hgrid1.
  { eapply annotatedFrom_trans; [exact Hgrid|].
    eapply markVisited_spec; [apply Hgrid|exact Hg1]. }
  destruct (sameMaze_get2 _ _ _ _ _ (proj1 Hgrid1) Hx) as (x1 & Hx1 & Hst1).
  rewrite Hx1. simpl. rewrite !cloneGrid_id.
  apply staticOf_inv in Hst1 as (_ & _ & Hw1 & Hs1 & He1).
  assert (stepsFrom g (out ++ [mkStep grid1 (countVisit (mkMetrics (length done) 0 false))]))
    as Hout1.
  { apply Forall_app. split; [done|]. by apply Forall_singleton. }
  destruct (isEnd x1) eqn:Eend.
  - (* the end cell was taken from the frontier *)
    destruct (si_entries _ _ _ _ _ _ I e) as (l & Hl & Hsteps); [left|].
    simpl in Hl. subst path.
    destruct (markPath_spec grid1 (start :: l)) as (grid2 & Hg2 & Hgrid2).
    { apply Hgrid1. }
    { apply Forall_cons. split.
      - destruct Hstart as (y & Hy & Hy').
        destruct (sameMaze_get2 _ _ _ _ _ (proj1 Hgrid1) Hy) as (y1 & Hy1 & Hsy).
        apply staticOf_inv in Hsy as (_ & _ & ? & ? & ?).
        exists y1. split; [done|]. 
        destruct Hy' as [?|[?|?]]; [left|right; left|right; right]; congruence.
      - apply steps_all_open in Hsteps. eapply Forall_impl; [exact Hsteps|].
        intros p Hp. apply (sameMaze_openAt _ _ _ (proj1 Hgrid1)) in Hp.
        destruct Hp as (y & Hy & Hwy). exists y. split; [done|]. by right; right. }
    rewrite Hg2. simpl. rewrite cloneGrid_id.
    eexists. split; [done|]. split_and!.
    + eapply (SearchFound _ _ _ _ e rest done visited); [done..| |done].
      exists x. split; [done|]. congruence.
    + by eapply annotatedFrom_trans.
    + apply Forall_app. split; [done|]. apply Forall_singleton.
      by eapply annotatedFrom_trans.
  - (* any other cell is expanded *)
    assert (¬ endAt g (entryPos e)) as Hng.
    { intros (y & Hy & Hey). simpl in Hy. congruence. }
    rewrite (expand_sameMaze g grid1) by apply Hgrid1.
    destruct (expand_spec g HR r c path visited (dirsOf k).1
                (si_shape _ _ _ _ _ _ I) (dirs_lt k))
      as (v' & new & Hex & _).
    rewrite Hex. simpl.
    apply (IH (dirsOf k).2 grid1 v' (merge new rest) (e :: done)); try done.
    + eapply SearchInv_step; [done..| |exact Hex|apply merge_perm].
      intros d Hd. by apply dirs_all.
    + eapply Extra_step; [exact I|done|apply dirs_lt|exact Hex].
    + simpl. lia.
Qed.
End SearchLoop.

(** ** Breadth-first order *)

Lemma edges_snoc (path : list Pos) p : edges (path ++ [p]) = edges path + 1.
Proof. unfold edges. rewrite length_app. simpl. lia. Qed.

Lemma BfsLevels_init e : BfsLevels [e] [].
Proof.
  exists (edges (entryPath e)), [e], []. split_and!; try done.
  - intros e' He'. by apply list_elem_of_singleton in He' as ->.
  - intros e' He'. by apply elem_of_nil in He'.
  - intros e' He'. by apply elem_of_nil in He'.
  - intros e' w He'. by apply elem_of_nil in He'.
Qed.

Lemma BfsLevels_head e rest done :
  BfsLevels (e :: rest) done →
  (∀ e', e' ∈ e :: rest →
     edges (entryPath e) ≤ edges (entryPath e') ≤ edges (entryPath e) + 1)
  ∧ (∀ e', e' ∈ done → edges (entryPath e') ≤ edges (entryPath e)).
Proof.
  intros (d & A & B & Hfr & HA & HB & Hdone & _). destruct A as [|a A].
  - simpl in Hfr. subst B. pose proof (HB e (list_elem_of_here _ _)). split.
    + intros e' He'. specialize (HB e' He'). lia.
    + intros e' He'. specialize (Hdone e' He'). lia.
  - simpl in Hfr. injection Hfr as <- ->.
    pose proof (HA e (list_elem_of_here _ _)). split.
    + intros e' He'. apply elem_of_cons in He' as [->|He']; [lia|].
      apply elem_of_app in He' as [He'|He'].
      * specialize (HA e' (list_elem_of_further _ _ _ He')). lia.
      * specialize (HB e' He'). lia.
    + intros e' He'. specialize (Hdone e' He'). lia.
Qed.

Section Bfs.
Variables (g : MazeGrid) (start : Pos) (goal : Pos → Prop).
Hypothesis HR : Rect g.

Lemma BfsLevels_step visited e rest done dirs visited' new :
  SearchInv g start goal visited (e :: rest) done →
  BfsLevels (e :: rest) done →
  Forall (λ d, (d < 4)%nat) dirs →
  expand g visited e.1.1 e.1.2 (entryPath e) dirs = Some (visited', new) →
  BfsLevels (bfsMerge new rest) (e :: done).
Proof.
  intros I HL Hd Hex.
  destruct (expand_spec g HR e.1.1 e.1.2 (entryPath e) visited dirs
              (si_shape _ _ _ _ _ _ I) Hd)
    as (v' & n' & Hex' & _ & _ & Hnew & _).
  rewrite Hex in Hex'. injection Hex' as <- <-.
  assert (∀ e', e' ∈ new → edges (entryPath e') = edges (entryPath e) + 1)
    as Hlen.
  { intros e' He'. destruct (Hnew e' He') as (_ & _ & _ & ->).
    apply edges_snoc. }
  destruct (BfsLevels_head _ _ _ HL) as [Hhead Hdn].
  assert (∀ e', e' ∈ (rest ++ new) ++ e :: done →
            edges (entryPath e') ≤ edges (entryPath e) + 1) as Hall.
  { intros e' He'. rewrite !elem_of_app, elem_of_cons in He'.
    destruct He' as [[He'|He']|[->|He']].
    - apply Hhead. by right.
    - rewrite (Hlen e' He'). lia.
    - lia.
    - specialize (Hdn e' He'). lia. }
  destruct HL as (d & A & B & Hfr & HA & HB & Hdone & Hcl).
  assert (∀ e1 w, e1 ∈ e :: done → adjacent (entryPos e1) w →
    ∀ e', e' ∈ (rest ++ new) ++ e :: done → entryPos e' = w →
    edges (entryPath e') ≤ edges (entryPath e1) + 1) as Hcl'.
  { intros e1 w He1 Hadj e' He' Hw.
    apply elem_of_cons in He1 as [->|He1]; [by apply Hall|].
    rewrite !elem_of_app, elem_of_cons in He'.
    destruct He' as [[He'|He']|[->|He']].
    - apply (Hcl e1 w He1 Hadj); [|done]. apply elem_of_app. left. by right.
    - destruct (Hnew e' He') as (Hnv & _ & Hop & _). destruct Hnv.
      rewrite Hw in *. by eapply (si_closed _ _ _ _ _ _ I).
    - apply (Hcl e1 w He1 Hadj); [|done]. apply elem_of_app. left. left.
    - apply (Hcl e1 w He1 Hadj); [|done]. apply elem_of_app. by right. }
  unfold bfsMerge. destruct A as [|a A].
  - simpl in Hfr. subst B. pose proof (HB e (list_elem_of_here _ _)) as Hde.
    exists (d + 1), rest, new. split_and!; try done.
    + intros e' He'. apply HB. by right.
    + intros e' He'. rewrite (Hlen e' He'). lia.
    + intros e' He'. apply elem_of_cons in He' as [->|He']; [lia|].
      specialize (Hdone e' He'). lia.
  - simpl in Hfr. injection Hfr as <- ->.
    pose proof (HA e (list_elem_of_here _ _)) as Hde.
    exists d, A, (B ++ new). split_and!; try done.
    + by rewrite app_assoc.
    + intros e' He'. apply HA. by right.
    + intros e' He'. apply elem_of_app in He' as [He'|He']; [by apply HB|].
      rewrite (Hlen e' He'). lia.
    + intros e' He'. apply elem_of_cons in He' as [->|He']; [lia|].
      by apply Hdone.
Qed.

(** The path carried by the entry at the head of the queue is no longer
    than any sequence of steps from [start] to a goal cell. *)
Lemma BfsLevels_optimal visited e rest done l q :
  SearchInv g start goal visited (e :: rest) done →
  BfsLevels (e :: rest) done →
  steps g start l q → goal q →
  edges (entryPath e) ≤ Z.of_nat (length l).
Proof.
  intros I HL Hsteps Hgoal.
  destruct (BfsLevels_head _ _ _ HL) as [Hhead Hdn].
  destruct HL as (d & A & B & Hfr & HA & HB & Hdone & Hcl).
  destruct (Z.le_gt_cases (edges (entryPath e)) (Z.of_nat (length l)))
    as [|Hlt]; [done|exfalso].
  assert (∀ l p i, steps g p l q →
    (∃ e', e' ∈ done ∧ entryPos e' = p ∧ edges (entryPath e') ≤ i) →
    i + Z.of_nat (length l) < edges (entryPath e) →
    ∃ e', e' ∈ done ∧ entryPos e' = q) as Hgen.
  { clear l Hsteps Hlt. induction l as [|p' l IH]; simpl; intros p i.
    - intros -> (e' & He' & Hp & _) _. by exists e'.
    - intros (Hadj & Hop & Hs) (e1 & He1 & Hp1 & Hi) Hlt.
      apply (IH p' (i + 1)); [done| |lia].
      subst p.
      pose proof (si_closed _ _ _ _ _ _ I e1 p' He1 Hadj Hop) as Hv.
      apply (si_visited _ _ _ _ _ _ I) in Hv.
      apply list_elem_of_fmap in Hv as (e' & Hpe' & He').
      pose proof (Hcl e1 p' He1 Hadj e' He' (eq_sym Hpe')) as Hle.
      apply elem_of_app in He' as [He'|He'].
      + specialize (Hhead e' He'). lia.
      + exists e'. split_and!; [done..|lia]. }
  destruct (si_start _ _ _ _ _ _ I) as (e0 & He0 & Hp0 & Hpath0).
  assert (edges (entryPath e0) = 0) as Hz by by rewrite Hpath0.
  apply elem_of_app in He0 as [He0|He0].
  { specialize (Hhead e0 He0). lia. }
  destruct (Hgen l start 0 Hsteps) as (e' & He' & Hq).
  - exists e0. split_and!; [done..|lia].
  - lia.
  - apply (si_goal _ _ _ _ _ _ I e' He'). by rewrite Hq.
Qed.
End Bfs.

(** ** A* search *)

(** The list queue is a priority queue. *)
Lemma listPop_None q : listPop q = None → q = [].
Proof.
  destruct q as [|x q]; [done|]. simpl.
  destruct (listPop q) as [[y q']|]; [|done]. by destruct (nodeF x <=? nodeF y).
Qed.

Lemma listPop_Some q x q' :
  listPop q = Some (x, q') →
  q ≡ₚ x :: q' ∧ ∀ y, y ∈ q → nodeF x ≤ nodeF y.
Proof.
  revert x q'. induction q as [|a q IH]; intros x q'; [done|]. simpl.
  destruct (listPop q) as [[y q1]|] eqn:E.
  - destruct (IH y q1 eq_refl) as [HP Hmin].
    destruct (nodeF a <=? nodeF y) eqn:Ele; intros [= <- <-].
    + split; [done|]. intros z Hz. apply elem_of_cons in Hz as [->|Hz]; [lia|].
      specialize (Hmin z Hz). lia.
    + split; [rewrite HP; apply perm_swap|].
      intros z Hz. apply elem_of_cons in Hz as [->|Hz]; [lia|].
      by apply Hmin.
  - apply listPop_None in E as ->. intros [= <- <-]. split; [done|].
    intros z Hz. apply list_elem_of_singleton in Hz as ->. lia.
Qed.

#[export] Instance listQueue : PriorityQueue (list AStarNode) := {
  pqEmpty := [];
  pqPush := cons;
  pqPop := listPop;
  pqItems := id;
  pqEmpty_items := eq_refl;
  pqPush_items := λ x q, reflexivity (x :: q);
  pqPop_None := listPop_None;
  pqPop_Some := listPop_Some
}.

Lemma heuristic_step endp p q : adjacent p q → heuristic endp p ≤ 1 + heuristic endp q.
Proof.
  rewrite adjacent_dist. unfold heuristic, manhattanDistance. lia.
Qed.

(** The Manhattan heuristic is consistent. *)
Lemma heuristic_steps g endp p l q :
  steps g p l q → heuristic endp p ≤ Z.of_nat (length l) + heuristic endp q.
Proof.
  revert p. induction l as [|p' l IH]; simpl; intros p.
  - intros ->. lia.
  - intros (Ha & _ & Hs). specialize (IH p' Hs).
    pose proof (heuristic_step endp p p' Ha). lia.
Qed.

Lemma adjacent_ne p q : adjacent p q → p ≠ q.
Proof. rewrite adjacent_dist. intros H ->. lia. Qed.

Lemma steps_end_open g start l p : steps g start l p → p = start ∨ openAt g p.
Proof.
  intros Hs. destruct l as [|p' l]; [left; by simpl in Hs|]. right.
  assert (Forall (openAt g) (p' :: l)) as Hall by by eapply steps_all_open.
  apply steps_last in Hs. rewrite Forall_forall in Hall. apply Hall.
  change (last (start :: p' :: l)) with (last (p' :: l)) in Hs.
  by apply last_Some_elem_of.
Qed.

Section AStarInvariant.
Variables (g : MazeGrid) (start endp : Pos).
Hypothesis HR : Rect g.

(** The node popped with the least [fScore], if its cell is not closed
    yet, carries a shortest path to its cell, and [gScore] of the cell is
    the length of that path. *)
Lemma astar_pop_optimal items gScore closed n l :
  AStarInv g start endp items gScore closed →
  n ∈ items → (∀ y, y ∈ items → nodeF n ≤ nodeF y) →
  nodePos n ∉ closed → nodePath n = start :: l →
  gScore !! nodePos n = Some (Z.of_nat (length l))
  ∧ ∀ l', steps g start l' (nodePos n) → (length l ≤ length l')%nat.
Proof.
  intros I Hn Hmin Hnc Hpath.
  destruct (ai_nodes _ _ _ _ _ _ I n Hn) as (l0 & Hl0 & Hs & HF & gp & Hgp & Hle).
  rewrite Hpath in Hl0. injection Hl0 as <-.
  assert (∀ p gq, gScore !! p = Some gq → p ∉ closed →
            Z.of_nat (length l) + heuristic endp (nodePos n)
            ≤ gq + heuristic endp p) as Hlow.
  { intros p gq Hp Hpc.
    destruct (ai_open _ _ _ _ _ _ I p gq Hp Hpc) as (n' & Hn' & Hp' & He').
    destruct (ai_nodes _ _ _ _ _ _ I n' Hn') as (l' & Hl' & _ & HF' & _).
    specialize (Hmin n' Hn'). rewrite Hl' in He'. unfold edges in He'.
    simpl in He'. rewrite Hp' in HF'. lia. }
  split.
  - pose proof (Hlow _ _ Hgp Hnc). f_equal. rewrite Hgp. f_equal. lia.
  - intros l' Hs'.
    assert (∀ l1 u i, steps g u l1 (nodePos n) →
      (u ∉ closed ∨ ∃ gu, gScore !! u = Some gu ∧ gu ≤ i) →
      (∃ gu, gScore !! u = Some gu ∧ gu ≤ i) →
      Z.of_nat (length l) ≤ i + Z.of_nat (length l1)) as Hgen.
    { clear l' Hs'. induction l1 as [|u' l1 IH]; intros u i Hsu _ (gu & Hgu & Hi).
      - simpl in Hsu. subst u.
        pose proof (Hlow _ _ Hgu Hnc). simpl. lia.
      - destruct Hsu as (Hadj & Hop & Hsu).
        destruct (decide (u ∈ closed)) as [Hc|Hc].
        + destruct (ai_closed _ _ _ _ _ _ I u Hc) as (_ & _ & gu' & Hgu' & _ & Hcl).
          destruct (Hcl u' Hadj Hop) as (gw & Hgw & Hgwle).
          assert (gu' = gu) as -> by congruence.
          specialize (IH u' (i + 1) Hsu).
          simpl length. rewrite Nat2Z.inj_succ.
          assert (Z.of_nat (length l) ≤ i + 1 + Z.of_nat (length l1)); [|lia].
          apply IH; [right|]; exists gw; split; (done || lia).
        + pose proof (Hlow _ _ Hgu Hc).
          pose proof (heuristic_steps g endp u (u' :: l1) (nodePos n)
                        (conj Hadj (conj Hop Hsu))).
          lia. }
    destruct (ai_start _ _ _ _ _ _ I) as (g0 & Hg0 & Hg0le).
    assert (Z.of_nat (length l) ≤ 0 + Z.of_nat (length l')); [|lia].
    apply (Hgen l' start 0 Hs'); [right|]; by exists g0.
Qed.
End AStarInvariant.

Lemma relaxNeighbour_sameMaze {Q} `{PriorityQueue Q} (g g' : MazeGrid)
    (endp : Pos) (closed : gset Pos) (cur : Pos) (path : list Pos)
    (acc : option (Q * gmap Pos Z)) (d : nat) :
  sameMaze g g' →
  relaxNeighbour g' endp closed cur path acc d
  = relaxNeighbour g endp closed cur path acc d.
Proof.
  intros (Hr & Hc & _ & Hg). unfold relaxNeighbour.
  destruct acc as [a|]; simpl; [|done]. rewrite Hr, Hc.
  destruct (inBounds _ _ _ _); [|done].
  specialize (Hg (cur.1 + dx d) (cur.2 + dy d)).
  destruct (get2 g' _ _) as [x'|], (get2 g _ _) as [x|]; simpl in *; try done.
  assert (staticOf x' = staticOf x) as H' by congruence.
  apply staticOf_inv in H' as (_ & _ & -> & _). done.
Qed.

Lemma relax_sameMaze {Q} `{PriorityQueue Q} (g g' : MazeGrid)
    (endp : Pos) (closed : gset Pos) (cur : Pos) (path : list Pos)
    (q : Q) (gs : gmap Pos Z) :
  sameMaze g g' →
  relax g' endp closed cur path q gs = relax g endp closed cur path q gs.
Proof.
  intros HS. unfold relax. generalize (Some (q, gs)).
  generalize [0; 1; 2; 3]%nat. intros ds.
  induction ds as [|d ds IH]; intros acc; [done|].
  simpl. rewrite (relaxNeighbour_sameMaze g g'); [|done]. apply IH.
Qed.

Section Relax.
Context {Q : Type} `{PriorityQueue Q}.
Variables (g : MazeGrid) (start endp cur : Pos) (lp : list Pos).
Variables (closed : gset Pos) (items0 : list AStarNode) (gs0 : gmap Pos Z).
Hypothesis HR : Rect g.
Hypothesis Hcur : cur ∈ closed.
Hypothesis Hgcur : gs0 !! cur = Some (Z.of_nat (length lp)).
Hypothesis Hsteps : steps g start lp cur.

#[local] Abbreviation gp := (Z.of_nat (length lp)).
#[local] Abbreviation Inv := (RelaxInv g start endp cur gp closed items0 gs0).

Lemma RelaxInv_skip ds d items gs :
  Inv ds items gs →
  (openAt g (cur.1 + dx d, cur.2 + dy d) →
   (cur.1 + dx d, cur.2 + dy d) ∉ closed →
   ∃ gw, gs !! (cur.1 + dx d, cur.2 + dy d) = Some gw ∧ gw ≤ gp + 1) →
  Inv (ds ++ [d]) items gs.
Proof.
  intros I Hd. split; try apply I.
  - rewrite length_app. pose proof (ri_length _ _ _ _ _ _ _ _ _ _ _ I).
    simpl. lia.
  - intros d' Hd'. apply elem_of_app in Hd' as [Hd'|Hd'].
    + by apply I.
    + apply list_elem_of_singleton in Hd' as ->. exact Hd.
Qed.

Lemma RelaxInv_push ds d items gs items' :
  let w := (cur.1 + dx d, cur.2 + dy d) in
  Inv ds items gs →
  (d < 4)%nat → openAt g w → w ∉ closed →
  (∀ gn, gs !! w = Some gn → gp + 1 < gn) →
  items' ≡ₚ (w.1, w.2, (start :: lp) ++ [w], gp + 1 + heuristic endp w) :: items →
  Inv (ds ++ [d]) items' (<[w := gp + 1]> gs).
Proof.
  intros w I Hd Hop Hwc Hbetter Hperm.
  set (nw := (w.1, w.2, (start :: lp) ++ [w], gp + 1 + heuristic endp w)) in *.
  assert (nodePos nw = w) as Hposw by done.
  split.
  - intros n Hn. rewrite Hperm in Hn. apply elem_of_cons in Hn as [->|Hn].
    + exists (lp ++ [w]). rewrite Hposw. split_and!.
      * done.
      * eapply steps_snoc; [done| |done]. exists d. split; [done|]. done.
      * unfold nodeF, nw. simpl. rewrite length_app. simpl. lia.
      * exists (gp + 1). rewrite lookup_insert_eq. split; [done|].
        rewrite length_app. simpl. lia.
    + destruct (ri_nodes _ _ _ _ _ _ _ _ _ _ _ I n Hn)
        as (l & Hl & Hs & HF & gn & Hgn & Hle).
      exists l. split_and!; [done..|].
      destruct (decide (nodePos n = w)) as [Hw|Hw].
      * rewrite Hw in *. exists (gp + 1). rewrite lookup_insert_eq.
        split; [done|]. specialize (Hbetter gn Hgn). lia.
      * exists gn. by rewrite lookup_insert_ne.
  - intros p gq Hp Hpc. destruct (decide (p = w)) as [->|Hw].
    + rewrite lookup_insert_eq in Hp. injection Hp as <-.
      exists nw. split_and!.
      * rewrite Hperm. left.
      * done.
      * unfold nw, nodePath, edges. simpl. rewrite length_app. simpl. lia.
    + rewrite lookup_insert_ne in Hp by done.
      destruct (ri_open _ _ _ _ _ _ _ _ _ _ _ I p gq Hp Hpc) as (n & Hn & Hpn & Hen).
      exists n. split_and!; [|done..]. rewrite Hperm. by right.
  - intros p Hp. rewrite lookup_insert_ne; [by apply I|]. by intros ->.
  - intros p g0 Hp.
    destruct (ri_mono _ _ _ _ _ _ _ _ _ _ _ I p g0 Hp) as (g1 & Hg1 & Hle).
    destruct (decide (p = w)) as [->|Hw].
    + exists (gp + 1). rewrite lookup_insert_eq. split; [done|].
      specialize (Hbetter g1 Hg1). lia.
    + exists g1. by rewrite lookup_insert_ne.
  - rewrite Hperm, length_app. simpl.
    pose proof (ri_length _ _ _ _ _ _ _ _ _ _ _ I). lia.
  - intros d' Hd' Hop' Hc'. apply elem_of_app in Hd' as [Hd'|Hd'].
    + destruct (ri_dirs _ _ _ _ _ _ _ _ _ _ _ I d' Hd' Hop' Hc') as (gw & Hgw & Hle).
      destruct (decide ((cur.1 + dx d', cur.2 + dy d') = w)) as [Hw|Hw].
      * rewrite Hw. exists (gp + 1). rewrite lookup_insert_eq. split; [done|lia].
      * exists gw. by rewrite lookup_insert_ne.
    + apply list_elem_of_singleton in Hd' as ->.
      exists (gp + 1). fold w. rewrite lookup_insert_eq. split; [done|lia].
Qed.

Lemma relax_fold (q0 : Q) ds :
  pqItems q0 = items0 →
  Inv [] items0 gs0 →
  Forall (λ d, (d < 4)%nat) ds →
  ∃ q gs, foldl (relaxNeighbour g endp closed cur (start :: lp))
                (Some (q0, gs0)) ds = Some (q, gs)
    ∧ Inv ds (pqItems q) gs.
Proof.
  intros Hq0 I0 Hds. induction ds as [|d ds IH] using rev_ind.
  - exists q0, gs0. split; [done|]. by rewrite Hq0.
  - apply Forall_app in Hds as [Hds Hd]. rewrite Forall_singleton in Hd.
    destruct (IH Hds) as (q1 & gs1 & Hf & I1).
    rewrite foldl_snoc, Hf. unfold relaxNeighbour. simpl.
    set (w := (cur.1 + dx d, cur.2 + dy d)).
    destruct (inBounds (rows g) (cols g) (cur.1 + dx d) (cur.2 + dy d)) eqn:Eb.
    2:{ exists q1, gs1. split; [done|]. apply RelaxInv_skip; [done|].
        intros (y & Hy & _) _. simpl in Hy.
        assert (is_Some (get2 g (cur.1 + dx d) (cur.2 + dy d))) as Hs by eauto.
        apply get2_is_Some in Hs; [|done]. congruence. }
    destruct (proj2 (get2_is_Some g _ _ HR) Eb) as [x Hx]. rewrite Hx. simpl.
    destruct (isWall x) eqn:Ew.
    { exists q1, gs1. split; [done|]. apply RelaxInv_skip; [done|].
      intros (y & Hy & Hwy) _. simpl in Hy. congruence. }
    destruct (decide (w ∈ closed)) as [Hwc|Hwc].
    { exists q1, gs1. split; [done|]. by apply RelaxInv_skip. }
    rewrite (ri_closed _ _ _ _ _ _ _ _ _ _ _ I1 cur Hcur), Hgcur.
    assert (openAt g w) as Hop by (by exists x).
    destruct (gs1 !! w) as [gn|] eqn:Egn.
    + destruct (Z.ltb_spec (gp + 1) gn) as [Hlt|Hge].
      * eexists _, _. split; [done|].
        apply RelaxInv_push with (items := pqItems q1); try done.
        -- intros gn' Hgn'. fold w in Hgn'.
           assert (gn' = gn) as -> by congruence. done.
        -- apply pqPush_items.
      * exists q1, gs1. split; [done|]. apply RelaxInv_skip; [done|].
        intros _ _. exists gn. split; [done|lia].
    + eexists _, _. split; [done|].
      apply RelaxInv_push with (items := pqItems q1); try done.
      * intros gn' Hgn'. fold w in Hgn'. congruence.
      * apply pqPush_items.
Qed.
End Relax.

Lemma inBounds_set_size (g : MazeGrid) (X : gset Pos) :
  Rect g → (∀ p, p ∈ X → is_Some (get2 g p.1 p.2)) →
  (size X ≤ length g * Z.to_nat (cols g))%nat.
Proof.
  intros HR HX. rewrite <- positions_length.
  rewrite <- (size_list_to_set (C := gset Pos) (positions _ _))
    by apply positions_NoDup.
  apply subseteq_size. intros p Hp. apply elem_of_list_to_set, positions_elem.
  apply HX, get2_is_Some in Hp; [|done]. apply inBounds_spec in Hp.
  unfold rows in Hp. lia.
Qed.

Section AStarLoop.
Context {Q : Type} `{PriorityQueue Q}.
Variables (g : MazeGrid) (start endp : Pos).
Hypothesis HR : Rect g.
Hypothesis Hstart : ∃ x, get2 g start.1 start.2 = Some x
  ∧ (isStart x = true ∨ isEnd x = true ∨ isWall x = false).

Lemma AStarInv_pop_closed (q q1 : Q) n gs closed :
  AStarInv g start endp (pqItems q) gs closed →
  pqItems q ≡ₚ n :: pqItems q1 → nodePos n ∈ closed →
  AStarInv g start endp (pqItems q1) gs closed.
Proof.
  intros I HP Hc. split; try apply I.
  - intros n' Hn'. apply (ai_nodes _ _ _ _ _ _ I). rewrite HP. by right.
  - intros p gp Hp Hpc.
    destruct (ai_open _ _ _ _ _ _ I p gp Hp Hpc) as (n' & Hn' & Hpn & Hen).
    exists n'. split_and!; [|done..]. rewrite HP in Hn'.
    apply elem_of_cons in Hn' as [->|Hn']; [|done]. by rewrite Hpn in Hc.
Qed.

Lemma AStarInv_expand (q q1 : Q) n lp gs closed :
  AStarInv g start endp (pqItems q) gs closed →
  pqItems q ≡ₚ n :: pqItems q1 →
  (∀ y, y ∈ pqItems q → nodeF n ≤ nodeF y) →
  nodePos n ∉ closed → nodePos n ≠ endp → nodePath n = start :: lp →
  ∃ q2 gs2,
    relax g endp ({[nodePos n]} ∪ closed) (nodePos n) (start :: lp) q1 gs
      = Some (q2, gs2)
    ∧ AStarInv g start endp (pqItems q2) gs2 ({[nodePos n]} ∪ closed)
    ∧ (length (pqItems q2) ≤ length (pqItems q1) + 4)%nat.
Proof.
  intros I HP Hmin Hnc Hne Hpath. set (cur := nodePos n) in *.
  assert (n ∈ pqItems q) as Hn by (rewrite HP; left).
  destruct (astar_pop_optimal g start endp _ _ _ n lp I Hn Hmin Hnc Hpath)
    as [Hgcur Hopt].
  destruct (ai_nodes _ _ _ _ _ _ I n Hn) as (l0 & Hl0 & Hsteps & _).
  rewrite Hpath in Hl0. injection Hl0 as <-. fold cur in Hsteps, Hgcur.
  destruct (relax_fold g start endp cur lp ({[cur]} ∪ closed) (pqItems q1) gs
              HR ltac:(set_solver) Hgcur Hsteps q1 [0; 1; 2; 3]%nat eq_refl)
    as (q2 & gs2 & Hrel & I2).
  { split; try done.
    - intros n' Hn'. apply (ai_nodes _ _ _ _ _ _ I). rewrite HP. by right.
    - intros p gq Hp Hpc.
      destruct (ai_open _ _ _ _ _ _ I p gq Hp) as (n' & Hn' & Hpn & Hen);
        [set_solver|].
      exists n'. split_and!; [|done..]. rewrite HP in Hn'.
      apply elem_of_cons in Hn' as [->|Hn']; [|done]. set_solver.
    - intros p g0 Hp. exists g0. split; [done|lia].
    - simpl. lia.
    - intros d Hd. by apply elem_of_nil in Hd. }
  { repeat constructor. }
  exists q2, gs2. split; [exact Hrel|]. split.
  2:{ pose proof (ri_length _ _ _ _ _ _ _ _ _ _ _ I2). simpl in *. lia. }
  split.
  - apply I2.
  - apply I2.
  - intros p Hp. apply elem_of_union in Hp as [Hp|Hp].
    + apply elem_of_singleton in Hp as ->. split_and!.
      * done.
      * by eapply steps_end_open.
      * exists (Z.of_nat (length lp)). split_and!.
        -- rewrite (ri_closed _ _ _ _ _ _ _ _ _ _ _ I2); [done|set_solver].
        -- intros l' Hl'. specialize (Hopt l' Hl'). lia.
        -- intros w Hadj Hop. destruct (decide (w ∈ {[cur]} ∪ closed)) as [Hw|Hw].
           ++ apply elem_of_union in Hw as [Hw|Hw].
              { apply elem_of_singleton in Hw. subst w.
                by apply adjacent_ne in Hadj. }
              destruct (ai_closed _ _ _ _ _ _ I w Hw)
                as (_ & _ & gw & Hgw & Hwopt & _).
              exists gw.
              rewrite (ri_closed _ _ _ _ _ _ _ _ _ _ _ I2); [|set_solver].
              split; [done|].
              specialize (Hwopt (lp ++ [w])
                (steps_snoc _ _ _ _ _ Hsteps Hadj Hop)).
              rewrite length_app in Hwopt. simpl in Hwopt. lia.
           ++ destruct Hadj as (d & Hd & ->).
              apply (ri_dirs _ _ _ _ _ _ _ _ _ _ _ I2 d); [|done..].
              rewrite !elem_of_cons. lia.
    + destruct (ai_closed _ _ _ _ _ _ I p Hp)
        as (Hpe & Hpo & gq & Hgq & Hqopt & Hqcl).
      split_and!; [done..|]. exists gq. split_and!.
      * rewrite (ri_closed _ _ _ _ _ _ _ _ _ _ _ I2); [done|set_solver].
      * done.
      * intros w Hadj Hop. destruct (Hqcl w Hadj Hop) as (gw & Hgw & Hle).
        destruct (ri_mono _ _ _ _ _ _ _ _ _ _ _ I2 w gw Hgw) as (g1 & Hg1 & Hle1).
        exists g1. split; [done|lia].
  - destruct (ai_start _ _ _ _ _ _ I) as (g0 & Hg0 & Hle).
    destruct (ri_mono _ _ _ _ _ _ _ _ _ _ _ I2 start g0 Hg0) as (g1 & Hg1 & Hle1).
    exists g1. split; [done|lia].
Qed.

(** When the open set is exhausted, every reachable cell is closed. *)
Lemma AStarInv_exhausted gs closed l q :
  AStarInv g start endp [] gs closed → steps g start l q → q ∈ closed.
Proof.
  intros I.
  assert (∀ p, is_Some (gs !! p) → p ∈ closed) as Hall.
  { intros p [gp Hp]. destruct (decide (p ∈ closed)) as [|Hc]; [done|].
    destruct (ai_open _ _ _ _ _ _ I p gp Hp Hc) as (n & Hn & _).
    by apply elem_of_nil in Hn. }
  assert (∀ p, p ∈ closed → steps g p l q → q ∈ closed) as Hgen.
  { induction l as [|p' l IH]; simpl; intros p Hp.
    - by intros ->.
    - intros (Ha & Ho & Hs). apply (IH p'); [|done].
      destruct (ai_closed _ _ _ _ _ _ I p Hp) as (_ & _ & gp & _ & _ & Hcl).
      destruct (Hcl p' Ha Ho) as (gw & Hgw & _). apply Hall. by eexists. }
  apply Hgen. destruct (ai_start _ _ _ _ _ _ I) as (g0 & Hg0 & _).
  apply Hall. by eexists.
Qed.

Lemma AStarInv_seen items gs closed p :
  AStarInv g start endp items gs closed → p ∈ closed →
  (p = start ∨ openAt g p) ∧ is_Some (get2 g p.1 p.2).
Proof.
  intros I Hp. destruct (ai_closed _ _ _ _ _ _ I p Hp) as (_ & Hpo & _).
  split; [done|]. destruct Hpo as [->|(x & Hx & _)]; [|by eexists].
  destruct Hstart as (x & Hx & _). by eexists.
Qed.
End AStarLoop.

Section AStarRun.
Context {Q : Type} `{PriorityQueue Q}.
Variables (g : MazeGrid) (start endp : Pos).
Hypothesis HR : Rect g.
Hypothesis Hstart : ∃ x, get2 g start.1 start.2 = Some x
  ∧ (isStart x = true ∨ isEnd x = true ∨ isWall x = false).

Lemma astarLoop_spec fuel :
  ∀ grid (q : Q) gs closed out,
  annotatedFrom g grid →
  AStarInv g start endp (pqItems q) gs closed →
  (4 * (length g * Z.to_nat (cols g) - size closed) + length (pqItems q)
     < fuel)%nat →
  stepsFrom g out →
  ∃ run, astarLoop fuel grid endp q gs closed
           (mkMetrics (size closed) 0 false) out = Some run
    ∧ AStarEnd g start endp run
    ∧ annotatedFrom g (working run)
    ∧ stepsFrom g (emitted run).
Proof.
  induction fuel as [|fuel IH]; intros grid q gs closed out Hgrid I Hfuel Hout;
    [lia|].
  cbn [astarLoop]. destruct (pqPop q) as [[n q1]|] eqn:Epop.
  2:{ apply pqPop_None in Epop. rewrite Epop in I.
      eexists. split; [done|]. rewrite cloneGrid_id. split_and!.
      - eapply (AStarExhausted _ _ _ _ closed); [| |done].
        + intros l Hl.
          pose proof (AStarInv_exhausted g start endp gs closed l endp I Hl) as Hc.
          by destruct (ai_closed _ _ _ _ _ _ I endp Hc).
        + intros p Hp. by eapply AStarInv_seen.
      - done.
      - apply Forall_app. split; [done|]. by apply Forall_singleton. }
  apply pqPop_Some in Epop as [HP Hmin].
  assert (length (pqItems q) = S (length (pqItems q1))) as Hlen by by rewrite HP.
  destruct (decide (nodePos n ∈ closed)) as [Hc|Hc].
  { apply IH; try done.
    - by eapply AStarInv_pop_closed.
    - lia. }
  assert (n ∈ pqItems q) as Hn by (rewrite HP; left).
  destruct (ai_nodes _ _ _ _ _ _ I n Hn) as (lp & Hpath & Hsteps & _).
  assert (nodePos n = start ∨ openAt g (nodePos n)) as Hpo
    by by eapply steps_end_open.
  assert (is_Some (get2 g (nodePos n).1 (nodePos n).2)) as [x Hx].
  { destruct Hpo as [->|(x & Hx & _)]; [|by eexists].
    destruct Hstart as (x & Hx & _). by eexists. }
  destruct (sameMaze_get2 _ _ _ _ _ (proj1 Hgrid) Hx) as (x0 & Hx0 & _).
  destruct (markVisited_is_Some grid (nodePos n).1 (nodePos n).2)
    as [grid1 Hg1]; [by eexists|].
  rewrite Hg1. simpl. rewrite cloneGrid_id.
  assert (annotatedFrom g grid1) as Hgrid1.
  { eapply annotatedFrom_trans; [exact Hgrid|].
    eapply markVisited_spec; [apply Hgrid|exact Hg1]. }
  assert (size ({[nodePos n]} ∪ closed) = S (size closed)) as Hsize.
  { rewrite size_union by set_solver. by rewrite size_singleton. }
  assert (∀ p, p ∈ {[nodePos n]} ∪ closed →
            (p = start ∨ openAt g p) ∧ is_Some (get2 g p.1 p.2)) as Hseen.
  { intros p Hp. apply elem_of_union in Hp as [Hp|Hp].
    - apply elem_of_singleton in Hp as ->. split; [done|by eexists].
    - by eapply AStarInv_seen. }
  pose proof (inBounds_set_size g ({[nodePos n]} ∪ closed) HR
                (λ p Hp, proj2 (Hseen p Hp))) as Hbound.
  assert (stepsFrom g (out ++ [mkStep grid1 (countVisit (mkMetrics (size closed) 0 false))]))
    as Hout1.
  { apply Forall_app. split; [done|]. by apply Forall_singleton. }
  destruct (decide (nodePos n = endp)) as [He|He].
  - destruct (astar_pop_optimal g start endp _ _ _ n lp I Hn Hmin Hc Hpath)
      as [_ Hopt].
    rewrite Hpath.
    destruct (markPath_spec grid1 (start :: lp)) as (grid2 & Hg2 & Hgrid2).
    { apply Hgrid1. }
    { apply Forall_cons. split.
      - destruct Hstart as (y & Hy & Hy').
        destruct (sameMaze_get2 _ _ _ _ _ (proj1 Hgrid1) Hy) as (y1 & Hy1 & Hsy).
        apply staticOf_inv in Hsy as (_ & _ & ? & ? & ?).
        exists y1. split; [done|].
        destruct Hy' as [?|[?|?]]; [left|right; left|right; right]; congruence.
      - apply steps_all_open in Hsteps. eapply Forall_impl; [exact Hsteps|].
        intros p Hp. apply (sameMaze_openAt _ _ _ (proj1 Hgrid1)) in Hp.
        destruct Hp as (y & Hy & Hwy). exists y. split; [done|]. by right; right. }
    rewrite Hg2. simpl. rewrite cloneGrid_id.
    eexists. split; [done|]. split_and!.
    + eapply (AStarFound _ _ _ _ lp ({[nodePos n]} ∪ closed)).
      * by rewrite <- He.
      * intros l' Hl'. apply Hopt. by rewrite He.
      * intros p Hp. by apply Hseen.
      * simpl. rewrite Hsize. unfold foundWith. simpl. f_equal. lia.
    + by eapply annotatedFrom_trans.
    + apply Forall_app. split; [done|]. apply Forall_singleton.
      by eapply annotatedFrom_trans.
  - rewrite Hpath. rewrite (relax_sameMaze g grid1) by apply Hgrid1.
    destruct (AStarInv_expand g start endp HR Hstart q q1 n lp gs closed
                I HP Hmin Hc He Hpath) as (q2 & gs2 & Hrel & I2 & Hlen2).
    rewrite Hrel. simpl.
    replace (countVisit (mkMetrics (size closed) 0 false))
      with (mkMetrics (size ({[nodePos n]} ∪ closed)) 0 false) in *
      by (by rewrite Hsize).
    apply IH; try done. lia.
Qed.

Lemma AStarInv_init (q : Q) :
  pqItems q ≡ₚ [(start.1, start.2, [start],
                  manhattanDistance start.1 start.2 endp.1 endp.2)] →
  AStarInv g start endp (pqItems q) {[start := 0]} ∅.
Proof.
  intros HP.
  set (n0 := (start.1, start.2, [start],
              manhattanDistance start.1 start.2 endp.1 endp.2)) in *.
  assert (nodePos n0 = start) as Hpos by by destruct start.
  split.
  - intros n Hn. rewrite HP in Hn. apply list_elem_of_singleton in Hn as ->.
    exists []. rewrite Hpos. split_and!; try done.
    exists 0. by rewrite lookup_singleton_eq.
  - intros p gp Hp _. apply lookup_singleton_Some in Hp as [<- <-].
    exists n0. split_and!; [|done..]. rewrite HP. left.
  - intros p Hp. by apply not_elem_of_empty in Hp.
  - exists 0. by rewrite lookup_singleton_eq.
Qed.
End AStarRun.

(** ** Counting cells *)

Lemma count_indices {A} (P : A → Prop) `{∀ x, Decision (P x)}
    (l : list A) (I : list nat) :
  NoDup I → (∀ i, i ∈ I → ∃ x, l !! i = Some x ∧ P x) →
  (length I ≤ length (filter P l))%nat.
Proof.
  revert I. induction l as [|a l IH] using rev_ind; intros I HI Hall.
  - destruct I as [|i I]; [done|].
    destruct (Hall i) as (x & Hx & _); [left|]. done.
  - rewrite filter_app, length_app.
    destruct (decide (length l ∈ I)) as [Hin|Hin].
    + destruct (Hall _ Hin) as (x & Hx & HP).
      rewrite lookup_app_r, Nat.sub_diag in Hx by lia. injection Hx as <-.
      rewrite (filter_cons_True P a []) by done. simpl.
      apply elem_of_Permutation in Hin as [I' HP'].
      rewrite HP' in HI. apply NoDup_cons in HI as [Hni HI'].
      rewrite HP'. simpl.
      assert (length I' ≤ length (filter P l))%nat; [|lia].
      apply IH; [done|]. intros i Hi.
      destruct (Hall i) as (x & Hx & HPx); [rewrite HP'; by right|].
      exists x. split; [|done].
      assert (i ≠ length l) by (intros ->; done).
      pose proof (lookup_lt_Some _ _ _ Hx) as Hlt.
      rewrite length_app in Hlt. simpl in Hlt.
      rewrite lookup_app_l in Hx by lia. done.
    + assert (length I ≤ length (filter P l))%nat; [|lia].
      apply IH; [done|]. intros i Hi.
      destruct (Hall i Hi) as (x & Hx & HPx). exists x. split; [|done].
      assert (i ≠ length l) by (intros ->; done).
      pose proof (lookup_lt_Some _ _ _ Hx) as Hlt.
      rewrite length_app in Hlt. simpl in Hlt.
      rewrite lookup_app_l in Hx by lia. done.
Qed.

Lemma Rect_same_length {A} (m : list (list A)) :
  Rect m → Forall (λ line, length line = Z.to_nat (cols m)) m.
Proof. unfold Rect. intros HR. eapply Forall_impl; [exact HR|]. intros line Hl. simpl in *. lia. Qed.

(** Distinct non-wall cells are at most [nonWallCount] many. *)
Lemma open_cells_bound g (L : list Pos) :
  Rect g → NoDup L → (∀ p, p ∈ L → openAt g p) →
  (length L ≤ nonWallCount g)%nat.
Proof.
  intros HR HL Hop. unfold nonWallCount.
  set (C := Z.to_nat (cols g)).
  set (idx := λ p : Pos, (Z.to_nat p.1 * C + Z.to_nat p.2)%nat).
  assert (∀ p, p ∈ L → 0 ≤ p.1 ∧ 0 ≤ p.2 < cols g) as Hb.
  { intros p Hp. destruct (Hop p Hp) as (x & Hx & _).
    assert (is_Some (get2 g p.1 p.2)) as Hs by eauto.
    apply get2_is_Some in Hs; [|done]. apply inBounds_spec in Hs. lia. }
  rewrite <- (length_fmap idx L). apply count_indices.
  - apply NoDup_fmap_2_strong; [|done]. intros p q Hp Hq Heq.
    pose proof (Hb p Hp). pose proof (Hb q Hq). unfold idx in Heq.
    assert (Z.to_nat p.1 = Z.to_nat q.1 ∧ Z.to_nat p.2 = Z.to_nat q.2) as [? ?].
    { assert (Z.to_nat p.2 < C ∧ Z.to_nat q.2 < C)%nat as [? ?] by (unfold C; lia).
      by eapply Nat.mul_split_l. }
    destruct p, q. simpl in *. f_equal; lia.
  - intros i Hi. apply list_elem_of_fmap in Hi as (p & -> & Hp).
    destruct (Hop p Hp) as (x & Hx & Hw). exists x. split; [|done].
    pose proof (Hb p Hp). unfold get2 in Hx. rewrite decide_True in Hx by lia.
    destruct (g !! Z.to_nat p.1) as [line|] eqn:El; [|done]. simpl in Hx.
    unfold idx. apply (join_lookup_Some_same_length' C).
    + by apply Rect_same_length.
    + unfold C. lia.
    + by exists line.
Qed.


(** ** Well-formed grids *)

Lemma wellFormedb_spec g s e : wellFormedb g s e = true → WellFormed g s e.
Proof.
  unfold wellFormedb. rewrite !andb_true_iff. intros [[HR Hall] Hse].
  assert (Rect g) as HRect.
  { unfold Rect. rewrite forallb_forall in HR. apply Forall_forall.
    intros line Hl. apply Z.eqb_eq, HR. by apply list_elem_of_In. }
  assert (∀ p x, get2 g p.1 p.2 = Some x →
            (isStart x = true ↔ p = s) ∧ (isEnd x = true ↔ p = e)) as Hflags.
  { intros p x Hx. rewrite forallb_forall in Hall.
    specialize (Hall p). rewrite Hx in Hall.
    apply andb_true_iff in Hall as [H1 H2].
    2:{ apply list_elem_of_In. destruct p. by eapply get2_in_positions. }
    apply eqb_prop in H1, H2. rewrite H1, H2, !bool_decide_eq_true. done. }
  destruct (get2 g s.1 s.2) as [x|] eqn:Ex; [|done].
  destruct (get2 g e.1 e.2) as [y|] eqn:Ey; [|done].
  apply andb_true_iff in Hse as [Hx Hy]. apply negb_true_iff in Hx, Hy.
  split_and!.
  - done.
  - by exists x.
  - by exists y.
  - intros p. split.
    + intros (z & Hz & Hst). by apply (Hflags p z Hz).
    + intros ->. exists x. split; [done|]. by apply (Hflags s x Ex).
  - intros p. split.
    + intros (z & Hz & Hst). by apply (Hflags p z Hz).
    + intros ->. exists y. split; [done|]. by apply (Hflags e y Ey).
Qed.

Section WellFormed.
Variables (g : MazeGrid) (s e : Pos).
Hypothesis WF : WellFormed g s e.

Lemma WellFormed_Rect : Rect g.
Proof. apply WF. Qed.

Lemma WellFormed_find : findPositions g = Some (s, e).
Proof.
  destruct WF as (HR & Hos & Hoe & Hs & He).
  destruct (findPositions_total g HR) as (s' & e' & Hf & Hs' & He').
  rewrite Hf. f_equal. f_equal.
  - destruct Hs' as [[_ Hno]|Hs']; [|by apply Hs].
    destruct Hno. destruct (proj2 (Hs s) eq_refl) as (x & Hx & Hst).
    by exists s.1, s.2, x.
  - destruct He' as [[_ Hno]|He']; [|by apply He].
    destruct Hno. destruct (proj2 (He e) eq_refl) as (x & Hx & Hst).
    by exists e.1, e.2, x.
Qed.

Lemma WellFormed_start :
  ∃ x, get2 g s.1 s.2 = Some x
    ∧ (isStart x = true ∨ isEnd x = true ∨ isWall x = false).
Proof.
  destruct WF as (_ & (x & Hx & Hw) & _). exists x. split; [done|].
  by right; right.
Qed.

Lemma WellFormed_visited :
  ∃ visited, upd2 (λ _, true) (freshVisited g) s.1 s.2 = Some visited.
Proof.
  destruct WF as (HR & (x & Hx & _) & _).
  apply (upd2_is_Some (λ _ : bool, true)).
  apply (shapeOf_get2 g (freshVisited g) s HR (freshVisited_shape g)).
  by eexists.
Qed.

Lemma WellFormed_steps_path l q :
  steps g s l q → pathBetween g s q (s :: l).
Proof. intros Hs. exists l. split_and!; [done| |done]. apply WF. Qed.
End WellFormed.

(** ** The three traversal engines on a well-formed grid *)

Section Engines.
Variables (g : MazeGrid) (s e : Pos).
Hypothesis WF : WellFormed g s e.

Lemma runBFS_spec fuel :
  (length g * Z.to_nat (cols g) < fuel)%nat →
  ∃ run, runBFS fuel g = Some run
    ∧ SearchEnd g s BfsLevels run
    ∧ annotatedFrom g (working run) ∧ stepsFrom g (emitted run).
Proof.
  intros Hfuel. unfold runBFS.
  rewrite cloneGrid_id, (WellFormed_find g s e WF). simpl.
  destruct (WellFormed_visited g s e WF) as [visited Hv]. rewrite Hv. simpl.
  rewrite (bfsLoop_searchLoop _ 0).
  pose proof (WellFormed_Rect g s e WF) as HR.
  apply (searchLoop_spec g s HR (WellFormed_start g s e WF) bfsDirs bfsMerge)
    with (Extra := BfsLevels) (done := []).
  - intros k. repeat constructor.
  - intros k d Hd. simpl. rewrite !elem_of_cons. lia.
  - done.
  - intros. by eapply BfsLevels_step.
  - by apply annotatedFrom_refl.
  - by apply SearchInv_init.
  - apply BfsLevels_init.
  - simpl. lia.
  - constructor.
Qed.

Lemma runDFS_spec ω fuel :
  ValidRandom ω →
  (length g * Z.to_nat (cols g) < fuel)%nat →
  ∃ run, runDFS ω fuel g = Some run
    ∧ SearchEnd g s (λ _ _, True) run
    ∧ annotatedFrom g (working run) ∧ stepsFrom g (emitted run).
Proof.
  intros Hω Hfuel. unfold runDFS.
  rewrite cloneGrid_id, (WellFormed_find g s e WF). simpl.
  destruct (WellFormed_visited g s e WF) as [visited Hv]. rewrite Hv. simpl.
  rewrite dfsLoop_searchLoop.
  pose proof (WellFormed_Rect g s e WF) as HR.
  apply (searchLoop_spec g s HR (WellFormed_start g s e WF)
           (dfsDirs ω) dfsMerge)
    with (Extra := λ _ _, True) (done := []).
  - intros k. apply shuffle_spec.
  - intros k d Hd. by apply shuffle_spec.
  - intros new rest. unfold dfsMerge.
    by rewrite reverse_Permutation, Permutation_app_comm.
  - done.
  - by apply annotatedFrom_refl.
  - by apply SearchInv_init.
  - done.
  - simpl. lia.
  - constructor.
Qed.

Lemma runAStar_spec {Q} `{PriorityQueue Q} fuel :
  (4 * (length g * Z.to_nat (cols g)) + 1 < fuel)%nat →
  ∃ run, runAStar (Q := Q) fuel g = Some run
    ∧ AStarEnd g s e run
    ∧ annotatedFrom g (working run) ∧ stepsFrom g (emitted run).
Proof.
  intros Hfuel. unfold runAStar.
  rewrite cloneGrid_id, (WellFormed_find g s e WF). simpl.
  pose proof (WellFormed_Rect g s e WF) as HR.
  pose proof (pqPush_items
    (s.1, s.2, [s], manhattanDistance s.1 s.2 e.1 e.2) pqEmpty) as HP.
  rewrite pqEmpty_items in HP.
  replace (mkMetrics 0 0 false)
    with (mkMetrics (size (∅ : gset Pos)) 0 false) by (by rewrite size_empty).
  apply (astarLoop_spec g s e HR (WellFormed_start g s e WF)) with (closed := ∅).
  - by apply annotatedFrom_refl.
  - apply AStarInv_init; [by eapply WellFormed_start|exact HP].
  - rewrite HP, size_empty. simpl. lia.
  - constructor.
Qed.

(** What the ghost state of a finished search says about its metrics. *)
Lemma SearchEnd_sound Extra run :
  SearchEnd g s Extra run →
  (isPathFound (result run) = true →
     ∃ path, pathBetween g s e path ∧ pathLength (result run) = edges path)
  ∧ (isPathFound (result run) = false → ¬ reachable g s e)
  ∧ (nodesVisited (result run) ≤ nonWallCount g)%nat.
Proof.
  pose proof (WellFormed_Rect g s e WF) as HR.
  destruct WF as (_ & Hos & Hoe & Hs & He).
  assert (∀ visited frontier done,
    SearchInv g s (endAt g) visited frontier done →
    (length frontier + length done ≤ nonWallCount g)%nat) as Hcount.
  { intros visited frontier done I.
    rewrite <- length_app, <- (length_fmap entryPos).
    apply open_cells_bound; [done|apply I|].
    intros p Hp. apply list_elem_of_fmap in Hp as (e' & -> & He').
    destruct (SearchInv_open _ _ _ _ _ _ e' I He') as [->|Ho]; done. }
  intros [ef rest done visited I _ Hgoal Hres|done visited I Hres];
    rewrite Hres; simpl.
  - split_and!.
    + intros _. exists (entryPath ef).
      destruct (si_entries _ _ _ _ _ _ I ef) as (l & Hl & Hsteps); [left|].
      apply He in Hgoal. rewrite Hgoal in Hsteps. split; [|done].
      rewrite Hl. by apply (WellFormed_steps_path g s e WF).
    + done.
    + specialize (Hcount _ _ _ I). simpl in Hcount. lia.
  - split_and!.
    + done.
    + intros _ (path & l & -> & _ & Hsteps).
      pose proof (SearchInv_exhausted _ _ _ _ _ _ _ I Hsteps) as Hin.
      apply list_elem_of_fmap in Hin as (e' & He' & Hdone).
      apply (si_goal _ _ _ _ _ _ I e' Hdone). rewrite <- He'. by apply He.
    + specialize (Hcount _ _ _ I). simpl in Hcount. lia.
Qed.

Lemma SearchEnd_bfs_optimal run path :
  SearchEnd g s BfsLevels run → isPathFound (result run) = true →
  pathBetween g s e path → pathLength (result run) ≤ edges path.
Proof.
  intros [ef rest dn visited I HL Hgoal Hres|dn visited I Hres];
    rewrite Hres; simpl; [|by intros].
  intros _ (l & -> & _ & Hsteps).
  pose proof (BfsLevels_optimal g s (endAt g) visited ef rest dn l e
                I HL Hsteps) as Hopt.
  unfold edges at 2. simpl length. rewrite Nat2Z.inj_succ.
  assert (endAt g e) by (by apply WF). specialize (Hopt H). lia.
Qed.

Lemma AStarEnd_sound run :
  AStarEnd g s e run →
  (isPathFound (result run) = true →
     (∃ path, pathBetween g s e path ∧ pathLength (result run) = edges path)
     ∧ ∀ path, pathBetween g s e path → pathLength (result run) ≤ edges path)
  ∧ (isPathFound (result run) = false → ¬ reachable g s e)
  ∧ (nodesVisited (result run) ≤ nonWallCount g)%nat.
Proof.
  pose proof (WellFormed_Rect g s e WF) as HR.
  assert (∀ seen : gset Pos, (∀ p, p ∈ seen → p = s ∨ openAt g p) →
            (size seen ≤ nonWallCount g)%nat) as Hcount.
  { intros seen Hseen. unfold size, set_size. simpl.
    apply open_cells_bound; [done|apply NoDup_elements|].
    intros p Hp. apply elem_of_elements in Hp.
    destruct (Hseen p Hp) as [->|Ho]; [apply WF|done]. }
  intros [l seen Hsteps Hopt Hseen Hres|seen Hno Hseen Hres];
    rewrite Hres; simpl.
  - split_and!.
    + intros _. split.
      * exists (s :: l). split; [by apply (WellFormed_steps_path g s e WF)|].
        unfold edges. simpl length. lia.
      * intros path (l' & -> & _ & Hl'). specialize (Hopt l' Hl').
        unfold edges. simpl length. lia.
    + done.
    + by apply Hcount.
  - split_and!.
    + done.
    + intros _ (path & l & -> & _ & Hsteps). by apply (Hno l).
    + by apply Hcount.
Qed.
End Engines.

(** ** The maze generator *)

(** *** Counting unvisited cells *)

Lemma unvisited_line_insert (l : list bool) i :
  l !! i = Some false →
  S (length (filter (λ b, b = false) (<[i := true]> l)))
  = length (filter (λ b, b = false) l).
Proof.
  revert i. induction l as [|b l IH]; intros i Hi; [done|].
  destruct i as [|i]; simpl in *.
  - injection Hi as ->. rewrite (filter_cons_True _ false) by done.
    by rewrite (filter_cons_False _ true) by done.
  - destruct b.
    + rewrite !filter_cons_False by done. by apply IH.
    + rewrite !filter_cons_True by done. simpl. f_equal. by apply IH.
Qed.

Lemma sum_list_fmap_insert {A} (f : A → nat) (l : list A) i x y :
  l !! i = Some x →
  (sum_list (f <$> <[i := y]> l) + f x = sum_list (f <$> l) + f y)%nat.
Proof.
  revert i. induction l as [|a l IH]; intros i Hi; [done|].
  destruct i as [|i]; csimpl in *.
  - injection Hi as ->.
    generalize (sum_list (f <$> l)), (f x), (f y). intros. lia.
  - specialize (IH i Hi). revert IH.
    generalize (sum_list (f <$> <[i:=y]> l)), (sum_list (f <$> l)), (f x), (f y), (f a).
    intros. lia.
Qed.

Lemma unvisited_upd2 v v' r c :
  get2 v r c = Some false → upd2 (λ _, true) v r c = Some v' →
  S (unvisited v') = unvisited v.
Proof.
  intros Hg Hu. apply get2_Some_lookup in Hg as (line & Hl & Hc & Hr0 & Hc0).
  unfold upd2 in Hu. rewrite decide_True in Hu by done.
  rewrite Hl in Hu. simpl in Hu. rewrite Hc in Hu. simpl in Hu.
  injection Hu as <-. unfold unvisited.
  pose proof (sum_list_fmap_insert
    (λ line, length (filter (λ b, b = false) line)) v (Z.to_nat r) line
    (<[Z.to_nat c := true]> line) Hl) as Hs. simpl in Hs.
  pose proof (unvisited_line_insert line (Z.to_nat c) Hc). lia.
Qed.

Lemma unvisited_replicate (R C : nat) :
  unvisited (replicate R (replicate C false)) = (R * C)%nat.
Proof.
  unfold unvisited.
  assert (length (filter (λ b, b = false) (replicate C false)) = C) as Hline.
  { induction C as [|C IH]; [done|]. cbn [replicate].
    rewrite filter_cons_True by done. simpl. by rewrite IH. }
  assert (∀ (f : list bool → nat) x l,
            sum_list (f <$> x :: l) = (f x + sum_list (f <$> l))%nat) as Hcons
    by done.
  induction R as [|R IH]; [done|]. cbn [replicate].
  rewrite Hcons, IH, Hline. lia.
Qed.

(** *** Opening cells keeps what was reachable *)

Lemma opened_refl g : Rect g → opened g g.
Proof. intros HR. split_and!; try done. intros r c x Hx. by exists x. Qed.

Lemma opened_trans g1 g2 g3 : opened g1 g2 → opened g2 g3 → opened g1 g3.
Proof.
  intros (Hr1 & Hc1 & HR1 & H1) (Hr2 & Hc2 & HR2 & H2).
  split_and!; [congruence..|done|]. intros r c x Hx.
  destruct (H1 r c x Hx) as (x2 & Hx2 & Hs2 & He2 & Hw2).
  destruct (H2 r c x2 Hx2) as (x3 & Hx3 & Hs3 & He3 & Hw3).
  exists x3. split_and!; [done|congruence..|auto].
Qed.

Lemma upd2_opened f g g' r c :
  Rect g →
  (∀ x, isStart (f x) = isStart x ∧ isEnd (f x) = isEnd x
        ∧ (isWall x = false → isWall (f x) = false)) →
  upd2 f g r c = Some g' → opened g g'.
Proof.
  intros HR Hf H. split_and!.
  - by eapply upd2_rows.
  - by eapply upd2_cols.
  - by eapply upd2_Rect.
  - intros r' c' x Hx. rewrite (get2_upd2 _ _ _ _ _ r' c' H).
    case_decide as Heq.
    + destruct Heq as [-> ->]. rewrite Hx. simpl. exists (f x).
      split; [done|]. apply Hf.
    + by exists x.
Qed.

Lemma setWall_opened g g' r c :
  Rect g → upd2 (setWall false) g r c = Some g' → opened g g'.
Proof. intros HR. apply upd2_opened; [done|]. by intros []. Qed.

Lemma opened_openAt g g' p : opened g g' → openAt g p → openAt g' p.
Proof.
  intros (_ & _ & _ & H) (x & Hx & Hw).
  destruct (H _ _ _ Hx) as (x' & Hx' & _ & _ & Hw'). exists x'. auto.
Qed.

Lemma opened_steps g g' p l q : opened g g' → steps g p l q → steps g' p l q.
Proof.
  intros Ho. revert p. induction l as [|p' l IH]; simpl; intros p; [done|].
  intros (Ha & Hop & Hs). split_and!; [done| |by apply IH].
  by eapply opened_openAt.
Qed.

Lemma opened_reachable g g' s p : opened g g' → reachable g s p → reachable g' s p.
Proof.
  intros Ho (path & l & -> & Hos & Hs). exists (s :: l), l.
  split_and!; [done| |by eapply opened_steps]. by eapply opened_openAt.
Qed.

Lemma reachable_refl g s : openAt g s → reachable g s s.
Proof. intros Ho. exists [s], []. by split_and!. Qed.

Lemma reachable_step g s q p :
  reachable g s q → adjacent q p → openAt g p → reachable g s p.
Proof.
  intros (path & l & -> & Hos & Hs) Ha Ho. exists (s :: l ++ [p]), (l ++ [p]).
  split_and!; [done..|]. by eapply steps_snoc.
Qed.

(** Opening one cell next to a reachable cell keeps the grid connected. *)
Lemma connected_open g g' s endp q r c :
  Rect g → connected g s endp →
  reachable g s q → adjacent q (r, c) →
  upd2 (setWall false) g r c = Some g' →
  connected g' s endp ∧ reachable g' s (r, c) ∧ opened g g'.
Proof.
  intros HR Hconn Hq Hadj Hu.
  pose proof (setWall_opened _ _ _ _ HR Hu) as Ho.
  assert (openAt g' (r, c)) as Hop.
  { destruct (proj1 (upd2_is_Some (setWall false) g r c)) as [y Hy];
      [by eexists|].
    unfold openAt. simpl. rewrite (get2_upd2_eq _ _ _ _ _ Hu), Hy. simpl.
    by eexists. }
  assert (reachable g' s (r, c)) as Hreach.
  { eapply reachable_step; [|done..]. by eapply opened_reachable. }
  split_and!; [|done..].
  intros p Hp Hne. destruct (decide (p = (r, c))) as [->|Hpc]; [done|].
  eapply opened_reachable; [done|]. apply Hconn; [|done].
  destruct Hp as (x & Hx & Hw). exists x. split; [|done].
  rewrite <- Hx. symmetry. destruct p. by eapply get2_upd2_ne.
Qed.

(** *** [carvePath] *)

Section Carve.
Variables (ω : RandomSource) (R C : Z) (start endp : Pos).

Lemma carveOk_grid st g' :
  carveOk R C start endp st → opened (cGrid st) g' →
  connected g' start endp →
  carveOk R C start endp (mkCarve g' (cVisited st) (cRand st)).
Proof.
  intros (HR & Hr & Hc & (HRv & Hrv & Hcv) & _) (Hr' & Hc' & HR' & _) Hconn.
  unfold carveOk, shapeOf. simpl. split_and!; try done; congruence.
Qed.

Lemma carvePath_spec fuel :
  ∀ r c st,
  carveOk R C start endp st →
  inBounds R C r c = true →
  get2 (cVisited st) r c = Some false →
  (unvisited (cVisited st) ≤ fuel)%nat →
  (∃ q, adjacent q (r, c) ∧ reachable (cGrid st) start q) →
  ∃ st', carvePath ω R C fuel r c st = Some st'
    ∧ carveOk R C start endp st'
    ∧ opened (cGrid st) (cGrid st')
    ∧ (unvisited (cVisited st') < unvisited (cVisited st))%nat.
Proof.
  induction fuel as [|fuel IH]; intros r c st Hok Hb Hv Hfuel (q & Hadj & Hq).
  { destruct (proj2 (upd2_is_Some (λ _ : bool, true) (cVisited st) r c))
      as [v1 Hv1]; [by eexists|].
    pose proof (unvisited_upd2 _ _ _ _ Hv Hv1). lia. }
  cbn [carvePath].
  destruct Hok as (HR & Hr & Hc & Hsh & Hconn).
  destruct (proj2 (upd2_is_Some (λ _ : bool, true) (cVisited st) r c))
    as [v1 Hv1]; [by eexists|].
  rewrite Hv1. simpl.
  pose proof (unvisited_upd2 _ _ _ _ Hv Hv1) as Hcount.
  assert (is_Some (get2 (cGrid st) r c)) as Hin.
  { apply get2_is_Some; [done|]. by rewrite Hr, Hc. }
  destruct (proj2 (upd2_is_Some (setWall false) (cGrid st) r c) Hin) as [g1 Hg1].
  rewrite Hg1. simpl.
  destruct (connected_open _ _ _ _ _ _ _ HR Hconn Hq Hadj Hg1)
    as (Hconn1 & Hreach1 & Hop1).
  set (dk := shuffle ω (cRand st) [0; 1; 2; 3]%nat).
  assert (carveOk R C start endp (mkCarve g1 v1 dk.2)) as Hok1.
  { destruct Hop1 as (Hr1 & Hc1 & HR1 & _). destruct Hsh as (HRv & Hrv & Hcv).
    unfold carveOk, shapeOf. simpl. split_and!; try done; try congruence.
    - by eapply upd2_Rect.
    - rewrite (upd2_rows _ _ _ _ _ Hv1). congruence.
    - rewrite (upd2_cols _ _ _ _ _ Hv1). congruence. }
  assert (∀ dirs st1,
    Forall (λ d, (d < 4)%nat) dirs →
    carveOk R C start endp st1 → opened g1 (cGrid st1) →
    (unvisited (cVisited st1) ≤ fuel)%nat →
    ∃ st', foldl (carveDir (carvePath ω R C fuel) R C r c) (Some st1) dirs
             = Some st'
      ∧ carveOk R C start endp st'
      ∧ opened (cGrid st1) (cGrid st')
      ∧ (unvisited (cVisited st') ≤ unvisited (cVisited st1))%nat) as Hloop.
  { clear dk Hok1. induction dirs as [|d dirs IHd]; intros st1 Hd Hok1 Hop Hf1.
    { exists st1. split_and!; [done..| |done]. apply opened_refl, Hok1. }
    apply Forall_cons in Hd as [Hd4 Hd]. cbn [foldl].
    assert (∃ st2, carveDir (carvePath ω R C fuel) R C r c (Some st1) d = Some st2
      ∧ carveOk R C start endp st2 ∧ opened (cGrid st1) (cGrid st2)
      ∧ (unvisited (cVisited st2) ≤ unvisited (cVisited st1))%nat)
      as (st2 & -> & Hok2 & Hop2 & Hf2).
    { unfold carveDir. simpl.
      destruct (inBounds R C (r + dx d * 2) (c + dy d * 2)) eqn:Eb.
      2:{ exists st1. split_and!; [done..| |done]. apply opened_refl, Hok1. }
      destruct Hok1 as (HR1 & Hr1 & Hc1 & Hsh1 & Hconn').
      assert (is_Some (get2 (cVisited st1) (r + dx d * 2) (c + dy d * 2)))
        as [v Hvn].
      { apply (shapeOf_get2 (cGrid st1) _ (_, _) HR1 Hsh1).
        apply get2_is_Some; [done|]. by rewrite Hr1, Hc1. }
      rewrite Hvn. simpl. destruct v.
      { exists st1. split_and!; [done| |by apply opened_refl|done].
        by split_and!. }
      apply inBounds_spec in Eb, Hb.
      assert (is_Some (get2 (cGrid st1) (r + dx d) (c + dy d))) as Hw.
      { apply get2_is_Some; [done|]. rewrite Hr1, Hc1. apply inBounds_spec.
        destruct (dx_dy_cases d) as [E|[E|[E|[E|E]]]];
          injection E as E1 E2; rewrite E1, E2 in *; lia. }
      destruct (proj2 (upd2_is_Some (setWall false) (cGrid st1) _ _) Hw)
        as [gw Hgw].
      rewrite Hgw. simpl.
      destruct (connected_open (cGrid st1) gw start endp (r, c) (r + dx d) (c + dy d))
        as (Hconnw & Hreachw & Hopw); try done.
      { by eapply opened_reachable. }
      { by exists d. }
      destruct (IH (r + dx d * 2) (c + dy d * 2)
                  (mkCarve gw (cVisited st1) (cRand st1)))
        as (st2 & Hst2 & Hok2 & Hop2 & Hf2).
      - apply (carveOk_grid st1 gw); [by split_and!|done..].
      - by apply inBounds_spec.
      - done.
      - done.
      - exists (r + dx d, c + dy d). split; [|done].
        exists d. split; [done|]. simpl. f_equal; lia.
      - exists st2. split_and!; [done..| |simpl in Hf2; lia].
        eapply opened_trans; [exact Hopw|exact Hop2]. }
    destruct (IHd st2 Hd Hok2) as (st' & Hst' & Hok' & Hop' & Hf').
    { by eapply opened_trans. }
    { lia. }
    exists st'. split_and!; [done..| |lia]. by eapply opened_trans. }
  destruct (Hloop dk.1 (mkCarve g1 v1 dk.2)) as (st' & Hst' & Hok' & Hop' & Hf').
  - apply shuffle_spec.
  - done.
  - apply opened_refl, Hop1.
  - simpl. lia.
  - exists st'. split_and!; [done..| |simpl in Hf'; lia].
    by eapply opened_trans.
Qed.
End Carve.

(** *** [ensurePathExists] *)

Lemma setWall_false_id x : isWall x = false → setWall false x = x.
Proof. destruct x. simpl. by intros ->. Qed.

Lemma openPath_id g path : Forall (openAt g) path → openPath g path = Some g.
Proof.
  unfold openPath. induction 1 as [|p path (x & Hx & Hw) _ IH]; [done|].
  cbn [foldl]. simpl.
  destruct (proj2 (upd2_is_Some (setWall false) g p.1 p.2)) as [g' Hg'];
    [by eexists|].
  rewrite Hg'. rewrite (upd2_id _ _ _ _ _ Hg'); [done|].
  intros y Hy. apply setWall_false_id. congruence.
Qed.

Section Ensure.
Variables (g : MazeGrid) (start endp : Pos).
Hypothesis HR : Rect g.
Hypothesis Hos : openAt g start.

Lemma ensureLoop_spec fuel :
  ∀ visited queue dn,
  SearchInv g start (λ p, p = endp) visited queue dn →
  (length g * Z.to_nat (cols g) < fuel + length dn)%nat →
  ∃ r, ensureLoop fuel g endp visited queue = Some r ∧
    match r with
    | inl g' => g' = g ∧ reachable g start endp
    | inr visited' => shapeOf g visited' ∧ ¬ visitedAt visited' endp
    end.
Proof.
  induction fuel as [|fuel IH]; intros visited queue dn I Hfuel.
  { pose proof (SearchInv_bound _ _ _ _ _ _ I). lia. }
  cbn [ensureLoop]. destruct queue as [|[[r c] path] rest].
  { eexists. split; [done|]. split; [apply I|].
    intros Hv. apply (si_visited _ _ _ _ _ _ I) in Hv.
    apply list_elem_of_fmap in Hv as (e' & He' & Hdn).
    by apply (si_goal _ _ _ _ _ _ I e' Hdn). }
  set (e := (r, c, path)) in *.
  destruct (si_entries _ _ _ _ _ _ I e) as (l & Hl & Hsteps); [left|].
  simpl in Hl, Hsteps. subst path.
  destruct (decide (r = endp.1 ∧ c = endp.2)) as [[-> ->]|Hne].
  - rewrite openPath_id.
    + eexists. split; [done|]. split; [done|].
      exists (start :: l), l. split_and!; [done..|]. by destruct endp.
    + apply Forall_cons. split; [done|]. by eapply steps_all_open.
  - destruct (expand_spec g HR r c (start :: l) visited [0; 1; 2; 3]%nat
                (si_shape _ _ _ _ _ _ I)) as (v' & new & Hex & _).
    { repeat constructor. }
    rewrite Hex. simpl. apply (IH v' (rest ++ new) (e :: dn)).
    + eapply SearchInv_step; [done|exact I| | | |exact Hex|done].
      * intros Heq. unfold e, entryPos in Heq. simpl in Heq. subst endp.
        by destruct Hne.
      * repeat constructor.
      * intros d Hd. rewrite !elem_of_cons. lia.
    + simpl. lia.
Qed.

(** *** The fallback carve *)

Lemma carveToEnd_spec er ec fuel :
  ∀ g1 cr cc,
  Rect g1 →
  inBounds (rows g1) (cols g1) cr cc = true →
  inBounds (rows g1) (cols g1) er ec = true →
  connected g1 start endp → reachable g1 start (cr, cc) →
  Z.abs (er - cr) + Z.abs (ec - cc) < Z.of_nat fuel →
  ∃ g', carveToEnd fuel g1 cr cc er ec = Some g'
    ∧ opened g1 g' ∧ connected g' start endp ∧ reachable g' start (er, ec).
Proof.
  induction fuel as [|fuel IH]; intros g1 cr cc HR1 Hbc Hbe Hconn Hreach Hfuel;
    [lia|].
  cbn [carveToEnd]. destruct (decide (cr ≠ er ∨ cc ≠ ec)) as [Hne|Heq].
  2:{ exists g1. split; [done|].
      assert (cr = er ∧ cc = ec) as [-> ->] by lia.
      split_and!; [by apply opened_refl|done..]. }
  set (next := if cr <? er then (cr + 1, cc)
               else if er <? cr then (cr - 1, cc)
               else if cc <? ec then (cr, cc + 1)
               else if ec <? cc then (cr, cc - 1)
               else (cr, cc)).
  apply inBounds_spec in Hbc as Hbc', Hbe as Hbe'.
  assert (adjacent (cr, cc) next
          ∧ inBounds (rows g1) (cols g1) next.1 next.2 = true
          ∧ Z.abs (er - next.1) + Z.abs (ec - next.2)
            = Z.abs (er - cr) + Z.abs (ec - cc) - 1) as (Hadj & Hbn & Hm).
  { unfold next. rewrite adjacent_dist, inBounds_spec.
    destruct (Z.ltb_spec cr er); [simpl; lia|].
    destruct (Z.ltb_spec er cr); [simpl; lia|].
    destruct (Z.ltb_spec cc ec); [simpl; lia|].
    destruct (Z.ltb_spec ec cc); [simpl; lia|]. lia. }
  destruct (proj2 (upd2_is_Some (setWall false) g1 next.1 next.2)) as [g2 Hg2].
  { by apply get2_is_Some. }
  rewrite Hg2. simpl.
  destruct (connected_open g1 g2 start endp (cr, cc) next.1 next.2)
    as (Hconn2 & Hreach2 & Hop2); try done.
  { by destruct next. }
  destruct Hop2 as (Hr2 & Hc2 & HR2 & Hcells).
  destruct (IH g2 next.1 next.2) as (g' & Hg' & Hop' & Hconn' & Hreach');
    try done; try (rewrite Hr2, Hc2; done); [lia|].
  exists g'. split_and!; [done| |done..].
  eapply opened_trans; [|exact Hop']. by split_and!.
Qed.
End Ensure.

Lemma ensurePathExists_spec g start endp fuel :
  Rect g → openAt g start →
  inBounds (rows g) (cols g) endp.1 endp.2 = true →
  connected g start endp →
  (length g * Z.to_nat (cols g) < fuel)%nat →
  Z.abs (endp.1 - start.1) + Z.abs (endp.2 - start.2) < Z.of_nat fuel →
  ∃ g' b, ensurePathExists fuel g start.1 start.2 endp.1 endp.2 = Some (g', b)
    ∧ opened g g' ∧ connected g' start endp ∧ reachable g' start endp.
Proof.
  destruct start as [sr sc], endp as [er ec]. simpl.
  intros HR Hos Hbe Hconn Hfuel Hdist. unfold ensurePathExists.
  assert (is_Some (get2 g sr sc)) as Hs.
  { destruct Hos as (x & Hx & _). by eexists. }
  destruct (proj2 (upd2_is_Some (λ _ : bool, true) (freshVisited g) sr sc))
    as [visited Hv].
  { by apply (shapeOf_get2 g (freshVisited g) (sr, sc) HR (freshVisited_shape g)). }
  rewrite Hv. simpl.
  destruct (ensureLoop_spec g (sr, sc) (er, ec) HR Hos fuel visited
              [(sr, sc, [(sr, sc)])] [])
    as (r & Hr & Hres).
  { by apply (SearchInv_init g (sr, sc)). }
  { simpl. lia. }
  rewrite Hr. simpl. destruct r as [g'|visited'].
  - destruct Hres as [-> Hreach]. exists g, true.
    split_and!; [done|by apply opened_refl|done..].
  - destruct Hres as [Hsh Hnv].
    destruct (proj2 (shapeOf_get2 g visited' (er, ec) HR Hsh)) as [v Hve].
    { by apply get2_is_Some. }
    simpl in Hve. rewrite Hve. simpl. destruct v; [done|].
    destruct (carveToEnd_spec (sr, sc) (er, ec) er ec fuel g sr sc)
      as (g' & Hg' & Hop & Hconn' & Hreach'); try done.
    + by apply get2_is_Some in Hs.
    + by apply reachable_refl.
    + rewrite Hg'. simpl. by exists g', false.
Qed.

(** *** The initial grid *)

Lemma allWalls_get2 (R C : nat) r c :
  0 ≤ r < Z.of_nat R → 0 ≤ c < Z.of_nat C →
  get2 (allWalls R C) r c = Some (mkCell r c true false false false false).
Proof.
  intros Hr Hc. unfold get2, allWalls. rewrite decide_True by lia.
  rewrite list_lookup_fmap, lookup_seq_lt by lia. simpl.
  rewrite list_lookup_fmap, lookup_seq_lt by lia. simpl.
  f_equal. f_equal; lia.
Qed.

Lemma allWalls_shape (R C : nat) :
  (0 < R)%nat →
  Rect (allWalls R C) ∧ rows (allWalls R C) = Z.of_nat R
  ∧ cols (allWalls R C) = Z.of_nat C.
Proof.
  intros HR0.
  assert (cols (allWalls R C) = Z.of_nat C) as Hc.
  { unfold allWalls. destruct R as [|R]; [lia|]. simpl.
    by rewrite length_fmap, length_seq. }
  split_and!; [|by unfold rows, allWalls; rewrite length_fmap, length_seq|done].
  unfold Rect. rewrite Hc. apply Forall_forall. intros line Hl.
  unfold allWalls in Hl. apply list_elem_of_fmap in Hl as (i & -> & _).
  by rewrite length_fmap, length_seq.
Qed.

Lemma upd2_inBounds {A} (f : A → A) (m : list (list A)) r c :
  Rect m → inBounds (rows m) (cols m) r c = true →
  ∃ m', upd2 f m r c = Some m' ∧ Rect m' ∧ rows m' = rows m ∧ cols m' = cols m
    ∧ ∀ r' c', get2 m' r' c' =
        if decide (r' = r ∧ c' = c) then f <$> get2 m r c else get2 m r' c'.
Proof.
  intros HR Hb.
  destruct (proj2 (upd2_is_Some f m r c)) as [m' Hm'].
  { by apply get2_is_Some. }
  exists m'. split_and!; [done|by eapply upd2_Rect|by eapply upd2_rows
                         |by eapply upd2_cols|].
  intros r' c'. by apply get2_upd2.
Qed.

Lemma initial_grid (R C : nat) :
  (5 ≤ R)%nat → (5 ≤ C)%nat →
  let endRow := Z.of_nat R - 1 in
  let endCol := Z.of_nat C - 2 in
  ∃ g0,
    (grid ← upd2 (setWall false) (allWalls R C) 0 1;
     grid ← upd2 (setStart true) grid 0 1;
     grid ← upd2 (setWall false) grid endRow endCol;
     upd2 (setEnd true) grid endRow endCol) = Some g0
    ∧ Rect g0 ∧ rows g0 = Z.of_nat R ∧ cols g0 = Z.of_nat C
    ∧ ∀ r c, 0 ≤ r < Z.of_nat R → 0 ≤ c < Z.of_nat C →
        ∃ x, get2 g0 r c = Some x
          ∧ (isStart x = true ↔ (r, c) = (0, 1))
          ∧ (isEnd x = true ↔ (r, c) = (endRow, endCol))
          ∧ (isWall x = false ↔ (r, c) = (0, 1) ∨ (r, c) = (endRow, endCol)).
Proof.
  intros HR5 HC5 endRow endCol.
  destruct (allWalls_shape R C) as (HRa & Hra & Hca); [lia|].
  destruct (upd2_inBounds (setWall false) (allWalls R C) 0 1 HRa)
    as (g1 & Hg1 & HR1 & Hr1 & Hc1 & Hget1).
  { apply inBounds_spec. lia. }
  destruct (upd2_inBounds (setStart true) g1 0 1 HR1)
    as (g2 & Hg2 & HR2 & Hr2 & Hc2 & Hget2).
  { apply inBounds_spec. lia. }
  destruct (upd2_inBounds (setWall false) g2 endRow endCol HR2)
    as (g3 & Hg3 & HR3 & Hr3 & Hc3 & Hget3).
  { apply inBounds_spec. unfold endRow, endCol. lia. }
  destruct (upd2_inBounds (setEnd true) g3 endRow endCol HR3)
    as (g4 & Hg4 & HR4 & Hr4 & Hc4 & Hget4).
  { apply inBounds_spec. unfold endRow, endCol. lia. }
  exists g4. rewrite Hg1. simpl. rewrite Hg2. simpl. rewrite Hg3. simpl.
  split_and!; [done..|congruence|congruence|].
  intros r c Hr Hc.
  assert (∀ r c, 0 ≤ r < Z.of_nat R → 0 ≤ c < Z.of_nat C →
    get2 (allWalls R C) r c = Some (mkCell r c true false false false false))
    as Hall by (intros; by apply allWalls_get2).
  rewrite Hget4, !Hget3, !Hget2, !Hget1.
  assert (0 ≤ endRow < Z.of_nat R ∧ 0 ≤ endCol < Z.of_nat C ∧ endRow ≠ 0)
    as (HeR & HeC & He0) by (unfold endRow, endCol; lia).
  clearbody endRow endCol.
  destruct (decide (r = endRow ∧ c = endCol)) as [[-> ->]|Hne];
    [|destruct (decide (r = 0 ∧ c = 1)) as [[-> ->]|Hns]];
    repeat first [rewrite decide_True by lia | rewrite decide_False by lia];
    rewrite Hall by lia; simpl; (eexists; split; [done|]); simpl.
  - split_and!; naive_solver lia.
  - split_and!; naive_solver lia.
  - split_and!; naive_solver lia.
Qed.

(** *** [generateMaze] *)

Lemma generateMaze_spec ω (R C : nat) :
  (5 ≤ R)%nat → (5 ≤ C)%nat →
  let start : Pos := (0, 1) in
  let endp : Pos := (Z.of_nat R - 1, Z.of_nat C - 2) in
  ∃ grid, generateMaze ω (R * C + 1) R C = Some grid
    ∧ rows grid = Z.of_nat R ∧ cols grid = Z.of_nat C
    ∧ WellFormed grid start endp
    ∧ ∀ p, openAt grid p → reachable grid start p.
Proof.
  intros HR5 HC5 start endp. unfold generateMaze.
  destruct (initial_grid R C HR5 HC5) as (g0 & Hg0 & HR0 & Hr0 & Hc0 & Hcells).
  simpl in Hg0. 
  destruct (upd2 (setWall false) (allWalls R C) 0 1) as [g1|]; [|done].
  simpl in Hg0 |- *.
  destruct (upd2 (setStart true) g1 0 1) as [g2|]; [|done].
  simpl in Hg0 |- *.
  destruct (upd2 (setWall false) g2 _ _) as [g3|]; [|done].
  simpl in Hg0 |- *. rewrite Hg0. simpl.
  assert (0 ≤ endp.1 < Z.of_nat R ∧ 0 ≤ endp.2 < Z.of_nat C) as [HeR HeC]
    by (unfold endp; simpl; lia).
  assert (openAt g0 start) as Hos0.
  { destruct (Hcells 0 1) as (x & Hx & _ & _ & Hw); [lia..|].
    exists x. split; [done|]. apply Hw. by left. }
  assert (openAt g0 endp) as Hoe0.
  { destruct (Hcells endp.1 endp.2) as (x & Hx & _ & _ & Hw); [lia..|].
    exists x. split; [done|]. apply Hw. by right. }
  assert (∀ p x, get2 g0 p.1 p.2 = Some x →
            0 ≤ p.1 < Z.of_nat R ∧ 0 ≤ p.2 < Z.of_nat C) as Hin0.
  { intros p x Hx. assert (is_Some (get2 g0 p.1 p.2)) as Hs by eauto.
    apply get2_is_Some in Hs; [|done]. apply inBounds_spec in Hs. lia. }
  (* the recursive carve from (1, 1) *)
  destruct (carvePath_spec ω (Z.of_nat R) (Z.of_nat C) start endp (R * C + 1) 1 1
              (mkCarve g0 (replicate R (replicate C false)) 0))
    as (st & Hst & (HR1 & Hr1 & Hc1 & _ & Hconn1) & Hop1 & _).
  { unfold carveOk. simpl. split_and!; [done..| |].
    - replace (replicate R (replicate C false)) with (freshVisited g0).
      + apply freshVisited_shape.
      + unfold freshVisited. unfold rows in Hr0. f_equal; [lia|]. f_equal. lia.
    - intros p (x & Hx & Hw) Hne. destruct (Hin0 p x Hx).
      destruct (Hcells p.1 p.2) as (y & Hy & _ & _ & Hwy); [lia..|].
      assert (y = x) as -> by congruence.
      apply Hwy in Hw as [Hp|Hp]; [|destruct Hne; by destruct p].
      replace p with start by by destruct p. by apply reachable_refl. }
  { apply inBounds_spec. lia. }
  { unfold get2. simpl. rewrite lookup_replicate_2 by lia. simpl.
    by rewrite lookup_replicate_2 by lia. }
  { simpl. rewrite unvisited_replicate. lia. }
  { exists start. split; [|by apply reachable_refl].
    apply adjacent_dist. simpl. lia. }
  simpl in Hst. rewrite Hst. simpl. simpl in Hop1.
  (* the connectivity repair *)
  destruct (ensurePathExists_spec (cGrid st) start endp (R * C + 1))
    as (g' & b & Hens & Hop2 & Hconn2 & Hreach2).
  { done. }
  { by eapply opened_openAt. }
  { apply inBounds_spec. rewrite Hr1, Hc1. lia. }
  { done. }
  { unfold rows in Hr1. rewrite Hc1. lia. }
  { unfold start, endp. simpl. nia. }
  simpl in Hens. rewrite Hens. simpl. exists g'. split; [done|].
  pose proof (opened_trans _ _ _ Hop1 Hop2) as (Hr' & Hc' & HR' & Hcells').
  split_and!; [congruence..| |].
  - assert (∀ p x', get2 g' p.1 p.2 = Some x' →
      ∃ x, get2 g0 p.1 p.2 = Some x ∧ isStart x' = isStart x
           ∧ isEnd x' = isEnd x) as Hback.
    { intros p x' Hx'. assert (is_Some (get2 g' p.1 p.2)) as Hs by eauto.
      apply get2_is_Some in Hs; [|done]. apply inBounds_spec in Hs.
      destruct (Hcells p.1 p.2) as (x & Hx & _); [lia..|].
      destruct (Hcells' _ _ _ Hx) as (x'' & Hx'' & Hs'' & He'' & _).
      exists x. split; [done|]. split; congruence. }
    split_and!.
    + done.
    + eapply opened_openAt; [|exact Hos0]. by split_and!.
    + eapply opened_openAt; [|exact Hoe0]. by split_and!.
    + intros p. split.
      * intros (x' & Hx' & Hst'). destruct (Hback p x' Hx') as (x & Hx & Hs & _).
        destruct (Hin0 p x Hx).
        destruct (Hcells p.1 p.2) as (y & Hy & Hsy & _); [lia..|].
        assert (y = x) as -> by congruence.
        destruct p. apply Hsy. congruence.
      * intros ->. destruct (Hcells 0 1) as (x & Hx & Hsx & _); [lia..|].
        destruct (Hcells' _ _ _ Hx) as (x' & Hx' & Hs' & _).
        exists x'. split; [done|]. rewrite Hs'. by apply Hsx.
    + intros p. split.
      * intros (x' & Hx' & Hen'). destruct (Hback p x' Hx') as (x & Hx & _ & He).
        destruct (Hin0 p x Hx).
        destruct (Hcells p.1 p.2) as (y & Hy & _ & Hey & _); [lia..|].
        assert (y = x) as -> by congruence.
        destruct p. apply Hey. congruence.
      * intros ->. destruct (Hcells endp.1 endp.2) as (x & Hx & _ & Hex & _);
          [lia..|].
        destruct (Hcells' _ _ _ Hx) as (x' & Hx' & _ & He' & _).
        exists x'. split; [done|]. rewrite He'. by apply Hex.
  - intros p Hp. destruct (decide (p = endp)) as [->|Hne]; [done|].
    by apply Hconn2.
Qed.

(** ** Greedy exploration of a learned table *)

(** *** Marking the walked path *)

Lemma markPathCell_marks g g' p q :
  markPathCell (Some g) p = Some g' →
  (∀ x, get2 g q.1 q.2 = Some x →
     ∃ x', get2 g' q.1 q.2 = Some x'
       ∧ isStart x' = isStart x ∧ isEnd x' = isEnd x
       ∧ (isPath x = true → isPath x' = true)
       ∧ (q = p → isStart x = false → isEnd x = false → isPath x' = true)).
Proof.
  unfold markPathCell. simpl. intros Hm x Hx.
  destruct (get2 g p.1 p.2) as [y|] eqn:Ey; [|done]. simpl in Hm.
  destruct (negb (isStart y) && negb (isEnd y)) eqn:Eb.
  - rewrite (get2_upd2 _ _ _ _ _ q.1 q.2 Hm). case_decide as Heq.
    + destruct Heq as [E1 E2]. rewrite Ey. simpl.
      assert (q = p) as -> by (destruct p, q; simpl in *; congruence).
      assert (x = y) as -> by congruence.
      exists (setPath true y). by destruct y.
    + exists x. split_and!; try done. intros ->. by destruct Heq.
  - injection Hm as <-. exists x. split_and!; try done.
    intros -> Hs He. assert (x = y) as -> by congruence.
    rewrite Hs, He in Eb. done.
Qed.

Lemma markPath_marks g g' path :
  markPath g path = Some g' → pathMarked g' path.
Proof.
  unfold markPath.
  assert (∀ g1, foldl markPathCell (Some g1) path = Some g' →
    (∀ q x, get2 g1 q.1 q.2 = Some x → ∃ x', get2 g' q.1 q.2 = Some x'
       ∧ isStart x' = isStart x ∧ isEnd x' = isEnd x
       ∧ (isPath x = true → isPath x' = true))
    ∧ pathMarked g' path) as Hgen; [|intros H; by apply (Hgen g)].
  induction path as [|p path IH]; intros g1 Hf.
  - injection Hf as ->. split.
    + intros q x Hx. by exists x.
    + intros q Hq. by apply elem_of_nil in Hq.
  - cbn [foldl] in Hf.
    destruct (markPathCell (Some g1) p) as [g2|] eqn:E2.
    2:{ exfalso. clear -Hf. induction path as [|? ? IHp]; [done|].
        by apply IHp. }
    destruct (IH g2 Hf) as [Hkeep Hmarked]. split.
    + intros q x Hx.
      destruct (markPathCell_marks g1 g2 p q E2 x Hx) as (x2 & Hx2 & Hs2 & He2 & Hp2 & _).
      destruct (Hkeep q x2 Hx2) as (x' & Hx' & Hs' & He' & Hp').
      exists x'. split_and!; [done|congruence..|auto].
    + intros q Hq. apply elem_of_cons in Hq as [->|Hq]; [|by apply Hmarked].
      assert (is_Some (get2 g1 p.1 p.2)) as [x Hx].
      { unfold markPathCell in E2. simpl in E2.
        destruct (get2 g1 p.1 p.2); [by eexists|done]. }
      destruct (markPathCell_marks g1 g2 p p E2 x Hx) as (x2 & Hx2 & Hs2 & He2 & _ & Hp2).
      destruct (Hkeep p x2 Hx2) as (x' & Hx' & Hs' & He' & Hp').
      exists x'. split; [done|].
      destruct (isStart x) eqn:Es; [left; congruence|].
      destruct (isEnd x) eqn:Ee; [right; left; congruence|].
      right; right. apply Hp'. by apply Hp2.
Qed.

(** *** The best action of the Monte Carlo walk *)

Lemma exceeds_spec x m :
  exceeds x m = true ↔ match m with None => True | Some v => (v < x)%Q end.
Proof.
  unfold exceeds. destruct m as [v|]; [|done].
  destruct (Qlt_le_dec v x) as [Hlt|Hle]; split; try done.
  intros Hlt. exfalso. by eapply Qlt_not_le.
Qed.

Lemma bestStep_sameMaze g g' vf r c acc d :
  sameMaze g g' → bestStep g' vf r c acc d = bestStep g vf r c acc d.
Proof.
  intros (Hr & Hc & _ & H). unfold bestStep.
  destruct acc as [a|]; simpl; [|done]. rewrite Hr, Hc.
  destruct (inBounds _ _ _ _); [|done].
  specialize (H (r + dx d) (c + dy d)).
  destruct (get2 g' _ _) as [x'|], (get2 g _ _) as [x|]; simpl in *; try done.
  assert (staticOf x' = staticOf x) as H' by congruence.
  apply staticOf_inv in H' as (_ & _ & -> & _). done.
Qed.

Lemma bestAction_sameMaze g g' vf r c :
  sameMaze g g' → bestAction g' vf r c = bestAction g vf r c.
Proof.
  intros HS. unfold bestAction. f_equal.
  generalize (Some (@None Q, @None nat)). generalize [0; 1; 2; 3]%nat.
  intros ds. induction ds as [|d ds IH]; intros acc; [done|].
  simpl. rewrite (bestStep_sameMaze g g'); [|done]. apply IH.
Qed.

Lemma bestAction_spec g vf p :
  Rect g →
  ∃ b, bestAction g vf p.1 p.2 = Some b ∧
    match b with
    | None => noMove g p
    | Some a => greedyFirst g vf p a
    end.
Proof.
  intros HR.
  assert (∀ n, (n ≤ 4)%nat →
    ∃ bv ba, foldl (bestStep g vf p.1 p.2) (Some (None, None)) (seq 0 n)
               = Some (bv, ba) ∧
      match ba with
      | None => bv = None ∧ ∀ d, (d < n)%nat → ¬ openAt g (nbr p d)
      | Some a => bv = Some (valueAt vf (nbr p a)) ∧ (a < n)%nat
          ∧ openAt g (nbr p a)
          ∧ (∀ d, (d < n)%nat → openAt g (nbr p d) →
               (valueAt vf (nbr p d) <= valueAt vf (nbr p a))%Q)
          ∧ (∀ d, (d < a)%nat → openAt g (nbr p d) →
               (valueAt vf (nbr p d) < valueAt vf (nbr p a))%Q)
      end) as Hfold.
  { induction n as [|n IH]; intros Hn.
    { exists None, None. split; [done|]. split; [done|]. intros d Hd. lia. }
    destruct IH as (bv & ba & Hf & Hinv); [lia|].
    rewrite seq_S, foldl_snoc, Hf. simpl seq. unfold bestStep. simpl.
    assert (¬ openAt g (nbr p n) →
      ∃ bv' ba', Some (bv, ba) = Some (bv', ba') ∧
        match ba' with
        | None => bv' = None ∧ ∀ d, (d < S n)%nat → ¬ openAt g (nbr p d)
        | Some a => bv' = Some (valueAt vf (nbr p a)) ∧ (a < S n)%nat
            ∧ openAt g (nbr p a)
            ∧ (∀ d, (d < S n)%nat → openAt g (nbr p d) →
                 (valueAt vf (nbr p d) <= valueAt vf (nbr p a))%Q)
            ∧ (∀ d, (d < a)%nat → openAt g (nbr p d) →
                 (valueAt vf (nbr p d) < valueAt vf (nbr p a))%Q)
        end) as Hskip.
    { intros Hno. exists bv, ba. split; [done|]. destruct ba as [a|].
      - destruct Hinv as (Hbv & Ha & Hoa & Hmax & Hfirst).
        split_and!; [done|lia|done| |done].
        intros d Hd Hod. destruct (decide (d = n)) as [->|Hdn]; [done|].
        apply Hmax; [lia|done].
      - destruct Hinv as [Hbv Hnone]. split; [done|].
        intros d Hd. destruct (decide (d = n)) as [->|Hdn]; [done|].
        apply Hnone. lia. }
    destruct (inBounds (rows g) (cols g) (p.1 + dx n) (p.2 + dy n)) eqn:Eb.
    2:{ apply Hskip. intros (x & Hx & _).
        assert (is_Some (get2 g (nbr p n).1 (nbr p n).2)) as Hs by eauto.
        apply get2_is_Some in Hs; [|done]. simpl in Hs. congruence. }
    destruct (proj2 (get2_is_Some g _ _ HR) Eb) as [x Hx]. rewrite Hx. simpl.
    destruct (isWall x) eqn:Ew.
    { apply Hskip. intros (y & Hy & Hwy). simpl in Hy. congruence. }
    assert (openAt g (nbr p n)) as Hon by (by exists x).
    destruct (exceeds (valueAt vf (p.1 + dx n, p.2 + dy n)) bv) eqn:Eex.
    - apply exceeds_spec in Eex. eexists _, _. split; [done|].
      fold (nbr p n) in *. split_and!; [done|lia|done| |].
      + intros d Hd Hod. destruct (decide (d = n)) as [->|Hdn];
          [apply Qle_refl|].
        destruct ba as [a|].
        * destruct Hinv as (-> & Ha & Hoa & Hmax & Hfirst).
          apply Qlt_le_weak. eapply Qle_lt_trans; [|exact Eex].
          apply Hmax; [lia|done].
        * destruct Hinv as [_ Hnone]. destruct (Hnone d); [lia|done].
      + intros d Hd Hod. destruct ba as [a|].
        * destruct Hinv as (-> & Ha & Hoa & Hmax & Hfirst).
          eapply Qle_lt_trans; [|exact Eex]. by apply Hmax.
        * destruct Hinv as [_ Hnone]. by destruct (Hnone d Hd).
    - exists bv, ba. split; [done|]. destruct ba as [a|].
      + destruct Hinv as (-> & Ha & Hoa & Hmax & Hfirst).
        split_and!; [done|lia|done| |done].
        intros d Hd Hod. destruct (decide (d = n)) as [->|Hdn];
          [|apply Hmax; [lia|done]].
        fold (nbr p n) in Eex. unfold exceeds in Eex.
        by destruct (Qlt_le_dec (valueAt vf (nbr p a)) (valueAt vf (nbr p n))).
      + destruct Hinv as [-> _]. done. }
  destruct (Hfold 4%nat) as (bv & ba & Hf & Hinv); [lia|].
  exists ba. unfold bestAction. simpl seq in Hf. rewrite Hf. split; [done|].
  destruct ba as [a|].
  - destruct Hinv as (_ & Ha & Hoa & Hmax & Hfirst). by split_and!.
  - destruct Hinv as [_ Hnone]. exact Hnone.
Qed.

(** *** The Monte Carlo walk *)

Lemma mcWalk_open g vf s e budget seen p rest found :
  mcWalk g vf s e budget seen p rest found → ∃ q, steps g p rest q.
Proof.
  induction 1 as [| | | |budget seen p a rest found Hg He Hgr Hw [q IH]];
    try (by eexists).
  exists q. simpl. destruct Hgr as [(Ha & Hoa & _) _]. split_and!; [|done..].
  by exists a.
Qed.

Lemma mcWalkClaimed_cons_inv g vf e budget seen p q rest found :
  mcWalkClaimed g vf e budget seen p (q :: rest) found →
  (p ∉ seen) ∧ ∃ b, budget = S b
    ∧ mcWalkClaimed g vf e b (seen ++ [p]) q rest found.
Proof.
  inversion 1 as [| | | |b sn p0 a rest0 f Hnin _ _ Hw]; subst.
  split; [done|]. exists b. by split.
Qed.

Section McExplore.
Variables (g : MazeGrid) (s e : Pos) (vf : gmap Pos Q).
Hypothesis HR : Rect g.
Hypothesis Hs : is_Some (get2 g s.1 s.2).

Lemma mcExploreLoop_spec budget :
  ∀ grid p seen m out,
  annotatedFrom g grid → (p = s ∨ openAt g p) →
  isPathFound m = false → stepsFrom g out →
  ∃ grid' rest m' out',
    mcExploreLoop budget grid s e vf p.1 p.2 (seen ++ [p]) (list_to_set seen)
                  m out
      = Some (grid', seen ++ [p] ++ rest, m', out')
    ∧ annotatedFrom g grid' ∧ stepsFrom g out'
    ∧ mcWalk g vf s e budget seen p rest (isPathFound m').
Proof.
  induction budget as [|budget IH]; intros grid p seen m out Hgrid Hp Hm Hout.
  { exists grid, [], m, out. rewrite Hm. split_and!; [done..|]. constructor. }
  destruct p as [r c]. cbn [mcExploreLoop fst snd].
  destruct (decide ((r, c) ∈ (list_to_set seen : gset Pos) ∧ (r, c) ≠ s))
    as [[Hin Hne]|Hguard].
  { exists grid, [], m, out. rewrite Hm. split_and!; [done..|].
    apply mcWalk_loop; [|done]. by apply elem_of_list_to_set in Hin. }
  assert (¬ ((r, c) ∈ seen ∧ (r, c) ≠ s)) as Hguard'.
  { intros [Hin Hne]. apply Hguard. split; [|done].
    by apply elem_of_list_to_set. }
  destruct (decide ((r, c) = e)) as [He|He].
  { eexists grid, [], _, out. split_and!; [done..|]. by apply mcWalk_goal. }
  assert (is_Some (get2 g r c)) as [x Hx].
  { destruct Hp as [Hps|(x & Hx & _)]; [|by eexists].
    by rewrite <- Hps in Hs. }
  destruct (sameMaze_get2 _ _ _ _ _ (proj1 Hgrid) Hx) as (x0 & Hx0 & _).
  destruct (markVisited_is_Some grid r c) as [grid1 Hg1]; [by eexists|].
  rewrite Hg1. simpl. rewrite cloneGrid_id.
  assert (annotatedFrom g grid1) as Hgrid1.
  { eapply annotatedFrom_trans; [exact Hgrid|].
    eapply markVisited_spec; [apply Hgrid|exact Hg1]. }
  rewrite (bestAction_sameMaze g grid1) by apply Hgrid1.
  destruct (bestAction_spec g vf (r, c) HR) as (b & Hb & Hbest).
  simpl in Hb. rewrite Hb. simpl.
  assert (stepsFrom g (out ++ [mkStep grid1 (countVisit m)])) as Hout1.
  { apply Forall_app. split; [done|]. by apply Forall_singleton. }
  destruct b as [a|].
  - destruct (IH grid1 (nbr (r, c) a) (seen ++ [(r, c)]) (countVisit m)
                (out ++ [mkStep grid1 (countVisit m)]))
      as (grid' & rest & m' & out' & Hloop & Hgrid' & Hout' & Hwalk);
      try done.
    { right. apply Hbest. }
    assert (({[(r, c)]} ∪ list_to_set seen : gset Pos)
            = list_to_set (seen ++ [(r, c)])) as -> by set_solver.
    unfold nbr in Hloop. simpl in Hloop.
    exists grid', (nbr (r, c) a :: rest), m', out'.
    split_and!; [|done..|by apply mcWalk_move].
    etrans; [exact Hloop|]. unfold nbr. simpl. by rewrite <- !app_assoc.
  - exists grid1, [], (countVisit m), (out ++ [mkStep grid1 (countVisit m)]).
    split_and!; [done..|]. simpl. rewrite Hm. by apply mcWalk_stuck.
Qed.
End McExplore.

Lemma walkedLength_cons p l : walkedLength (p :: l) = Z.of_nat (length l).
Proof.
  unfold walkedLength. destruct (decide _) as [?|Hn]; simpl length in *; lia.
Qed.

Lemma runMonteCarloExploration_spec g s e vf :
  WellFormed g s e →
  ∃ w rest,
    runMonteCarloExploration g vf = Some w
    ∧ walkPath w = s :: rest
    ∧ mcWalk g vf s e (length g * Z.to_nat (cols g) * 2) [] s rest
             (isPathFound (result (walkRun w)))
    ∧ pathLength (result (walkRun w)) = Z.of_nat (length rest)
    ∧ pathMarked (working (walkRun w)) (walkPath w)
    ∧ annotatedFrom g (working (walkRun w)).
Proof.
  intros WF. pose proof (WellFormed_Rect g s e WF) as HR.
  unfold runMonteCarloExploration.
  rewrite cloneGrid_id, (WellFormed_find g s e WF). simpl.
  assert (is_Some (get2 g s.1 s.2)) as Hs.
  { destruct WF as (_ & (x & Hx & _) & _). by eexists. }
  destruct (mcExploreLoop_spec g s e vf HR Hs (length g * Z.to_nat (cols g) * 2)
              g s [] (mkMetrics 0 0 false) [])
    as (grid' & rest & m' & out' & Hloop & Hgrid' & Hout' & Hwalk).
  { by apply annotatedFrom_refl. }
  { by left. }
  { done. }
  { constructor. }
  simpl in Hloop. rewrite Hloop. simpl.
  destruct (mcWalk_open _ _ _ _ _ _ _ _ _ Hwalk) as [q Hsteps].
  destruct (markPath_spec grid' (s :: rest)) as (grid2 & Hg2 & Hgrid2).
  { apply Hgrid'. }
  { apply Forall_cons. split.
    - destruct (WellFormed_start g s e WF) as (y & Hy & Hy').
      destruct (sameMaze_get2 _ _ _ _ _ (proj1 Hgrid') Hy) as (y1 & Hy1 & Hsy).
      apply staticOf_inv in Hsy as (_ & _ & ? & ? & ?).
      exists y1. split; [done|].
      destruct Hy' as [?|[?|?]]; [left|right; left|right; right]; congruence.
    - apply steps_all_open in Hsteps. eapply Forall_impl; [exact Hsteps|].
      intros p Hp. apply (sameMaze_openAt _ _ _ (proj1 Hgrid')) in Hp.
      destruct Hp as (y & Hy & Hwy). exists y. split; [done|]. by right; right. }
  rewrite Hg2. simpl. rewrite cloneGrid_id.
  eexists _, rest. split; [done|]. simpl. split_and!; try done.
  - apply walkedLength_cons.
  - by apply markPath_marks in Hg2.
  - by eapply annotatedFrom_trans.
Qed.

(** *** The Q-learning walk *)

Lemma qBest_spec g qt p :
  Rect g →
  ∃ valid mq best, qBest g qt p.1 p.2 = Some (valid, mq, best)
    ∧ Forall (λ a, (a < 4)%nat ∧ openAt g (nbr p a)) valid
    ∧ best ⊆ valid.
Proof.
  intros HR. unfold qBest.
  assert (∀ ds acc, Forall (λ a, (a < 4)%nat) ds →
    Forall (λ a, (a < 4)%nat ∧ openAt g (nbr p a)) acc.1.1 →
    acc.2 ⊆ acc.1.1 →
    ∃ acc', foldl (qBestStep g qt p.1 p.2) (Some acc) ds = Some acc'
      ∧ Forall (λ a, (a < 4)%nat ∧ openAt g (nbr p a)) acc'.1.1
      ∧ acc'.2 ⊆ acc'.1.1) as Hfold.
  { induction ds as [|d ds IH]; intros acc Hds Hv Hb; [by exists acc|].
    apply Forall_cons in Hds as [Hd Hds]. cbn [foldl].
    assert (∃ acc1, qBestStep g qt p.1 p.2 (Some acc) d = Some acc1
      ∧ Forall (λ a, (a < 4)%nat ∧ openAt g (nbr p a)) acc1.1.1
      ∧ acc1.2 ⊆ acc1.1.1) as (acc1 & -> & Hv1 & Hb1); [|by apply IH].
    unfold qBestStep. simpl.
    destruct (inBounds (rows g) (cols g) (p.1 + dx d) (p.2 + dy d)) eqn:Eb;
      [|by exists acc].
    destruct (proj2 (get2_is_Some g _ _ HR) Eb) as [x Hx]. rewrite Hx. simpl.
    destruct (isWall x) eqn:Ew; [by exists acc|].
    assert (Forall (λ a, (a < 4)%nat ∧ openAt g (nbr p a)) (acc.1.1 ++ [d]))
      as Hv'.
    { apply Forall_app. split; [done|]. apply Forall_singleton.
      split; [done|]. by exists x. }
    destruct (exceeds _ _).
    - eexists. split; [done|]. simpl. split; [done|].
      intros a Ha. apply list_elem_of_singleton in Ha as ->.
      apply elem_of_app. right. by apply list_elem_of_singleton.
    - destruct (equals _ _).
      + eexists. split; [done|]. simpl. split; [done|].
        intros a Ha. apply elem_of_app in Ha as [Ha|Ha];
          apply elem_of_app; [left; by apply Hb|by right].
      + eexists. split; [done|]. simpl. split; [done|].
        intros a Ha. apply elem_of_app. left. by apply Hb. }
  destruct (Hfold [0; 1; 2; 3]%nat ([], None, []))
    as ([[valid mq] best] & Hf & Hv & Hb).
  { repeat constructor. }
  { constructor. }
  { done. }
  by exists valid, mq, best.
Qed.

Section QExplore.
Variables (g : MazeGrid) (e : Pos) (qt : gmap Pos (gmap nat Q)).
Variable ω : RandomSource.
Hypothesis Hω : ValidRandom ω.

Lemma qExploreLoop_spec budget :
  ∀ k grid p seen vis m out,
  annotatedFrom g grid → is_Some (get2 g p.1 p.2) → stepsFrom g out →
  ∃ grid' rest m' out' q,
    qExploreLoop ω budget k grid e qt p.1 p.2 (seen ++ [p]) vis m out
      = Some (grid', seen ++ [p] ++ rest, m', out')
    ∧ annotatedFrom g grid' ∧ stepsFrom g out' ∧ steps g p rest q.
Proof.
  induction budget as [|budget IH]; intros k grid p seen vis m out Hgrid Hp Hout.
  { exists grid, [], m, out, p. by split_and!. }
  destruct p as [r c]. cbn [qExploreLoop fst snd].
  destruct (decide ((r, c) = e)) as [He|He].
  { eexists grid, [], _, out, (r, c). by split_and!. }
  destruct Hp as [x Hx]. simpl in Hx.
  destruct (sameMaze_get2 _ _ _ _ _ (proj1 Hgrid) Hx) as (x0 & Hx0 & _).
  destruct (markVisited_is_Some grid r c) as [grid1 Hg1]; [by eexists|].
  rewrite Hg1. simpl. rewrite cloneGrid_id.
  assert (annotatedFrom g grid1) as Hgrid1.
  { eapply annotatedFrom_trans; [exact Hgrid|].
    eapply markVisited_spec; [apply Hgrid|exact Hg1]. }
  assert (Rect grid1) as HR1 by apply Hgrid1.
  destruct (qBest_spec grid1 qt (r, c) HR1)
    as (valid & mq & best & Hq & Hvalid & Hbest).
  simpl in Hq. rewrite Hq. simpl.
  assert (stepsFrom g (out ++ [mkStep grid1 (countVisit m)])) as Hout1.
  { apply Forall_app. split; [done|]. by apply Forall_singleton. }
  destruct (decide (length valid = 0%nat)) as [Hv0|Hv0].
  { exists grid1, [], (countVisit m), (out ++ [mkStep grid1 (countVisit m)]),
      (r, c). by split_and!. }
  set (choices := if decide (0 < length best)%nat then best else valid).
  assert ((0 < length choices)%nat ∧ choices ⊆ valid) as [Hlen Hsub].
  { unfold choices. destruct (decide (0 < length best)%nat); [done|].
    split; [lia|done]. }
  destruct (lookup_lt_is_Some_2 choices
              (randomIndex (ω k) (length choices))) as [a Ha].
  { apply randomIndex_lt; [apply Hω..|done]. }
  rewrite Ha. simpl.
  assert ((a < 4)%nat ∧ openAt g (nbr (r, c) a)) as [Ha4 Hoa].
  { apply list_elem_of_lookup_2 in Ha. apply Hsub in Ha.
    rewrite Forall_forall in Hvalid. destruct (Hvalid a Ha) as [? Ho].
    split; [done|]. by apply (sameMaze_openAt g grid1); [apply Hgrid1|]. }
  destruct (decide ((r + dx a, c + dy a) ∈ vis)).
  { exists grid1, [], (countVisit m), (out ++ [mkStep grid1 (countVisit m)]),
      (r, c). by split_and!. }
  destruct (IH (S k) grid1 (nbr (r, c) a) (seen ++ [(r, c)])
              ({[(r + dx a, c + dy a)]} ∪ vis) (countVisit m)
              (out ++ [mkStep grid1 (countVisit m)]))
    as (grid' & rest & m' & out' & q & Hloop & Hgrid' & Hout' & Hsteps);
    try done.
  { destruct Hoa as (y & Hy & _). by eexists. }
  exists grid', (nbr (r, c) a :: rest), m', out', q.
  split_and!; [|done..|].
  - etrans; [exact Hloop|]. unfold nbr. simpl. by rewrite <- !app_assoc.
  - simpl. split_and!; [by exists a|done..].
Qed.
End QExplore.

Lemma runQLearningExploration_spec g s e ω qt :
  WellFormed g s e → ValidRandom ω →
  ∃ w rest q,
    runQLearningExploration ω g qt = Some w
    ∧ walkPath w = s :: rest
    ∧ steps g s rest q
    ∧ pathLength (result (walkRun w)) = Z.of_nat (length rest)
    ∧ pathMarked (working (walkRun w)) (walkPath w)
    ∧ annotatedFrom g (working (walkRun w)).
Proof.
  intros WF Hω. pose proof (WellFormed_Rect g s e WF) as HR.
  unfold runQLearningExploration.
  rewrite cloneGrid_id, (WellFormed_find g s e WF). simpl.
  assert (is_Some (get2 g s.1 s.2)) as Hs.
  { destruct WF as (_ & (x & Hx & _) & _). by eexists. }
  destruct (qExploreLoop_spec g e qt ω Hω (length g * Z.to_nat (cols g) * 2)
              0%nat g s [] {[s]} (mkMetrics 0 0 false) [])
    as (grid' & rest & m' & out' & q & Hloop & Hgrid' & Hout' & Hsteps).
  { by apply annotatedFrom_refl. }
  { done. }
  { constructor. }
  simpl in Hloop.
  match goal with
  | |- context [qExploreLoop ?a ?b ?c ?d ?e ?f ?g ?h ?i ?j ?k ?l] =>
      replace (qExploreLoop a b c d e f g h i j k l)
        with (Some (grid', s :: rest, m', out')) by (symmetry; exact Hloop)
  end. simpl.
  destruct (markPath_spec grid' (s :: rest)) as (grid2 & Hg2 & Hgrid2).
  { apply Hgrid'. }
  { apply Forall_cons. split.
    - destruct (WellFormed_start g s e WF) as (y & Hy & Hy').
      destruct (sameMaze_get2 _ _ _ _ _ (proj1 Hgrid') Hy) as (y1 & Hy1 & Hsy).
      apply staticOf_inv in Hsy as (_ & _ & ? & ? & ?).
      exists y1. split; [done|].
      destruct Hy' as [?|[?|?]]; [left|right; left|right; right]; congruence.
    - pose proof (steps_all_open _ _ _ _ Hsteps) as Hall.
      eapply Forall_impl; [exact Hall|].
      intros p Hp. apply (sameMaze_openAt _ _ _ (proj1 Hgrid')) in Hp.
      destruct Hp as (y & Hy & Hwy). exists y. split; [done|]. by right; right. }
  rewrite Hg2. simpl. rewrite cloneGrid_id.
  eexists _, rest, q. split; [done|]. simpl. split_and!; try done.
  - apply walkedLength_cons.
  - by apply markPath_marks in Hg2.
  - by eapply annotatedFrom_trans.
Qed.

(** ** Monte Carlo training *)

(** *** The choice of an action *)

Lemma validActionsOf_spec g vf vis r c :
  Rect g →
  ∃ va av, validActionsOf g vf vis r c = Some (va, av)
    ∧ length va = length av
    ∧ Forall (λ a, (a < 4)%nat ∧ openAt g (r + dx a, c + dy a)
                   ∧ (r + dx a, c + dy a) ∉ vis) va.
Proof.
  intros HR. unfold validActionsOf.
  assert (∀ ds acc, Forall (λ a, (a < 4)%nat) ds →
    length acc.1 = length acc.2 →
    Forall (λ a, (a < 4)%nat ∧ openAt g (r + dx a, c + dy a)
                 ∧ (r + dx a, c + dy a) ∉ vis) acc.1 →
    ∃ acc', foldl (validStep g vf vis r c) (Some acc) ds = Some acc'
      ∧ length acc'.1 = length acc'.2
      ∧ Forall (λ a, (a < 4)%nat ∧ openAt g (r + dx a, c + dy a)
                     ∧ (r + dx a, c + dy a) ∉ vis) acc'.1) as Hfold.
  { induction ds as [|d ds IH]; intros acc Hds Hlen Hall; [by exists acc|].
    apply Forall_cons in Hds as [Hd Hds]. cbn [foldl].
    assert (∃ acc1, validStep g vf vis r c (Some acc) d = Some acc1
      ∧ length acc1.1 = length acc1.2
      ∧ Forall (λ a, (a < 4)%nat ∧ openAt g (r + dx a, c + dy a)
                     ∧ (r + dx a, c + dy a) ∉ vis) acc1.1)
      as (acc1 & -> & Hlen1 & Hall1); [|by apply IH].
    unfold validStep. simpl.
    destruct (inBounds (rows g) (cols g) (r + dx d) (c + dy d)) eqn:Eb;
      [|by exists acc].
    destruct (proj2 (get2_is_Some g _ _ HR) Eb) as [x Hx]. rewrite Hx. simpl.
    destruct (isWall x) eqn:Ew; simpl; [by exists acc|].
    case_bool_decide as Hvis; [|by exists acc].
    eexists. split; [done|]. simpl. split.
    - rewrite !length_app. simpl. lia.
    - apply Forall_app. split; [done|]. apply Forall_singleton.
      split_and!; [done| |done]. by exists x. }
  destruct (Hfold [0; 1; 2; 3]%nat ([], [])) as ([va av] & Hf & Hlen & Hall).
  { repeat constructor. }
  { done. }
  { constructor. }
  by exists va, av.
Qed.

Lemma maxIndicesOf_spec (av : list Q) :
  av ≠ [] →
  maxIndicesOf av ≠ [] ∧ Forall (λ i, (i < length av)%nat) (maxIndicesOf av).
Proof.
  intros Hne. unfold maxIndicesOf.
  assert (∀ l acc, Forall (λ iv : nat * Q, (iv.1 < length av)%nat) l →
    Forall (λ i, (i < length av)%nat) acc.2 →
    (acc.1 = None ∧ l ≠ [] ∨ is_Some acc.1 ∧ acc.2 ≠ []) →
    let acc' := foldl maxStep acc l in
    acc'.2 ≠ [] ∧ Forall (λ i, (i < length av)%nat) acc'.2) as Hfold.
  { induction l as [|[i v] l IH]; intros acc Hl Hacc Hinv.
    { simpl. destruct Hinv as [[_ ?]|[_ ?]]; done. }
    apply Forall_cons in Hl as [Hi Hl]. cbn [foldl]. apply IH; [done| |].
    - unfold maxStep. simpl. destruct (exceeds v acc.1).
      + simpl. by apply Forall_singleton.
      + destruct (equals v acc.1); [|done]. simpl.
        apply Forall_app. split; [done|]. by apply Forall_singleton.
    - right. unfold maxStep. simpl.
      destruct (exceeds v acc.1) eqn:Eex; [by split|].
      destruct Hinv as [[Hnone _]|[Hsome Hacc2]].
      { rewrite Hnone in Eex. done. }
      destruct (equals v acc.1); [|done]. simpl. split; [done|].
      by destruct acc.2. }
  apply Hfold.
  - apply Forall_forall. intros [i v] Hiv.
    apply elem_of_lookup_imap_1 in Hiv as (j & y & Heq & Hj).
    injection Heq as -> ->. simpl. by apply lookup_lt_Some in Hj.
  - constructor.
  - left. split; [done|]. intros Himap.
    apply (f_equal length) in Himap. rewrite length_imap in Himap.
    by destruct av.
Qed.

Lemma chooseAction_spec ω k epsilon (va : list nat) (av : list Q) :
  ValidRandom ω → length va = length av → (0 < length va)%nat →
  ∃ idx, chooseAction ω k epsilon va av = Some idx ∧ (idx < length va)%nat.
Proof.
  intros Hω Hlen Hpos. unfold chooseAction.
  destruct (Qlt_le_dec (ω k) epsilon).
  - eexists. split; [done|]. by apply randomIndex_lt; [apply Hω..|].
  - destruct (maxIndicesOf_spec av) as [Hne Hall].
    { intros ->. simpl in Hlen. lia. }
    destruct (lookup_lt_is_Some_2 (maxIndicesOf av)
                (randomIndex (ω (S k)) (length (maxIndicesOf av))))
      as [idx Hidx].
    { apply randomIndex_lt; [apply Hω..|].
      destruct (maxIndicesOf av); [done|simpl; lia]. }
    exists idx. split; [done|]. rewrite Hlen.
    rewrite Forall_forall in Hall. apply Hall.
    by eapply list_elem_of_lookup_2.
Qed.

(** *** One episode *)

Section Episode.
Variables (g : MazeGrid) (e : Pos) (vf : gmap Pos Q).
Variables (ω : RandomSource) (epsilon : Q).
Hypothesis HR : Rect g.
Hypothesis Hω : ValidRandom ω.

(** The cells of an episode are pairwise distinct, and an episode that
    uses up its budget has pushed one cell per round. *)
Lemma episodeLoop_spec budget :
  ∀ k p T, NoDup T → p ∉ T →
  ∃ T' outcome k',
    episodeLoop ω budget k g e vf epsilon p.1 p.2 T (list_to_set T)
      = Some (T ++ T', outcome, k')
    ∧ NoDup (T ++ T')
    ∧ (∀ q, q ∈ T' → q = p ∨ openAt g q)
    ∧ match outcome with
      | OutcomeMaxSteps => length T' = budget
      | OutcomeGoal => last (T ++ T') = Some e
      | OutcomeStuck => T' ≠ []
      end.
Proof.
  induction budget as [|budget IH]; intros k p T HT Hp.
  { exists [], OutcomeMaxSteps, k. rewrite app_nil_r. split_and!; try done.
    intros q Hq. by apply elem_of_nil in Hq. }
  destruct p as [r c]. cbn [episodeLoop fst snd].
  assert (NoDup (T ++ [(r, c)])) as HT1.
  { apply NoDup_app. split_and!; [done| |apply NoDup_singleton].
    intros x Hx Hx'. apply list_elem_of_singleton in Hx' as ->. done. }
  assert (∀ q, q ∈ [(r, c)] → q = (r, c) ∨ openAt g q) as Hone.
  { intros q Hq. apply list_elem_of_singleton in Hq. by left. }
  destruct (decide ((r, c) = e)) as [He|He].
  { exists [(r, c)], OutcomeGoal, k. split_and!; try done.
    rewrite last_snoc. by f_equal. }
  assert (({[(r, c)]} ∪ list_to_set T : gset Pos)
          = list_to_set (T ++ [(r, c)])) as -> by set_solver.
  destruct (validActionsOf_spec g vf (list_to_set (T ++ [(r, c)])) r c HR)
    as (va & av & Hva & Hlen & Hall).
  rewrite Hva. simpl.
  destruct (decide (length va = 0%nat)) as [Hv0|Hv0].
  { exists [(r, c)], OutcomeStuck, k. by split_and!. }
  destruct (chooseAction_spec ω k epsilon va av Hω Hlen) as (idx & Hidx & Hlt);
    [lia|].
  rewrite Hidx. simpl.
  destruct (lookup_lt_is_Some_2 va idx Hlt) as [a Ha]. rewrite Ha. simpl.
  rewrite Forall_forall in Hall.
  destruct (Hall a) as (Ha4 & Hoa & Hnew); [by eapply list_elem_of_lookup_2|].
  destruct (IH (S (S k)) (r + dx a, c + dy a) (T ++ [(r, c)]) HT1)
    as (T' & outcome & k' & Hloop & HT' & Hopen & Hout).
  { intros Hin. apply Hnew. by apply elem_of_list_to_set. }
  exists ((r, c) :: T'), outcome, k'. split_and!.
  - etrans; [exact Hloop|]. by rewrite <- app_assoc.
  - by rewrite <- app_assoc in HT'.
  - intros q Hq. apply elem_of_cons in Hq as [->|Hq]; [by left|].
    right. destruct (Hopen q Hq) as [->|?]; done.
  - destruct outcome; [| |simpl; lia]; [|done].
    by rewrite <- app_assoc in Hout.
Qed.
End Episode.

(** Distinct cells of the grid are at most rows times columns many. *)
Lemma cells_bound (g : MazeGrid) (L : list Pos) :
  Rect g → NoDup L → (∀ p, p ∈ L → is_Some (get2 g p.1 p.2)) →
  (length L ≤ length g * Z.to_nat (cols g))%nat.
Proof.
  intros HR HL Hin.
  rewrite <- (positions_length (length g) (Z.to_nat (cols g))).
  apply submseteq_length, NoDup_submseteq; [done|].
  intros p Hp. apply positions_elem.
  specialize (Hin p Hp). apply get2_is_Some in Hin; [|done].
  apply inBounds_spec in Hin. unfold rows in Hin. lia.
Qed.

(** The start position returned by [findPositions] is a cell of the grid
    unless the grid has no cells. *)
Lemma findPositions_start_cell (g : MazeGrid) s e :
  Rect g → findPositions g = Some (s, e) →
  (0 < length g * Z.to_nat (cols g))%nat → is_Some (get2 g s.1 s.2).
Proof.
  intros HR Hf Hpos.
  destruct (findPositions_total g HR) as (s' & e' & Hf' & Hs & _).
  rewrite Hf in Hf'. injection Hf' as <- <-.
  destruct Hs as [[-> _]|(x & Hx & _)]; [|by eexists].
  apply get2_is_Some; [done|]. apply inBounds_spec. unfold rows. simpl. nia.
Qed.

(** An episode started as [runMonteCarlo] starts it ends at the goal or
    stuck, unless the grid has no cells and the episode no rounds. *)
Lemma episode_spec g s e vf ω epsilon k :
  Rect g → ValidRandom ω → findPositions g = Some (s, e) →
  ∃ trajectory outcome k',
    episodeLoop ω (length g * Z.to_nat (cols g) * 2) k g e vf epsilon
                s.1 s.2 [] ∅ = Some (trajectory, outcome, k')
    ∧ NoDup trajectory
    ∧ match outcome with
      | OutcomeMaxSteps => trajectory = []
      | OutcomeGoal => last trajectory = Some e
      | OutcomeStuck => trajectory ≠ []
      end.
Proof.
  intros HR Hω Hf.
  destruct (episodeLoop_spec g e vf ω epsilon HR Hω
              (length g * Z.to_nat (cols g) * 2) k s [])
    as (T & outcome & k' & Hloop & HT & Hopen & Hout).
  { constructor. }
  { apply not_elem_of_nil. }
  simpl in Hloop, HT, Hout. exists T, outcome, k'. split_and!; [done..|].
  destruct outcome; [done..|].
  destruct (decide (length g * Z.to_nat (cols g) = 0)%nat) as [H0|H0].
  { rewrite H0 in Hout. by destruct T. }
  assert (length T ≤ length g * Z.to_nat (cols g))%nat; [|lia].
  apply cells_bound; [done..|]. intros p Hp.
  destruct (Hopen p Hp) as [->|(x & Hx & _)]; [|by eexists].
  eapply findPositions_start_cell; [done..|lia].
Qed.

(** *** The returns of an episode *)

Lemma reward_inner o rv sp n i : i ≠ (n - 1)%nat → reward o rv sp n i = 0%Q.
Proof. intros Hi. unfold reward. by rewrite decide_False. Qed.

Lemma reward_last o rv sp n :
  reward o rv sp n (n - 1) = match o with OutcomeGoal => rv | _ => sp end.
Proof. unfold reward. by rewrite decide_True. Qed.

Section Returns.
Variables (o : EpisodeOutcome) (rv sp γ : Q) (n : nat).

Lemma returns_fold (T : list Pos) :
  ∀ off, NoDup T → n = (off + length T)%nat →
  let acc := foldl (returnsStep o rv sp γ n) (∅, 0%Q)
                   (reverse (imap (λ i, pair (off + i)%nat) T)) in
  (T = [] → acc = (∅, 0%Q))
  ∧ (T ≠ [] → (acc.2 == reward o rv sp n (n - 1) * discount γ (length T - 1))%Q)
  ∧ (∀ j key, T !! j = Some key →
       ∃ v, acc.1 !! key = Some v
         ∧ (v == reward o rv sp n (n - 1) * discount γ (length T - 1 - j))%Q)
  ∧ (∀ key, is_Some (acc.1 !! key) → key ∈ T).
Proof.
  induction T as [|x T IH]; intros off HT Hn.
  { simpl. split_and!; try done.
    intros key [v Hv]. by rewrite lookup_empty in Hv. }
  apply NoDup_cons in HT as [Hx HT].
  rewrite imap_cons, reverse_cons, foldl_snoc.
  rewrite (imap_ext _ (λ i, pair (S off + i)%nat)); last first.
  { intros i y _. simpl. f_equal. lia. }
  specialize (IH (S off) HT). cbv zeta in IH.
  destruct IH as (Hnil & HG & Hlook & Hdom); [simpl in Hn; lia|].
  set (acc := foldl (returnsStep o rv sp γ n) (∅, 0%Q)
                    (reverse (imap (λ i, pair (S off + i)%nat) T))) in *.
  assert (acc.1 !! x = None) as Hnone.
  { destruct (acc.1 !! x) eqn:E; [|done]. destruct Hx. apply Hdom. by eexists. }
  unfold returnsStep. cbn [fst snd]. rewrite Hnone. cbn [falsy].
  set (G := (reward o rv sp n (off + 0) + γ * acc.2)%Q).
  assert (G == reward o rv sp n (n - 1) * discount γ (length T))%Q as HG'.
  { unfold G. simpl in Hn. destruct (decide (T = [])) as [HT0|HT0].
    - rewrite (Hnil HT0).
      assert (length T = 0%nat) as Hlen by (by rewrite HT0). rewrite Hlen.
      replace (off + 0)%nat with (n - 1)%nat by lia. simpl. ring.
    - assert (length T ≠ 0%nat) as Hlen by (by destruct T).
      rewrite reward_inner by lia. rewrite (HG HT0).
      destruct (length T) as [|m]; [done|].
      replace (S m - 1)%nat with m by lia. simpl discount. ring. }
  split_and!.
  - done.
  - intros _. simpl length. replace (S (length T) - 1)%nat with (length T) by lia.
    done.
  - intros j key Hj. destruct j as [|j]; simpl in Hj.
    + injection Hj as ->. exists G. rewrite lookup_insert_eq. split; [done|].
      simpl length. by replace (S (length T) - 1 - 0)%nat with (length T) by lia.
    + destruct (Hlook j key Hj) as (v & Hv & Hveq).
      exists v. rewrite lookup_insert_ne.
      * split; [done|]. simpl length.
        by replace (S (length T) - 1 - S j)%nat with (length T - 1 - j)%nat
          by lia.
      * intros ->. apply Hx. by eapply list_elem_of_lookup_2.
  - intros key Hkey. destruct (decide (key = x)) as [->|Hne];
      [apply elem_of_cons; by left|].
    rewrite lookup_insert_ne in Hkey by done.
    apply elem_of_cons. right. by apply Hdom.
Qed.
End Returns.

Lemma computeReturns_spec o rv sp γ (T : list Pos) :
  NoDup T →
  (∀ i key, T !! i = Some key →
     ∃ v, computeReturns o rv sp γ T !! key = Some v
       ∧ (v == reward o rv sp (length T) (length T - 1)
               * discount γ (length T - 1 - i))%Q)
  ∧ (∀ key, is_Some (computeReturns o rv sp γ T !! key) → key ∈ T).
Proof.
  intros HT. unfold computeReturns.
  destruct (returns_fold o rv sp γ (length T) T 0%nat HT eq_refl)
    as (_ & _ & Hlook & Hdom).
  split; [exact Hlook|exact Hdom].
Qed.

(** * The traversal engines on the caller's objects *)



















(** * The trails of the exploration walks *)




Section QTrail.
Variables (g : MazeGrid) (e : Pos) (qt : gmap Pos (gmap nat Q)).
Variable ω : RandomSource.
Hypothesis Hω : ValidRandom ω.

End QTrail.


(** * The claims *)

Lemma hasStart_elem g :
  hasStart g → ∃ line x, line ∈ g ∧ x ∈ line ∧ isStart x = true.
Proof.
  intros (r & c & x & Hx & Hs).
  apply get2_Some_lookup in Hx as (line & E & Hx & _).
  exists line, x. split_and!.
  - apply list_elem_of_lookup. eauto.
  - apply list_elem_of_lookup. eauto.
  - done.
Qed.

Lemma hasEnd_elem g :
  hasEnd g → ∃ line x, line ∈ g ∧ x ∈ line ∧ isEnd x = true.
Proof.
  intros (r & c & x & Hx & Hs).
  apply get2_Some_lookup in Hx as (line & E & Hx & _).
  exists line, x. split_and!.
  - apply list_elem_of_lookup. eauto.
  - apply list_elem_of_lookup. eauto.
  - done.
Qed.

Lemma ValidRandom_zero : ValidRandom zeroSource.
Proof. intros k. unfold zeroSource. split; [apply Qle_refl|reflexivity]. Qed.

Lemma ringMaze_WellFormed : WellFormed ringMaze (0, 1) (4, 3).
Proof. apply wellFormedb_spec. vm_compute. reflexivity. Qed.

Lemma ringMaze_reachable : reachable ringMaze (0, 1) (4, 3).
Proof.
  exists [(0, 1); (1, 1); (2, 1); (3, 1); (3, 2); (3, 3); (4, 3)].
  exists [(1, 1); (2, 1); (3, 1); (3, 2); (3, 3); (4, 3)].
  split; [done|]. split; [apply ringMaze_WellFormed|].
  assert (∀ p q : Pos, Z.abs (q.1 - p.1) + Z.abs (q.2 - p.2) = 1 → adjacent p q)
    as Hadj by (intros; by apply adjacent_dist).
  simpl. repeat split; try (apply Hadj; simpl; lia);
    eexists; (split; [vm_compute; reflexivity|reflexivity]).
Qed.

(** C5 (counterexample).  On a grid with no start and no end cell
    [findPositions] does not fail: it returns the default [[0, 0]] for
    both. *)
Lemma findPositions_no_terminals_returns :
  ¬ hasStart noTerminals ∧ ¬ hasEnd noTerminals
  ∧ findPositions noTerminals = Some ((0, 0), (0, 0)).
Proof.
  split_and!.
  - intros (line & x & Hl & Hx & Hs)%hasStart_elem.
    unfold noTerminals, gridOf in Hl. simpl in Hl.
    repeat (apply elem_of_cons in Hl as [->|Hl];
            [repeat (apply elem_of_cons in Hx as [->|Hx]; [done|]);
             by apply elem_of_nil in Hx|]).
    by apply elem_of_nil in Hl.
  - intros (line & x & Hl & Hx & Hs)%hasEnd_elem.
    unfold noTerminals, gridOf in Hl. simpl in Hl.
    repeat (apply elem_of_cons in Hl as [->|Hl];
            [repeat (apply elem_of_cons in Hx as [->|Hx]; [done|]);
             by apply elem_of_nil in Hx|]).
    by apply elem_of_nil in Hl.
  - vm_compute. reflexivity.
Qed.

(** C5 (amended).  [findPositions] applied to a rectangular grid always
    returns a pair of positions; when the grid has no start cell the start
    position returned is [[0, 0]], and when it has no end cell the end
    position returned is [[0, 0]].  No error is raised. *)
Theorem findPositions_defaults g :
  Rect g →
  ∃ s e, findPositions g = Some (s, e)
    ∧ (¬ hasStart g → s = (0, 0)) ∧ (¬ hasEnd g → e = (0, 0)).
Proof.
  intros HR. destruct (findPositions_total g HR) as (s & e & Hf & Hs & He).
  exists s, e. split; [done|]. split.
  - intros Hno. destruct Hs as [[-> _]|(x & Hx & Hst)]; [done|].
    destruct Hno. by exists s.1, s.2, x.
  - intros Hno. destruct He as [[-> _]|(x & Hx & Hst)]; [done|].
    destruct Hno. by exists e.1, e.2, x.
Qed.

Lemma findPositions_defaults_witness :
  ∃ s e, findPositions noTerminals = Some (s, e)
    ∧ (¬ hasStart noTerminals → s = (0, 0))
    ∧ (¬ hasEnd noTerminals → e = (0, 0)).
Proof. apply (findPositions_defaults noTerminals). repeat constructor. Defined.

(** C2.  On a well-formed grid [runBFS] returns, and when it reports
    [isPathFound = true] the reported [pathLength] is the edge count of a
    path from start to end over non-wall cells and no such path has fewer
    edges. *)
Theorem runBFS_shortest_path g s e fuel :
  WellFormed g s e →
  (length g * Z.to_nat (cols g) < fuel)%nat →
  ∃ run, runBFS fuel g = Some run ∧
    (isPathFound (result run) = true →
      (∃ path, pathBetween g s e path ∧ pathLength (result run) = edges path)
      ∧ ∀ path, pathBetween g s e path → pathLength (result run) ≤ edges path).
Proof.
  intros WF Hfuel.
  destruct (runBFS_spec g s e WF fuel Hfuel) as (run & Hrun & Hend & _).
  exists run. split; [done|]. intros Hfound. split.
  - by apply (SearchEnd_sound g s e WF BfsLevels run Hend).
  - intros path Hpath. by eapply SearchEnd_bfs_optimal.
Qed.

Lemma runBFS_shortest_path_witness :
  ∃ run, runBFS 26 ringMaze = Some run ∧
    (isPathFound (result run) = true →
      (∃ path, pathBetween ringMaze (0, 1) (4, 3) path
               ∧ pathLength (result run) = edges path)
      ∧ ∀ path, pathBetween ringMaze (0, 1) (4, 3) path →
          pathLength (result run) ≤ edges path).
Proof.
  apply (runBFS_shortest_path ringMaze (0, 1) (4, 3) 26).
  - apply wellFormedb_spec. vm_compute. reflexivity.
  - vm_compute. lia.
Defined.

(** C6.  On a well-formed grid with a path from start to end, the three
    engines return and find a path; [runBFS] and [runAStar] report the same
    [pathLength], and whatever the random source of [runDFS] draws, the
    [pathLength] of [runBFS] is at most that of [runDFS]. *)
Theorem bfs_astar_dfs_pathLength {Q} `{PriorityQueue Q} g s e ω fuel :
  WellFormed g s e → reachable g s e → ValidRandom ω →
  (4 * (length g * Z.to_nat (cols g)) + 1 < fuel)%nat →
  ∃ bfs astar dfs,
    runBFS fuel g = Some bfs
    ∧ runAStar (Q := Q) fuel g = Some astar
    ∧ runDFS ω fuel g = Some dfs
    ∧ isPathFound (result bfs) = true
    ∧ isPathFound (result astar) = true
    ∧ isPathFound (result dfs) = true
    ∧ pathLength (result bfs) = pathLength (result astar)
    ∧ pathLength (result bfs) ≤ pathLength (result dfs).
Proof.
  intros WF Hreach Hω Hfuel.
  destruct (runBFS_spec g s e WF fuel) as (bfs & Hbfs & Ebfs & _); [lia|].
  destruct (runAStar_spec g s e WF (Q := Q) fuel) as (astar & Hastar & Eastar & _);
    [lia|].
  destruct (runDFS_spec g s e WF ω fuel Hω) as (dfs & Hdfs & Edfs & _); [lia|].
  exists bfs, astar, dfs. split_and!; [done..| | | | |].
  all: pose proof (SearchEnd_sound g s e WF _ _ Ebfs) as (Bf & Bn & _).
  all: pose proof (SearchEnd_sound g s e WF _ _ Edfs) as (Df & Dn & _).
  all: pose proof (AStarEnd_sound g s e WF _ Eastar) as (Af & An & _).
  all: assert (isPathFound (result bfs) = true) as Fb
         by (destruct (isPathFound (result bfs)); [done|by destruct Bn]).
  all: assert (isPathFound (result astar) = true) as Fa
         by (destruct (isPathFound (result astar)); [done|by destruct An]).
  all: assert (isPathFound (result dfs) = true) as Fd
         by (destruct (isPathFound (result dfs)); [done|by destruct Dn]).
  all: try done.
  - destruct (Bf Fb) as (pb & Hpb & Hlb).
    destruct (Af Fa) as [(pa & Hpa & Hla) Hopta].
    pose proof (SearchEnd_bfs_optimal g s e WF bfs pa Ebfs Fb Hpa).
    specialize (Hopta pb Hpb). lia.
  - destruct (Df Fd) as (pd & Hpd & Hld).
    pose proof (SearchEnd_bfs_optimal g s e WF bfs pd Ebfs Fb Hpd). lia.
Qed.

Lemma bfs_astar_dfs_pathLength_witness :
  ∃ bfs astar dfs,
    runBFS 102 ringMaze = Some bfs
    ∧ runAStar (Q := list AStarNode) 102 ringMaze = Some astar
    ∧ runDFS zeroSource 102 ringMaze = Some dfs
    ∧ isPathFound (result bfs) = true
    ∧ isPathFound (result astar) = true
    ∧ isPathFound (result dfs) = true
    ∧ pathLength (result bfs) = pathLength (result astar)
    ∧ pathLength (result bfs) ≤ pathLength (result dfs).
Proof.
  apply (bfs_astar_dfs_pathLength ringMaze (0, 1) (4, 3) zeroSource 102).
  - apply wellFormedb_spec. vm_compute. reflexivity.
  - apply ringMaze_reachable.
  - apply ValidRandom_zero.
  - vm_compute. lia.
Defined.







(** C1.  For [rows >= 5] and [cols >= 5] and every random source,
    [generateMaze] returns a grid of that size in which the cells flagged
    [isStart] are exactly the cell (0, 1), the cells flagged [isEnd] are
    exactly the cell (rows-1, cols-2), and every non-wall cell, the end cell
    among them, is reachable from the start cell through orthogonally
    adjacent non-wall cells. *)
Theorem generateMaze_connected ω (nrows ncols : nat) :
  (5 ≤ nrows)%nat → (5 ≤ ncols)%nat →
  let start : Pos := (0, 1) in
  let endp : Pos := (Z.of_nat nrows - 1, Z.of_nat ncols - 2) in
  ∃ grid, generateMaze ω (nrows * ncols + 1) nrows ncols = Some grid
    ∧ length grid = nrows ∧ cols grid = Z.of_nat ncols ∧ Rect grid
    ∧ (∀ p, startAt grid p ↔ p = start)
    ∧ (∀ p, endAt grid p ↔ p = endp)
    ∧ (∀ p, openAt grid p → reachable grid start p)
    ∧ reachable grid start endp.
Proof.
  intros HR HC start endp.
  destruct (generateMaze_spec ω nrows ncols HR HC)
    as (grid & Hgen & Hr & Hc & WF & Hreach).
  exists grid. destruct WF as (HRect & Hos & Hoe & Hs & He).
  split_and!; try done.
  - unfold rows in Hr. lia.
  - by apply Hreach.
Qed.

Lemma generateMaze_connected_witness :
  ∃ grid, generateMaze zeroSource (5 * 5 + 1) 5 5 = Some grid
    ∧ length grid = 5%nat ∧ cols grid = 5 ∧ Rect grid
    ∧ (∀ p, startAt grid p ↔ p = (0, 1))
    ∧ (∀ p, endAt grid p ↔ p = (4, 3))
    ∧ (∀ p, openAt grid p → reachable grid (0, 1) p)
    ∧ reachable grid (0, 1) (4, 3).
Proof. apply (generateMaze_connected zeroSource 5 5); lia. Defined.

(** C7 (counterexample).  On [ringMaze] with the value function
    [backToStart] the walk of [runMonteCarloExploration] is
    (0,1), (1,1), (0,1), (1,1): it passes the start cell a second time and
    goes on from there, which the walk of the claim, stopping on every cell
    already visited after the first step, never does.  And where several
    neighbours tie for the highest value, as around (1,1) under the empty
    value function, the action chosen is the first one in the order up,
    right, down, left; no random draw is involved. *)
Lemma runMonteCarloExploration_passes_start_twice :
  (∃ w, runMonteCarloExploration ringMaze backToStart = Some w
     ∧ walkPath w = [(0, 1); (1, 1); (0, 1); (1, 1)]
     ∧ pathLength (result (walkRun w)) = 3)
  ∧ (∀ budget found,
       ¬ mcWalkClaimed ringMaze backToStart (4, 3) budget [] (0, 1)
           [(1, 1); (0, 1); (1, 1)] found)
  ∧ bestAction ringMaze ∅ 1 1 = Some (Some 0%nat)
  ∧ greedyAny ringMaze ∅ (1, 1) 2.
Proof.
  split_and!.
  - eexists. split; [vm_compute; reflexivity|]. split; reflexivity.
  - intros budget found Hw.
    apply mcWalkClaimed_cons_inv in Hw as (_ & b1 & _ & Hw).
    apply mcWalkClaimed_cons_inv in Hw as (_ & b2 & _ & Hw).
    apply mcWalkClaimed_cons_inv in Hw as (Hnin & _).
    apply Hnin. simpl. apply elem_of_cons. by left.
  - vm_compute. reflexivity.
  - split; [lia|]. split.
    + eexists. split; [vm_compute; reflexivity|reflexivity].
    + intros d Hd _. unfold valueAt. rewrite !lookup_empty. simpl.
      apply Qle_refl.
Qed.

(** C7 (amended).  On a well-formed grid [runMonteCarloExploration]
    returns, and its trace is the greedy walk [mcWalk] from the start cell
    with the budget rows*cols*2: at each cell it moves to the non-wall
    neighbour of highest learned value, the first such in the order up,
    right, down, left; it stops when the goal is reached, when no
    neighbour is a non-wall cell, when the cell it stands on was already
    visited and is not the start cell, or when the budget is used up.
    Every cell of the trace other than start and end is marked [isPath]
    in the final grid, whether or not the goal was reached. *)
Theorem runMonteCarloExploration_greedy_walk g s e vf :
  WellFormed g s e →
  ∃ w rest,
    runMonteCarloExploration g vf = Some w
    ∧ walkPath w = s :: rest
    ∧ mcWalk g vf s e (length g * Z.to_nat (cols g) * 2) [] s rest
             (isPathFound (result (walkRun w)))
    ∧ pathMarked (working (walkRun w)) (walkPath w).
Proof.
  intros WF.
  destruct (runMonteCarloExploration_spec g s e vf WF)
    as (w & rest & Hrun & Hpath & Hwalk & _ & Hmarked & _).
  by exists w, rest.
Qed.

Lemma runMonteCarloExploration_greedy_walk_witness :
  ∃ w rest,
    runMonteCarloExploration ringMaze backToStart = Some w
    ∧ walkPath w = (0, 1) :: rest
    ∧ mcWalk ringMaze backToStart (0, 1) (4, 3)
             (length ringMaze * Z.to_nat (cols ringMaze) * 2) [] (0, 1) rest
             (isPathFound (result (walkRun w)))
    ∧ pathMarked (working (walkRun w)) (walkPath w).
Proof.
  apply (runMonteCarloExploration_greedy_walk ringMaze (0, 1) (4, 3)).
  apply wellFormedb_spec. vm_compute. reflexivity.
Defined.




(** An episode on a grid without cells has no round: it ends on its
    budget with an empty trajectory. *)
Example episode_without_cells :
  findPositions noCells = Some ((0, 0), (0, 0))
  ∧ episodeLoop zeroSource (length noCells * Z.to_nat (cols noCells) * 2) 0
                noCells (0, 0) ∅ (1 # 10) 0 0 [] ∅
    = Some ([], OutcomeMaxSteps, 0%nat).
Proof. split; reflexivity. Qed.

(** C3.  Every training episode of [runMonteCarlo] (the loop is started
    from the start cell with the budget rows*cols*2, whatever the value
    function and the random draws so far) returns a trajectory and an
    outcome such that the reward assigned at an index of the trajectory is
    zero except at the last one, where it is [rewardValue] if the outcome
    is 'goal' and [stuckPenalty] if it is 'stuck'; an episode that ends by
    using up its budget has an empty trajectory, so no reward is assigned
    and no return is recorded.  Accordingly the return recorded for the
    cell at index [i] is the terminal reward discounted [n - 1 - i] times. *)
Theorem episode_terminal_reward g s e ω vf epsilon γ rv sp k :
  Rect g → findPositions g = Some (s, e) → ValidRandom ω →
  ∃ trajectory outcome k',
    episodeLoop ω (length g * Z.to_nat (cols g) * 2) k g e vf epsilon
                s.1 s.2 [] ∅ = Some (trajectory, outcome, k')
    ∧ (∀ i, (i < length trajectory)%nat →
         reward outcome rv sp (length trajectory) i
         = if decide (i = (length trajectory - 1)%nat)
           then terminalReward outcome rv sp else 0%Q)
    ∧ (outcome = OutcomeMaxSteps →
         trajectory = [] ∧ computeReturns outcome rv sp γ trajectory = ∅)
    ∧ (∀ i key, trajectory !! i = Some key →
         ∃ v, computeReturns outcome rv sp γ trajectory !! key = Some v
           ∧ (v == terminalReward outcome rv sp
                   * discount γ (length trajectory - 1 - i))%Q).
Proof.
  intros HR Hf Hω.
  destruct (episode_spec g s e vf ω epsilon k HR Hω Hf)
    as (T & outcome & k' & Hloop & HT & Hout).
  exists T, outcome, k'. split; [done|].
  assert (outcome = OutcomeMaxSteps → T = []) as Hmax.
  { intros ->. done. }
  assert (T ≠ [] →
    reward outcome rv sp (length T) (length T - 1)
    = terminalReward outcome rv sp) as Hlast.
  { intros HT0. rewrite reward_last. by destruct outcome. }
  split_and!.
  - intros i Hi. case_decide as Hd.
    + rewrite Hd. apply Hlast. intros ->. simpl in Hi. lia.
    + by apply reward_inner.
  - intros Ho. rewrite (Hmax Ho). done.
  - intros i key Hi.
    destruct (computeReturns_spec outcome rv sp γ T HT) as [Hlook _].
    destruct (Hlook i key Hi) as (v & Hv & Hveq).
    exists v. split; [done|]. rewrite <- Hlast; [done|].
    intros ->. done.
Qed.

Lemma episode_terminal_reward_witness :
  ∃ trajectory outcome k',
    episodeLoop zeroSource (length ringMaze * Z.to_nat (cols ringMaze) * 2) 0
                ringMaze (4, 3) ∅ (1 # 10) (0, 1).1 (0, 1).2 [] ∅
      = Some (trajectory, outcome, k')
    ∧ (∀ i, (i < length trajectory)%nat →
         reward outcome 100 (-1) (length trajectory) i
         = if decide (i = (length trajectory - 1)%nat)
           then terminalReward outcome 100 (-1) else 0%Q)
    ∧ (outcome = OutcomeMaxSteps →
         trajectory = []
         ∧ computeReturns outcome 100 (-1) (9 # 10) trajectory = ∅)
    ∧ (∀ i key, trajectory !! i = Some key →
         ∃ v, computeReturns outcome 100 (-1) (9 # 10) trajectory !! key
              = Some v
           ∧ (v == terminalReward outcome 100 (-1)
                   * discount (9 # 10) (length trajectory - 1 - i))%Q).
Proof.
  apply (episode_terminal_reward ringMaze (0, 1) (4, 3) zeroSource).
  - repeat constructor.
  - vm_compute. reflexivity.
  - apply ValidRandom_zero.
Defined.

(** C4 (failing inputs).  [runMonteCarlo] on [ringMaze] with two episodes:
    the metrics of the step emitted after the first episode refer to the
    very value function and history objects of the engine's own metrics.
    When that step was emitted the value of cell (2, 1) read through it
    was 0 and the history had two entries; at the end of the run, read
    through the same emitted step, the value of (2, 1) is -0.531441 and
    the history has four entries.
    [runQLearning] on the caller's grid object (location 0 of the caller's
    heap) with two episodes: the first emitted step carries location 0
    itself as its grid; its Q-table is an object of its own, but the row
    of state (3, 3) in it is the engine's row object, and the Q-value of
    moving down from (3, 3), 0.1 when the step was emitted, reads 0.19
    through the same step at the end of the run. *)
Theorem training_snapshots_aliased :
  let mc :=
    runMonteCarlo downSecondTime ringMaze 2 (1 # 10) (9 # 10) 100 (-1) in
  let ql :=
    runQLearning leftCorridor [GridObj ringMaze] 0%nat 2
                 (1 # 10) (9 # 10) (1 # 10) 1 (-1) in
  firstStepShares mc = Some true
  ∧ firstStepRead mc false (2, 1) = Some (0%Q, 2%nat)
  ∧ firstStepRead mc true (2, 1) = Some ((-531441 # 1000000)%Q, 4%nat)
  ∧ firstQStepGrid ql = Some 0%nat
  ∧ firstQStepTable ql (3, 3) = Some (true, true)
  ∧ firstQStepRead ql false (3, 3) 2%nat = Some (1 # 10)%Q
  ∧ firstQStepRead ql true (3, 3) 2%nat = Some (19 # 100)%Q.
Proof. split_and!; vm_compute; reflexivity. Qed.

(** * Further properties of the traversal engines *)

(** ** The steps handed to [onStep] *)

Lemma visitCounts_app out1 out2 :
  visitCounts (out1 ++ out2) = visitCounts out1 ++ visitCounts out2.
Proof. unfold visitCounts. by rewrite fmap_app. Qed.

Lemma traceFrom_step m st out run :
  nodesVisited (stepMetrics st) = S (nodesVisited m) →
  traceFrom (countVisit m) (out ++ [st]) run → traceFrom m out run.
Proof.
  intros Hst (Hle & tail & Hem & Hcounts & Hlast). simpl in Hle, Hcounts.
  split; [lia|]. exists (st :: tail). split_and!.
  - by rewrite Hem, <- app_assoc.
  - unfold visitCounts in *. rewrite fmap_cons, Hcounts, Hst.
    replace (nodesVisited (result run) - nodesVisited m)%nat
      with (S (nodesVisited (result run) - S (nodesVisited m))) by lia.
    done.
  - destruct tail as [|st' tail]; [|done].
    apply (f_equal length) in Hcounts. rewrite length_app in Hcounts.
    simpl in Hcounts. lia.
Qed.

Lemma traceFrom_final m out grid m' :
  nodesVisited m' = nodesVisited m →
  traceFrom m out (mkRun m' (out ++ [mkStep (cloneGrid grid) m']) grid).
Proof.
  intros Hm. split; [simpl; lia|]. exists [mkStep (cloneGrid grid) m'].
  simpl. rewrite Hm, Nat.sub_diag, cloneGrid_id. done.
Qed.

Lemma searchLoop_trace dirsOf merge fuel :
  ∀ k grid visited frontier m out run,
  searchLoop dirsOf merge fuel k grid visited frontier m out = Some run →
  traceFrom m out run.
Proof.
  induction fuel as [|fuel IH]; intros k grid visited frontier m out run;
    [done|].
  cbn [searchLoop]. destruct frontier as [|[[r c] path] rest].
  { intros [= <-]. by apply traceFrom_final. }
  destruct (markVisited grid r c) as [grid1|]; simpl; [|done].
  destruct (get2 grid1 r c) as [x|]; simpl; [|done].
  destruct (isEnd x).
  - destruct (markPath grid1 path) as [grid2|]; simpl; [|done].
    intros [= <-]. eapply traceFrom_step; [|by apply traceFrom_final]. done.
  - destruct (expand grid1 visited r c path (dirsOf k).1) as [vn|]; simpl;
      [|done].
    intros Hrun. eapply traceFrom_step; [|by eapply IH]. done.
Qed.

Lemma astarLoop_trace {Q} `{PriorityQueue Q} fuel :
  ∀ grid endp (q : Q) gs closed m out run,
  astarLoop fuel grid endp q gs closed m out = Some run →
  traceFrom m out run.
Proof.
  induction fuel as [|fuel IH]; intros grid endp q gs closed m out run;
    [done|].
  cbn [astarLoop]. destruct (pqPop q) as [[n q1]|].
  2:{ intros [= <-]. by apply traceFrom_final. }
  destruct (decide (nodePos n ∈ closed)); [by apply IH|].
  destruct (markVisited grid (nodePos n).1 (nodePos n).2) as [grid1|];
    simpl; [|done].
  destruct (decide (nodePos n = endp)).
  - destruct (markPath grid1 (nodePath n)) as [grid2|]; simpl; [|done].
    intros [= <-]. eapply traceFrom_step; [|by apply traceFrom_final]. done.
  - destruct (relax grid1 endp ({[nodePos n]} ∪ closed) (nodePos n)
                (nodePath n) q1 gs) as [og|]; simpl; [|done].
    intros Hrun. eapply traceFrom_step; [|by eapply IH]. done.
Qed.

(** ** Marks and what is left untouched *)

Lemma markVisited_get2 g g' r c r' c' :
  markVisited g r c = Some g' →
  get2 g' r' c' =
    if decide ((r', c') = (r, c))
    then (λ x, if negb (isStart x) && negb (isEnd x)
               then setVisited true x else x) <$> get2 g r c
    else get2 g r' c'.
Proof.
  unfold markVisited. destruct (get2 g r c) as [x|] eqn:Ex; simpl; [|done].
  destruct (negb (isStart x) && negb (isEnd x)) eqn:Eb.
  - intros Hu. rewrite (get2_upd2 _ _ _ _ _ r' c' Hu).
    destruct (decide (r' = r ∧ c' = c)) as [[-> ->]|Hne].
    + rewrite decide_True by done. rewrite Ex.
      destruct x as [? ? ? [] [] ? ?]; simpl in *; done.
    + rewrite decide_False; [done|]. intros [= -> ->]. by apply Hne.
  - intros [= <-]. case_decide as Heq; [|done].
    injection Heq as -> ->. rewrite Ex.
    destruct x as [? ? ? [] [] ? ?]; simpl in *; done.
Qed.

Lemma markPathCell_get2 g g' p r' c' :
  markPathCell (Some g) p = Some g' →
  get2 g' r' c' =
    if decide ((r', c') = p)
    then (λ x, if negb (isStart x) && negb (isEnd x)
               then setPath true x else x) <$> get2 g p.1 p.2
    else get2 g r' c'.
Proof.
  unfold markPathCell. simpl.
  destruct (get2 g p.1 p.2) as [x|] eqn:Ex; simpl; [|done].
  destruct (negb (isStart x) && negb (isEnd x)) eqn:Eb.
  - intros Hu. rewrite (get2_upd2 _ _ _ _ _ r' c' Hu).
    destruct (decide (r' = p.1 ∧ c' = p.2)) as [[-> ->]|Hne].
    + rewrite decide_True by (by destruct p). rewrite Ex.
      destruct x as [? ? ? [] [] ? ?]; simpl in *; done.
    + rewrite decide_False; [done|]. intros <-. by apply Hne.
  - intros [= <-]. case_decide as Heq; [|done].
    subst p. simpl in Ex. simpl. rewrite Ex.
    destruct x as [? ? ? [] [] ? ?]; simpl in *; done.
Qed.

Lemma markPath_fail path : foldl markPathCell None path = None.
Proof. by induction path. Qed.

(** [markPath] changes nothing but [isPath], and sets it exactly on the
    cells of the path that are neither start nor end. *)
Lemma markPath_exact g g' path :
  markPath g path = Some g' →
  ∀ r c x, get2 g r c = Some x →
    ∃ x', get2 g' r c = Some x'
      ∧ staticOf x' = staticOf x ∧ isVisited x' = isVisited x
      ∧ (isPath x' = true ↔
         isPath x = true
         ∨ ((r, c) ∈ path ∧ isStart x = false ∧ isEnd x = false)).
Proof.
  unfold markPath. revert g.
  induction path as [|p path IH]; intros g Hm r c x Hx.
  { injection Hm as <-. exists x. split_and!; try done.
    split; [by left|]. intros [?|[Hin _]]; [done|].
    by apply elem_of_nil in Hin. }
  cbn [foldl] in Hm.
  destruct (markPathCell (Some g) p) as [g1|] eqn:E1;
    [|by rewrite markPath_fail in Hm].
  pose proof (markPathCell_get2 g g1 p r c E1) as Hg1.
  assert (∃ x1, get2 g1 r c = Some x1
    ∧ staticOf x1 = staticOf x ∧ isVisited x1 = isVisited x
    ∧ (isPath x1 = true ↔
       isPath x = true ∨ ((r, c) = p ∧ isStart x = false ∧ isEnd x = false)))
    as (x1 & Hx1 & Hs1 & Hv1 & Hp1).
  { case_decide as Heq.
    - subst p. simpl in Hg1. rewrite Hx in Hg1. simpl in Hg1.
      eexists. split; [exact Hg1|].
      destruct x as [? ? ? [] [] ? ?]; simpl; split_and!; try done;
        split; intros; try tauto; naive_solver.
    - exists x. rewrite Hg1. split_and!; try done.
      split; [by left|]. intros [?|[? _]]; done. }
  destruct (IH g1 Hm r c x1 Hx1) as (x' & Hx' & Hs' & Hv' & Hp').
  exists x'. split_and!; [done|congruence..|].
  apply staticOf_inv in Hs1 as (_ & _ & _ & Hst & Hen).
  rewrite Hp', Hp1, Hst, Hen, elem_of_cons. naive_solver.
Qed.

Lemma cell_eq (x y : Cell) :
  staticOf x = staticOf y → isVisited x = isVisited y → isPath x = isPath y →
  x = y.
Proof.
  destruct x, y. unfold staticOf. simpl. intros [= -> -> -> -> ->] -> ->. done.
Qed.

Section Marks.
Variables (g : MazeGrid) (start : Pos).
Hypothesis HR : Rect g.
Hypothesis Hstart : ∃ x, get2 g start.1 start.2 = Some x
  ∧ (isStart x = true ∨ isEnd x = true ∨ isWall x = false).

Lemma unmarked_refl : unmarked g g.
Proof.
  split_and!; [by apply sameMaze_refl|by intros ? ? ? ? ?|].
  intros r c x Hx. exists x. split; [done|]. split; [by left|].
  intros [?|[Hin _]]; [done|]. by apply elem_of_nil in Hin.
Qed.

Lemma markVisited_unmarked grid grid1 p :
  unmarked g grid → p = start ∨ openAt g p →
  markVisited grid p.1 p.2 = Some grid1 → unmarked g grid1.
Proof.
  intros (HS & HF & HP) Hp Hm.
  assert (∃ x, get2 g p.1 p.2 = Some x
    ∧ (isStart x = true ∨ isEnd x = true ∨ isWall x = false)) as (xp & Hxp & Hfree).
  { destruct Hp as [->|(x & Hx & Hw)]; [done|]. exists x. auto. }
  split_and!.
  - eapply sameMaze_trans; [exact HS|].
    eapply markVisited_spec; [apply HS|exact Hm].
  - intros r c x Hx Hfix.
    rewrite (markVisited_get2 _ _ _ _ r c Hm). case_decide as Heq.
    + injection Heq as -> ->. rewrite (HF _ _ _ Hx Hfix). simpl.
      assert (x = xp) as -> by congruence.
      destruct xp as [? ? [] [] [] ? ?]; simpl in *; naive_solver.
    + by apply HF.
  - intros r c x Hx. destruct (HP r c x Hx) as (x' & Hx' & Hiff).
    rewrite (markVisited_get2 _ _ _ _ r c Hm). case_decide as Heq.
    + injection Heq as -> ->. rewrite Hx'. simpl. eexists. split; [done|].
      rewrite <- Hiff.
      by destruct x' as [? ? ? [] [] ? ?].
    + by exists x'.
Qed.

Lemma markPath_drawn grid grid2 l q :
  unmarked g grid → steps g start l q →
  markPath grid (start :: l) = Some grid2 →
  fixedKept g grid2 ∧ pathDrawn g grid2 (start :: l).
Proof.
  intros (HS & HF & HP) Hsteps Hm.
  pose proof (markPath_exact _ _ _ Hm) as Hex.
  assert (∀ r c x, get2 g r c = Some x → (r, c) ∈ start :: l →
            isStart x = true ∨ isEnd x = true ∨ isWall x = false) as Hfree.
  { intros r c x Hx Hin. apply elem_of_cons in Hin as [Heq|Hin].
    - destruct Hstart as (y & Hy & Hy'). rewrite <- Heq in Hy. simpl in Hy.
      by assert (x = y) as -> by congruence.
    - apply steps_all_open in Hsteps. rewrite Forall_forall in Hsteps.
      destruct (Hsteps _ Hin) as (y & Hy & Hw). simpl in Hy.
      assert (x = y) as -> by congruence. auto. }
  split.
  - intros r c x Hx Hfix.
    destruct (Hex r c x (HF _ _ _ Hx Hfix)) as (x2 & Hx2 & Hs2 & Hv2 & Hp2).
    rewrite Hx2. f_equal. apply cell_eq; [done..|].
    destruct (isPath x2) eqn:E2, (isPath x) eqn:E; try done.
    + destruct (proj1 Hp2 eq_refl) as [?|(Hin & Hs & He)]; [done|].
      destruct (Hfree r c x Hx Hin) as [?|[?|?]], Hfix as [?|[?|?]]; congruence.
    + destruct (proj2 Hp2); [by left|done].
  - intros r c x Hx. destruct (HP r c x Hx) as (x1 & Hx1 & Hiff1).
    destruct (Hex r c x1 Hx1) as (x2 & Hx2 & Hs2 & _ & Hp2).
    exists x2. split; [done|]. rewrite Hp2, Hiff1.
    destruct (sameMaze_get2 _ _ _ _ _ HS Hx) as (x1' & Hx1' & Hst).
    assert (x1' = x1) as -> by congruence.
    apply staticOf_inv in Hst as (_ & _ & _ & -> & ->).
    split; [|tauto]. intros [[?|[Hin _]]|?]; [by left| |by right].
    by apply elem_of_nil in Hin.
Qed.

Lemma unmarked_final grid m out target :
  unmarked g grid → isPathFound m = false →
  Forall (λ st, fixedKept g (stepGrid st)) out →
  markedRun g start target (mkRun m (out ++ [mkStep (cloneGrid grid) m]) grid).
Proof.
  intros (HS & HF & HP) Hm Hout.
  unfold markedRun. simpl. rewrite Hm, cloneGrid_id.
  split_and!; [done| |done].
  apply Forall_app. split; [done|]. by apply Forall_singleton.
Qed.

Lemma drawn_final grid1 grid2 m out l q (target : Pos → Prop) :
  unmarked g grid1 → steps g start l q → target q →
  markPath grid1 (start :: l) = Some grid2 →
  Forall (λ st, fixedKept g (stepGrid st)) out →
  let m' := foundWith m (start :: l) in
  markedRun g start target
    (mkRun m' ((out ++ [mkStep (cloneGrid grid1) m])
               ++ [mkStep (cloneGrid grid2) m']) grid2).
Proof.
  intros Hun Hsteps Htarget Hm Hout m'.
  destruct (markPath_drawn grid1 grid2 l q Hun Hsteps Hm) as [HF2 HP2].
  unfold markedRun. simpl. rewrite !cloneGrid_id. split_and!.
  - done.
  - rewrite !Forall_app, !Forall_singleton. split_and!; [done| |done].
    apply Hun.
  - exists l, q. split_and!; [done..| |done]. simpl length. lia.
Qed.

Section SearchMarks.
Variable dirsOf : nat → list nat * nat.
Variable merge : list Entry → list Entry → list Entry.
Hypothesis dirs_lt : ∀ k, Forall (λ d, (d < 4)%nat) (dirsOf k).1.
Hypothesis dirs_all : ∀ k d, (d < 4)%nat → d ∈ (dirsOf k).1.
Hypothesis merge_perm : ∀ new rest, merge new rest ≡ₚ rest ++ new.

Lemma searchLoop_marks fuel :
  ∀ k grid visited frontier dn m out run,
  unmarked g grid → isPathFound m = false →
  Forall (λ st, fixedKept g (stepGrid st)) out →
  SearchInv g start (endAt g) visited frontier dn →
  searchLoop dirsOf merge fuel k grid visited frontier m out = Some run →
  markedRun g start (endAt g) run.
Proof.
  induction fuel as [|fuel IH];
    intros k grid visited frontier dn m out run Hun Hm Hout I; [done|].
  cbn [searchLoop]. destruct frontier as [|[[r c] path] rest].
  { intros [= <-]. by apply unmarked_final. }
  set (e := (r, c, path)) in *.
  destruct (si_entries _ _ _ _ _ _ I e) as (l & Hl & Hsteps); [left|].
  simpl in Hl. subst path.
  change (entryPos e) with (r, c) in Hsteps.
  pose proof (steps_end_open _ _ _ _ Hsteps) as Hp.
  destruct (markVisited grid r c) as [grid1|] eqn:Hg1; simpl; [|done].
  pose proof (markVisited_unmarked grid grid1 (r, c) Hun Hp Hg1) as Hun1.
  destruct (get2 grid1 r c) as [x1|] eqn:Hx1; simpl; [|done].
  assert (Forall (λ st, fixedKept g (stepGrid st))
            (out ++ [mkStep (cloneGrid grid1) (countVisit m)])) as Hout1.
  { rewrite Forall_app, Forall_singleton, cloneGrid_id. split; [done|].
    apply Hun1. }
  destruct (sameMaze_get2_rev _ _ _ _ _ (proj1 Hun1) Hx1) as (x & Hx & Hst).
  apply staticOf_inv in Hst as (_ & _ & _ & _ & He1).
  destruct (isEnd x1) eqn:Eend.
  - destruct (markPath grid1 (start :: l)) as [grid2|] eqn:Hg2; simpl; [|done].
    intros [= <-].
    apply (drawn_final grid1 grid2 (countVisit m) out l (r, c)); try done.
    exists x. split; [done|]. congruence.
  - rewrite (expand_sameMaze g grid1) by apply Hun1.
    destruct (expand g visited r c (start :: l) (dirsOf k).1) as [[v' new]|]
      eqn:Hex; simpl; [|done].
    apply (IH (dirsOf k).2 grid1 v' (merge new rest) (e :: dn)); try done.
    eapply SearchInv_step; [done|exact I| |apply dirs_lt| |exact Hex
                           |apply merge_perm].
    + intros (y & Hy & Hey). simpl in Hy. congruence.
    + intros d Hd. by apply dirs_all.
Qed.
End SearchMarks.

Section AStarMarks.
Context {Q : Type} `{PriorityQueue Q}.
Variable endp : Pos.

Lemma astarLoop_marks fuel :
  ∀ grid (q : Q) gs closed m out run,
  unmarked g grid → isPathFound m = false →
  Forall (λ st, fixedKept g (stepGrid st)) out →
  AStarInv g start endp (pqItems q) gs closed →
  astarLoop fuel grid endp q gs closed m out = Some run →
  markedRun g start (λ p, p = endp) run.
Proof.
  induction fuel as [|fuel IH];
    intros grid q gs closed m out run Hun Hm Hout I; [done|].
  cbn [astarLoop]. destruct (pqPop q) as [[n q1]|] eqn:Epop.
  2:{ intros [= <-]. by apply unmarked_final. }
  apply pqPop_Some in Epop as [HP Hmin].
  destruct (decide (nodePos n ∈ closed)) as [Hc|Hc].
  { apply IH; try done. by eapply AStarInv_pop_closed. }
  assert (n ∈ pqItems q) as Hn by (rewrite HP; left).
  destruct (ai_nodes _ _ _ _ _ _ I n Hn) as (lp & Hpath & Hsteps & _).
  pose proof (steps_end_open _ _ _ _ Hsteps) as Hp.
  destruct (markVisited grid (nodePos n).1 (nodePos n).2) as [grid1|] eqn:Hg1;
    simpl; [|done].
  pose proof (markVisited_unmarked grid grid1 (nodePos n) Hun Hp Hg1) as Hun1.
  assert (Forall (λ st, fixedKept g (stepGrid st))
            (out ++ [mkStep (cloneGrid grid1) (countVisit m)])) as Hout1.
  { rewrite Forall_app, Forall_singleton, cloneGrid_id. split; [done|].
    apply Hun1. }
  rewrite Hpath.
  destruct (decide (nodePos n = endp)) as [He|He].
  - destruct (markPath grid1 (start :: lp)) as [grid2|] eqn:Hg2; simpl; [|done].
    intros [= <-].
    by apply (drawn_final grid1 grid2 (countVisit m) out lp (nodePos n)).
  - rewrite (relax_sameMaze g grid1) by apply Hun1.
    destruct (AStarInv_expand g start endp HR Hstart q q1 n lp gs closed
                I HP Hmin Hc He Hpath) as (q2 & gs2 & Hrel & I2 & _).
    rewrite Hrel. simpl. by apply IH.
Qed.
End AStarMarks.
End Marks.

Lemma markedRun_target g start (T T' : Pos → Prop) run :
  (∀ q, T q → T' q) → markedRun g start T run → markedRun g start T' run.
Proof.
  intros HT (HF & Hout & Hfound). split_and!; [done..|].
  destruct (isPathFound (result run)); [|done].
  destruct Hfound as (l & q & ? & ? & ? & ?). exists l, q. auto.
Qed.

(** ** The three engines on a well-formed grid, once more *)

Lemma traversals_full {Q} `{PriorityQueue Q} g s e ω fuel :
  WellFormed g s e → ValidRandom ω →
  (4 * (length g * Z.to_nat (cols g)) + 1 < fuel)%nat →
  ∃ dfs bfs astar,
    runDFS ω fuel g = Some dfs
    ∧ runBFS fuel g = Some bfs
    ∧ runAStar (Q := Q) fuel g = Some astar
    ∧ ∀ run, run ∈ [dfs; bfs; astar] →
        traceFrom (mkMetrics 0 0 false) [] run
        ∧ markedRun g s (λ q, q = e) run.
Proof.
  intros WF Hω Hfuel.
  pose proof (WellFormed_Rect g s e WF) as HR.
  pose proof (WellFormed_start g s e WF) as Hstart.
  assert (∀ q, endAt g q → q = e) as Hend by (intros q; apply WF).
  destruct (runDFS_spec g s e WF ω fuel Hω) as (dfs & Hdfs & _); [lia|].
  destruct (runBFS_spec g s e WF fuel) as (bfs & Hbfs & _); [lia|].
  destruct (runAStar_spec g s e WF (Q := Q) fuel) as (astar & Hastar & _);
    [lia|].
  exists dfs, bfs, astar. split_and!; [done..|].
  destruct (WellFormed_visited g s e WF) as [visited Hv].
  assert (SearchInv g s (endAt g) visited [(s.1, s.2, [s])] []) as I0
    by by apply SearchInv_init.
  intros run Hrun. rewrite !elem_of_cons in Hrun.
  destruct Hrun as [->|[->|[->|Hrun]]]; [| | |by apply elem_of_nil in Hrun].
  - unfold runDFS in Hdfs.
    rewrite cloneGrid_id, (WellFormed_find g s e WF) in Hdfs. simpl in Hdfs.
    rewrite Hv in Hdfs. simpl in Hdfs. rewrite dfsLoop_searchLoop in Hdfs.
    split; [by eapply searchLoop_trace|].
    apply (markedRun_target _ _ (endAt g)); [done|].
    eapply (searchLoop_marks g s HR Hstart (dfsDirs ω) dfsMerge);
      last exact Hdfs; [| | |by apply unmarked_refl|done|constructor|exact I0].
    + intros k. apply shuffle_spec.
    + intros k d Hd. by apply shuffle_spec.
    + intros new rest. unfold dfsMerge.
      by rewrite reverse_Permutation, Permutation_app_comm.
  - unfold runBFS in Hbfs.
    rewrite cloneGrid_id, (WellFormed_find g s e WF) in Hbfs. simpl in Hbfs.
    rewrite Hv in Hbfs. simpl in Hbfs.
    rewrite (bfsLoop_searchLoop _ 0) in Hbfs.
    split; [by eapply searchLoop_trace|].
    apply (markedRun_target _ _ (endAt g)); [done|].
    eapply (searchLoop_marks g s HR Hstart bfsDirs bfsMerge);
      last exact Hbfs; [| | |by apply unmarked_refl|done|constructor|exact I0].
    + intros k. repeat constructor.
    + intros k d Hd. simpl. rewrite !elem_of_cons. lia.
    + done.
  - unfold runAStar in Hastar.
    rewrite cloneGrid_id, (WellFormed_find g s e WF) in Hastar.
    simpl in Hastar.
    split; [by eapply astarLoop_trace|].
    eapply (astarLoop_marks g s HR Hstart e);
      last exact Hastar; [by apply unmarked_refl|done|constructor|].
    apply AStarInv_init; [exact Hstart|].
    pose proof (pqPush_items
      (s.1, s.2, [s], manhattanDistance s.1 s.2 e.1 e.2) pqEmpty) as HP.
    by rewrite pqEmpty_items in HP.
Qed.

(** * Further properties of the helpers and of the generator *)

From stdpp Require Import sorting.
#[local] Open Scope Z_scope.

(** ** [findPositions] keeps the last flagged cell *)

Lemma positions_sorted R C : StronglySorted scanBefore (positions R C).
Proof.
  unfold positions.
  assert (∀ (i : nat) s n,
    StronglySorted scanBefore
      (seq s n ≫= λ j : nat, [(Z.of_nat i, Z.of_nat j)])) as Hrow.
  { intros i s n. revert s. induction n as [|n IH]; intros s; [constructor|].
    cbn [seq]. rewrite bind_cons. simpl. apply SSorted_cons; [apply IH|].
    apply Forall_forall. intros p Hp.
    apply list_elem_of_bind in Hp as (j & Hp & Hj).
    apply list_elem_of_singleton in Hp as ->. apply elem_of_seq in Hj.
    right. simpl. lia. }
  assert (∀ s n, StronglySorted scanBefore
            (seq s n ≫= λ i : nat,
               seq 0 C ≫= λ j : nat, [(Z.of_nat i, Z.of_nat j)])) as Hall;
    [|apply Hall].
  intros s n. revert s. induction n as [|n IH]; intros s; [constructor|].
  cbn [seq]. rewrite bind_cons.
  apply StronglySorted_app_2; [|apply Hrow|apply IH].
  intros p q Hp Hq.
  apply list_elem_of_bind in Hp as (j & Hp & Hj).
  apply list_elem_of_singleton in Hp as ->.
  apply list_elem_of_bind in Hq as (i' & Hq & Hi').
  apply list_elem_of_bind in Hq as (j' & Hq & Hj').
  apply list_elem_of_singleton in Hq as ->. apply elem_of_seq in Hi'.
  left. simpl. lia.
Qed.

Section FindLast.
Variable grid : MazeGrid.

(** The fold of [findStep] keeps the last cell flagged [isStart] and the
    last cell flagged [isEnd] of the list it scans. *)
Lemma findStep_last l s0 e0 :
  (∀ p, p ∈ l → is_Some (get2 grid p.1 p.2)) →
  ∃ s e, foldl (findStep grid) (Some (s0, e0)) l = Some (s, e)
    ∧ ((s = s0 ∧ ∀ p, p ∈ l → ¬ startAt grid p)
       ∨ (startAt grid s ∧ ∃ l1 l2, l = l1 ++ s :: l2
            ∧ ∀ p, p ∈ l2 → ¬ startAt grid p))
    ∧ ((e = e0 ∧ ∀ p, p ∈ l → ¬ endAt grid p)
       ∨ (endAt grid e ∧ ∃ l1 l2, l = l1 ++ e :: l2
            ∧ ∀ p, p ∈ l2 → ¬ endAt grid p)).
Proof.
  induction l as [|p l IH] using rev_ind; intros Hin.
  { exists s0, e0. split; [done|]. split; left; split; try done;
      intros ? H; by apply elem_of_nil in H. }
  destruct IH as (s & e & Hf & Hs & He).
  { intros q Hq. apply Hin, elem_of_app. by left. }
  destruct (Hin p) as [x Hx]; [apply elem_of_app; right; left|].
  rewrite foldl_snoc, Hf. unfold findStep. simpl. rewrite Hx. simpl.
  eexists _, _. split; [done|]. split.
  - destruct (isStart x) eqn:Ex.
    + right. split; [by exists x|]. exists l, []. split; [done|].
      intros ? H; by apply elem_of_nil in H.
    + assert (¬ startAt grid p) as Hnp.
      { intros (y & Hy & Hys). congruence. }
      destruct Hs as [[-> Hno]|(Hs & l1 & l2 & -> & Hno)].
      * left. split; [done|]. intros q Hq.
        apply elem_of_app in Hq as [Hq|Hq]; [by apply Hno|].
        by apply list_elem_of_singleton in Hq as ->.
      * right. split; [done|]. exists l1, (l2 ++ [p]).
        split; [by rewrite <- app_assoc|]. intros q Hq.
        apply elem_of_app in Hq as [Hq|Hq]; [by apply Hno|].
        by apply list_elem_of_singleton in Hq as ->.
  - destruct (isEnd x) eqn:Ex.
    + right. split; [by exists x|]. exists l, []. split; [done|].
      intros ? H; by apply elem_of_nil in H.
    + assert (¬ endAt grid p) as Hnp.
      { intros (y & Hy & Hys). congruence. }
      destruct He as [[-> Hno]|(He & l1 & l2 & -> & Hno)].
      * left. split; [done|]. intros q Hq.
        apply elem_of_app in Hq as [Hq|Hq]; [by apply Hno|].
        by apply list_elem_of_singleton in Hq as ->.
      * right. split; [done|]. exists l1, (l2 ++ [p]).
        split; [by rewrite <- app_assoc|]. intros q Hq.
        apply elem_of_app in Hq as [Hq|Hq]; [by apply Hno|].
        by apply list_elem_of_singleton in Hq as ->.
Qed.

Lemma last_in_scan (flag : Pos → Prop) s l1 l2 p :
  positions (length grid) (Z.to_nat (cols grid)) = l1 ++ s :: l2 →
  (∀ q, q ∈ l2 → ¬ flag q) →
  p ∈ positions (length grid) (Z.to_nat (cols grid)) → flag p →
  p = s ∨ scanBefore p s.
Proof.
  intros Hl Hno Hp Hflag. pose proof (positions_sorted (length grid)
    (Z.to_nat (cols grid))) as Hsorted.
  rewrite Hl in Hp, Hsorted.
  apply elem_of_app in Hp as [Hp|Hp].
  - right. eapply StronglySorted_app_1_elem_of; [exact Hsorted|done|left].
  - apply elem_of_cons in Hp as [->|Hp]; [by left|]. by destruct (Hno p).
Qed.

Lemma findPositions_last :
  Rect grid →
  ∃ s e, findPositions grid = Some (s, e)
    ∧ ((s = (0, 0) ∧ ¬ hasStart grid)
       ∨ (startAt grid s ∧ ∀ p, startAt grid p → p = s ∨ scanBefore p s))
    ∧ ((e = (0, 0) ∧ ¬ hasEnd grid)
       ∨ (endAt grid e ∧ ∀ p, endAt grid p → p = e ∨ scanBefore p e)).
Proof.
  intros HR. unfold findPositions.
  destruct (findStep_last (positions (length grid) (Z.to_nat (cols grid)))
              (0, 0) (0, 0)) as (s & e & Hf & Hs & He).
  { intros p Hp. apply positions_elem in Hp. apply get2_is_Some; [done|].
    apply inBounds_spec. unfold rows. lia. }
  exists s, e. split; [done|]. split.
  - destruct Hs as [[-> Hno]|(Hs & l1 & l2 & Hl & Hno)]; [left|right].
    + split; [done|]. intros (r & c & x & Hx & Hst).
      apply (Hno (r, c)); [by eapply get2_in_positions|]. by exists x.
    + split; [done|]. intros p Hp. eapply (last_in_scan (startAt grid));
        [exact Hl|done| |done].
      destruct Hp as (x & Hx & _). destruct p. by eapply get2_in_positions.
  - destruct He as [[-> Hno]|(He & l1 & l2 & Hl & Hno)]; [left|right].
    + split; [done|]. intros (r & c & x & Hx & Hst).
      apply (Hno (r, c)); [by eapply get2_in_positions|]. by exists x.
    + split; [done|]. intros p Hp. eapply (last_in_scan (endAt grid));
        [exact Hl|done| |done].
      destruct Hp as (x & Hx & _). destruct p. by eapply get2_in_positions.
Qed.
End FindLast.

(** ** The shuffle of the four directions *)

Lemma shuffle_length ω k l :
  length (shuffle ω k l).1 = length l
  ∧ (shuffle ω k l).2 = (k + length l)%nat.
Proof.
  unfold shuffle.
  assert (∀ idx acc,
    length (foldl (shuffleStep ω) acc idx).1 = length acc.1
    ∧ (foldl (shuffleStep ω) acc idx).2 = (acc.2 + length idx)%nat) as Hgen.
  { induction idx as [|i idx IH]; intros acc; [simpl; lia|].
    cbn [foldl]. destruct (IH (shuffleStep ω acc i)) as [-> ->].
    unfold shuffleStep. simpl. rewrite swap_length. lia. }
  destruct (Hgen (seq 0 (length l)) (l, k)) as [-> ->].
  by rewrite length_seq.
Qed.

Lemma shuffle_directions_perm ω k :
  ValidRandom ω → (shuffle ω k [0; 1; 2; 3]%nat).1 ≡ₚ [0; 1; 2; 3]%nat.
Proof.
  intros Hω. symmetry. apply submseteq_length_Permutation.
  - apply NoDup_submseteq.
    + repeat (apply NoDup_cons; split;
              [rewrite ?elem_of_cons, elem_of_nil; lia|]).
      apply NoDup_nil_2.
    + intros x Hx. apply (proj2 (shuffle_spec ω k) Hω).
      rewrite !elem_of_cons, elem_of_nil in Hx. lia.
  - destruct (shuffle_length ω k [0; 1; 2; 3]%nat) as [-> _]. done.
Qed.

(** ** The generator writes walls and terminals only *)

Lemma sameNotes_refl g : sameNotes g g.
Proof. by intros r c. Qed.

Lemma sameNotes_trans g1 g2 g3 :
  sameNotes g1 g2 → sameNotes g2 g3 → sameNotes g1 g3.
Proof. intros H1 H2 r c. by rewrite H2, H1. Qed.

Lemma upd2_sameNotes f g g' r c :
  (∀ x, notesOf (f x) = notesOf x) →
  upd2 f g r c = Some g' → sameNotes g g'.
Proof.
  intros Hf Hu r' c'. rewrite (get2_upd2 _ _ _ _ _ r' c' Hu).
  case_decide as Heq; [|done]. destruct Heq as [-> ->].
  destruct (get2 g r c); simpl; [|done]. by rewrite Hf.
Qed.

Lemma foldl_None {A B} (f : option A → B → option A) l :
  (∀ b, f None b = None) → foldl f None l = None.
Proof. intros Hf. induction l as [|b l IH]; [done|]. simpl. by rewrite Hf. Qed.

Lemma carvePath_sameNotes ω R C fuel :
  ∀ r c st st',
  carvePath ω R C fuel r c st = Some st' → sameNotes (cGrid st) (cGrid st').
Proof.
  induction fuel as [|fuel IH]; intros r c st st'; [done|].
  cbn [carvePath]. generalize (shuffle ω (cRand st) [0; 1; 2; 3]%nat).
  intros [dirs k].
  destruct (upd2 (λ _, true) (cVisited st) r c) as [visited|]; simpl; [|done].
  destruct (upd2 (setWall false) (cGrid st) r c) as [grid|] eqn:Hg; simpl;
    [|done].
  pose proof (upd2_sameNotes (setWall false) _ _ _ _ (λ x, eq_refl) Hg) as H0.
  assert (∀ acc, sameNotes (cGrid st) (cGrid acc) →
    foldl (carveDir (carvePath ω R C fuel) R C r c) (Some acc) dirs = Some st' →
    sameNotes (cGrid st) (cGrid st')) as Hfold; [|by apply Hfold].
  induction dirs as [|d dirs IHd]; intros acc Hacc; [by intros [= <-]|].
  cbn [foldl]. unfold carveDir at 2. simpl.
  destruct (inBounds R C (r + dx d * 2) (c + dy d * 2)); [|by apply IHd].
  destruct (get2 (cVisited acc) _ _) as [v|]; simpl;
    [|by rewrite foldl_None].
  destruct v; [by apply IHd|].
  destruct (upd2 (setWall false) (cGrid acc) (r + dx d) (c + dy d))
    as [g1|] eqn:Hg1; simpl; [|by rewrite foldl_None].
  destruct (carvePath ω R C fuel _ _ _) as [st1|] eqn:Hst1;
    [|by rewrite foldl_None].
  apply IHd. apply IH in Hst1. simpl in Hst1.
  eapply sameNotes_trans; [exact Hacc|].
  eapply sameNotes_trans; [|exact Hst1].
  by apply (upd2_sameNotes (setWall false) _ _ _ _ (λ x, eq_refl) Hg1).
Qed.

Lemma openPath_sameNotes g g' path :
  openPath g path = Some g' → sameNotes g g'.
Proof.
  unfold openPath. revert g.
  induction path as [|p path IH]; intros g; [by intros [= <-]|].
  cbn [foldl]. simpl.
  destruct (upd2 (setWall false) g p.1 p.2) as [g1|] eqn:Hg1;
    [|by rewrite foldl_None].
  intros Hf. eapply sameNotes_trans; [|by apply IH].
  by apply (upd2_sameNotes (setWall false) _ _ _ _ (λ x, eq_refl) Hg1).
Qed.

Lemma ensureLoop_sameNotes fuel :
  ∀ g endp visited queue g',
  ensureLoop fuel g endp visited queue = Some (inl g') → sameNotes g g'.
Proof.
  induction fuel as [|fuel IH]; intros g endp visited queue g'; [done|].
  cbn [ensureLoop]. destruct queue as [|[[r c] path] queue]; [done|].
  case_decide.
  - destruct (openPath g path) as [g1|] eqn:Hg1; simpl; [|done].
    intros [= <-]. by eapply openPath_sameNotes.
  - destruct (expand g visited r c path [0; 1; 2; 3]%nat) as [vn|]; simpl;
      [|done].
    apply IH.
Qed.

Lemma carveToEnd_sameNotes fuel :
  ∀ g cr cc er ec g',
  carveToEnd fuel g cr cc er ec = Some g' → sameNotes g g'.
Proof.
  induction fuel as [|fuel IH]; intros g cr cc er ec g'; [done|].
  cbn [carveToEnd]. case_decide; [|by intros [= <-]].
  destruct (upd2 (setWall false) g _ _) as [g1|] eqn:Hg1; simpl; [|done].
  intros Hc. eapply sameNotes_trans; [|by eapply IH].
  by apply (upd2_sameNotes (setWall false) _ _ _ _ (λ x, eq_refl) Hg1).
Qed.

Lemma ensurePathExists_sameNotes fuel g sr sc er ec g' b :
  ensurePathExists fuel g sr sc er ec = Some (g', b) → sameNotes g g'.
Proof.
  unfold ensurePathExists.
  destruct (upd2 (λ _, true) (freshVisited g) sr sc) as [visited|]; simpl;
    [|done].
  destruct (ensureLoop fuel g (er, ec) visited _) as [[g1|v1]|] eqn:Hl;
    simpl; [| |done].
  - intros [= <- <-]. by eapply ensureLoop_sameNotes.
  - destruct (get2 v1 er ec) as [v|]; simpl; [|done].
    destruct v; [by intros [= <- <-]|].
    destruct (carveToEnd fuel g sr sc er ec) as [g2|] eqn:Hc; simpl; [|done].
    intros [= <- <-]. by eapply carveToEnd_sameNotes.
Qed.

Lemma allWalls_notes (R C : nat) r c x :
  get2 (allWalls R C) r c = Some x →
  notesOf x = (r, c, false, false).
Proof.
  unfold get2, allWalls. case_decide as Hb; [|done].
  rewrite list_lookup_fmap.
  destruct (seq 0 R !! Z.to_nat r) as [i|] eqn:Ei; simpl; [|done].
  rewrite list_lookup_fmap.
  destruct (seq 0 C !! Z.to_nat c) as [j|] eqn:Ej; simpl; [|done].
  apply lookup_seq in Ei as [-> _]. apply lookup_seq in Ej as [-> _].
  intros [= <-]. unfold notesOf. simpl. repeat f_equal; lia.
Qed.

(** Every cell of a generated grid carries its own coordinates and no
    annotation. *)
Lemma generateMaze_notes ω fuel (R C : nat) grid :
  generateMaze ω fuel R C = Some grid →
  ∀ r c x, get2 grid r c = Some x → notesOf x = (r, c, false, false).
Proof.
  unfold generateMaze.
  destruct (upd2 (setWall false) (allWalls R C) 0 1) as [g1|] eqn:H1;
    simpl; [|done].
  destruct (upd2 (setStart true) g1 0 1) as [g2|] eqn:H2; simpl; [|done].
  destruct (upd2 (setWall false) g2 _ _) as [g3|] eqn:H3; simpl; [|done].
  destruct (upd2 (setEnd true) g3 _ _) as [g4|] eqn:H4; simpl; [|done].
  destruct (carvePath ω _ _ fuel 1 1 _) as [st|] eqn:Hst; simpl; [|done].
  destruct (ensurePathExists fuel (cGrid st) 0 1 _ _) as [[g' b]|] eqn:He;
    simpl; [|done].
  intros [= <-] r c x Hx.
  assert (sameNotes (allWalls R C) g') as HN.
  { eapply sameNotes_trans;
      [exact (upd2_sameNotes (setWall false) _ _ _ _ (λ x, eq_refl) H1)|].
    eapply sameNotes_trans;
      [exact (upd2_sameNotes (setStart true) _ _ _ _ (λ x, eq_refl) H2)|].
    eapply sameNotes_trans;
      [exact (upd2_sameNotes (setWall false) _ _ _ _ (λ x, eq_refl) H3)|].
    eapply sameNotes_trans;
      [exact (upd2_sameNotes (setEnd true) _ _ _ _ (λ x, eq_refl) H4)|].
    eapply sameNotes_trans; [|by eapply ensurePathExists_sameNotes].
    by apply (carvePath_sameNotes _ _ _ _ _ _ _ _ Hst). }
  specialize (HN r c). rewrite Hx in HN. simpl in HN.
  destruct (get2 (allWalls R C) r c) as [x0|] eqn:E0; [|done].
  simpl in HN. apply allWalls_notes in E0. congruence.
Qed.

(** ** What [ensurePathExists] returns *)

Section EnsureDecides.
Variables (g : MazeGrid) (start endp : Pos).
Hypothesis HR : Rect g.
Hypothesis Hos : openAt g start.

Lemma ensureLoop_decides fuel :
  ∀ visited queue dn r,
  SearchInv g start (λ p, p = endp) visited queue dn →
  ensureLoop fuel g endp visited queue = Some r →
  match r with
  | inl g' => g' = g ∧ reachable g start endp
  | inr _ => ¬ reachable g start endp
  end.
Proof.
  induction fuel as [|fuel IH]; intros visited queue dn r I; [done|].
  cbn [ensureLoop]. destruct queue as [|[[rr cc] path] rest].
  { intros [= <-]. intros (path & l & -> & _ & Hsteps).
    assert (endp ∈ entryPos <$> dn) as Hin
      by (eapply SearchInv_exhausted; [exact I|exact Hsteps]).
    apply list_elem_of_fmap in Hin as (e' & He' & Hdn).
    by apply (si_goal _ _ _ _ _ _ I e' Hdn). }
  set (e := (rr, cc, path)) in *.
  destruct (si_entries _ _ _ _ _ _ I e) as (l & Hl & Hsteps); [left|].
  simpl in Hl, Hsteps. subst path.
  destruct (decide (rr = endp.1 ∧ cc = endp.2)) as [[-> ->]|Hne].
  - rewrite openPath_id.
    + intros [= <-]. split; [done|].
      exists (start :: l), l. split_and!; [done..|]. by destruct endp.
    + apply Forall_cons. split; [done|]. by eapply steps_all_open.
  - destruct (expand g visited rr cc (start :: l) [0; 1; 2; 3]%nat)
      as [[v' new]|] eqn:Hex; simpl; [|done].
    apply (IH v' (rest ++ new) (e :: dn)).
    eapply SearchInv_step; [done|exact I| | | |exact Hex|done].
    + intros Heq. unfold e, entryPos in Heq. simpl in Heq. subst endp.
      by destruct Hne.
    + repeat constructor.
    + intros d Hd. rewrite !elem_of_cons. lia.
Qed.

End EnsureDecides.

Lemma ensurePathExists_decides g start endp fuel g' b :
  Rect g → openAt g start →
  ensurePathExists fuel g start.1 start.2 endp.1 endp.2 = Some (g', b) →
  (b = true ↔ reachable g start endp) ∧ (b = true → g' = g).
Proof.
  destruct start as [sr sc], endp as [er ec]. simpl. intros HR Hos.
  unfold ensurePathExists.
  destruct (upd2 (λ _, true) (freshVisited g) sr sc)
    as [visited|] eqn:Hv; simpl; [|done].
  destruct (ensureLoop fuel g (er, ec) visited _) as [r|] eqn:Hl;
    simpl; [|done].
  assert (SearchInv g (sr, sc) (λ p, p = (er, ec)) visited
            [(sr, sc, [(sr, sc)])] []) as I0
    by by apply (SearchInv_init g (sr, sc)).
  pose proof (ensureLoop_decides g (sr, sc) (er, ec) HR Hos fuel _ _ _ _ I0 Hl)
    as Hdec.
  destruct r as [g1|v1].
  - intros [= <- <-]. destruct Hdec as [-> Hreach]. by split.
  - destruct (get2 v1 er ec) as [v|]; simpl; [|done].
    destruct v.
    + intros [= <- <-]. split; [|done]. split; [done|].
      intros Hreach. by destruct Hdec.
    + destruct (carveToEnd fuel g _ _ _ _) as [g2|]; simpl; [|done].
      intros [= <- <-]. split; [|done]. split; [done|].
      intros Hreach. by destruct Hdec.
Qed.

(** * Further properties of the two explorations *)

(** ** The Monte Carlo walk *)

Lemma mcWalk_found g vf s e budget seen p rest :
  mcWalk g vf s e budget seen p rest true → last (p :: rest) = Some e.
Proof.
  remember true as found eqn:Hf.
  induction 1 as [| |budget seen p Hg He| |budget seen p a rest found
                    Hg He Hgr Hw IH]; try done.
  - by rewrite He.
  - rewrite last_cons_cons. by apply IH.
Qed.

Lemma mcWalk_length g vf s e budget seen p rest found :
  mcWalk g vf s e budget seen p rest found → (length rest ≤ budget)%nat.
Proof. induction 1; simpl; lia. Qed.

(** The steps emitted by the loop are the input maze with annotations. *)
Lemma runMonteCarloExploration_frame g s e vf :
  WellFormed g s e →
  ∃ w, runMonteCarloExploration g vf = Some w
    ∧ annotatedFrom g (working (walkRun w))
    ∧ stepsFrom g (emitted (walkRun w)).
Proof.
  intros WF. pose proof (WellFormed_Rect g s e WF) as HR.
  destruct (runMonteCarloExploration_spec g s e vf WF)
    as (w & rest & Hrun & Hpath & Hwalk & _ & _ & Hwork).
  exists w. split; [done|]. split; [done|].
  unfold runMonteCarloExploration in Hrun.
  rewrite cloneGrid_id, (WellFormed_find g s e WF) in Hrun. simpl in Hrun.
  assert (is_Some (get2 g s.1 s.2)) as Hs.
  { destruct WF as (_ & (x & Hx & _) & _). by eexists. }
  destruct (mcExploreLoop_spec g s e vf HR Hs (length g * Z.to_nat (cols g) * 2)
              g s [] (mkMetrics 0 0 false) [])
    as (grid' & rest' & m' & out' & Hloop & Hgrid' & Hout' & _).
  { by apply annotatedFrom_refl. }
  { by left. }
  { done. }
  { constructor. }
  simpl in Hloop.
  match type of Hrun with
  | context [mcExploreLoop ?a ?b ?c ?d ?e0 ?f ?g0 ?h ?i ?j ?k] =>
      replace (mcExploreLoop a b c d e0 f g0 h i j k)
        with (Some (grid', s :: rest', m', out')) in Hrun
        by (symmetry; exact Hloop)
  end.
  simpl in Hrun.
  destruct (markPath grid' (s :: rest')) as [grid2|]; simpl in Hrun; [|done].
  injection Hrun as <-. simpl in *. rewrite cloneGrid_id.
  apply Forall_app. split; [done|]. by apply Forall_singleton.
Qed.

(** ** The Q-learning walk *)

Lemma qExploreLoop_trace ω budget :
  ∀ k grid endp qt p T m out grid' path' m' out',
  NoDup (T ++ [p]) → isPathFound m = false →
  qExploreLoop ω budget k grid endp qt p.1 p.2 (T ++ [p])
               (list_to_set (T ++ [p])) m out
    = Some (grid', path', m', out') →
  NoDup path'
  ∧ (isPathFound m' = true → last path' = Some endp)
  ∧ (nodesVisited m' ≤ nodesVisited m + budget)%nat.
Proof.
  induction budget as [|budget IH];
    intros k grid endp qt p T m out grid' path' m' out' HT Hm.
  { intros [= <- <- <- <-]. split_and!; [done| |lia]. congruence. }
  destruct p as [r c]. cbn [qExploreLoop fst snd].
  destruct (decide ((r, c) = endp)) as [He|He].
  { intros [= <- <- <- <-]. simpl. split_and!; [done| |lia].
    intros _. by rewrite last_snoc, He. }
  destruct (markVisited grid r c) as [grid1|]; simpl; [|done].
  destruct (qBest grid1 qt r c) as [[[valid mq] best]|]; simpl; [|done].
  destruct (decide (length valid = 0%nat)).
  { intros [= <- <- <- <-]. simpl. split_and!; [done| |lia]. congruence. }
  destruct (_ !! randomIndex (ω k) _) as [a|]; simpl; [|done].
  destruct (decide ((r + dx a, c + dy a) ∈
                    (list_to_set (T ++ [(r, c)]) : gset Pos))) as [Hin|Hin].
  { intros [= <- <- <- <-]. simpl. split_and!; [done| |lia]. congruence. }
  assert (({[(r + dx a, c + dy a)]} ∪ list_to_set (T ++ [(r, c)]) : gset Pos)
          = list_to_set ((T ++ [(r, c)]) ++ [(r + dx a, c + dy a)])) as ->
    by set_solver.
  intros Hloop.
  eapply (IH (S k) grid1 endp qt (r + dx a, c + dy a) (T ++ [(r, c)])
              (countVisit m)) in Hloop as (H1 & H2 & H3); [| |done].
  - split_and!; [done..|]. simpl in H3. lia.
  - apply NoDup_app. split_and!; [done| |apply NoDup_singleton].
    intros x Hx Hx'. apply list_elem_of_singleton in Hx' as ->.
    apply Hin. by apply elem_of_list_to_set.
Qed.

Lemma runQLearningExploration_full g s e ω qt :
  WellFormed g s e → ValidRandom ω →
  ∃ w rest q,
    runQLearningExploration ω g qt = Some w
    ∧ walkPath w = s :: rest
    ∧ steps g s rest q
    ∧ NoDup (walkPath w)
    ∧ (isPathFound (result (walkRun w)) = true → q = e)
    ∧ annotatedFrom g (working (walkRun w))
    ∧ stepsFrom g (emitted (walkRun w)).
Proof.
  intros WF Hω. pose proof (WellFormed_Rect g s e WF) as HR.
  destruct (runQLearningExploration_spec g s e ω qt WF Hω)
    as (w & rest & q & Hrun & Hpath & Hsteps & _ & _ & Hwork).
  exists w, rest, q. split_and!; [done..| | | |].
  all: unfold runQLearningExploration in Hrun.
  all: rewrite cloneGrid_id, (WellFormed_find g s e WF) in Hrun.
  all: simpl in Hrun.
  all: assert (is_Some (get2 g s.1 s.2)) as Hs
         by (destruct WF as (_ & (x & Hx & _) & _); by eexists).
  all: destruct (qExploreLoop_spec g e qt ω Hω
                   (length g * Z.to_nat (cols g) * 2)
                   0%nat g s [] {[s]} (mkMetrics 0 0 false) [])
         as (grid' & rest' & m' & out' & q' & Hloop & Hgrid' & Hout' & _);
         [by apply annotatedFrom_refl|done|constructor|].
  all: simpl in Hloop.
  all: pose proof Hloop as Hloop'.
  all: replace ({[s]} : gset Pos) with (list_to_set ([] ++ [s]) : gset Pos)
         in Hloop' by set_solver.
  all: apply (qExploreLoop_trace ω _ _ _ _ _ s []) in Hloop'
         as (Hnd & Hfound & _); [|apply NoDup_singleton|done].
  all: match type of Hrun with
       | context [qExploreLoop ?a ?b ?c ?d ?e0 ?f ?g0 ?h ?i ?j ?k ?l] =>
           replace (qExploreLoop a b c d e0 f g0 h i j k l)
             with (Some (grid', s :: rest', m', out')) in Hrun
             by (symmetry; exact Hloop)
       end.
  all: simpl in Hrun.
  all: destruct (markPath grid' (s :: rest')) as [grid2|]; simpl in Hrun;
         [|done].
  all: injection Hrun as <-; simpl in *.
  - by injection Hpath as <-.
  - intros Hf. specialize (Hfound Hf). injection Hpath as <-.
    apply steps_last in Hsteps.
    assert (Some q = Some e) as [= ->]; [|done].
    etrans; [symmetry; exact Hsteps|exact Hfound].
  - done.
  - rewrite cloneGrid_id. apply Forall_app. split; [done|].
    by apply Forall_singleton.
Qed.

(** ** Both walks together *)

Lemma runMonteCarloExploration_full g s e vf :
  WellFormed g s e →
  ∃ w rest q,
    runMonteCarloExploration g vf = Some w
    ∧ walkPath w = s :: rest
    ∧ steps g s rest q
    ∧ (length rest ≤ length g * Z.to_nat (cols g) * 2)%nat
    ∧ pathLength (result (walkRun w)) = Z.of_nat (length rest)
    ∧ (isPathFound (result (walkRun w)) = true → q = e)
    ∧ annotatedFrom g (working (walkRun w))
    ∧ stepsFrom g (emitted (walkRun w)).
Proof.
  intros WF.
  destruct (runMonteCarloExploration_spec g s e vf WF)
    as (w & rest & Hrun & Hpath & Hwalk & Hlen & _ & _).
  destruct (runMonteCarloExploration_frame g s e vf WF)
    as (w' & Hrun' & Hwork & Hout).
  assert (w' = w) as -> by congruence.
  destruct (mcWalk_open _ _ _ _ _ _ _ _ _ Hwalk) as [q Hsteps].
  exists w, rest, q. split_and!; [done..| | | |done|done].
  - by eapply mcWalk_length.
  - done.
  - intros Hf. rewrite Hf in Hwalk. apply mcWalk_found in Hwalk.
    apply steps_last in Hsteps.
    assert (Some q = Some e) as [= ->]; [|done].
    etrans; [symmetry; exact Hsteps|exact Hwalk].
Qed.

Lemma steps_cells g s l q :
  openAt g s → steps g s l q → ∀ p, p ∈ s :: l → is_Some (get2 g p.1 p.2).
Proof.
  intros Hs Hsteps p Hp. apply steps_all_open in Hsteps.
  apply elem_of_cons in Hp as [->|Hp].
  - destruct Hs as (x & Hx & _). by eexists.
  - rewrite Forall_forall in Hsteps. destruct (Hsteps p Hp) as (x & Hx & _).
    by eexists.
Qed.

(** * Further properties of Monte Carlo training *)

(** ** The walk of one episode *)

Lemma validStep_None g vf vis r c ds :
  foldl (validStep g vf vis r c) None ds = None.
Proof. by induction ds. Qed.

Lemma validActionsOf_elem g vf vis r c va av :
  Rect g → validActionsOf g vf vis r c = Some (va, av) →
  ∀ a, a ∈ va ↔ (a < 4)%nat ∧ openAt g (r + dx a, c + dy a)
                ∧ (r + dx a, c + dy a) ∉ vis.
Proof.
  intros HR. unfold validActionsOf.
  assert (∀ ds acc res,
    foldl (validStep g vf vis r c) (Some acc) ds = Some res →
    ∀ a, a ∈ res.1 ↔ a ∈ acc.1 ∨ (a ∈ ds ∧ openAt g (r + dx a, c + dy a)
                                   ∧ (r + dx a, c + dy a) ∉ vis)) as Hfold.
  { induction ds as [|d ds IH]; intros acc res; cbn [foldl].
    { intros [= <-] a. rewrite elem_of_nil. tauto. }
    destruct (validStep g vf vis r c (Some acc) d) as [acc1|] eqn:E;
      [|by rewrite validStep_None].
    intros Hres a. rewrite (IH acc1 res Hres a), elem_of_cons.
    assert (a ∈ acc1.1 ↔ a ∈ acc.1 ∨ (a = d ∧ openAt g (r + dx a, c + dy a)
                                      ∧ (r + dx a, c + dy a) ∉ vis)) as ->;
      [|tauto].
    unfold validStep in E. simpl in E.
    destruct (inBounds (rows g) (cols g) (r + dx d) (c + dy d)) eqn:Eb.
    - destruct (get2 g (r + dx d) (c + dy d)) as [x|] eqn:Ex; [|done].
      simpl in E. destruct (isWall x) eqn:Ew; simpl in E.
      + injection E as <-. split; [tauto|]. intros [?|[ -> [(y & Hy & Hw) _]]];
          [done|]. simpl in Hy. congruence.
      + case_bool_decide as Hv; injection E as <-; simpl.
        * rewrite elem_of_app, list_elem_of_singleton. split.
          -- intros [?| ->]; [tauto|]. right. split_and!; [done| |done].
             by exists x.
          -- intros [?|[ -> _]]; tauto.
        * split; [tauto|]. intros [?|[ -> [_ Hn]]]; [done|]. by destruct Hn.
    - injection E as <-. split; [tauto|].
      intros [?|[ -> [(y & Hy & _) _]]]; [done|]. simpl in Hy.
      assert (is_Some (get2 g (r + dx d) (c + dy d))) as Hs by by eexists.
      apply get2_is_Some in Hs; [|done]. congruence. }
  intros Hf a. rewrite (Hfold _ _ _ Hf a). simpl. rewrite elem_of_nil.
  rewrite !elem_of_cons, elem_of_nil. split.
  - intros [[]|[Ha ?]]. split; [|done].
    destruct Ha as [->|[->|[->|[->|[]]]]]; lia.
  - intros (Ha & ?). right. split; [|done].
    destruct a as [|[|[|[|a]]]]; [tauto..|lia].
Qed.

Section EpisodeWalk.
Variables (g : MazeGrid) (e : Pos) (vf : gmap Pos Q).
Variables (ω : RandomSource) (epsilon : Q).
Hypothesis HR : Rect g.

(** What an episode leaves behind: the cells it pushed form a walk over
    non-wall cells, the end cell is met only as the goal, and an episode
    that ends stuck stands on a cell without a fresh non-wall neighbour. *)
Lemma episodeLoop_walk budget :
  ∀ k p T traj outcome k',
  episodeLoop ω budget k g e vf epsilon p.1 p.2 T (list_to_set T)
    = Some (traj, outcome, k') →
  ∃ T', traj = T ++ T'
    ∧ (e ∈ T' → outcome = OutcomeGoal)
    ∧ match T' with
      | [] => outcome = OutcomeMaxSteps ∧ budget = 0%nat
      | p' :: rest =>
          p' = p ∧ ∃ q, steps g p rest q
            ∧ (outcome = OutcomeGoal → q = e)
            ∧ (outcome ≠ OutcomeMaxSteps → k' = (k + 2 * length rest)%nat)
            ∧ (outcome = OutcomeStuck →
                 ∀ a, (a < 4)%nat → openAt g (nbr q a) → nbr q a ∈ traj)
      end.
Proof.
  induction budget as [|budget IH]; intros k p T traj outcome k'.
  { intros [= <- <- <-]. exists []. rewrite app_nil_r. split_and!; try done.
    by intros ?%elem_of_nil. }
  destruct p as [r c]. cbn [episodeLoop fst snd].
  destruct (decide ((r, c) = e)) as [He|He].
  { intros [= <- <- <-]. exists [(r, c)]. split_and!; [done..|].
    exists (r, c). split_and!; try done; intros; simpl; lia. }
  assert (({[(r, c)]} ∪ list_to_set T : gset Pos)
          = list_to_set (T ++ [(r, c)])) as -> by set_solver.
  destruct (validActionsOf g vf (list_to_set (T ++ [(r, c)])) r c)
    as [[va av]|] eqn:Hva; simpl; [|done].
  pose proof (validActionsOf_elem g vf _ r c va av HR Hva) as Hel.
  destruct (decide (length va = 0%nat)) as [Hv0|Hv0].
  { intros [= <- <- <-]. exists [(r, c)]. split; [done|]. split.
    { intros Hin%list_elem_of_singleton. by destruct He. }
    split; [done|]. exists (r, c). split_and!; try done.
    intros _ a Ha Ho. destruct (decide (nbr (r, c) a ∈ T ++ [(r, c)]));
        [done|].
      assert (a ∈ va) as Hin.
      { apply Hel. split_and!; [done..|]. by rewrite elem_of_list_to_set. }
      destruct va; [by apply elem_of_nil in Hin|done]. }
  destruct (chooseAction ω k epsilon va av) as [idx|]; simpl; [|done].
  destruct (va !! idx) as [a|] eqn:Ha; simpl; [|done].
  apply list_elem_of_lookup_2, Hel in Ha as (Ha4 & Hoa & Hnew).
  intros Hloop.
  apply (IH (S (S k)) (r + dx a, c + dy a) (T ++ [(r, c)])) in Hloop
    as (T' & -> & Hgoal & Hshape).
  exists ((r, c) :: T'). split; [|split].
  - by rewrite <- app_assoc.
  - intros [Hin|Hin]%elem_of_cons; [by destruct He|by apply Hgoal].
  - split; [done|]. destruct T' as [|p' rest].
    + destruct Hshape as [-> _]. by exists (r, c).
    + destruct Hshape as (-> & q & Hsteps & Hq & Hk & Hstuck).
      exists q. split_and!; [|done| |done].
      * simpl. split_and!; [by exists a|done..].
      * intros Ho. rewrite (Hk Ho). simpl. lia.
Qed.
End EpisodeWalk.

(** An episode as [runMonteCarlo] starts it, on a grid with cells. *)
Lemma episode_walk g s e vf ω epsilon k :
  Rect g → ValidRandom ω → findPositions g = Some (s, e) →
  (0 < length g * Z.to_nat (cols g))%nat →
  ∃ rest q outcome k',
    episodeLoop ω (length g * Z.to_nat (cols g) * 2) k g e vf epsilon
                s.1 s.2 [] ∅ = Some (s :: rest, outcome, k')
    ∧ NoDup (s :: rest)
    ∧ steps g s rest q
    ∧ (length (s :: rest) ≤ length g * Z.to_nat (cols g))%nat
    ∧ k' = (k + 2 * length rest)%nat
    ∧ (e ∈ s :: rest → q = e)
    ∧ (outcome = OutcomeGoal ∧ q = e
       ∨ outcome = OutcomeStuck ∧ q ≠ e
         ∧ ∀ a, (a < 4)%nat → openAt g (nbr q a) → nbr q a ∈ s :: rest).
Proof.
  intros HR Hω Hf Hpos.
  destruct (episode_spec g s e vf ω epsilon k HR Hω Hf)
    as (T & outcome & k' & Hloop & HT & Hout).
  pose proof Hloop as Hloop'.
  apply (episodeLoop_walk g e vf ω epsilon HR _ k s []) in Hloop'
    as (T' & HT' & Hgoal & Hshape).
  simpl in HT'. subst T'.
  destruct T as [|p rest].
  { destruct Hshape as [_ Hb]. lia. }
  destruct Hshape as (-> & q & Hsteps & Hq & Hk & Hstuck).
  assert (outcome ≠ OutcomeMaxSteps) as Hne by (by intros ->).
  exists rest, q, outcome, k'. split_and!; [done..| | | |].
  - apply cells_bound; [done..|]. intros p Hp.
    pose proof (findPositions_start_cell g s e HR Hf Hpos) as Hs.
    apply elem_of_cons in Hp as [->|Hp]; [done|].
    apply steps_all_open in Hsteps. rewrite Forall_forall in Hsteps.
    destruct (Hsteps p Hp) as (x & Hx & _). by eexists.
  - by apply Hk.
  - intros Hin. by apply Hq, Hgoal.
  - destruct outcome; [left; split; [done|by apply Hq]| |done]. right. split_and!; [done| |by apply Hstuck].
    intros ->. apply steps_last in Hsteps.
    assert (e ∈ s :: rest) as Hin.
    { apply list_elem_of_lookup. exists (length rest).
      rewrite last_lookup in Hsteps. done. }
    by specialize (Hgoal Hin).
Qed.


(** ** The objects of a training run *)

From Stdlib Require Import Lqa.
#[local] Open Scope Z_scope.

Lemma readDict_Some (h : Heap) (l : Loc) d :
  readDict h l = Some d ↔ h !! l = Some (DictObj d).
Proof.
  unfold readDict. destruct (h !! l) as [[]|]; split; congruence.
Qed.

Lemma readArray_Some (h : Heap) (l : Loc) a :
  readArray h l = Some a ↔ h !! l = Some (ArrayObj a).
Proof.
  unfold readArray. destruct (h !! l) as [[]|]; split; congruence.
Qed.

Lemma mcShape_setKey h d a key v :
  mcShape h d a →
  ∃ h', setKey h 0%nat key v = Some h' ∧ mcShape h' (<[key := v]> d) a
    ∧ length h' = length h.
Proof.
  intros [Hd Ha]. unfold setKey. rewrite Hd. simpl.
  apply readDict_Some in Hd. apply readArray_Some in Ha.
  eexists. split; [done|]. split; [split|].
  - apply readDict_Some, list_lookup_insert_eq. by apply lookup_lt_Some in Hd.
  - apply readArray_Some. etrans; [by apply list_lookup_insert_ne|done].
  - apply length_insert.
Qed.

Lemma mcShape_snapshot h d a m :
  mcShape h d a → mcValueFunction m = 0%nat → mcValueFunctionHistory m = 1%nat →
  ∃ h', saveValueFunctionSnapshot m h = Some h'
    ∧ mcShape h' d (a ++ [length h]).
Proof.
  intros [Hd Ha] Hv Hh. unfold saveValueFunctionSnapshot.
  rewrite Hv, Hd, Hh. simpl. unfold pushLoc.
  apply readDict_Some in Hd. apply readArray_Some in Ha.
  assert (readArray (h ++ [DictObj d]) 1%nat = Some a) as ->.
  { apply readArray_Some.
    etrans; [apply lookup_app_l; by apply lookup_lt_Some in Ha|done]. }
  simpl. eexists. split; [done|]. split.
  - apply readDict_Some. etrans; [by apply list_lookup_insert_ne|].
    etrans; [apply lookup_app_l; by apply lookup_lt_Some in Hd|done].
  - apply readArray_Some, list_lookup_insert_eq.
    apply lookup_lt_Some in Ha. unfold Heap in *. rewrite length_app. lia.
Qed.

Section Training.
Variables (g : MazeGrid) (s e : Pos) (ω : RandomSource).
Variables (episodes : nat) (epsilon γ rv sp : Q).
Hypothesis HR : Rect g.
Hypothesis Hω : ValidRandom ω.
Hypothesis Hf : findPositions g = Some (s, e).

(** A property of the value function that the first-visit update keeps. *)
Variable P : gmap Pos Q → Prop.
Hypothesis Hkeep :
  ∀ T outcome d key G (n : nat),
    NoDup T → (e ∈ T → outcome = OutcomeGoal) →
    (outcome = OutcomeGoal → last T = Some e) →
    computeReturns outcome rv sp γ T !! key = Some G →
    (1 ≤ n)%nat → P d →
    P (<[key := (valueAt d key
                 + (G - valueAt d key) / inject_Z (Z.of_nat n))%Q]> d).

Lemma updateStep_None vf returns T :
  foldl (updateStep vf returns) None T = None.
Proof. by induction T. Qed.

Lemma update_fold T outcome (T0 : list Pos) :
  NoDup T → (e ∈ T → outcome = OutcomeGoal) →
  (outcome = OutcomeGoal → last T = Some e) →
  ∀ h vc fvu d a, mcShape h d a → P d →
  ∃ h' vc' fvu' d',
    foldl (updateStep 0%nat (computeReturns outcome rv sp γ T))
          (Some (h, vc, fvu)) T0 = Some (h', vc', fvu')
    ∧ mcShape h' d' a ∧ P d' ∧ length h' = length h.
Proof.
  intros HT He Hlast. induction T0 as [|key T0 IH]; intros h vc fvu d a Hsh Hd.
  { by exists h, vc, fvu, d. }
  cbn [foldl]. unfold updateStep at 2. cbn [mbind option_bind fst snd].
  destruct (decide (key ∈ fvu)); [by eapply IH|].
  rewrite (proj1 Hsh). cbn [mbind option_bind].
  destruct (computeReturns outcome rv sp γ T !! key) as [G|] eqn:EG.
  - destruct (mcShape_setKey h d a key
                (valueAt d key + (G - valueAt d key)
                   / inject_Z (Z.of_nat (default 0%nat (vc !! key) + 1)%nat))%Q
                Hsh)
      as (h1 & Hset & Hsh1 & Hlen1).
    rewrite Hset. cbn [mbind option_bind].
    edestruct (IH h1) as (h' & vc' & fvu' & d' & Hfold & ? & ? & Hlen);
      [exact Hsh1| |].
    + eapply Hkeep; [done..|lia|done].
    + exists h', vc', fvu', d'. split_and!; [exact Hfold|done..|congruence].
  - by eapply IH.
Qed.

Lemma trainEpisode_trained n st :
  trained g P episodes n st →
  ∃ st', trainEpisode ω g g s e episodes epsilon γ rv sp (Some st) n = Some st'
    ∧ trained g P episodes (S n) st'
    ∧ totalEpisodes (mcMetrics st') = totalEpisodes (mcMetrics st).
Proof.
  intros (Hv & Hh & (d & a & Hsh & Hd) & Hn & Hout & _).
  unfold trainEpisode. cbn [mbind option_bind].
  set (metrics := setEpisodesCompleted (n + 1) (mcMetrics st)).
  assert (mcValueFunction metrics = 0%nat) as Hv' by done.
  assert (mcValueFunctionHistory metrics = 1%nat) as Hh' by done.
  rewrite Hv', (proj1 Hsh). cbn [mbind option_bind].
  destruct (episode_spec g s e d ω epsilon (mcRand st) HR Hω Hf)
    as (T & outcome & k' & Hloop & HT & Hlast).
  destruct (episodeLoop_walk g e d ω epsilon HR _ (mcRand st) s [] _ _ _ Hloop)
    as (T' & HT' & Hgoal & _).
  simpl in HT'. subst T'.
  assert (outcome = OutcomeGoal → last T = Some e) as Hlast'
    by (intros ->; exact Hlast).
  match goal with
  | |- context [episodeLoop ?a ?b ?c ?d0 ?e0 ?f ?g0 ?h ?i ?j ?k] =>
      replace (episodeLoop a b c d0 e0 f g0 h i j k)
        with (Some (T, outcome, k')) by (symmetry; exact Hloop)
  end.
  cbn [mbind option_bind fst snd].
  destruct (update_fold T outcome T HT Hgoal Hlast' (mcHeap st)
              (mcVisitCounts st) ∅ d a Hsh Hd)
    as (h1 & vc1 & fvu1 & d1 & Hfold & Hsh1 & Hd1 & _).
  rewrite Hfold. cbn [mbind option_bind fst snd].
  assert (∃ h2 a2,
    (if savesSnapshot episodes n then saveValueFunctionSnapshot metrics h1
     else Some h1) = Some h2 ∧ mcShape h2 d1 a2) as (h2 & a2 & Hsave & Hsh2).
  { destruct (savesSnapshot episodes n).
    - destruct (mcShape_snapshot h1 d1 a metrics Hsh1 Hv' Hh') as (h2 & ? & ?).
      by exists h2, (a ++ [length h1]).
    - by exists h1, a. }
  rewrite Hsave. cbn [mbind option_bind].
  eexists. split; [done|]. split; [|done].
  unfold trained. cbn [mcMetrics mcHeap mcEmitted].
  split_and!; [done|done|by exists d1, a2|simpl; lia| |].
  - assert (Forall (λ sh : MonteCarloStep * Heap,
              mcStepGrid sh.1 = g
              ∧ (1 ≤ episodesCompleted (mcStepMetrics sh.1) ≤ S n)%nat
              ∧ totalEpisodes (mcStepMetrics sh.1) = totalEpisodes metrics
              ∧ mcValueFunction (mcStepMetrics sh.1) = 0%nat)
             (mcEmitted st)) as Hout'.
    { eapply Forall_impl; [exact Hout|]. intros sh (? & ? & ? & ?).
      split_and!; [done|lia..|done|done]. }
    destruct (reportsProgress episodes n); [|done].
    apply Forall_app. split; [done|]. apply Forall_singleton.
    cbn [fst mcStepGrid mcStepMetrics]. rewrite cloneGrid_id.
    split_and!; [done|simpl; lia..|done|done].
  - intros m [= <-] Hrep. rewrite Hrep. eexists. rewrite last_snoc.
    split; [done|]. simpl. lia.
Qed.

Lemma trainEpisode_None l :
  foldl (trainEpisode ω g g s e episodes epsilon γ rv sp) None l = None.
Proof. by induction l. Qed.

Lemma training_trained st0 n :
  trained g P episodes 0 st0 →
  ∃ st, foldl (trainEpisode ω g g s e episodes epsilon γ rv sp) (Some st0)
              (seq 0 n) = Some st
    ∧ trained g P episodes n st
    ∧ totalEpisodes (mcMetrics st) = totalEpisodes (mcMetrics st0).
Proof.
  intros H0. induction n as [|n (st & Hfold & Hst & Htot)].
  { by exists st0. }
  rewrite seq_S, foldl_snoc, Hfold. simpl.
  destruct (trainEpisode_trained n st Hst) as (st' & Hstep & Hst' & Htot').
  exists st'. split_and!; [done..|congruence].
Qed.

Lemma reportsProgress_last m : reportsProgress (S m) m = true.
Proof.
  unfold reportsProgress. apply orb_true_iff. right.
  apply Nat.eqb_eq. lia.
Qed.

Lemma initStep_None vf l : foldl (initStep g vf) None l = None.
Proof. by induction l. Qed.

Lemma init_fold (l : list Pos) :
  (∀ p, p ∈ l → is_Some (get2 g p.1 p.2)) →
  ∀ h d a, mcShape h d a → (∀ key v, d !! key = Some v → v = 0%Q) →
  ∃ h' d', foldl (initStep g 0%nat) (Some h) l = Some h'
    ∧ mcShape h' d' a ∧ (∀ key v, d' !! key = Some v → v = 0%Q)
    ∧ (∀ key, is_Some (d' !! key)
              ↔ is_Some (d !! key) ∨ (key ∈ l ∧ openAt g key)).
Proof.
  induction l as [|p l IH]; intros Hl h d a Hsh Hd.
  { exists h, d. split_and!; [done..|]. intros key. rewrite elem_of_nil. tauto. }
  cbn [foldl]. unfold initStep at 2. cbn [mbind option_bind].
  destruct (Hl p) as [x Hx]; [apply elem_of_cons; by left|].
  rewrite Hx. cbn [mbind option_bind].
  assert (∀ q, q ∈ l → is_Some (get2 g q.1 q.2)) as Hl'
    by (intros q Hq; apply Hl, elem_of_cons; by right).
  destruct (isWall x) eqn:Ew.
  { destruct (IH Hl' h d a Hsh Hd) as (h' & d' & Hf' & Hsh' & Hd' & Hdom').
    exists h', d'. split_and!; [done..|]. intros key.
    rewrite (Hdom' key), elem_of_cons. split; [tauto|].
    intros [?|[[->|?] Ho]]; [tauto| |tauto].
    destruct Ho as (y & Hy & Hw). congruence. }
  destruct (mcShape_setKey h d a p 0%Q Hsh) as (h1 & -> & Hsh1 & _).
  destruct (IH Hl' h1 (<[p := 0%Q]> d) a Hsh1)
    as (h' & d' & Hf' & Hsh' & Hd' & Hdom').
  { intros key v. destruct (decide (key = p)) as [->|Hne].
    - rewrite lookup_insert_eq. by intros [= <-].
    - rewrite lookup_insert_ne by done. apply Hd. }
  exists h', d'. split_and!; [done..|]. intros key.
  rewrite (Hdom' key), elem_of_cons.
  destruct (decide (key = p)) as [->|Hne].
  - rewrite lookup_insert_eq. split; [|intros _; left; by eexists].
    intros _. right. split; [by left|]. by exists x.
  - rewrite lookup_insert_ne by done. split; [tauto|].
    intros [?|[[->|?] ?]]; [tauto|done|tauto].
Qed.

Hypothesis HP0 :
  ∀ d, (∀ key v, d !! key = Some v → v = 0%Q) → P (<[e := rv]> d).

(** A run of [runMonteCarlo] returns, in a state reached by [episodes]
    rounds of the episode loop. *)
Lemma runMonteCarlo_trained :
  ∃ st, runMonteCarlo ω g episodes epsilon γ rv sp = Some st
    ∧ trained g P episodes episodes st ∧ totalEpisodes (mcMetrics st) = episodes.
Proof.
  unfold runMonteCarlo. rewrite cloneGrid_id, Hf. cbn [mbind option_bind].
  cbn [alloc fst snd length app].
  destruct (init_fold (positions (length g) (Z.to_nat (cols g))))
    with (h := [DictObj ∅; ArrayObj []]) (d := (∅ : gmap Pos Q))
         (a := @nil Loc) as (h1 & d1 & Hinit & Hsh1 & Hd1 & _).
  { intros p Hp. apply get2_is_Some; [done|]. apply inBounds_spec.
    apply positions_elem in Hp. unfold rows. destruct g; simpl in *; lia. }
  { by split. }
  { intros key v Hk. by rewrite lookup_empty in Hk. }
  rewrite Hinit. cbn [mbind option_bind].
  destruct (mcShape_setKey h1 d1 [] e rv Hsh1) as (h2 & -> & Hsh2 & _).
  cbn [mbind option_bind].
  set (metrics := mkMcMetrics _ _ _ _ _ _ _ _ _).
  destruct (mcShape_snapshot h2 _ [] metrics Hsh2 eq_refl eq_refl)
    as (h3 & -> & Hsh3).
  cbn [mbind option_bind].
  destruct (training_trained (mkMcState h3 metrics ∅ 0 []) episodes)
    as (st & Hfold & Hst & Htot).
  { unfold trained. simpl. split_and!; try done.
    eexists _, _. split; [exact Hsh3|]. by apply HP0. }
  rewrite Hfold. cbn [mbind option_bind].
  destruct Hst as (Hv & Hh & (d & a & Hsh & Hd) & Hn & Hout & Hlast).
  destruct (mcShape_snapshot _ d a (mcMetrics st) Hsh Hv Hh) as (h4 & -> & Hsh4).
  cbn [mbind option_bind].
  eexists. split; [done|]. split; [|done].
  unfold trained. cbn [mcMetrics mcHeap mcEmitted].
  split_and!; try done. by eexists _, _.
Qed.
End Training.

(** ** The numbers of the value function *)

#[local] Open Scope Q_scope.

Lemma discount_range γ k :
  0 <= γ → γ <= 1 → 0 <= discount γ k ∧ discount γ k <= 1.
Proof.
  intros H0 H1. induction k as [|k [IH0 IH1]]; simpl; [split; lra|].
  split; nra.
Qed.

Lemma scaled_range lo hi t x :
  lo <= 0 → 0 <= hi → lo <= t → t <= hi → 0 <= x → x <= 1 →
  lo <= t * x ∧ t * x <= hi.
Proof. intros. split; nra. Qed.

Lemma count_positive (n : nat) : (1 ≤ n)%nat → 1 <= inject_Z (Z.of_nat n).
Proof. intros Hn. unfold Qle. simpl. lia. Qed.

Lemma mean_range lo hi old G (n : nat) :
  lo <= old → old <= hi → lo <= G → G <= hi → (1 ≤ n)%nat →
  lo <= old + (G - old) / inject_Z (Z.of_nat n)
  ∧ old + (G - old) / inject_Z (Z.of_nat n) <= hi.
Proof.
  intros Hlo Hhi HGlo HGhi Hn. apply count_positive in Hn.
  set (c := inject_Z (Z.of_nat n)) in *.
  assert (0 < c) as Hc by lra.
  assert (c * ((G - old) / c) == G - old) as Hy.
  { apply Qmult_div_r. lra. }
  set (y := (G - old) / c) in *. split; nra.
Qed.

Lemma mean_fixed old G rv (n : nat) :
  old == rv → G == rv → (1 ≤ n)%nat →
  old + (G - old) / inject_Z (Z.of_nat n) == rv.
Proof.
  intros -> -> Hn. apply count_positive in Hn.
  unfold Qdiv. setoid_replace (rv - rv) with 0 using relation Qeq by ring. ring.
Qed.

Lemma values_kept e γ rv sp lo hi T outcome d key G (n : nat) :
  0 <= γ → γ <= 1 → lo <= 0 → 0 <= hi →
  lo <= sp → sp <= hi → lo <= rv → rv <= hi →
  NoDup T → (e ∈ T → outcome = OutcomeGoal) →
  (outcome = OutcomeGoal → last T = Some e) →
  computeReturns outcome rv sp γ T !! key = Some G →
  (1 ≤ n)%nat →
  endValued e rv d ∧ valuesWithin lo hi d →
  endValued e rv
    (<[key := valueAt d key + (G - valueAt d key) / inject_Z (Z.of_nat n)]> d)
  ∧ valuesWithin lo hi
    (<[key := valueAt d key + (G - valueAt d key) / inject_Z (Z.of_nat n)]> d).
Proof.
  intros Hγ0 Hγ1 Hlo0 Hhi0 Hsplo Hsphi Hrvlo Hrvhi HT He Hlast HG Hn
    [(v0 & Hv0 & Hv0eq) Hin].
  destruct (computeReturns_spec outcome rv sp γ T HT) as [Hlook Hdom].
  assert (key ∈ T) as Hkey by (apply Hdom; by eexists).
  apply list_elem_of_lookup in Hkey as [i Hi].
  destruct (Hlook i key Hi) as (G' & HG' & HGeq).
  assert (G' = G) as -> by congruence.
  rewrite reward_last in HGeq.
  assert (lo <= valueAt d key ∧ valueAt d key <= hi) as [Holdlo Holdhi].
  { unfold valueAt. destruct (d !! key) as [v|] eqn:Ev; simpl; [|done].
    by apply (Hin key). }
  split.
  - destruct (decide (key = e)) as [->|Hne].
    + eexists. rewrite lookup_insert_eq. split; [done|].
      assert (outcome = OutcomeGoal) as Ho
        by (apply He; by eapply list_elem_of_lookup_2).
      specialize (Hlast Ho). rewrite last_lookup in Hlast.
      assert (i = pred (length T)) as ->
        by (eapply NoDup_lookup; [exact HT|exact Hi|exact Hlast]).
      subst outcome.
      replace (length T - 1 - pred (length T))%nat with 0%nat in HGeq by lia.
      simpl in HGeq. apply mean_fixed; [|by rewrite HGeq, Qmult_1_r|done].
      unfold valueAt. by rewrite Hv0.
    + exists v0. by rewrite lookup_insert_ne.
  - intros key' v'. destruct (decide (key' = key)) as [->|Hne].
    + rewrite lookup_insert_eq. intros [= <-].
      apply mean_range; [done..| | |done].
      all: rewrite HGeq.
      all: destruct (discount_range γ (length T - 1 - i) Hγ0 Hγ1) as [? ?].
      all: destruct outcome.
      all: match goal with
           | |- context [(?t * discount ?a ?b)%Q] =>
               destruct (scaled_range lo hi t (discount a b)) as [? ?]; done
           end.
    + rewrite lookup_insert_ne by done. apply Hin.
Qed.

#[local] Close Scope Q_scope.

(** A run of [runMonteCarlo] keeps the value of the end cell and the range
    of all values. *)
Lemma runMonteCarlo_values g s e ω episodes epsilon γ rv sp lo hi :
  Rect g → ValidRandom ω → findPositions g = Some (s, e) →
  (0 <= γ)%Q → (γ <= 1)%Q → (lo <= 0)%Q → (0 <= hi)%Q →
  (lo <= sp)%Q → (sp <= hi)%Q → (lo <= rv)%Q → (rv <= hi)%Q →
  ∃ st, runMonteCarlo ω g episodes epsilon γ rv sp = Some st
    ∧ trained g (λ d, endValued e rv d ∧ valuesWithin lo hi d)
              episodes episodes st.
Proof.
  intros HR Hω Hf Hγ0 Hγ1 Hlo0 Hhi0 Hsplo Hsphi Hrvlo Hrvhi.
  destruct (runMonteCarlo_trained g s e ω episodes epsilon γ rv sp HR Hω Hf
              (λ d, endValued e rv d ∧ valuesWithin lo hi d))
    as (st & Hrun & Hst & _); [| |by exists st].
  - intros T outcome d key G n ? ? ? ? ? ?.
    by apply (values_kept e γ rv sp lo hi T outcome d key G n).
  - intros d Hd. split.
    + exists rv. by rewrite lookup_insert_eq.
    + intros key v. destruct (decide (key = e)) as [->|Hne].
      * rewrite lookup_insert_eq. by intros [= <-].
      * rewrite lookup_insert_ne by done. intros Hk.
        rewrite (Hd key v Hk). done.
Qed.

(** The steps a run of [runMonteCarlo] hands to [onStep]. *)
Lemma runMonteCarlo_steps g s e ω episodes epsilon γ rv sp :
  Rect g → ValidRandom ω → findPositions g = Some (s, e) →
  ∃ st, runMonteCarlo ω g episodes epsilon γ rv sp = Some st
    ∧ trained g (λ _, True) episodes episodes st
    ∧ totalEpisodes (mcMetrics st) = episodes.
Proof.
  intros HR Hω Hf.
  by apply (runMonteCarlo_trained g s e ω episodes epsilon γ rv sp HR Hω Hf
              (λ _, True)).
Qed.

(** * Further properties of Q-learning training *)

(** ** Rows *)

Lemma readRow_Some (h : Heap) (l : Loc) row :
  readRow h l = Some row ↔ h !! l = Some (RowObj row).
Proof.
  unfold readRow. destruct (h !! l) as [[]|]; split; congruence.
Qed.

Lemma readTable_Some (h : Heap) (l : Loc) t :
  readTable h l = Some t ↔ h !! l = Some (TableObj t).
Proof.
  unfold readTable. destruct (h !! l) as [[]|]; split; congruence.
Qed.

Lemma zeroRow_lookup a v : zeroRow !! a = Some v → v = 0%Q.
Proof.
  unfold zeroRow. rewrite !lookup_insert_Some, lookup_singleton_Some.
  naive_solver.
Qed.

Lemma zeroRow_full (V : Q → Prop) : V 0%Q → fullRow V zeroRow.
Proof.
  intros HV. split.
  - intros a Ha. destruct a as [|[|[|[|a]]]]; [by eexists..|lia].
  - intros a v Hv. by rewrite (zeroRow_lookup a v Hv).
Qed.

Lemma maxOfRow_elem row m : maxOfRow row = Some m → ∃ a, row !! a = Some m.
Proof.
  unfold maxOfRow. intros Hm.
  assert (∀ (l : list Q) m,
    foldr (λ v acc, match acc with
                    | None => Some v
                    | Some m => Some (if Qlt_le_dec m v then v else m)
                    end) None l = Some m → m ∈ l) as Hfold.
  { induction l as [|v l IH]; intros m'; simpl; [done|].
    destruct (foldr _ None l) as [m0|].
    - intros [= <-]. destruct (Qlt_le_dec m0 v).
      + apply elem_of_cons. by left.
      + apply elem_of_cons. right. by apply IH.
    - intros [= <-]. apply elem_of_cons. by left. }
  apply Hfold in Hm. apply list_elem_of_fmap in Hm as ([a v] & -> & Hin).
  exists a. by apply elem_of_map_to_list.
Qed.

Lemma maxOfRow_is_Some row a v : row !! a = Some v → is_Some (maxOfRow row).
Proof.
  intros Hv. unfold maxOfRow.
  assert (map_to_list row ≠ []) as Hne.
  { intros Hnil. apply map_to_list_empty_iff in Hnil. subst row.
    by rewrite lookup_empty in Hv. }
  destruct (map_to_list row) as [|x l]; [done|]. simpl.
  case_match; by eexists.
Qed.

(** ** The two loops over the four actions *)

Lemma qlActionStep_None g qv r c ds :
  foldl (qlActionStep g qv r c) None ds = None.
Proof. by induction ds. Qed.

Lemma openStep_None g r c ds : foldl (openStep g r c) None ds = None.
Proof. by induction ds. Qed.

Lemma four_elem a : a ∈ [0; 1; 2; 3]%nat ↔ (a < 4)%nat.
Proof.
  rewrite !elem_of_cons, elem_of_nil. split.
  - intros [->|[->|[->|[->|[]]]]]; lia.
  - intros Ha. destruct a as [|[|[|[|a]]]]; [tauto..|lia].
Qed.

Section Neighbours.
Variable g : MazeGrid.
Hypothesis HR : Rect g.

Lemma open_inBounds r c :
  openAt g (r, c) → inBounds (rows g) (cols g) r c = true.
Proof.
  intros (x & Hx & _). apply get2_is_Some; [done|]. by eexists.
Qed.

Lemma qlActions_elem qv r c ds :
  ∀ acc res,
  foldl (qlActionStep g qv r c) (Some acc) ds = Some res →
  (∀ a, a ∈ res.1.1 ↔ a ∈ acc.1.1 ∨ (a ∈ ds ∧ openAt g (r + dx a, c + dy a)))
  ∧ ((acc.1.1 = [] ∧ acc.1.2 = None ∨ acc.2 ≠ []) →
       res.1.1 = [] ∧ res.1.2 = None ∨ res.2 ≠ [])
  ∧ ((∀ a, a ∈ acc.2 → a ∈ acc.1.1) → ∀ a, a ∈ res.2 → a ∈ res.1.1).
Proof.
  induction ds as [|d ds IH]; intros acc res; cbn [foldl].
  { intros [= <-]. split_and!; [|done..]. intros a. rewrite elem_of_nil. tauto. }
  destruct (qlActionStep g qv r c (Some acc) d) as [acc1|] eqn:E;
    [|by rewrite qlActionStep_None].
  intros Hres. destruct (IH acc1 res Hres) as (Hel & Hbest & Hsub).
  assert ((∀ a, a ∈ acc1.1.1 ↔
             a ∈ acc.1.1 ∨ (a = d ∧ openAt g (r + dx a, c + dy a)))
          ∧ ((acc.1.1 = [] ∧ acc.1.2 = None ∨ acc.2 ≠ []) →
               acc1.1.1 = [] ∧ acc1.1.2 = None ∨ acc1.2 ≠ [])
          ∧ ((∀ a, a ∈ acc.2 → a ∈ acc.1.1) → ∀ a, a ∈ acc1.2 → a ∈ acc1.1.1))
    as (Hel1 & Hbest1 & Hsub1).
  { unfold qlActionStep in E. simpl in E.
    destruct (inBounds (rows g) (cols g) (r + dx d) (c + dy d)) eqn:Eb.
    - destruct (get2 g (r + dx d) (c + dy d)) as [x|] eqn:Ex; [|done].
      simpl in E. destruct (isWall x) eqn:Ew.
      + injection E as <-. split_and!; [|done..]. intros a. split; [tauto|].
        intros [?|[ -> (y & Hy & Hw)]]; [done|]. simpl in Hy. congruence.
      + destruct (qv !! d) as [qVal|]; [|done]. simpl in E.
        assert (∀ a, a ∈ acc.1.1 ++ [d] ↔
                  a ∈ acc.1.1 ∨ (a = d ∧ openAt g (r + dx a, c + dy a)))
          as Hva.
        { intros a. rewrite elem_of_app, list_elem_of_singleton. split.
          - intros [?| ->]; [tauto|]. right. split; [done|]. by exists x.
          - intros [?|[ -> _]]; tauto. }
        destruct (exceeds qVal acc.1.2) eqn:Eex.
        { injection E as <-. simpl. split_and!; [done| |].
          - intros _. by right.
          - intros _ a Ha. apply list_elem_of_singleton in Ha as ->.
            apply elem_of_app. right. by apply list_elem_of_singleton. }
        destruct (equals qVal acc.1.2).
        { injection E as <-. simpl. split_and!; [done| |].
          - intros _. right. by destruct acc.2.
          - intros Hs a Ha. apply elem_of_app in Ha as [Ha|Ha].
            + apply elem_of_app. left. by apply Hs.
            + apply elem_of_app. by right. }
        injection E as <-. simpl. split_and!; [done| |].
        * intros [[_ Hn]|?]; [|by right]. rewrite Hn in Eex. done.
        * intros Hs a Ha. apply elem_of_app. left. by apply Hs.
    - injection E as <-. split_and!; [|done..]. intros a. split; [tauto|].
      intros [?|[ -> Ho]]; [done|]. apply open_inBounds in Ho. congruence. }
  split_and!.
  - intros a. rewrite (Hel a), (Hel1 a), elem_of_cons. tauto.
  - intros ?. by apply Hbest, Hbest1.
  - intros ?. by apply Hsub, Hsub1.
Qed.

Lemma qlActions_total qv r c ds :
  (∀ a, a ∈ ds → is_Some (qv !! a)) →
  ∀ acc, is_Some (foldl (qlActionStep g qv r c) (Some acc) ds).
Proof.
  induction ds as [|d ds IH]; intros Hqv acc; cbn [foldl]; [by eexists|].
  assert (is_Some (qlActionStep g qv r c (Some acc) d)) as [acc1 ->].
  { unfold qlActionStep. simpl.
    destruct (inBounds (rows g) (cols g) (r + dx d) (c + dy d)) eqn:Eb;
      [|by eexists].
    destruct (proj2 (get2_is_Some g _ _ HR) Eb) as [x ->]. simpl.
    destruct (isWall x); [by eexists|].
    destruct (Hqv d) as [qVal ->]; [apply elem_of_cons; by left|]. simpl.
    repeat case_match; by eexists. }
  apply IH. intros a Ha. apply Hqv, elem_of_cons. by right.
Qed.

Lemma openSteps_total r c ds :
  ∀ acc, ∃ res, foldl (openStep g r c) (Some acc) ds = Some res
    ∧ ∀ a, a ∈ res ↔ a ∈ acc ∨ (a ∈ ds ∧ openAt g (r + dx a, c + dy a)).
Proof.
  induction ds as [|d ds IH]; intros acc; cbn [foldl].
  { exists acc. split; [done|]. intros a. rewrite elem_of_nil. tauto. }
  assert (∃ acc1, openStep g r c (Some acc) d = Some acc1
    ∧ ∀ a, a ∈ acc1 ↔ a ∈ acc ∨ (a = d ∧ openAt g (r + dx a, c + dy a)))
    as (acc1 & -> & Hel1).
  { unfold openStep. simpl.
    destruct (inBounds (rows g) (cols g) (r + dx d) (c + dy d)) eqn:Eb.
    - destruct (proj2 (get2_is_Some g _ _ HR) Eb) as [x Hx]. rewrite Hx. simpl.
      destruct (isWall x) eqn:Ew; eexists; (split; [done|]); intros a.
      + split; [tauto|].
        intros [?|[ -> (y & Hy & Hw)]]; [done|]. simpl in Hy. congruence.
      + rewrite elem_of_app, list_elem_of_singleton. split.
        * intros [?| ->]; [tauto|]. right. split; [done|]. by exists x.
        * intros [?|[ -> _]]; tauto.
    - exists acc. split; [done|]. intros a. split; [tauto|].
      intros [?|[ -> Ho]]; [done|]. apply open_inBounds in Ho. congruence. }
  destruct (IH acc1) as (res & Hres & Hel). exists res. split; [done|].
  intros a. rewrite (Hel a), (Hel1 a), elem_of_cons. tauto.
Qed.

(** The way back: the cell an action was taken from is a neighbour of
    the cell it leads to. *)
Lemma way_back r c a :
  (a < 4)%nat →
  ∃ b, (b < 4)%nat ∧ r + dx a + dx b = r ∧ c + dy a + dy b = c.
Proof.
  intros Ha. destruct a as [|[|[|[|a]]]]; [| | |  |lia].
  - exists 2%nat. unfold dx, dy. simpl. lia.
  - exists 3%nat. unfold dx, dy. simpl. lia.
  - exists 0%nat. unfold dx, dy. simpl. lia.
  - exists 1%nat. unfold dx, dy. simpl. lia.
Qed.
End Neighbours.

(** ** One training episode *)

(** Rewriting with an equation about a lookup, whatever names the types
    of the key and of the map go by. *)
Ltac rew_lookup H :=
  match type of H with
  | _ = ?y =>
    match goal with
    | |- context [@lookup ?K ?A ?M ?I ?m ?key] =>
        replace (@lookup K A M I m key) with y by (symmetry; exact H)
    end
  end.

Lemma qlShape_update g (V : Q → Prop) qt h table l row a v :
  qlShape g V qt h table → readRow h l = Some row → (qt < l)%nat →
  fullRow V row → V v →
  qlShape g V qt (<[l := RowObj (<[a := v]> row)]> h) table
  ∧ (∀ l', (l' ≤ qt)%nat →
       (<[l := RowObj (<[a := v]> row)]> h) !! l' = h !! l')
  ∧ length (<[l := RowObj (<[a := v]> row)]> h) = length h.
Proof.
  intros (Ht & Hrows & Hdom) Hrow Hlt [Hfull HVrow] Hv.
  apply readRow_Some in Hrow. apply readTable_Some in Ht.
  split_and!.
  - split_and!; [|intros p l' Hl'|exact Hdom].
    + apply readTable_Some. etrans; [apply list_lookup_insert_ne; lia|done].
    + destruct (Hrows p l' Hl') as (Hlt' & Hopen & row' & Hrow' & Hfull').
      split_and!; [done..|]. destruct (decide (l' = l)) as [->|Hne].
      * eexists. split.
        -- apply readRow_Some, list_lookup_insert_eq.
           by apply lookup_lt_Some in Hrow.
        -- split.
           ++ intros b Hb. destruct (decide (b = a)) as [->|Hba].
              ** rewrite lookup_insert_eq. by eexists.
              ** rewrite lookup_insert_ne by done. by apply Hfull.
           ++ intros b w. destruct (decide (b = a)) as [->|Hba].
              ** rewrite lookup_insert_eq. by intros [= <-].
              ** rewrite lookup_insert_ne by done. apply HVrow.
      * exists row'. split; [|done]. apply readRow_Some in Hrow'.
        apply readRow_Some. etrans; [apply list_lookup_insert_ne; done|done].
  - intros l' Hl'. apply list_lookup_insert_ne. lia.
  - apply length_insert.
Qed.

Section QEpisode.
Variables (g : MazeGrid) (e : Pos) (ω : RandomSource).
Variables (epsilon γ α rv : Q) (V : Q → Prop) (qt : Loc).
Hypothesis HR : Rect g.
Hypothesis Hω : ValidRandom ω.
Hypothesis HV0 : V 0%Q.
Hypothesis Hkeep :
  ∀ old m, V old → V m →
    V (old + α * (0 + γ * m - old))%Q ∧ V (old + α * (rv + γ * 0 - old))%Q.

(** An episode that starts on a non-wall cell returns; it writes rows
    only, and nothing in it depends on the penalty. *)
Lemma qlEpisodeLoop_run budget :
  ∀ k cur h table sp sp',
  qlShape g V qt h table → openAt g cur →
  ∃ h' k',
    qlEpisodeLoop ω budget k g e table epsilon γ α rv sp cur.1 cur.2 h
      = Some (h', k')
    ∧ qlEpisodeLoop ω budget k g e table epsilon γ α rv sp' cur.1 cur.2 h
      = Some (h', k')
    ∧ qlShape g V qt h' table
    ∧ (∀ l, (l ≤ qt)%nat → h' !! l = h !! l)
    ∧ length h' = length h.
Proof.
  induction budget as [|budget IH]; intros k [r c] h table sp sp' Hsh Hcur.
  { exists h, k. by split_and!. }
  cbn [qlEpisodeLoop fst snd].
  pose proof Hsh as (Ht & Hrows & Hdom).
  destruct (Hdom (r, c) Hcur) as [l Hl].
  destruct (Hrows _ _ Hl) as (Hlt & _ & row & Hrow & Hfull & HVrow).
  assert (rowOf h table (r, c) = Some row) as ->
    by (unfold rowOf; by rewrite Hl).
  cbn [mbind option_bind].
  destruct (qlActions_total g HR row r c [0; 1; 2; 3]%nat) with
    (acc := (@nil nat, @None Q, @nil nat)) as [[[va mq] best] Hact].
  { intros a Ha. by apply Hfull, four_elem. }
  rewrite Hact. cbn [mbind option_bind fst snd].
  destruct (qlActions_elem g HR row r c _ _ _ Hact) as (Hel & Hbest & Hsub).
  cbn [fst snd] in Hel, Hbest, Hsub.
  destruct (decide (length va = 0%nat)) as [Hv0|Hv0].
  { exists h, k. by split_and!. }
  assert (∃ a, (if Qlt_le_dec (ω k) epsilon
                then va !! randomIndex (ω (S k)) (length va)
                else best !! randomIndex (ω (S k)) (length best)) = Some a
               ∧ a ∈ va) as (a & -> & Ha).
  { destruct (Qlt_le_dec (ω k) epsilon).
    - destruct (lookup_lt_is_Some_2 va (randomIndex (ω (S k)) (length va)))
        as [a Ha]; [apply randomIndex_lt; [apply Hω..|lia]|].
      exists a. split; [done|]. by eapply list_elem_of_lookup_2.
    - assert (best ≠ []) as Hne.
      { destruct Hbest as [[Hva _]|?]; [by left| |done].
        rewrite Hva in Hv0. done. }
      destruct (lookup_lt_is_Some_2 best
                  (randomIndex (ω (S k)) (length best))) as [a Ha].
      { apply randomIndex_lt; [apply Hω..|]. destruct best; [done|simpl; lia]. }
      exists a. split; [done|]. apply Hsub; [by intros ? ?%elem_of_nil|].
      by eapply list_elem_of_lookup_2. }
  cbn [mbind option_bind].
  apply Hel in Ha as [Ha|[Ha Hopen]]; [by apply elem_of_nil in Ha|].
  apply four_elem in Ha.
  destruct (Hfull a Ha) as [old Hold].
  pose proof (HVrow a old Hold) as HVold.
  destruct (decide ((r + dx a, c + dy a) = e)) as [He|He].
  { cbn [mbind option_bind fst snd]. rew_lookup Hl. cbn [mbind option_bind].
    rewrite Hrow. cbn [mbind option_bind]. rewrite Hold.
    cbn [mbind option_bind].
    destruct (qlShape_update g V qt h table l row a
                (old + α * (rv + γ * 0 - old))%Q Hsh Hrow Hlt)
      as (Hsh1 & Hpre1 & Hlen1);
      [by split|exact (proj2 (Hkeep old old HVold HVold))|].
    eexists _, _. by split_and!. }
  destruct (openSteps_total g HR (r + dx a) (c + dy a) [0; 1; 2; 3]%nat [])
    as (nv & -> & Hnv).
  cbn [mbind option_bind].
  assert (length nv ≠ 0%nat) as Hnv0.
  { destruct (way_back r c a Ha) as (b & Hb & Hbr & Hbc).
    assert (b ∈ nv) as Hin.
    { apply Hnv. right. split; [by apply four_elem|]. by rewrite Hbr, Hbc. }
    destruct nv; [by apply elem_of_nil in Hin|done]. }
  destruct (decide (length nv = 0%nat)) as [?|_]; [done|].
  cbn [mbind option_bind fst snd].
  destruct (Hdom _ Hopen) as [l' Hl']. rew_lookup Hl'.
  destruct (Hrows _ _ Hl') as (_ & _ & row' & Hrow' & Hfull' & HVrow').
  rewrite Hrow'. cbn [mbind option_bind].
  destruct (Hfull' 0%nat) as [v0 Hv0']; [lia|].
  destruct (maxOfRow_is_Some row' _ _ Hv0') as [m Hm]. rewrite Hm.
  destruct (maxOfRow_elem row' m Hm) as [am Ham].
  pose proof (HVrow' am m Ham) as HVm.
  cbn [mbind option_bind]. rew_lookup Hl. cbn [mbind option_bind].
  rewrite Hrow. cbn [mbind option_bind]. rewrite Hold.
  cbn [mbind option_bind].
  destruct (qlShape_update g V qt h table l row a
              (old + α * (0 + γ * m - old))%Q Hsh Hrow Hlt)
    as (Hsh1 & Hpre1 & Hlen1);
    [by split|exact (proj1 (Hkeep old m HVold HVm))|].
  destruct (IH (S (S k)) (r + dx a, c + dy a) _ table sp sp' Hsh1 Hopen)
    as (h' & k' & Hrun & Hrun' & Hsh' & Hpre' & Hlen').
  exists h', k'. split_and!; [exact Hrun|exact Hrun'|done| |congruence].
  intros l0 Hl0. rewrite Hpre' by done. by apply Hpre1.
Qed.
End QEpisode.

(** ** A training run *)

Lemma qlShape_alloc g (V : Q → Prop) qt h table o :
  qlShape g V qt h table →
  qlShape g V qt (h ++ [o]) table
  ∧ ∀ l, (l < length h)%nat → (h ++ [o]) !! l = h !! l.
Proof.
  intros (Ht & Hrows & Hdom).
  assert (∀ l, (l < length h)%nat → (h ++ [o]) !! l = h !! l) as Hpre
    by (intros l Hl; by apply lookup_app_l).
  split; [|done]. split_and!; [|intros p l Hl|exact Hdom].
  - apply readTable_Some in Ht. apply readTable_Some.
    etrans; [apply Hpre; by apply lookup_lt_Some in Ht|done].
  - destruct (Hrows p l Hl) as (Hlt & Hopen & row & Hrow & Hfull).
    split_and!; [done..|]. exists row. split; [|done].
    apply readRow_Some in Hrow. apply readRow_Some.
    etrans; [apply Hpre; by apply lookup_lt_Some in Hrow|done].
Qed.

Lemma trainQEpisode_None ω ig g s e qt episodes epsilon γ α rv sp l :
  foldl (trainQEpisode ω ig g s e qt episodes epsilon γ α rv sp) None l = None.
Proof. by induction l. Qed.

Lemma qInitStep_None g qt l : foldl (qInitStep g qt) None l = None.
Proof. by induction l. Qed.

Lemma qlReportsProgress_last m : qlReportsProgress (S m) m = true.
Proof.
  unfold qlReportsProgress. apply orb_true_iff. right.
  apply Nat.eqb_eq. lia.
Qed.

Section QTraining.
Variables (g : MazeGrid) (s e : Pos) (ω : RandomSource).
Variables (episodes : nat) (epsilon γ α rv : Q) (V : Q → Prop).
Variables (h0 : Heap) (ig : Loc).
Hypothesis HR : Rect g.
Hypothesis Hω : ValidRandom ω.
Hypothesis HV0 : V 0%Q.
Hypothesis Hkeep :
  ∀ old m, V old → V m →
    V (old + α * (0 + γ * m - old))%Q ∧ V (old + α * (rv + γ * 0 - old))%Q.

(** The loop that sets up the table. *)
Lemma qinit_fold (ps : list Pos) :
  (∀ p, p ∈ ps → is_Some (get2 g p.1 p.2)) →
  ∀ h t,
  readTable h (length h0) = Some t →
  (∀ l, (l < length h0)%nat → h !! l = h0 !! l) →
  (∀ p l, t !! p = Some l →
     (length h0 < l)%nat ∧ openAt g p
     ∧ ∃ row, readRow h l = Some row ∧ fullRow V row) →
  ∃ h' t',
    foldl (qInitStep g (length h0)) (Some h) ps = Some h'
    ∧ readTable h' (length h0) = Some t'
    ∧ (∀ l, (l < length h0)%nat → h' !! l = h0 !! l)
    ∧ (∀ p l, t' !! p = Some l →
         (length h0 < l)%nat ∧ openAt g p
         ∧ ∃ row, readRow h' l = Some row ∧ fullRow V row)
    ∧ (∀ p, is_Some (t !! p) ∨ (p ∈ ps ∧ openAt g p) → is_Some (t' !! p)).
Proof.
  induction ps as [|p ps IH]; intros Hps h t Ht Hpre Hrows.
  { exists h, t. split_and!; [done..|]. intros p [?|[Hp _]]; [done|].
    by apply elem_of_nil in Hp. }
  cbn [foldl]. unfold qInitStep at 2. cbn [mbind option_bind].
  destruct (Hps p) as [x Hx]; [apply elem_of_cons; by left|].
  rewrite Hx. cbn [mbind option_bind].
  assert (∀ q, q ∈ ps → is_Some (get2 g q.1 q.2)) as Hps'
    by (intros q Hq; apply Hps, elem_of_cons; by right).
  destruct (isWall x) eqn:Ew.
  { destruct (IH Hps' h t Ht Hpre Hrows) as (h' & t' & Hf & Ht' & Hpre' & Hr' & Hd').
    exists h', t'. split_and!; [done..|].
    intros q [?|[Hq Hopen]]; [apply Hd'; by left|].
    apply elem_of_cons in Hq as [->|Hq]; [|apply Hd'; by right].
    destruct Hopen as (y & Hy & Hw). congruence. }
  cbn [alloc fst snd].
  pose proof Ht as Ht0. apply readTable_Some in Ht0.
  pose proof (lookup_lt_Some _ _ _ Ht0) as Hlen.
  assert (readTable (h ++ [RowObj zeroRow]) (length h0) = Some t) as ->.
  { apply readTable_Some. etrans; [by apply lookup_app_l|done]. }
  cbn [mbind option_bind].
  edestruct (IH Hps') as (h' & t' & Hf & Ht' & Hpre' & Hr' & Hd');
    [| | |exists h', t'; split_and!; [exact Hf|done..|]].
  - apply readTable_Some, list_lookup_insert_eq. rewrite length_app. lia.
  - intros l Hl. etrans; [apply list_lookup_insert_ne; lia|].
    etrans; [apply lookup_app_l; lia|by apply Hpre].
  - intros q l. destruct (decide (q = p)) as [->|Hne].
    + rewrite lookup_insert_eq. intros [= <-]. split_and!; [lia|by exists x|].
      exists zeroRow. split; [|by apply zeroRow_full].
      apply readRow_Some. etrans; [apply list_lookup_insert_ne; lia|].
      by apply list_lookup_middle.
    + rewrite lookup_insert_ne by done. intros Hl.
      destruct (Hrows q l Hl) as (Hlt & Hopen & row & Hrow & Hfull).
      split_and!; [done..|]. exists row. split; [|done].
      apply readRow_Some in Hrow. apply readRow_Some.
      etrans; [apply list_lookup_insert_ne; lia|].
      etrans; [apply lookup_app_l; by apply lookup_lt_Some in Hrow|done].
  - intros q [Hq|[Hq Hopen]].
    + apply Hd'. left. destruct (decide (q = p)) as [->|Hne].
      * rewrite lookup_insert_eq. by eexists.
      * by rewrite lookup_insert_ne.
    + apply elem_of_cons in Hq as [->|Hq]; [|apply Hd'; by right].
      apply Hd'. left. rewrite lookup_insert_eq. by eexists.
Qed.

Hypothesis Hs : openAt g s.

Lemma trainQEpisode_run n st sp sp' :
  qTrained g V h0 ig (length h0) episodes n st →
  ∃ st',
    trainQEpisode ω ig g s e (length h0) episodes epsilon γ α rv sp
                  (Some st) n = Some st'
    ∧ trainQEpisode ω ig g s e (length h0) episodes epsilon γ α rv sp'
                    (Some st) n = Some st'
    ∧ qTrained g V h0 ig (length h0) episodes (S n) st'.
Proof.
  intros ((table & Hsh) & Hpre & Hn & Htot & Hout & _).
  unfold trainQEpisode. cbn [mbind option_bind].
  rewrite (proj1 Hsh). cbn [mbind option_bind].
  destruct (qlEpisodeLoop_run g e ω epsilon γ α rv V (length h0) HR Hω
              Hkeep (length g * Z.to_nat (cols g) * 2) (qlRand st) s
              (qlHeap st) table sp sp' Hsh Hs)
    as (h1 & k1 & -> & -> & Hsh1 & Hpre1 & Hlen1).
  cbn [mbind option_bind fst snd].
  assert (Forall (λ sh : QLearningStep * Heap,
            qlStepGrid sh.1 = ig
            ∧ (1 ≤ qlEpisodesCompleted (qlStepMetrics sh.1) ≤ S n)%nat
            ∧ qlTotalEpisodes (qlStepMetrics sh.1) = episodes)
           (qlEmitted st)) as Hout'.
  { eapply Forall_impl; [exact Hout|]. intros sh (? & ? & ?).
    split_and!; [done|lia..|done]. }
  assert (∀ l, (l < length h0)%nat → h1 !! l = h0 !! l) as Hpre1'.
  { intros l Hl. rewrite Hpre1 by lia. by apply Hpre. }
  destruct (qlReportsProgress episodes n) eqn:Hrep.
  - rewrite (proj1 Hsh1). cbn [mbind option_bind alloc fst snd].
    destruct (qlShape_alloc g V (length h0) h1 table (TableObj table) Hsh1)
      as (Hsh2 & Hpre2).
    eexists. split; [done|]. split; [done|].
    unfold qTrained. cbn [qlHeap qlMetrics qlEmitted].
    split_and!.
    + by exists table.
    + intros l Hl. rewrite Hpre2; [by apply Hpre1'|].
      pose proof (proj1 Hsh1) as Ht1.
      apply readTable_Some, lookup_lt_Some in Ht1. lia.
    + simpl. lia.
    + done.
    + apply Forall_app. split; [done|]. apply Forall_singleton.
      simpl. split_and!; [done|lia..|done].
    + intros m [= <-] _. eexists. rewrite last_snoc. split; [done|].
      simpl. lia.
  - eexists. split; [done|]. split; [done|].
    unfold qTrained. cbn [qlHeap qlMetrics qlEmitted].
    split_and!; [by exists table|done|simpl; lia|done|done|].
    intros m [= <-] Hrep'. congruence.
Qed.

Lemma qtraining_run st0 sp sp' n :
  qTrained g V h0 ig (length h0) episodes 0 st0 →
  ∃ st,
    foldl (trainQEpisode ω ig g s e (length h0) episodes epsilon γ α rv sp)
          (Some st0) (seq 0 n) = Some st
    ∧ foldl (trainQEpisode ω ig g s e (length h0) episodes epsilon γ α rv sp')
            (Some st0) (seq 0 n) = Some st
    ∧ qTrained g V h0 ig (length h0) episodes n st.
Proof.
  intros H0. induction n as [|n (st & Hfold & Hfold' & Hst)].
  { by exists st0. }
  rewrite seq_S, !foldl_snoc, Hfold, Hfold'. simpl.
  by apply trainQEpisode_run.
Qed.

Hypothesis Hf : findPositions g = Some (s, e).
Hypothesis Hig : readGrid h0 ig = Some g.

(** A run of [runQLearning] returns, and the penalty plays no part in
    what it returns. *)
Lemma runQLearning_run sp sp' :
  ∃ st,
    runQLearning ω h0 ig episodes epsilon γ α rv sp = Some st
    ∧ runQLearning ω h0 ig episodes epsilon γ α rv sp' = Some st
    ∧ qTrained g V h0 ig (length h0) episodes episodes st
    ∧ qlQTable (qlMetrics st) = length h0.
Proof.
  unfold runQLearning. rewrite Hig. cbn [mbind option_bind].
  rewrite cloneGrid_id, Hf. cbn [mbind option_bind alloc fst snd].
  destruct (qinit_fold (positions (length g) (Z.to_nat (cols g))))
    with (h := h0 ++ [TableObj ∅]) (t := (∅ : gmap Pos Loc))
    as (h1 & t1 & -> & Ht1 & Hpre1 & Hrows1 & Hdom1).
  { intros p Hp. apply get2_is_Some; [done|]. apply inBounds_spec.
    apply positions_elem in Hp. unfold rows. destruct g; simpl in *; lia. }
  { apply readTable_Some. by apply list_lookup_middle. }
  { intros l Hl. by apply lookup_app_l. }
  { intros p l Hl. by rewrite lookup_empty in Hl. }
  cbn [mbind option_bind].
  assert (qlShape g V (length h0) h1 t1) as Hsh1.
  { split_and!; [done..|]. intros p Hp. apply Hdom1. right. split; [|done].
    apply positions_elem. apply open_inBounds, inBounds_spec in Hp; [|done].
    unfold rows in Hp. destruct g; simpl in *; lia. }
  destruct (qlShape_alloc g V (length h0) h1 t1 (TableObj ∅) Hsh1)
    as (Hsh2 & Hpre2).
  edestruct (qtraining_run (mkQlState (h1 ++ [TableObj ∅])
               (mkQlMetrics (mkMetrics 0 0 false) (length h1) 0 episodes)
               0 []) sp sp' episodes) as (st & -> & -> & Hst).
  { unfold qTrained. cbn [qlHeap qlMetrics qlEmitted].
    split_and!; [by exists t1| |done..].
    intros l Hl. rewrite Hpre2; [by apply Hpre1|].
    apply readTable_Some, lookup_lt_Some in Ht1. lia. }
  cbn [mbind option_bind].
  eexists. split; [done|]. split; [done|]. split; [|done].
  destruct Hst as (Hsh & Hpre & Hn & Htot & Hout & Hlast).
  unfold qTrained. cbn [qlHeap qlMetrics qlEmitted]. by split_and!.
Qed.
End QTraining.

(** ** The numbers of the table *)

Lemma q_update_range α γ rv lo hi old m :
  (0 <= α)%Q → (α <= 1)%Q → (0 <= γ)%Q → (γ <= 1)%Q →
  (lo <= 0)%Q → (0 <= hi)%Q → (lo <= rv)%Q → (rv <= hi)%Q →
  (lo <= old)%Q ∧ (old <= hi)%Q → (lo <= m)%Q ∧ (m <= hi)%Q →
  ((lo <= old + α * (0 + γ * m - old))%Q
   ∧ (old + α * (0 + γ * m - old) <= hi)%Q)
  ∧ ((lo <= old + α * (rv + γ * 0 - old))%Q
     ∧ (old + α * (rv + γ * 0 - old) <= hi)%Q).
Proof.
  intros Hα0 Hα1 Hγ0 Hγ1 Hlo Hhi Hrvlo Hrvhi [Ho1 Ho2] [Hm1 Hm2].
  destruct (scaled_range lo hi m γ) as [Hs1 Hs2]; [done..|].
  set (y := (m * γ)%Q) in *.
  assert (γ * m == y)%Q as Hy by (unfold y; ring).
  split; split.
  - setoid_replace (old + α * (0 + γ * m - old))%Q
      with (old + α * (y - old))%Q using relation Qeq
      by (rewrite Hy; ring).
    nra.
  - setoid_replace (old + α * (0 + γ * m - old))%Q
      with (old + α * (y - old))%Q using relation Qeq
      by (rewrite Hy; ring).
    nra.
  - nra.
  - nra.
Qed.

(** ** A start cell that is a wall *)

Lemma bind_None_all {A B} (x : option A) (f : A → option B) :
  (∀ a, f a = None) → x ≫= f = None.
Proof. intros Hf. destruct x; [apply Hf|done]. Qed.

Lemma qlEpisodeLoop_wall g e ω epsilon γ α rv sp table h budget k r c :
  Rect g → table !! (r, c) = None →
  (∃ a, (a < 4)%nat ∧ openAt g (r + dx a, c + dy a)) →
  qlEpisodeLoop ω (S budget) k g e table epsilon γ α rv sp r c h = None.
Proof.
  intros HR Hnone (a & Ha & Hopen). cbn [qlEpisodeLoop].
  assert (rowOf h table (r, c) = Some zeroRow) as ->
    by (unfold rowOf; rew_lookup Hnone; done).
  cbn [mbind option_bind].
  destruct (foldl (qlActionStep g zeroRow r c) (Some ([], None, []))
                  [0; 1; 2; 3]%nat) as [[[va mq] best]|] eqn:Hact; [|done].
  cbn [mbind option_bind fst snd].
  destruct (qlActions_elem g HR zeroRow r c _ _ _ Hact) as (Hel & _ & _).
  cbn [fst snd] in Hel.
  assert (a ∈ va) as Hin by (apply Hel; right; by rewrite four_elem).
  destruct (decide (length va = 0%nat)) as [Hv0|_].
  { destruct va; [by apply elem_of_nil in Hin|done]. }
  apply bind_None_all. intros action.
  apply bind_None_all. intros outcome.
  apply bind_None_all. intros maxNext.
  rew_lookup Hnone. done.
Qed.

Lemma runQLearning_wall g s e ω h0 ig episodes epsilon γ α rv sp x :
  Rect g → findPositions g = Some (s, e) → readGrid h0 ig = Some g →
  get2 g s.1 s.2 = Some x → isWall x = true →
  (∃ a, (a < 4)%nat ∧ openAt g (s.1 + dx a, s.2 + dy a)) →
  (0 < episodes)%nat →
  runQLearning ω h0 ig episodes epsilon γ α rv sp = None.
Proof.
  intros HR Hf Hig Hx Hw Hnb Hep.
  unfold runQLearning. rewrite Hig. cbn [mbind option_bind].
  rewrite cloneGrid_id, Hf. cbn [mbind option_bind alloc fst snd].
  destruct (qinit_fold g (λ _, True) h0 I
              (positions (length g) (Z.to_nat (cols g))))
    with (h := h0 ++ [TableObj ∅]) (t := (∅ : gmap Pos Loc))
    as (h1 & t1 & -> & Ht1 & Hpre1 & Hrows1 & Hdom1).
  { intros p Hp. apply get2_is_Some; [done|]. apply inBounds_spec.
    apply positions_elem in Hp. unfold rows. destruct g; simpl in *; lia. }
  { apply readTable_Some. by apply list_lookup_middle. }
  { intros l Hl. by apply lookup_app_l. }
  { intros p l Hl. by rewrite lookup_empty in Hl. }
  cbn [mbind option_bind].
  assert (t1 !! s = None) as Hnone.
  { destruct (t1 !! s) as [l|] eqn:El; [|done].
    destruct (Hrows1 s l El) as (_ & (y & Hy & Hyw) & _). congruence. }
  destruct episodes as [|n]; [lia|].
  cbn [seq foldl]. unfold trainQEpisode at 2. cbn [mbind option_bind].
  cbn [qlHeap].
  assert (readTable (h1 ++ [TableObj ∅]) (length h0) = Some t1) as ->.
  { apply readTable_Some in Ht1. apply readTable_Some.
    etrans; [apply lookup_app_l; by apply lookup_lt_Some in Ht1|done]. }
  cbn [mbind option_bind].
  assert (is_Some (get2 g s.1 s.2)) as Hin by by eexists.
  apply get2_is_Some in Hin; [|done]. apply inBounds_spec in Hin.
  destruct (length g * Z.to_nat (cols g) * 2)%nat as [|budget] eqn:Eb.
  { unfold rows in Hin. nia. }
  destruct s as [r c].
  rewrite (qlEpisodeLoop_wall g e ω epsilon γ α rv sp t1 _ budget _ r c HR
             Hnone Hnb).
  cbn [mbind option_bind]. by rewrite trainQEpisode_None.
Qed.

(** * Properties of the components *)

(** ** [cleanMaze] *)

Lemma map_lookup {A B} (f : A → B) (l : list A) (i : nat) :
  map f l !! i = f <$> l !! i.
Proof. revert i. induction l as [|x l IH]; intros [|i]; simpl; auto. Qed.

Lemma get2_map {A B} (f : A → B) (m : list (list A)) r c :
  get2 (map (map f) m) r c = f <$> get2 m r c.
Proof.
  unfold get2. case_decide; [|done]. rewrite map_lookup.
  destruct (m !! Z.to_nat r) as [line|]; simpl; [|done]. apply map_lookup.
Qed.

Lemma cleanMaze_get2 g r c :
  get2 (cleanMaze g) r c
  = (λ x, mkCell (row x) (col x) (isWall x) (isStart x) (isEnd x) false false)
      <$> get2 g r c.
Proof. apply get2_map. Qed.

Lemma cleanMaze_rows g : rows (cleanMaze g) = rows g.
Proof. unfold rows, cleanMaze. by rewrite length_map. Qed.

Lemma cleanMaze_cols g : cols (cleanMaze g) = cols g.
Proof. destruct g; [done|]. simpl. by rewrite length_map. Qed.

Lemma cleanMaze_Rect g : Rect g → Rect (cleanMaze g).
Proof.
  intros HR. unfold Rect. rewrite cleanMaze_cols. unfold cleanMaze.
  apply Forall_forall. intros line' Hin.
  apply list_elem_of_lookup in Hin as [i Hi]. rewrite map_lookup in Hi.
  destruct (g !! i) as [line|] eqn:El; [|done]. injection Hi as <-.
  rewrite length_map. unfold Rect in HR. rewrite Forall_forall in HR.
  apply HR. by eapply list_elem_of_lookup_2.
Qed.

Lemma cleanMaze_sameMaze g : Rect g → sameMaze g (cleanMaze g).
Proof.
  intros HR. split_and!.
  - apply cleanMaze_rows.
  - apply cleanMaze_cols.
  - by apply cleanMaze_Rect.
  - intros r c. rewrite cleanMaze_get2. by destruct (get2 g r c).
Qed.

Lemma get2_ext (g g' : MazeGrid) :
  Rect g → Rect g' → rows g' = rows g → cols g' = cols g →
  (∀ r c, get2 g' r c = get2 g r c) → g' = g.
Proof.
  intros HR HR' Hrows Hcols Hget. unfold rows in Hrows.
  apply list_eq_same_length with (length g); [done|lia|].
  intros i line' line Hi Hl' Hl.
  unfold Rect in HR, HR'. rewrite Forall_forall in HR, HR'.
  pose proof (HR line (list_elem_of_lookup_2 _ _ _ Hl)) as Hlen.
  pose proof (HR' line' (list_elem_of_lookup_2 _ _ _ Hl')) as Hlen'.
  apply list_eq. intros j. specialize (Hget (Z.of_nat i) (Z.of_nat j)).
  unfold get2 in Hget. rewrite decide_True in Hget by lia.
  rewrite decide_True in Hget by lia. rewrite !Nat2Z.id, Hl, Hl' in Hget.
  done.
Qed.

Lemma cleanMaze_same g g' :
  Rect g → sameMaze g g' → cleanMaze g' = cleanMaze g.
Proof.
  intros HR (Hrows & Hcols & HR' & Hst).
  apply get2_ext.
  - by apply cleanMaze_Rect.
  - by apply cleanMaze_Rect.
  - by rewrite !cleanMaze_rows.
  - by rewrite !cleanMaze_cols.
  - intros r c. rewrite !cleanMaze_get2. specialize (Hst r c).
    destruct (get2 g' r c) as [x'|], (get2 g r c) as [x|]; try done.
    assert (staticOf x' = staticOf x) as Heq by (simpl in Hst; congruence).
    apply staticOf_inv in Heq as (H1 & H2 & H3 & H4 & H5). simpl.
    by rewrite H1, H2, H3, H4, H5.
Qed.

Lemma cleanMaze_idem g : cleanMaze (cleanMaze g) = cleanMaze g.
Proof.
  unfold cleanMaze. rewrite map_map. apply map_ext. intros line.
  rewrite map_map. by apply map_ext.
Qed.

Lemma WellFormed_sameMaze g g' s e :
  sameMaze g g' → WellFormed g s e → WellFormed g' s e.
Proof.
  intros HS (HR & Hos & Hoe & Hs & He).
  assert (∀ p, startAt g' p ↔ startAt g p) as Hst.
  { intros p. split; intros (x & Hx & Hf).
    - destruct (sameMaze_get2_rev _ _ _ _ _ HS Hx) as (y & Hy & Heq).
      apply staticOf_inv in Heq as (_ & _ & _ & ? & _). exists y.
      split; [done|]. congruence.
    - destruct (sameMaze_get2 _ _ _ _ _ HS Hx) as (y & Hy & Heq).
      apply staticOf_inv in Heq as (_ & _ & _ & ? & _). exists y.
      split; [done|]. congruence. }
  assert (∀ p, endAt g' p ↔ endAt g p) as Hen.
  { intros p. split; intros (x & Hx & Hf).
    - destruct (sameMaze_get2_rev _ _ _ _ _ HS Hx) as (y & Hy & Heq).
      apply staticOf_inv in Heq as (_ & _ & _ & _ & ?). exists y.
      split; [done|]. congruence.
    - destruct (sameMaze_get2 _ _ _ _ _ HS Hx) as (y & Hy & Heq).
      apply staticOf_inv in Heq as (_ & _ & _ & _ & ?). exists y.
      split; [done|]. congruence. }
  split_and!.
  - by destruct HS as (_ & _ & ? & _).
  - by apply (sameMaze_openAt g g').
  - by apply (sameMaze_openAt g g').
  - intros p. by rewrite Hst.
  - intros p. by rewrite Hen.
Qed.

(** ** [App] *)

Lemma appStep_range st ev :
  5 ≤ st.1 ≤ 30 ∧ 5 ≤ st.2 ≤ 30 →
  5 ≤ (appStep st ev).1 ≤ 30 ∧ 5 ≤ (appStep st ev).2 ≤ 30.
Proof.
  intros Hst. destruct ev as [[v|]|[v|]]; simpl; try done.
  - destruct (4 <? v) eqn:E1; [|done]. destruct (v <=? 30) eqn:E2; [|done].
    simpl. lia.
  - destruct (4 <? v) eqn:E1; [|done]. destruct (v <=? 30) eqn:E2; [|done].
    simpl. lia.
Qed.

Lemma app_range events :
  ∀ st, 5 ≤ st.1 ≤ 30 ∧ 5 ≤ st.2 ≤ 30 →
  5 ≤ (foldl appStep st events).1 ≤ 30 ∧ 5 ≤ (foldl appStep st events).2 ≤ 30.
Proof.
  induction events as [|ev events IH]; intros st Hst; [done|].
  simpl. by apply IH, appStep_range.
Qed.

(** ** [ValueFunctionViz] *)

Lemma imap_indices {A} (f : A → Q) (l : list A) :
  ∀ k, (imap (λ index x, ((k + index)%nat, f x)) l).*1 = seq k (length l).
Proof.
  induction l as [|x l IH]; intros k; [done|].
  rewrite imap_cons. simpl. f_equal; [lia|].
  rewrite <- (IH (S k)). f_equal. apply imap_ext. intros i y _. simpl.
  f_equal. lia.
Qed.

Lemma filter_all {A} (P : A → Prop) `{∀ x, Decision (P x)} (l : list A) :
  Forall P l → filter P l = l.
Proof.
  induction 1 as [|x l Hx Hl IH]; [done|].
  rewrite filter_cons_True by done. by rewrite IH.
Qed.

Lemma processHistory_indices cell history :
  (1 < length history)%nat →
  (processHistory (Some cell) history).*1 = seq 1 (length history - 1).
Proof.
  intros Hlen. unfold processHistory.
  destruct (length history <=? 1)%nat eqn:E; [apply Nat.leb_le in E; lia|].
  destruct history as [|vf history]; [simpl in Hlen; lia|].
  rewrite imap_cons. rewrite filter_cons_False by (simpl; lia).
  simpl length. replace (S (length history) - 1)%nat with (length history) by lia.
  rewrite <- (imap_indices (λ vf, valueAt vf cell) history 1).
  f_equal. apply filter_all, Forall_forall. intros [i v] Hin.
  apply elem_of_lookup_imap_1 in Hin as (j & y & Heq & _).
  injection Heq as -> _. simpl. lia.
Qed.

Lemma foldl_min_seq a k m :
  a ≤ Z.of_nat k → foldl Z.min a (Z.of_nat <$> seq k m) = a.
Proof.
  revert k. induction m as [|m IH]; intros k Hk; [done|].
  simpl. rewrite Z.min_l by lia. apply IH. lia.
Qed.

Lemma foldl_max_seq k m :
  foldl Z.max (Z.of_nat k) (Z.of_nat <$> seq (S k) m) = Z.of_nat (k + m).
Proof.
  revert k. induction m as [|m IH]; intros k; simpl; [f_equal; lia|].
  rewrite Z.max_r by lia. rewrite IH. f_equal. lia.
Qed.

Lemma indices_seq ph n :
  ph.*1 = seq 1 (S n) → minIndex ph = 1 ∧ maxIndex ph = Z.of_nat (S n).
Proof.
  intros Hph. unfold maxIndex, minIndex. rewrite Hph. simpl. split.
  - by apply (foldl_min_seq 1 2 n).
  - by rewrite (foldl_max_seq 1 n).
Qed.

Lemma panLeft_spec mi ext :
  (panLeft mi ext).2 - (panLeft mi ext).1 = ext.2 - ext.1
  ∧ (panLeft mi ext).1 ≤ ext.1
  ∧ (panLeft mi ext).2 ≤ ext.2
  ∧ (mi ≤ ext.1 → mi ≤ (panLeft mi ext).1)
  ∧ (ext.1 ≤ mi → panLeft mi ext = ext).
Proof.
  destruct ext as [mn mx]. unfold panLeft. cbn [fst snd].
  generalize ((mx - mn) / 4). intros q.
  destruct (mi <=? mn - Z.max 1 q) eqn:E1; cbn [fst snd].
  { apply Z.leb_le in E1. split_and!; lia. }
  apply Z.leb_gt in E1.
  destruct (mi <? mn) eqn:E2; cbn [fst snd].
  { apply Z.ltb_lt in E2. split_and!; lia. }
  split_and!; try lia. done.
Qed.

Lemma panRight_spec ma ext :
  (panRight ma ext).2 - (panRight ma ext).1 = ext.2 - ext.1
  ∧ ext.1 ≤ (panRight ma ext).1
  ∧ ext.2 ≤ (panRight ma ext).2
  ∧ (ext.2 ≤ ma → (panRight ma ext).2 ≤ ma)
  ∧ (ma ≤ ext.2 → panRight ma ext = ext).
Proof.
  destruct ext as [mn mx]. unfold panRight. cbn [fst snd].
  generalize ((mx - mn) / 4). intros q.
  destruct (mx + Z.max 1 q <=? ma) eqn:E1; cbn [fst snd].
  { apply Z.leb_le in E1. split_and!; lia. }
  apply Z.leb_gt in E1.
  destruct (mx <? ma) eqn:E2; cbn [fst snd].
  { apply Z.ltb_lt in E2. split_and!; lia. }
  split_and!; try lia. done.
Qed.

(** A view extent inside the data keeps its width and stays inside under
    the arrow buttons. *)
Lemma arrows_inside mi ma buttons :
  ∀ ext, mi ≤ ext.1 → ext.2 ≤ ma → ShowAll ∉ buttons →
  mi ≤ (foldl (press mi ma) ext buttons).1
  ∧ (foldl (press mi ma) ext buttons).2 ≤ ma
  ∧ (foldl (press mi ma) ext buttons).2 - (foldl (press mi ma) ext buttons).1
    = ext.2 - ext.1.
Proof.
  induction buttons as [|b buttons IH]; intros ext H1 H2 Hall; [done|].
  cbn [foldl]. apply not_elem_of_cons in Hall as [Hb Hall].
  destruct b; [| |done]; cbn [press].
  - destruct (panLeft_spec mi ext) as (Hw & Hl1 & Hl2 & Hin & _).
    destruct (IH (panLeft mi ext)) as (? & ? & ?); [by apply Hin|lia|done|].
    split_and!; [done..|lia].
  - destruct (panRight_spec ma ext) as (Hw & Hl1 & Hl2 & Hin & _).
    destruct (IH (panRight ma ext)) as (? & ? & ?); [lia|by apply Hin|done|].
    split_and!; [done..|lia].
Qed.

(** A view extent that starts at the first index and ends at or after the
    last one is left as it is by the arrow buttons. *)
Lemma arrows_frozen mi ma buttons ext :
  ext.1 ≤ mi → ma ≤ ext.2 → ShowAll ∉ buttons →
  foldl (press mi ma) ext buttons = ext.
Proof.
  intros H1 H2. induction buttons as [|b buttons IH]; intros Hall; [done|].
  cbn [foldl]. apply not_elem_of_cons in Hall as [Hb Hall].
  destruct b; [| |done]; cbn [press].
  - destruct (panLeft_spec mi ext) as (_ & _ & _ & _ & Hfix).
    rewrite (Hfix H1). by apply IH.
  - destruct (panRight_spec ma ext) as (_ & _ & _ & _ & Hfix).
    rewrite (Hfix H2). by apply IH.
Qed.

(** ** The parameter fields *)

Lemma mathMax_spec x y :
  (x <= mathMax x y)%Q ∧ (y <= mathMax x y)%Q
  ∧ (mathMax x y = x ∨ mathMax x y = y).
Proof.
  unfold mathMax. destruct (Qlt_le_dec x y); split_and!; auto.
  all: try lra. all: apply Qle_refl.
Qed.

Lemma mathMin_spec x y :
  (mathMin x y <= x)%Q ∧ (mathMin x y <= y)%Q
  ∧ (mathMin x y = x ∨ mathMin x y = y).
Proof.
  unfold mathMin. destruct (Qlt_le_dec x y); split_and!; auto.
  all: try lra. all: apply Qle_refl.
Qed.

Lemma clamp_range lo hi x :
  (lo <= hi)%Q →
  (lo <= mathMax lo (mathMin hi x))%Q ∧ (mathMax lo (mathMin hi x) <= hi)%Q.
Proof.
  intros Hlh. destruct (mathMax_spec lo (mathMin hi x)) as (H1 & H2 & [E|E]).
  - rewrite E. split; lra.
  - destruct (mathMin_spec hi x) as (H3 & _). split; [exact H1|].
    by rewrite E.
Qed.

Lemma params_range events :
  ∀ p,
  ((0 <= discountFactor p)%Q ∧ (discountFactor p <= 1)%Q
   ∧ (0 <= learningRate p)%Q ∧ (learningRate p <= 1)%Q
   ∧ (0 <= monteCarloReward p)%Q ∧ (stuckPenalty p <= 0)%Q) →
  let p' := foldl paramStep p events in
  (0 <= discountFactor p')%Q ∧ (discountFactor p' <= 1)%Q
  ∧ (0 <= learningRate p')%Q ∧ (learningRate p' <= 1)%Q
  ∧ (0 <= monteCarloReward p')%Q ∧ (stuckPenalty p' <= 0)%Q.
Proof.
  induction events as [|ev events IH]; intros p Hp; [done|].
  cbn [foldl]. apply IH. destruct Hp as (? & ? & ? & ? & ? & ?).
  destruct ev; cbn [paramStep discountFactor learningRate monteCarloReward
                    stuckPenalty]; split_and!; try done.
  - apply clamp_range. lra.
  - apply clamp_range. lra.
  - destruct (clamp_range (1 # 100) 1 (orDefault value (1 # 10))) as [Hc _];
      [lra|].
    eapply Qle_trans; [|exact Hc]. lra.
  - apply clamp_range. lra.
  - apply mathMax_spec.
  - apply mathMin_spec.
Qed.

(** * The snapshots of Monte Carlo training *)

Lemma grewFrom_refl h : grewFrom h h.
Proof. split_and!; [done..|]. intros a0 Ha. by exists a0. Qed.

Lemma grewFrom_trans h1 h2 h3 :
  grewFrom h1 h2 → grewFrom h2 h3 → grewFrom h1 h3.
Proof.
  intros (L1 & K1 & A1) (L2 & K2 & A2). split_and!; [lia| |].
  - intros l Hl. rewrite K2 by lia. by apply K1.
  - intros a0 Ha0. destruct (A1 a0 Ha0) as (a1 & Ha1 & Hp1).
    destruct (A2 a1 Ha1) as (a2 & Ha2 & Hp2). exists a2. split; [done|].
    by etrans.
Qed.

Lemma setKey_grows h key v h' :
  setKey h 0%nat key v = Some h' → grewFrom h h'.
Proof.
  unfold setKey. destruct (readDict h 0%nat) as [d|]; [|done].
  intros [= <-]. split_and!.
  - unfold Heap. by rewrite length_insert.
  - intros l Hl. apply list_lookup_insert_ne. lia.
  - intros a0 Ha0. exists a0. split; [|done]. apply readArray_Some in Ha0.
    apply readArray_Some. etrans; [by apply list_lookup_insert_ne|done].
Qed.

Lemma snapshot_grows m h h' :
  mcValueFunction m = 0%nat → mcValueFunctionHistory m = 1%nat →
  saveValueFunctionSnapshot m h = Some h' →
  grewFrom h h'
  ∧ ∃ d a, readDict h 0%nat = Some d ∧ readArray h 1%nat = Some a
      ∧ readDict h' 0%nat = Some d
      ∧ readArray h' 1%nat = Some (a ++ [length h])
      ∧ readDict h' (length h) = Some d.
Proof.
  intros Hv Hh. unfold saveValueFunctionSnapshot. rewrite Hv, Hh.
  destruct (readDict h 0%nat) as [d|] eqn:Ed; [|done]. simpl.
  unfold pushLoc.
  destruct (readArray (h ++ [DictObj d]) 1%nat) as [a|] eqn:Ea; [|done].
  intros [= <-].
  apply readDict_Some in Ed. apply readArray_Some in Ea.
  pose proof (lookup_lt_Some _ _ _ Ed) as Hlen.
  destruct (decide (length h = 1%nat)) as [H1|H1].
  { unfold Heap, Loc in *. rewrite lookup_app_r in Ea by lia.
    rewrite H1 in Ea. done. }
  assert (h !! 1%nat = Some (ArrayObj a)) as Ea'.
  { unfold Heap, Loc in *. rewrite lookup_app_l in Ea by lia. done. }
  assert (readArray (<[1%nat := ArrayObj (a ++ [length h])]> (h ++ [DictObj d]))
            1%nat = Some (a ++ [length h])) as Ha'.
  { apply readArray_Some, list_lookup_insert_eq. unfold Heap in *.
    rewrite length_app. simpl. lia. }
  split.
  - split_and!.
    + unfold Heap in *. rewrite length_insert, length_app. lia.
    + intros l Hl. etrans; [apply list_lookup_insert_ne; lia|].
      apply lookup_app_l. lia.
    + intros a0 Ha0. apply readArray_Some in Ha0.
      pose proof (eq_trans (eq_sym Ha0) Ea') as [= ->].
      exists (a ++ [length h]). split; [done|]. by apply prefix_app_r.
  - exists d, a. split_and!.
    + done.
    + by apply readArray_Some.
    + apply readDict_Some. etrans; [by apply list_lookup_insert_ne|].
      etrans; [apply lookup_app_l; lia|done].
    + done.
    + apply readDict_Some. etrans; [apply list_lookup_insert_ne; lia|].
      by apply list_lookup_middle.
Qed.

Lemma update_grows returns T :
  ∀ h vc fvu h' vc' fvu',
  foldl (updateStep 0%nat returns) (Some (h, vc, fvu)) T
    = Some (h', vc', fvu') →
  grewFrom h h'.
Proof.
  induction T as [|key T IH]; intros h vc fvu h' vc' fvu'; cbn [foldl].
  { intros [= <- _ _]. apply grewFrom_refl. }
  destruct (updateStep 0%nat returns (Some (h, vc, fvu)) key)
    as [[[h1 vc1] fvu1]|] eqn:E; [|by rewrite updateStep_None].
  intros Hfold. apply IH in Hfold. eapply grewFrom_trans; [|exact Hfold].
  unfold updateStep in E. cbn [mbind option_bind fst snd] in E.
  destruct (decide (key ∈ fvu)); [injection E as <- _ _; apply grewFrom_refl|].
  destruct (readDict h 0%nat) as [d|]; [|done].
  cbn [mbind option_bind] in E.
  destruct (returns !! key) as [G|];
    [|injection E as <- _ _; apply grewFrom_refl].
  destruct (setKey h 0%nat key _) as [h2|] eqn:Es; [|done].
  cbn [mbind option_bind] in E. injection E as <- _ _.
  by eapply setKey_grows.
Qed.

Section Snapshots.
Variables (g : MazeGrid) (s e : Pos) (ω : RandomSource).
Variables (episodes : nat) (epsilon γ rv sp : Q).

Lemma trainEpisode_grows st n st' :
  trainEpisode ω g g s e episodes epsilon γ rv sp (Some st) n = Some st' →
  mcValueFunction (mcMetrics st) = 0%nat →
  mcValueFunctionHistory (mcMetrics st) = 1%nat →
  grewFrom (mcHeap st) (mcHeap st')
  ∧ mcValueFunction (mcMetrics st') = 0%nat
  ∧ mcValueFunctionHistory (mcMetrics st') = 1%nat
  ∧ (mcEmitted st' = mcEmitted st
     ∨ ∃ step, mcEmitted st' = mcEmitted st ++ [(step, mcHeap st')]).
Proof.
  intros Hstep Hv Hh. unfold trainEpisode in Hstep.
  cbn [mbind option_bind] in Hstep.
  set (metrics := setEpisodesCompleted (n + 1) (mcMetrics st)) in *.
  assert (mcValueFunction metrics = 0%nat) as Hv' by done.
  assert (mcValueFunctionHistory metrics = 1%nat) as Hh' by done.
  rewrite Hv' in Hstep.
  destruct (readDict (mcHeap st) 0%nat) as [d|]; [|done].
  cbn [mbind option_bind] in Hstep.
  destruct (episodeLoop _ _ _ _ _ _ _ _ _ _ _) as [[[T outcome] k']|];
    [|done].
  cbn [mbind option_bind fst snd] in Hstep.
  destruct (foldl _ _ T) as [[[h1 vc1] fvu1]|] eqn:Eup; [|done].
  cbn [mbind option_bind fst snd] in Hstep.
  apply update_grows in Eup.
  destruct (if savesSnapshot episodes n
            then saveValueFunctionSnapshot metrics h1 else Some h1)
    as [h2|] eqn:Esave; [|done].
  cbn [mbind option_bind] in Hstep. injection Hstep as <-.
  cbn [mcHeap mcMetrics mcEmitted].
  assert (grewFrom h1 h2) as Hg2.
  { destruct (savesSnapshot episodes n).
    - by apply (snapshot_grows metrics h1 h2 Hv' Hh').
    - injection Esave as <-. apply grewFrom_refl. }
  split_and!; [eapply grewFrom_trans; [exact Eup|exact Hg2]|done..|].
  destruct (reportsProgress episodes n); [right; by eexists|by left].
Qed.

Lemma training_grows st0 n st :
  foldl (trainEpisode ω g g s e episodes epsilon γ rv sp) (Some st0)
        (seq 0 n) = Some st →
  mcValueFunction (mcMetrics st0) = 0%nat →
  mcValueFunctionHistory (mcMetrics st0) = 1%nat →
  mcEmitted st0 = [] →
  grewFrom (mcHeap st0) (mcHeap st)
  ∧ mcValueFunction (mcMetrics st) = 0%nat
  ∧ mcValueFunctionHistory (mcMetrics st) = 1%nat
  ∧ Forall (λ sh : MonteCarloStep * Heap, grewFrom sh.2 (mcHeap st))
           (mcEmitted st).
Proof.
  intros Hfold Hv Hh Hem. revert st Hfold.
  induction n as [|n IH]; intros st.
  { intros [= <-]. rewrite Hem. split_and!; [apply grewFrom_refl|done..]. }
  rewrite seq_S, foldl_snoc. simpl.
  destruct (foldl _ (Some st0) (seq 0 n)) as [st1|] eqn:E1;
    [|intros Hn; unfold trainEpisode in Hn; done].
  destruct (IH st1 eq_refl) as (Hg1 & Hv1 & Hh1 & Hout1).
  intros Hstep.
  destruct (trainEpisode_grows st1 n st Hstep Hv1 Hh1)
    as (Hg & Hv2 & Hh2 & Hem2).
  split_and!; [eapply grewFrom_trans; [exact Hg1|exact Hg]|done..|].
  assert (Forall (λ sh : MonteCarloStep * Heap, grewFrom sh.2 (mcHeap st))
                 (mcEmitted st1)) as Hold.
  { eapply Forall_impl; [exact Hout1|]. intros sh Hsh.
    eapply grewFrom_trans; [exact Hsh|exact Hg]. }
  destruct Hem2 as [->|[step ->]]; [done|].
  apply Forall_app. split; [done|]. apply Forall_singleton.
  apply grewFrom_refl.
Qed.
End Snapshots.

(** The first entry of the history is an object of its own that holds
    the value function as it was set up, and everything that was in the
    heap when a step was handed to [onStep], the value function and the
    history array apart, is there unchanged when the run returns. *)
Lemma runMonteCarlo_snapshots g s e ω episodes epsilon γ rv sp st :
  Rect g → findPositions g = Some (s, e) →
  runMonteCarlo ω g episodes epsilon γ rv sp = Some st →
  mcValueFunction (mcMetrics st) = 0%nat
  ∧ mcValueFunctionHistory (mcMetrics st) = 1%nat
  ∧ ∃ rest d0,
      readArray (mcHeap st) 1%nat = Some (2%nat :: rest) ∧ rest ≠ []
      ∧ readDict (mcHeap st) 2%nat = Some d0
      ∧ d0 !! e = Some rv
      ∧ (∀ key, key ≠ e →
           (openAt g key → d0 !! key = Some 0%Q)
           ∧ (¬ openAt g key → d0 !! key = None))
      ∧ Forall (λ sh : MonteCarloStep * Heap, grewFrom sh.2 (mcHeap st))
               (mcEmitted st).
Proof.
  intros HR Hf. unfold runMonteCarlo.
  rewrite cloneGrid_id, Hf. cbn [mbind option_bind alloc fst snd length app].
  destruct (init_fold g (positions (length g) (Z.to_nat (cols g))))
    with (h := [DictObj ∅; ArrayObj []]) (d := (∅ : gmap Pos Q))
         (a := @nil Loc) as (h1 & d1 & Hinit & Hsh1 & Hd1 & Hdom1).
  { intros p Hp. apply get2_is_Some; [done|]. apply inBounds_spec.
    apply positions_elem in Hp. unfold rows. destruct g; simpl in *; lia. }
  { by split. }
  { intros key v Hk. by rewrite lookup_empty in Hk. }
  rewrite Hinit. cbn [mbind option_bind].
  destruct (mcShape_setKey h1 d1 [] e rv Hsh1) as (h2 & -> & Hsh2 & Hlen2).
  cbn [mbind option_bind].
  set (metrics := mkMcMetrics _ _ _ _ _ _ _ _ _).
  destruct (saveValueFunctionSnapshot metrics h2) as [h3|] eqn:E3; [|done].
  cbn [mbind option_bind].
  destruct (snapshot_grows metrics h2 h3 eq_refl eq_refl E3)
    as (_ & d2 & a2 & Hd2 & Ha2 & _ & Ha3 & Hd3).
  assert (d2 = <[e := rv]> d1) as -> by (destruct Hsh2; congruence).
  assert (a2 = []) as -> by (destruct Hsh2; congruence).
  destruct (foldl _ (Some (mkMcState h3 metrics ∅ 0 [])) (seq 0 episodes))
    as [st1|] eqn:E1; [|done].
  cbn [mbind option_bind].
  destruct (training_grows g s e ω episodes epsilon γ rv sp _ _ _ E1)
    as (Hg1 & Hv1 & Hh1 & Hout1); [done..|].
  destruct (saveValueFunctionSnapshot (mcMetrics st1) (mcHeap st1))
    as [h4|] eqn:E4; [|done].
  cbn [mbind option_bind]. intros [= <-].
  cbn [mcHeap mcMetrics mcEmitted].
  destruct (snapshot_grows _ _ _ Hv1 Hh1 E4)
    as (Hg4 & d4 & a4 & _ & Ha4 & _ & Ha4' & _).
  cbn [mcHeap] in Hg1.
  assert (length h2 = 2%nat) as L2.
  { assert (length h1 = 2%nat) as L1; [|congruence].
    assert (∀ ps h h', foldl (initStep g 0%nat) (Some h) ps = Some h' →
              length h' = length h) as Hlen.
    { induction ps as [|p ps IH]; intros h h'; cbn [foldl];
        [by intros [= <-]|].
      destruct (initStep g 0%nat (Some h) p) as [hp|] eqn:Ep;
        [|by rewrite initStep_None].
      intros Hfold. rewrite (IH _ _ Hfold).
      unfold initStep in Ep. cbn [mbind option_bind] in Ep.
      destruct (get2 g p.1 p.2) as [x|]; [|done].
      cbn [mbind option_bind] in Ep. destruct (isWall x).
      - by injection Ep as <-.
      - unfold setKey in Ep. destruct (readDict h 0%nat); [|done].
        injection Ep as <-. apply length_insert. }
    by apply Hlen in Hinit. }
  rewrite L2 in Ha3, Hd3. simpl in Ha3.
  split; [done|]. split; [done|].
  destruct Hg1 as (Hl1 & Hk1 & Hp1). destruct (Hp1 _ Ha3) as (a1 & Ha1 & Hpre1).
  assert (a4 = a1) as -> by congruence.
  destruct Hpre1 as [tail ->]. simpl in Ha4'.
  assert (2 < length h3)%nat as Hl3.
  { apply readDict_Some, lookup_lt_Some in Hd3. done. }
  exists (tail ++ [length (mcHeap st1)]), (<[e := rv]> d1).
  split_and!.
  - done.
  - by destruct tail.
  - apply readDict_Some. destruct Hg4 as (_ & Hk4 & _).
    rewrite Hk4 by lia. rewrite Hk1 by lia. by apply readDict_Some.
  - apply lookup_insert_eq.
  - intros key Hne. rewrite lookup_insert_ne by done. split.
    + intros Ho.
      assert (is_Some (d1 !! key)) as [v Hv].
      { apply Hdom1. right. split; [|done]. apply positions_elem.
        destruct Ho as (x & Hx & _).
        assert (is_Some (get2 g key.1 key.2)) as Hs by by eexists.
        apply get2_is_Some in Hs; [|done]. apply inBounds_spec in Hs.
        unfold rows in Hs. destruct g; simpl in *; lia. }
      by rewrite Hv, (Hd1 key v Hv).
    + intros Hno. destruct (d1 !! key) as [v|] eqn:Ev; [|done].
      destruct (proj1 (Hdom1 key)) as [[? Hk]|[_ ?]]; [by eexists| |done].
      by rewrite lookup_empty in Hk.
  - eapply Forall_impl; [exact Hout1|]. intros sh Hsh.
    eapply grewFrom_trans; [exact Hsh|exact Hg4].
Qed.

(** * Further properties of the code *)

Lemma zeroSource_valid : ValidRandom zeroSource.
Proof. intros k. unfold zeroSource. split; [apply Qle_refl|reflexivity]. Qed.

Lemma ringMaze_wf : WellFormed ringMaze (0, 1) (4, 3).
Proof. apply wellFormedb_spec. vm_compute. reflexivity. Qed.

(** X1.  On a well-formed grid each of [runDFS], [runBFS] and [runAStar]
    returns, and it reports [isPathFound = true] exactly when the end cell
    is reachable from the start cell over non-wall cells. *)
Theorem traversal_found_iff_reachable {Q} `{PriorityQueue Q} g s e ω fuel :
  WellFormed g s e → ValidRandom ω →
  (4 * (length g * Z.to_nat (cols g)) + 1 < fuel)%nat →
  ∃ dfs bfs astar,
    runDFS ω fuel g = Some dfs
    ∧ runBFS fuel g = Some bfs
    ∧ runAStar (Q := Q) fuel g = Some astar
    ∧ ∀ run, run ∈ [dfs; bfs; astar] →
        (isPathFound (result run) = true ↔ reachable g s e).
Proof.
  intros WF Hω Hfuel.
  destruct (runDFS_spec g s e WF ω fuel Hω) as (dfs & Hdfs & Ed & _); [lia|].
  destruct (runBFS_spec g s e WF fuel) as (bfs & Hbfs & Eb & _); [lia|].
  destruct (runAStar_spec g s e WF (Q := Q) fuel) as (astar & Hastar & Ea & _);
    [lia|].
  exists dfs, bfs, astar. split_and!; [done..|].
  intros run Hrun.
  assert ((isPathFound (result run) = true →
             ∃ path, pathBetween g s e path)
          ∧ (isPathFound (result run) = false → ¬ reachable g s e))
    as [Hyes Hno].
  { rewrite !elem_of_cons in Hrun.
    destruct Hrun as [->|[->|[->|Hrun]]]; [| | |by apply elem_of_nil in Hrun].
    - destruct (SearchEnd_sound g s e WF _ _ Ed) as (Hf & Hn & _).
      split; [|done]. intros Ht. destruct (Hf Ht) as (p & ? & _). by exists p.
    - destruct (SearchEnd_sound g s e WF _ _ Eb) as (Hf & Hn & _).
      split; [|done]. intros Ht. destruct (Hf Ht) as (p & ? & _). by exists p.
    - destruct (AStarEnd_sound g s e WF _ Ea) as (Hf & Hn & _).
      split; [|done]. intros Ht. destruct (Hf Ht) as [(p & ? & _) _].
      by exists p. }
  split; [exact Hyes|]. intros Hreach.
  destruct (isPathFound (result run)); [done|]. by destruct Hno.
Qed.

Lemma traversal_found_iff_reachable_witness :
  ∃ dfs bfs astar,
    runDFS zeroSource 102 ringMaze = Some dfs
    ∧ runBFS 102 ringMaze = Some bfs
    ∧ runAStar (Q := list AStarNode) 102 ringMaze = Some astar
    ∧ ∀ run, run ∈ [dfs; bfs; astar] →
        (isPathFound (result run) = true ↔ reachable ringMaze (0, 1) (4, 3)).
Proof.
  apply (traversal_found_iff_reachable ringMaze (0, 1) (4, 3) zeroSource 102).
  - apply wellFormedb_spec. vm_compute. reflexivity.
  - apply zeroSource_valid.
  - vm_compute. lia.
Defined.

(** X2.  On a well-formed grid, when [runAStar] reports a path its
    [pathLength] is the edge count of a path from start to end over
    non-wall cells, and no such path has fewer edges. *)
Theorem runAStar_shortest_path {Q} `{PriorityQueue Q} g s e fuel :
  WellFormed g s e →
  (4 * (length g * Z.to_nat (cols g)) + 1 < fuel)%nat →
  ∃ run, runAStar (Q := Q) fuel g = Some run ∧
    (isPathFound (result run) = true →
      (∃ path, pathBetween g s e path ∧ pathLength (result run) = edges path)
      ∧ ∀ path, pathBetween g s e path → pathLength (result run) ≤ edges path).
Proof.
  intros WF Hfuel.
  destruct (runAStar_spec g s e WF (Q := Q) fuel Hfuel) as (run & Hrun & Ea & _).
  exists run. split; [done|]. by apply (AStarEnd_sound g s e WF run Ea).
Qed.

Lemma runAStar_shortest_path_witness :
  ∃ run, runAStar (Q := list AStarNode) 102 ringMaze = Some run ∧
    (isPathFound (result run) = true →
      (∃ path, pathBetween ringMaze (0, 1) (4, 3) path
               ∧ pathLength (result run) = edges path)
      ∧ ∀ path, pathBetween ringMaze (0, 1) (4, 3) path →
          pathLength (result run) ≤ edges path).
Proof.
  apply (runAStar_shortest_path ringMaze (0, 1) (4, 3) 102).
  - apply wellFormedb_spec. vm_compute. reflexivity.
  - vm_compute. lia.
Defined.

(** X3.  [manhattanDistance] never overestimates: a path over non-wall
    cells between two cells has at least as many edges as their Manhattan
    distance. *)
Theorem manhattanDistance_admissible g p q path :
  pathBetween g p q path →
  manhattanDistance p.1 p.2 q.1 q.2 ≤ edges path.
Proof.
  intros (l & -> & _ & Hsteps).
  pose proof (heuristic_steps g q p l q Hsteps) as Hh.
  unfold heuristic in Hh. unfold edges. simpl length.
  unfold manhattanDistance in *. lia.
Qed.

Lemma manhattanDistance_admissible_witness :
  manhattanDistance (0, 1).1 (0, 1).2 (1, 1).1 (1, 1).2
  ≤ edges [(0, 1); (1, 1)].
Proof.
  apply (manhattanDistance_admissible ringMaze (0, 1) (1, 1)).
  exists [(1, 1)]. split; [reflexivity|]. split.
  - eexists. split; [vm_compute; reflexivity|reflexivity].
  - simpl. split; [|split; [|reflexivity]].
    + exists 2%nat. split; [lia|reflexivity].
    + eexists. split; [vm_compute; reflexivity|reflexivity].
Defined.

(** X4.  On a well-formed grid, when [runDFS] or [runBFS] reports that no
    path was found, it has visited every cell reachable from the start
    cell exactly once: [nodesVisited] is the number of those cells. *)
Theorem exhausted_search_counts_reachable g s e ω fuel :
  WellFormed g s e → ValidRandom ω →
  (length g * Z.to_nat (cols g) < fuel)%nat →
  ∃ dfs bfs,
    runDFS ω fuel g = Some dfs
    ∧ runBFS fuel g = Some bfs
    ∧ ∀ run, run ∈ [dfs; bfs] → isPathFound (result run) = false →
        ∃ cells, NoDup cells ∧ (∀ p, p ∈ cells ↔ reachable g s p)
          ∧ nodesVisited (result run) = length cells.
Proof.
  intros WF Hω Hfuel.
  destruct (runDFS_spec g s e WF ω fuel Hω) as (dfs & Hdfs & Ed & _); [lia|].
  destruct (runBFS_spec g s e WF fuel) as (bfs & Hbfs & Eb & _); [lia|].
  exists dfs, bfs. split_and!; [done..|].
  pose proof (WellFormed_Rect g s e WF) as HR.
  assert (∀ Extra run, SearchEnd g s Extra run →
    isPathFound (result run) = false →
    ∃ cells, NoDup cells ∧ (∀ p, p ∈ cells ↔ reachable g s p)
      ∧ nodesVisited (result run) = length cells) as Hgen.
  { intros Extra run [ef rest dn visited I _ _ Hres|dn visited I Hres] Hnf;
      rewrite Hres in *; [done|].
    exists (entryPos <$> dn). split_and!.
    - apply (si_nodup _ _ _ _ _ _ I).
    - intros p. split.
      + intros Hp. apply list_elem_of_fmap in Hp as (e' & -> & He').
        destruct (si_entries _ _ _ _ _ _ I e') as (l & Hl & Hsteps); [done|].
        exists (s :: l), l. split_and!; [done| |done]. apply WF.
      + intros (path & l & -> & _ & Hsteps).
        by eapply (SearchInv_exhausted g s (endAt g)).
    - simpl. by rewrite length_fmap. }
  intros run Hrun. rewrite !elem_of_cons in Hrun.
  destruct Hrun as [->|[->|Hrun]]; [by eapply Hgen..|].
  by apply elem_of_nil in Hrun.
Qed.

Lemma exhausted_search_counts_reachable_witness :
  ∃ dfs bfs,
    runDFS zeroSource 10 blockedMaze = Some dfs
    ∧ runBFS 10 blockedMaze = Some bfs
    ∧ ∀ run, run ∈ [dfs; bfs] → isPathFound (result run) = false →
        ∃ cells, NoDup cells
          ∧ (∀ p, p ∈ cells ↔ reachable blockedMaze (0, 0) p)
          ∧ nodesVisited (result run) = length cells.
Proof.
  apply (exhausted_search_counts_reachable blockedMaze (0, 0) (2, 2)
           zeroSource 10).
  - apply wellFormedb_spec. vm_compute. reflexivity.
  - apply zeroSource_valid.
  - vm_compute. lia.
Defined.

(** X5.  On a well-formed grid each of [runDFS], [runBFS] and [runAStar]
    calls [onStep] once per visited node, with [nodesVisited] counting
    1, 2, ..., and once more at the end; that last step carries the final
    working grid and the metrics that are returned. *)
Theorem traversal_step_sequence {Q} `{PriorityQueue Q} g s e ω fuel :
  WellFormed g s e → ValidRandom ω →
  (4 * (length g * Z.to_nat (cols g)) + 1 < fuel)%nat →
  ∃ dfs bfs astar,
    runDFS ω fuel g = Some dfs
    ∧ runBFS fuel g = Some bfs
    ∧ runAStar (Q := Q) fuel g = Some astar
    ∧ ∀ run, run ∈ [dfs; bfs; astar] →
        visitCounts (emitted run)
        = seq 1 (nodesVisited (result run)) ++ [nodesVisited (result run)]
        ∧ last (emitted run) = Some (mkStep (working run) (result run)).
Proof.
  intros WF Hω Hfuel.
  destruct (traversals_full g s e ω fuel WF Hω Hfuel)
    as (dfs & bfs & astar & Hdfs & Hbfs & Hastar & Hall).
  exists dfs, bfs, astar. split_and!; [done..|].
  intros run Hrun.
  destruct (Hall run Hrun) as [(_ & tail & Hem & Hcounts & Hlast) _].
  simpl in Hem, Hcounts. rewrite Nat.sub_0_r in Hcounts.
  by rewrite Hem.
Qed.

Lemma traversal_step_sequence_witness :
  ∃ dfs bfs astar,
    runDFS zeroSource 102 ringMaze = Some dfs
    ∧ runBFS 102 ringMaze = Some bfs
    ∧ runAStar (Q := list AStarNode) 102 ringMaze = Some astar
    ∧ ∀ run, run ∈ [dfs; bfs; astar] →
        visitCounts (emitted run)
        = seq 1 (nodesVisited (result run)) ++ [nodesVisited (result run)]
        ∧ last (emitted run) = Some (mkStep (working run) (result run)).
Proof.
  apply (traversal_step_sequence ringMaze (0, 1) (4, 3) zeroSource 102).
  - apply wellFormedb_spec. vm_compute. reflexivity.
  - apply zeroSource_valid.
  - vm_compute. lia.
Defined.

(** X6.  On a well-formed grid, [runDFS], [runBFS] and [runAStar] leave
    every wall cell, the start cell and the end cell exactly as they are
    in the input, all seven fields, in the working grid and in every
    snapshot handed to [onStep]: a wall is never flagged [isVisited]. *)
Theorem traversal_fixed_cells_untouched {Q} `{PriorityQueue Q} g s e ω fuel :
  WellFormed g s e → ValidRandom ω →
  (4 * (length g * Z.to_nat (cols g)) + 1 < fuel)%nat →
  ∃ dfs bfs astar,
    runDFS ω fuel g = Some dfs
    ∧ runBFS fuel g = Some bfs
    ∧ runAStar (Q := Q) fuel g = Some astar
    ∧ ∀ run grid', run ∈ [dfs; bfs; astar] →
        grid' ∈ working run :: (stepGrid <$> emitted run) →
        ∀ r c x, get2 g r c = Some x →
          isWall x = true ∨ isStart x = true ∨ isEnd x = true →
          get2 grid' r c = Some x.
Proof.
  intros WF Hω Hfuel.
  destruct (traversals_full g s e ω fuel WF Hω Hfuel)
    as (dfs & bfs & astar & Hdfs & Hbfs & Hastar & Hall).
  exists dfs, bfs, astar. split_and!; [done..|].
  intros run grid' Hrun Hgrid.
  destruct (Hall run Hrun) as [_ (HF & Hout & _)].
  apply elem_of_cons in Hgrid as [->|Hgrid]; [exact HF|].
  apply list_elem_of_fmap in Hgrid as (st & -> & Hst).
  rewrite Forall_forall in Hout. by apply Hout.
Qed.

Lemma traversal_fixed_cells_untouched_witness :
  ∃ dfs bfs astar,
    runDFS zeroSource 102 ringMaze = Some dfs
    ∧ runBFS 102 ringMaze = Some bfs
    ∧ runAStar (Q := list AStarNode) 102 ringMaze = Some astar
    ∧ ∀ run grid', run ∈ [dfs; bfs; astar] →
        grid' ∈ working run :: (stepGrid <$> emitted run) →
        ∀ r c x, get2 ringMaze r c = Some x →
          isWall x = true ∨ isStart x = true ∨ isEnd x = true →
          get2 grid' r c = Some x.
Proof.
  apply (traversal_fixed_cells_untouched ringMaze (0, 1) (4, 3) zeroSource 102).
  - apply wellFormedb_spec. vm_compute. reflexivity.
  - apply zeroSource_valid.
  - vm_compute. lia.
Defined.

(** X7.  On a well-formed grid, a run of [runDFS], [runBFS] or [runAStar]
    that finds a path has flagged [isPath] on exactly the cells of one
    path from start to end other than start and end (besides the cells
    flagged in the input), and [pathLength] is the edge count of that
    path; a run that finds no path flags no cell. *)
Theorem traversal_draws_found_path {Q} `{PriorityQueue Q} g s e ω fuel :
  WellFormed g s e → ValidRandom ω →
  (4 * (length g * Z.to_nat (cols g)) + 1 < fuel)%nat →
  ∃ dfs bfs astar,
    runDFS ω fuel g = Some dfs
    ∧ runBFS fuel g = Some bfs
    ∧ runAStar (Q := Q) fuel g = Some astar
    ∧ ∀ run, run ∈ [dfs; bfs; astar] →
        if isPathFound (result run)
        then ∃ path, pathBetween g s e path
               ∧ pathLength (result run) = edges path
               ∧ pathDrawn g (working run) path
        else pathDrawn g (working run) [].
Proof.
  intros WF Hω Hfuel.
  destruct (traversals_full g s e ω fuel WF Hω Hfuel)
    as (dfs & bfs & astar & Hdfs & Hbfs & Hastar & Hall).
  exists dfs, bfs, astar. split_and!; [done..|].
  intros run Hrun.
  destruct (Hall run Hrun) as [_ (_ & _ & Hfound)].
  destruct (isPathFound (result run)); [|done].
  destruct Hfound as (l & q & Hsteps & -> & Hlen & Hdrawn).
  exists (s :: l). split_and!; [|by (unfold edges; simpl length; lia)|done].
  exists l. split_and!; [done| |done]. apply WF.
Qed.

Lemma traversal_draws_found_path_witness :
  ∃ dfs bfs astar,
    runDFS zeroSource 102 ringMaze = Some dfs
    ∧ runBFS 102 ringMaze = Some bfs
    ∧ runAStar (Q := list AStarNode) 102 ringMaze = Some astar
    ∧ ∀ run, run ∈ [dfs; bfs; astar] →
        if isPathFound (result run)
        then ∃ path, pathBetween ringMaze (0, 1) (4, 3) path
               ∧ pathLength (result run) = edges path
               ∧ pathDrawn ringMaze (working run) path
        else pathDrawn ringMaze (working run) [].
Proof.
  apply (traversal_draws_found_path ringMaze (0, 1) (4, 3) zeroSource 102).
  - apply wellFormedb_spec. vm_compute. reflexivity.
  - apply zeroSource_valid.
  - vm_compute. lia.
Defined.

(** X8.  On a rectangular grid [findPositions] returns, for a grid with
    at least one cell flagged [isStart], the last such cell in the order
    of its scan (row by row, left to right): every other flagged cell
    comes before it.  The same holds for [isEnd]. *)
Theorem findPositions_returns_last_flagged g :
  Rect g →
  ∃ s e, findPositions g = Some (s, e)
    ∧ (hasStart g →
         startAt g s ∧ ∀ p, startAt g p → p = s ∨ scanBefore p s)
    ∧ (hasEnd g →
         endAt g e ∧ ∀ p, endAt g p → p = e ∨ scanBefore p e).
Proof.
  intros HR. destruct (findPositions_last g HR) as (s & e & Hf & Hs & He).
  exists s, e. split; [done|]. split.
  - intros Hhas. by destruct Hs as [[_ Hno]|Hs].
  - intros Hhas. by destruct He as [[_ Hno]|He].
Qed.

Lemma findPositions_returns_last_flagged_witness :
  ∃ s e, findPositions twoStarts = Some (s, e)
    ∧ (hasStart twoStarts →
         startAt twoStarts s
         ∧ ∀ p, startAt twoStarts p → p = s ∨ scanBefore p s)
    ∧ (hasEnd twoStarts →
         endAt twoStarts e ∧ ∀ p, endAt twoStarts p → p = e ∨ scanBefore p e).
Proof.
  apply (findPositions_returns_last_flagged twoStarts). repeat constructor.
Defined.

(** X9.  The shuffling loop of [carvePath] and [runDFS] turns the
    directions [0, 1, 2, 3] into a permutation of them, whatever numbers in
    [0, 1) [Math.random] returns, and calls [Math.random] four times. *)
Theorem shuffle_is_permutation ω k :
  ValidRandom ω →
  (shuffle ω k [0; 1; 2; 3]%nat).1 ≡ₚ [0; 1; 2; 3]%nat
  ∧ (shuffle ω k [0; 1; 2; 3]%nat).2 = (k + 4)%nat.
Proof.
  intros Hω. split; [by apply shuffle_directions_perm|].
  by destruct (shuffle_length ω k [0; 1; 2; 3]%nat) as [_ ->].
Qed.

Lemma shuffle_is_permutation_witness :
  (shuffle zeroSource 0 [0; 1; 2; 3]%nat).1 ≡ₚ [0; 1; 2; 3]%nat
  ∧ (shuffle zeroSource 0 [0; 1; 2; 3]%nat).2 = (0 + 4)%nat.
Proof. apply (shuffle_is_permutation zeroSource 0), zeroSource_valid. Defined.

(** X10.  For [rows >= 5] and [cols >= 5] the grid returned by
    [generateMaze] has [rows] rows of [cols] cells, every cell carries its
    own coordinates in [row] and [col], and no cell is flagged [isVisited]
    or [isPath]. *)
Theorem generateMaze_cells ω (nrows ncols : nat) :
  (5 ≤ nrows)%nat → (5 ≤ ncols)%nat →
  ∃ grid, generateMaze ω (nrows * ncols + 1) nrows ncols = Some grid
    ∧ length grid = nrows
    ∧ Forall (λ line, length line = ncols) grid
    ∧ ∀ r c x, get2 grid r c = Some x →
        row x = r ∧ col x = c ∧ isVisited x = false ∧ isPath x = false.
Proof.
  intros HR HC.
  destruct (generateMaze_spec ω nrows ncols HR HC)
    as (grid & Hgen & Hr & Hc & WF & _).
  exists grid. split_and!; [done| | |].
  - unfold rows in Hr. lia.
  - destruct WF as (HRect & _). eapply Forall_impl; [exact HRect|].
    intros line Hl. simpl in Hl. lia.
  - intros r c x Hx.
    pose proof (generateMaze_notes _ _ _ _ _ Hgen r c x Hx) as Hn.
    unfold notesOf in Hn. by injection Hn as -> -> -> ->.
Qed.

Lemma generateMaze_cells_witness :
  ∃ grid, generateMaze zeroSource (5 * 5 + 1) 5 5 = Some grid
    ∧ length grid = 5%nat
    ∧ Forall (λ line, length line = 5%nat) grid
    ∧ ∀ r c x, get2 grid r c = Some x →
        row x = r ∧ col x = c ∧ isVisited x = false ∧ isPath x = false.
Proof. apply (generateMaze_cells zeroSource 5 5); lia. Defined.

(** X11.  Every maze that [generateMaze] returns for [rows >= 5] and
    [cols >= 5] is solved by [runDFS], [runBFS] and [runAStar]: each
    reports [isPathFound = true], with a [pathLength] of at least
    [rows + cols - 4], the Manhattan distance between the start cell
    (0, 1) and the end cell (rows-1, cols-2). *)
Theorem generated_maze_is_solved {Q} `{PriorityQueue Q} ω ω'
    (nrows ncols : nat) :
  (5 ≤ nrows)%nat → (5 ≤ ncols)%nat → ValidRandom ω' →
  let fuel := (4 * (nrows * ncols) + 2)%nat in
  ∃ grid dfs bfs astar,
    generateMaze ω (nrows * ncols + 1) nrows ncols = Some grid
    ∧ runDFS ω' fuel grid = Some dfs
    ∧ runBFS fuel grid = Some bfs
    ∧ runAStar (Q := Q) fuel grid = Some astar
    ∧ ∀ run, run ∈ [dfs; bfs; astar] →
        isPathFound (result run) = true
        ∧ Z.of_nat nrows + Z.of_nat ncols - 4 ≤ pathLength (result run).
Proof.
  intros HR HC Hω' fuel.
  destruct (generateMaze_spec ω nrows ncols HR HC)
    as (grid & Hgen & Hr & Hc & WF & Hreach).
  set (s := (0, 1) : Pos) in *.
  set (e := (Z.of_nat nrows - 1, Z.of_nat ncols - 2) : Pos) in *.
  assert (length grid * Z.to_nat (cols grid) = nrows * ncols)%nat as Hsize.
  { unfold rows in Hr. rewrite Hc. f_equal; lia. }
  destruct (runDFS_spec grid s e WF ω' fuel Hω') as (dfs & Hdfs & Ed & _);
    [unfold fuel; lia|].
  destruct (runBFS_spec grid s e WF fuel) as (bfs & Hbfs & Eb & _);
    [unfold fuel; lia|].
  destruct (runAStar_spec grid s e WF (Q := Q) fuel) as (astar & Hastar & Ea & _);
    [unfold fuel; lia|].
  exists grid, dfs, bfs, astar. split_and!; [done..|].
  assert (reachable grid s e) as Hse by (apply Hreach, WF).
  intros run Hrun.
  assert ((isPathFound (result run) = true →
             ∃ path, pathBetween grid s e path
                     ∧ pathLength (result run) = edges path)
          ∧ (isPathFound (result run) = false → ¬ reachable grid s e))
    as [Hyes Hno].
  { rewrite !elem_of_cons in Hrun.
    destruct Hrun as [->|[->|[->|Hrun]]]; [| | |by apply elem_of_nil in Hrun].
    - destruct (SearchEnd_sound grid s e WF _ _ Ed) as (Hf & Hn & _). by split.
    - destruct (SearchEnd_sound grid s e WF _ _ Eb) as (Hf & Hn & _). by split.
    - destruct (AStarEnd_sound grid s e WF _ Ea) as (Hf & Hn & _).
      split; [|done]. intros Ht. by destruct (Hf Ht). }
  destruct (isPathFound (result run)) eqn:Efound; [|by destruct Hno].
  split; [done|]. destruct (Hyes eq_refl) as (path & (l & -> & _ & Hsteps) & ->).
  pose proof (heuristic_steps grid e s l e Hsteps) as Hh.
  unfold heuristic, manhattanDistance, s, e in Hh. simpl in Hh.
  unfold edges. simpl length. lia.
Qed.

Lemma generated_maze_is_solved_witness :
  ∃ grid dfs bfs astar,
    generateMaze zeroSource (5 * 5 + 1) 5 5 = Some grid
    ∧ runDFS zeroSource (4 * (5 * 5) + 2) grid = Some dfs
    ∧ runBFS (4 * (5 * 5) + 2) grid = Some bfs
    ∧ runAStar (Q := list AStarNode) (4 * (5 * 5) + 2) grid = Some astar
    ∧ ∀ run, run ∈ [dfs; bfs; astar] →
        isPathFound (result run) = true
        ∧ Z.of_nat 5 + Z.of_nat 5 - 4 ≤ pathLength (result run).
Proof.
  apply (generated_maze_is_solved zeroSource zeroSource 5 5); [lia..|].
  apply zeroSource_valid.
Defined.

Lemma wallBetween_connected : connected wallBetween (0, 0) (0, 2).
Proof.
  intros [r c] (x & Hx & Hw) Hne.
  assert (is_Some (get2 wallBetween r c)) as Hs by (by eexists).
  apply get2_is_Some in Hs; [|repeat constructor].
  apply inBounds_spec in Hs. unfold rows, cols in Hs. simpl in Hs.
  assert (r = 0) as -> by lia.
  assert (c = 0 ∨ c = 1 ∨ c = 2) as [->|[->| ->]] by lia.
  - apply reachable_refl. by exists x.
  - vm_compute in Hx. injection Hx as <-. done.
  - done.
Qed.

(** X12.  [ensurePathExists], on a rectangular grid whose start cell is
    open and whose other non-wall cells (the end cell apart) are all
    reachable from it, returns [true] exactly when the end cell is already
    reachable from the start cell, and then leaves the grid as it is; in
    every case the end cell is reachable in the grid it leaves, also when
    it returns [false] after carving the missing cells. *)
Theorem ensurePathExists_returns g start endp fuel :
  Rect g → openAt g start →
  inBounds (rows g) (cols g) endp.1 endp.2 = true →
  connected g start endp →
  (length g * Z.to_nat (cols g) < fuel)%nat →
  Z.abs (endp.1 - start.1) + Z.abs (endp.2 - start.2) < Z.of_nat fuel →
  ∃ g' b, ensurePathExists fuel g start.1 start.2 endp.1 endp.2 = Some (g', b)
    ∧ (b = true ↔ reachable g start endp)
    ∧ (b = true → g' = g)
    ∧ reachable g' start endp.
Proof.
  intros HR Hos Hbe Hconn Hfuel Hdist.
  destruct (ensurePathExists_spec g start endp fuel HR Hos Hbe Hconn Hfuel Hdist)
    as (g' & b & Hens & _ & _ & Hreach).
  exists g', b. split; [done|].
  destruct (ensurePathExists_decides g start endp fuel g' b HR Hos Hens).
  by split_and!.
Qed.

Lemma ensurePathExists_returns_witness :
  ∃ g' b,
    ensurePathExists 4 wallBetween (0, 0).1 (0, 0).2 (0, 2).1 (0, 2).2
      = Some (g', b)
    ∧ (b = true ↔ reachable wallBetween (0, 0) (0, 2))
    ∧ (b = true → g' = wallBetween)
    ∧ reachable g' (0, 0) (0, 2).
Proof.
  apply (ensurePathExists_returns wallBetween (0, 0) (0, 2) 4).
  - repeat constructor.
  - eexists. split; [vm_compute; reflexivity|reflexivity].
  - vm_compute. reflexivity.
  - apply wallBetween_connected.
  - vm_compute. lia.
  - vm_compute. reflexivity.
Defined.

(** X13.  On a well-formed grid both explorations return, and when one of
    them reports [isPathFound = true] the trace it walked is a path over
    non-wall cells from the start cell to the end cell: an exploration
    never reports a path that is not there. *)
Theorem exploration_found_reaches_end g s e vf qTable ω :
  WellFormed g s e → ValidRandom ω →
  ∃ mc ql,
    runMonteCarloExploration g vf = Some mc
    ∧ runQLearningExploration ω g qTable = Some ql
    ∧ ∀ w, w ∈ [mc; ql] → isPathFound (result (walkRun w)) = true →
        pathBetween g s e (walkPath w).
Proof.
  intros WF Hω.
  destruct (runMonteCarloExploration_full g s e vf WF)
    as (mc & rest1 & q1 & Hmc & Hp1 & Hs1 & _ & _ & Hf1 & _).
  destruct (runQLearningExploration_full g s e ω qTable WF Hω)
    as (ql & rest2 & q2 & Hql & Hp2 & Hs2 & _ & Hf2 & _).
  exists mc, ql. split_and!; [done..|].
  assert (openAt g s) as Hos by by destruct WF as (_ & ? & _).
  intros w Hw Hfound. rewrite !elem_of_cons in Hw.
  destruct Hw as [->|[->|Hw]]; [| |by apply elem_of_nil in Hw].
  - exists rest1. rewrite <- (Hf1 Hfound). by split_and!.
  - exists rest2. rewrite <- (Hf2 Hfound). by split_and!.
Qed.

Lemma exploration_found_reaches_end_witness :
  ∃ mc ql,
    runMonteCarloExploration ringMaze ∅ = Some mc
    ∧ runQLearningExploration zeroSource ringMaze ∅ = Some ql
    ∧ ∀ w, w ∈ [mc; ql] → isPathFound (result (walkRun w)) = true →
        pathBetween ringMaze (0, 1) (4, 3) (walkPath w).
Proof.
  apply (exploration_found_reaches_end ringMaze (0, 1) (4, 3) ∅ ∅ zeroSource).
  - apply wellFormedb_spec. vm_compute. reflexivity.
  - intros k. unfold zeroSource. split; [apply Qle_refl|reflexivity].
Defined.

(** X14.  On a well-formed grid the trace of [runMonteCarloExploration]
    has at most rows*cols*2 moves, and the trace of
    [runQLearningExploration] never enters a cell twice, so that its
    [pathLength] is below rows*cols and its step budget rows*cols*2 is
    never what stops it. *)
Theorem exploration_trace_bounds g s e vf qTable ω :
  WellFormed g s e → ValidRandom ω →
  ∃ mc ql,
    runMonteCarloExploration g vf = Some mc
    ∧ runQLearningExploration ω g qTable = Some ql
    ∧ pathLength (result (walkRun mc)) ≤ rows g * cols g * 2
    ∧ NoDup (walkPath ql)
    ∧ pathLength (result (walkRun ql)) < rows g * cols g.
Proof.
  intros WF Hω. pose proof (WellFormed_Rect g s e WF) as HR.
  destruct (runMonteCarloExploration_full g s e vf WF)
    as (mc & rest1 & q1 & Hmc & Hp1 & Hs1 & Hb1 & Hl1 & _).
  destruct (runQLearningExploration_full g s e ω qTable WF Hω)
    as (ql & rest2 & q2 & Hql & Hp2 & Hs2 & Hnd & _).
  destruct (runQLearningExploration_spec g s e ω qTable WF Hω)
    as (ql' & rest2' & q2' & Hql' & Hp2' & _ & Hl2 & _).
  assert (ql' = ql) as -> by congruence.
  assert (rest2' = rest2) as -> by congruence.
  exists mc, ql. split_and!; [done..| |done|].
  - rewrite Hl1. unfold rows.
    assert (0 ≤ cols g) by (unfold cols; destruct g; lia). nia.
  - assert (openAt g s) as Hos by by destruct WF as (_ & ? & _).
    pose proof (cells_bound g (walkPath ql) HR Hnd) as Hb.
    rewrite Hp2 in Hb. specialize (Hb (steps_cells g s rest2 q2 Hos Hs2)).
    simpl in Hb. rewrite Hl2. unfold rows.
    assert (0 ≤ cols g) by (unfold cols; destruct g; lia). nia.
Qed.

Lemma exploration_trace_bounds_witness :
  ∃ mc ql,
    runMonteCarloExploration ringMaze backToStart = Some mc
    ∧ runQLearningExploration zeroSource ringMaze ∅ = Some ql
    ∧ pathLength (result (walkRun mc)) ≤ rows ringMaze * cols ringMaze * 2
    ∧ NoDup (walkPath ql)
    ∧ pathLength (result (walkRun ql)) < rows ringMaze * cols ringMaze.
Proof.
  apply (exploration_trace_bounds ringMaze (0, 1) (4, 3) backToStart ∅
           zeroSource).
  - apply wellFormedb_spec. vm_compute. reflexivity.
  - intros k. unfold zeroSource. split; [apply Qle_refl|reflexivity].
Defined.

(** X15.  On a well-formed grid both explorations write annotations only:
    the grid they return and the grid of every step they emit have the
    dimensions of the input and, cell by cell, its [row], [col], [isWall],
    [isStart] and [isEnd]. *)
Theorem exploration_keeps_maze g s e vf qTable ω :
  WellFormed g s e → ValidRandom ω →
  ∃ mc ql,
    runMonteCarloExploration g vf = Some mc
    ∧ runQLearningExploration ω g qTable = Some ql
    ∧ ∀ w, w ∈ [mc; ql] →
        sameMaze g (working (walkRun w))
        ∧ Forall (λ st, sameMaze g (stepGrid st)) (emitted (walkRun w)).
Proof.
  intros WF Hω.
  destruct (runMonteCarloExploration_full g s e vf WF)
    as (mc & rest1 & q1 & Hmc & _ & _ & _ & _ & _ & Hw1 & Ho1).
  destruct (runQLearningExploration_full g s e ω qTable WF Hω)
    as (ql & rest2 & q2 & Hql & _ & _ & _ & _ & Hw2 & Ho2).
  exists mc, ql. split_and!; [done..|].
  intros w Hw. rewrite !elem_of_cons in Hw.
  destruct Hw as [->|[->|Hw]]; [| |by apply elem_of_nil in Hw].
  - split; [by destruct Hw1|].
    eapply Forall_impl; [exact Ho1|]. by intros st [? _].
  - split; [by destruct Hw2|].
    eapply Forall_impl; [exact Ho2|]. by intros st [? _].
Qed.

Lemma exploration_keeps_maze_witness :
  ∃ mc ql,
    runMonteCarloExploration ringMaze backToStart = Some mc
    ∧ runQLearningExploration zeroSource ringMaze ∅ = Some ql
    ∧ ∀ w, w ∈ [mc; ql] →
        sameMaze ringMaze (working (walkRun w))
        ∧ Forall (λ st, sameMaze ringMaze (stepGrid st)) (emitted (walkRun w)).
Proof.
  apply (exploration_keeps_maze ringMaze (0, 1) (4, 3) backToStart ∅
           zeroSource).
  - apply wellFormedb_spec. vm_compute. reflexivity.
  - intros k. unfold zeroSource. split; [apply Qle_refl|reflexivity].
Defined.

(** X16.  A training episode of [runMonteCarlo] on a rectangular grid with
    cells (the loop started from the start cell with the budget
    rows*cols*2, whatever the value function and the draws so far) is a
    self-avoiding walk: the trajectory starts with the start cell, enters a
    non-wall neighbour at every move, never holds a cell twice and so has
    at most rows*cols cells, and every move takes two random draws.  It
    ends 'goal' on the end cell, or 'stuck' on another cell all of whose
    non-wall neighbours are already on the trajectory; it never ends by
    the budget. *)
Theorem episode_self_avoiding_walk g s e vf ω epsilon k :
  Rect g → ValidRandom ω → findPositions g = Some (s, e) →
  (0 < length g * Z.to_nat (cols g))%nat →
  ∃ rest q outcome k',
    episodeLoop ω (length g * Z.to_nat (cols g) * 2) k g e vf epsilon
                s.1 s.2 [] ∅ = Some (s :: rest, outcome, k')
    ∧ NoDup (s :: rest)
    ∧ steps g s rest q
    ∧ (length (s :: rest) ≤ length g * Z.to_nat (cols g))%nat
    ∧ k' = (k + 2 * length rest)%nat
    ∧ (outcome = OutcomeGoal ∧ q = e
       ∨ outcome = OutcomeStuck ∧ q ≠ e
         ∧ ∀ a, (a < 4)%nat → openAt g (nbr q a) → nbr q a ∈ s :: rest).
Proof.
  intros HR Hω Hf Hpos.
  destruct (episode_walk g s e vf ω epsilon k HR Hω Hf Hpos)
    as (rest & q & outcome & k' & Hloop & Hnd & Hsteps & Hlen & Hk & _ & Hend).
  by exists rest, q, outcome, k'.
Qed.

Lemma episode_self_avoiding_walk_witness :
  ∃ rest q outcome k',
    episodeLoop zeroSource (length ringMaze * Z.to_nat (cols ringMaze) * 2) 0
                ringMaze (4, 3) ∅ (1 # 10) (0, 1).1 (0, 1).2 [] ∅
      = Some ((0, 1) :: rest, outcome, k')
    ∧ NoDup ((0, 1) :: rest)
    ∧ steps ringMaze (0, 1) rest q
    ∧ (length ((0%Z, 1%Z) :: rest)
       ≤ length ringMaze * Z.to_nat (cols ringMaze))%nat
    ∧ k' = (0 + 2 * length rest)%nat
    ∧ (outcome = OutcomeGoal ∧ q = (4, 3)
       ∨ outcome = OutcomeStuck ∧ q ≠ (4, 3)
         ∧ ∀ a, (a < 4)%nat → openAt ringMaze (nbr q a) →
             nbr q a ∈ (0, 1) :: rest).
Proof.
  apply (episode_self_avoiding_walk ringMaze (0, 1) (4, 3) ∅ zeroSource
           (1 # 10) 0).
  - repeat constructor.
  - intros k. unfold zeroSource. split; [apply Qle_refl|reflexivity].
  - vm_compute. reflexivity.
  - vm_compute. lia.
Defined.

(** X17.  On a rectangular grid with at least one row [runMonteCarlo]
    returns; with the numbers taken as exact, when the discount factor lies
    in [0, 1], the value function it returns still holds [rewardValue] for
    the end cell, and every value in it lies between any two bounds
    [lo <= hi] that enclose 0, [stuckPenalty] and [rewardValue]. *)
Theorem runMonteCarlo_value_range g s e ω episodes epsilon γ rv sp lo hi :
  Rect g → g ≠ [] → ValidRandom ω → findPositions g = Some (s, e) →
  (0 <= γ)%Q → (γ <= 1)%Q → (lo <= 0)%Q → (0 <= hi)%Q →
  (lo <= sp)%Q → (sp <= hi)%Q → (lo <= rv)%Q → (rv <= hi)%Q →
  ∃ st d,
    runMonteCarlo ω g episodes epsilon γ rv sp = Some st
    ∧ readDict (mcHeap st) (mcValueFunction (mcMetrics st)) = Some d
    ∧ (∃ v, d !! e = Some v ∧ (v == rv)%Q)
    ∧ ∀ key v, d !! key = Some v → (lo <= v)%Q ∧ (v <= hi)%Q.
Proof.
  intros HR _ Hω Hf Hγ0 Hγ1 Hlo0 Hhi0 Hsplo Hsphi Hrvlo Hrvhi.
  destruct (runMonteCarlo_values g s e ω episodes epsilon γ rv sp lo hi)
    as (st & Hrun & Hv & _ & (d & a & Hsh & Hend & Hin) & _); [done..|].
  exists st, d. split_and!; [done| |done|done].
  rewrite Hv. apply Hsh.
Qed.

Lemma runMonteCarlo_value_range_witness :
  ∃ st d,
    runMonteCarlo zeroSource ringMaze 3 (1 # 10) (9 # 10) 100 (-1) = Some st
    ∧ readDict (mcHeap st) (mcValueFunction (mcMetrics st)) = Some d
    ∧ (∃ v, d !! (4, 3) = Some v ∧ (v == 100)%Q)
    ∧ ∀ key v, d !! key = Some v → (-1 <= v)%Q ∧ (v <= 100)%Q.
Proof.
  apply (runMonteCarlo_value_range ringMaze (0, 1) (4, 3) zeroSource 3
           (1 # 10) (9 # 10) 100 (-1) (-1) 100).
  - repeat constructor.
  - discriminate.
  - intros k. unfold zeroSource. split; [apply Qle_refl|reflexivity].
  - vm_compute. reflexivity.
  - unfold Qle. simpl. lia.
  - unfold Qle. simpl. lia.
  - unfold Qle. simpl. lia.
  - unfold Qle. simpl. lia.
  - unfold Qle. simpl. lia.
  - unfold Qle. simpl. lia.
  - unfold Qle. simpl. lia.
  - unfold Qle. simpl. lia.
Defined.

(** X18.  On a rectangular grid with at least one row [runMonteCarlo]
    returns with [episodesCompleted = totalEpisodes = episodes], whether or
    not the grid has a start or an end cell.  Every step it hands to
    [onStep] carries the input grid unchanged and the number of an episode
    between 1 and [episodes]; when there is at least one episode the last
    step handed over reports [episodesCompleted = episodes]. *)
Theorem runMonteCarlo_progress_steps g ω episodes epsilon γ rv sp :
  Rect g → g ≠ [] → ValidRandom ω →
  ∃ st,
    runMonteCarlo ω g episodes epsilon γ rv sp = Some st
    ∧ episodesCompleted (mcMetrics st) = episodes
    ∧ totalEpisodes (mcMetrics st) = episodes
    ∧ Forall (λ sh : MonteCarloStep * Heap,
                mcStepGrid sh.1 = g
                ∧ (1 ≤ episodesCompleted (mcStepMetrics sh.1) ≤ episodes)%nat
                ∧ totalEpisodes (mcStepMetrics sh.1) = episodes)
             (mcEmitted st)
    ∧ ((0 < episodes)%nat →
         ∃ sh, last (mcEmitted st) = Some sh
           ∧ episodesCompleted (mcStepMetrics sh.1) = episodes).
Proof.
  intros HR _ Hω.
  destruct (findPositions_total g HR) as (s & e & Hf & _).
  destruct (runMonteCarlo_steps g s e ω episodes epsilon γ rv sp HR Hω Hf)
    as (st & Hrun & (_ & _ & _ & Hn & Hout & Hlast) & Htot).
  exists st. split_and!; [done..| |].
  - eapply Forall_impl; [exact Hout|]. intros sh (? & [? ?] & ? & _).
    split_and!; [done..|congruence].
  - intros Hpos. destruct episodes as [|m]; [lia|].
    apply (Hlast m); [done|]. apply reportsProgress_last.
Qed.

Lemma runMonteCarlo_progress_steps_witness :
  ∃ st,
    runMonteCarlo zeroSource ringMaze 3 (1 # 10) (9 # 10) 100 (-1) = Some st
    ∧ episodesCompleted (mcMetrics st) = 3%nat
    ∧ totalEpisodes (mcMetrics st) = 3%nat
    ∧ Forall (λ sh : MonteCarloStep * Heap,
                mcStepGrid sh.1 = ringMaze
                ∧ (1 ≤ episodesCompleted (mcStepMetrics sh.1) ≤ 3)%nat
                ∧ totalEpisodes (mcStepMetrics sh.1) = 3%nat)
             (mcEmitted st)
    ∧ ((0 < 3)%nat →
         ∃ sh, last (mcEmitted st) = Some sh
           ∧ episodesCompleted (mcStepMetrics sh.1) = 3%nat).
Proof.
  apply (runMonteCarlo_progress_steps ringMaze zeroSource 3 (1 # 10) (9 # 10)
           100 (-1)).
  - repeat constructor.
  - discriminate.
  - intros k. unfold zeroSource. split; [apply Qle_refl|reflexivity].
Defined.

(** X19.  On a well-formed grid [runQLearning] returns, and the stuck
    penalty plays no part in the run: a cell entered from a non-wall cell
    always has a non-wall neighbour, the one it was entered from, so the
    branch that assigns [stuckPenalty] is never taken.  Two runs that
    differ only in [stuckPenalty] make the same updates, hand the same
    steps to [onStep] and return the same table.  (The metrics field
    [stuckPenaltyUsed], which echoes the parameter, is not modelled.) *)
Theorem runQLearning_ignores_stuckPenalty g s e ω h ig episodes
    epsilon γ α rv sp sp' :
  WellFormed g s e → ValidRandom ω → readGrid h ig = Some g →
  ∃ st,
    runQLearning ω h ig episodes epsilon γ α rv sp = Some st
    ∧ runQLearning ω h ig episodes epsilon γ α rv sp' = Some st.
Proof.
  intros WF Hω Hig. pose proof (WellFormed_Rect g s e WF) as HR.
  pose proof (WellFormed_find g s e WF) as Hf.
  assert (openAt g s) as Hs by by destruct WF as (_ & ? & _).
  destruct (runQLearning_run g s e ω episodes epsilon γ α rv (λ _, True) h ig
              HR Hω I (λ _ _ _ _, conj I I) Hs Hf Hig sp sp')
    as (st & Hrun & Hrun' & _).
  by exists st.
Qed.

Lemma runQLearning_ignores_stuckPenalty_witness :
  ∃ st,
    runQLearning leftCorridor [GridObj ringMaze] 0%nat 3
                 (1 # 10) (9 # 10) (1 # 10) 1 (-1) = Some st
    ∧ runQLearning leftCorridor [GridObj ringMaze] 0%nat 3
                   (1 # 10) (9 # 10) (1 # 10) 1 (-5) = Some st.
Proof.
  apply (runQLearning_ignores_stuckPenalty ringMaze (0, 1) (4, 3)
           leftCorridor [GridObj ringMaze] 0%nat 3
           (1 # 10) (9 # 10) (1 # 10) 1 (-1) (-5)).
  - apply wellFormedb_spec. vm_compute. reflexivity.
  - intros k. unfold leftCorridor, cycleSource.
    assert (k mod 12 < 12)%nat as Hk by (apply Nat.mod_upper_bound; lia).
    simpl length. destruct (k mod 12)%nat as [|[|[|[|[|[|[|[|[|[|[|[|n]]]]]]]]]]]];
      [split; vm_compute; congruence..|lia].
  - reflexivity.
Defined.

(** X20.  On a well-formed grid, with the numbers taken as exact and the
    learning rate and the discount factor in [0, 1], the table
    [runQLearning] returns has a row for the non-wall cells and for no
    other cell, every row holds a number for each of the four actions, and
    every such number lies between any bounds [lo <= hi] that enclose 0
    and [rewardValue]. *)
Theorem runQLearning_q_range g s e ω h ig episodes epsilon γ α rv sp lo hi :
  WellFormed g s e → ValidRandom ω → readGrid h ig = Some g →
  (0 <= α)%Q → (α <= 1)%Q → (0 <= γ)%Q → (γ <= 1)%Q →
  (lo <= 0)%Q → (0 <= hi)%Q → (lo <= rv)%Q → (rv <= hi)%Q →
  ∃ st table,
    runQLearning ω h ig episodes epsilon γ α rv sp = Some st
    ∧ readTable (qlHeap st) (qlQTable (qlMetrics st)) = Some table
    ∧ (∀ p, is_Some (table !! p) ↔ openAt g p)
    ∧ ∀ p l, table !! p = Some l →
        ∃ row, readRow (qlHeap st) l = Some row
          ∧ ∀ a, (a < 4)%nat →
              ∃ v, row !! a = Some v ∧ (lo <= v)%Q ∧ (v <= hi)%Q.
Proof.
  intros WF Hω Hig Hα0 Hα1 Hγ0 Hγ1 Hlo Hhi Hrvlo Hrvhi.
  pose proof (WellFormed_Rect g s e WF) as HR.
  pose proof (WellFormed_find g s e WF) as Hf.
  assert (openAt g s) as Hs by by destruct WF as (_ & ? & _).
  destruct (runQLearning_run g s e ω episodes epsilon γ α rv
              (λ v, (lo <= v)%Q ∧ (v <= hi)%Q) h ig HR Hω (conj Hlo Hhi))
    with (sp := sp) (sp' := sp)
    as (st & Hrun & _ & ((table & Ht & Hrows & Hdom) & _) & Hqt);
    [|done..|].
  { intros old m Ho Hm. by apply q_update_range. }
  exists st, table. rewrite Hqt. split_and!; [done..| |].
  - intros p. split; [|apply Hdom]. intros [l Hl].
    by destruct (Hrows p l Hl) as (_ & ? & _).
  - intros p l Hl.
    destruct (Hrows p l Hl) as (_ & _ & row & Hrow & Hfull & HV).
    exists row. split; [done|]. intros a Ha.
    destruct (Hfull a Ha) as [v Hv]. exists v. split; [done|].
    by apply (HV a).
Qed.

Lemma runQLearning_q_range_witness :
  ∃ st table,
    runQLearning leftCorridor [GridObj ringMaze] 0%nat 3
                 (1 # 10) (9 # 10) (1 # 10) 1 (-1) = Some st
    ∧ readTable (qlHeap st) (qlQTable (qlMetrics st)) = Some table
    ∧ (∀ p, is_Some (table !! p) ↔ openAt ringMaze p)
    ∧ ∀ p l, table !! p = Some l →
        ∃ row, readRow (qlHeap st) l = Some row
          ∧ ∀ a, (a < 4)%nat →
              ∃ v, row !! a = Some v ∧ (0 <= v)%Q ∧ (v <= 1)%Q.
Proof.
  apply (runQLearning_q_range ringMaze (0, 1) (4, 3) leftCorridor
           [GridObj ringMaze] 0%nat 3 (1 # 10) (9 # 10) (1 # 10) 1 (-1) 0 1).
  - apply wellFormedb_spec. vm_compute. reflexivity.
  - intros k. unfold leftCorridor, cycleSource.
    assert (k mod 12 < 12)%nat as Hk by (apply Nat.mod_upper_bound; lia).
    simpl length. destruct (k mod 12)%nat as [|[|[|[|[|[|[|[|[|[|[|[|n]]]]]]]]]]]];
      [split; vm_compute; congruence..|lia].
  - reflexivity.
  - unfold Qle. simpl. lia.
  - unfold Qle. simpl. lia.
  - unfold Qle. simpl. lia.
  - unfold Qle. simpl. lia.
  - unfold Qle. simpl. lia.
  - unfold Qle. simpl. lia.
  - unfold Qle. simpl. lia.
  - unfold Qle. simpl. lia.
Defined.

(** X21.  On a well-formed grid [runQLearning] returns with
    [episodesCompleted = totalEpisodes = episodes] and leaves every object
    of the caller, the grid among them, as it was.  Every step it hands to
    [onStep] carries the caller's own grid object and the number of an
    episode between 1 and [episodes]; when there is at least one episode
    the last step handed over reports [episodesCompleted = episodes]. *)
Theorem runQLearning_progress_steps g s e ω h ig episodes epsilon γ α rv sp :
  WellFormed g s e → ValidRandom ω → readGrid h ig = Some g →
  ∃ st,
    runQLearning ω h ig episodes epsilon γ α rv sp = Some st
    ∧ (∀ l, (l < length h)%nat → qlHeap st !! l = h !! l)
    ∧ qlEpisodesCompleted (qlMetrics st) = episodes
    ∧ qlTotalEpisodes (qlMetrics st) = episodes
    ∧ Forall (λ sh : QLearningStep * Heap,
                qlStepGrid sh.1 = ig
                ∧ (1 ≤ qlEpisodesCompleted (qlStepMetrics sh.1)
                   ≤ episodes)%nat
                ∧ qlTotalEpisodes (qlStepMetrics sh.1) = episodes)
             (qlEmitted st)
    ∧ ((0 < episodes)%nat →
         ∃ sh, last (qlEmitted st) = Some sh
           ∧ qlEpisodesCompleted (qlStepMetrics sh.1) = episodes).
Proof.
  intros WF Hω Hig. pose proof (WellFormed_Rect g s e WF) as HR.
  pose proof (WellFormed_find g s e WF) as Hf.
  assert (openAt g s) as Hs by by destruct WF as (_ & ? & _).
  destruct (runQLearning_run g s e ω episodes epsilon γ α rv (λ _, True) h ig
              HR Hω I (λ _ _ _ _, conj I I) Hs Hf Hig sp sp)
    as (st & Hrun & _ & (_ & Hpre & Hn & Htot & Hout & Hlast) & _).
  exists st. split_and!; [done..|].
  intros Hpos. destruct episodes as [|m]; [lia|].
  apply (Hlast m); [done|]. apply qlReportsProgress_last.
Qed.

Lemma runQLearning_progress_steps_witness :
  ∃ st,
    runQLearning leftCorridor [GridObj ringMaze] 0%nat 3
                 (1 # 10) (9 # 10) (1 # 10) 1 (-1) = Some st
    ∧ (∀ l, (l < length [GridObj ringMaze])%nat →
         qlHeap st !! l = [GridObj ringMaze] !! l)
    ∧ qlEpisodesCompleted (qlMetrics st) = 3%nat
    ∧ qlTotalEpisodes (qlMetrics st) = 3%nat
    ∧ Forall (λ sh : QLearningStep * Heap,
                qlStepGrid sh.1 = 0%nat
                ∧ (1 ≤ qlEpisodesCompleted (qlStepMetrics sh.1) ≤ 3)%nat
                ∧ qlTotalEpisodes (qlStepMetrics sh.1) = 3%nat)
             (qlEmitted st)
    ∧ ((0 < 3)%nat →
         ∃ sh, last (qlEmitted st) = Some sh
           ∧ qlEpisodesCompleted (qlStepMetrics sh.1) = 3%nat).
Proof.
  apply (runQLearning_progress_steps ringMaze (0, 1) (4, 3) leftCorridor
           [GridObj ringMaze] 0%nat 3 (1 # 10) (9 # 10) (1 # 10) 1 (-1)).
  - apply wellFormedb_spec. vm_compute. reflexivity.
  - intros k. unfold leftCorridor, cycleSource.
    assert (k mod 12 < 12)%nat as Hk by (apply Nat.mod_upper_bound; lia).
    simpl length. destruct (k mod 12)%nat as [|[|[|[|[|[|[|[|[|[|[|[|n]]]]]]]]]]]];
      [split; vm_compute; congruence..|lia].
  - reflexivity.
Defined.

(** X22.  When the start cell that [findPositions] returns is a wall cell
    with a non-wall neighbour, [runQLearning] with at least one episode
    does not return: the table has no row for the start cell, and the
    first update [qTable[currentStateKey][action]] raises a TypeError.
    ([runMonteCarlo] returns on the same grid.) *)
Theorem runQLearning_wall_start_throws g s e ω h ig episodes
    epsilon γ α rv sp x a :
  Rect g → ValidRandom ω → readGrid h ig = Some g →
  findPositions g = Some (s, e) →
  get2 g s.1 s.2 = Some x → isWall x = true →
  (a < 4)%nat → openAt g (nbr s a) → (0 < episodes)%nat →
  runQLearning ω h ig episodes epsilon γ α rv sp = None
  ∧ is_Some (runMonteCarlo ω g episodes epsilon γ rv sp).
Proof.
  intros HR Hω Hig Hf Hx Hw Ha Hopen Hep. split.
  - eapply runQLearning_wall; [done..| |done]. by exists a.
  - destruct (runMonteCarlo_steps g s e ω episodes epsilon γ rv sp HR Hω Hf)
      as (st & Hrun & _).
    by exists st.
Qed.

Lemma runQLearning_wall_start_throws_witness :
  runQLearning zeroSource [GridObj wallStart] 0%nat 1
               (1 # 10) (9 # 10) (1 # 10) 1 (-1) = None
  ∧ is_Some (runMonteCarlo zeroSource wallStart 1 (1 # 10) (9 # 10) 1 (-1)).
Proof.
  apply (runQLearning_wall_start_throws wallStart (0, 0) (0, 2) zeroSource
           [GridObj wallStart] 0%nat 1 (1 # 10) (9 # 10) (1 # 10) 1 (-1)
           (mkCell 0 0 true true false false false) 1).
  - repeat constructor.
  - intros k. unfold zeroSource. split; [apply Qle_refl|reflexivity].
  - reflexivity.
  - vm_compute. reflexivity.
  - reflexivity.
  - reflexivity.
  - lia.
  - exists (mkCell 0 1 false false false false false). split; reflexivity.
  - lia.
Defined.

(** X23.  [runAlgorithm] hands every engine the grid [cleanMaze maze].
    Run on the cleaned form of a well-formed grid, [runDFS], [runBFS],
    [runAStar] and the two explorations return, and cleaning the grid they
    leave, or the grid of any step they emit (which [handleAlgorithmStep]
    makes the new [maze]), gives the very grid the run started from: the
    next run sees the same maze. *)
Theorem cleanMaze_restores_input {Q} `{PriorityQueue Q} g s e ω vf qTable fuel :
  WellFormed g s e → ValidRandom ω →
  (4 * (length g * Z.to_nat (cols g)) + 1 < fuel)%nat →
  ∃ dfs bfs astar mc ql,
    runDFS ω fuel (cleanMaze g) = Some dfs
    ∧ runBFS fuel (cleanMaze g) = Some bfs
    ∧ runAStar (Q := Q) fuel (cleanMaze g) = Some astar
    ∧ runMonteCarloExploration (cleanMaze g) vf = Some mc
    ∧ runQLearningExploration ω (cleanMaze g) qTable = Some ql
    ∧ ∀ run grid', run ∈ [dfs; bfs; astar; walkRun mc; walkRun ql] →
        grid' ∈ working run :: (stepGrid <$> emitted run) →
        cleanMaze grid' = cleanMaze g.
Proof.
  intros WF0 Hω Hfuel. pose proof (WellFormed_Rect g s e WF0) as HR0.
  pose proof (cleanMaze_sameMaze g HR0) as HS.
  pose proof (WellFormed_sameMaze g (cleanMaze g) s e HS WF0) as WF.
  pose proof (WellFormed_Rect _ s e WF) as HR.
  assert (length (cleanMaze g) = length g) as Hlen
    by (unfold cleanMaze; by rewrite length_map).
  pose proof (cleanMaze_cols g) as Hcols.
  destruct (runDFS_spec (cleanMaze g) s e WF ω fuel Hω)
    as (dfs & Hdfs & _ & Wd & Sd); [rewrite Hlen, Hcols; lia|].
  destruct (runBFS_spec (cleanMaze g) s e WF fuel)
    as (bfs & Hbfs & _ & Wb & Sb); [rewrite Hlen, Hcols; lia|].
  destruct (runAStar_spec (cleanMaze g) s e WF (Q := Q) fuel)
    as (astar & Hastar & _ & Wa & Sa); [rewrite Hlen, Hcols; lia|].
  destruct (runMonteCarloExploration_full (cleanMaze g) s e vf WF)
    as (mc & rest1 & q1 & Hmc & _ & _ & _ & _ & _ & Wm & Sm).
  destruct (runQLearningExploration_full (cleanMaze g) s e ω qTable WF Hω)
    as (ql & rest2 & q2 & Hql & _ & _ & _ & _ & Wq & Sq).
  exists dfs, bfs, astar, mc, ql. split_and!; [done..|].
  intros run grid' Hrun Hgrid.
  assert (annotatedFrom (cleanMaze g) (working run)
          ∧ stepsFrom (cleanMaze g) (emitted run)) as [Hw Hs].
  { rewrite !elem_of_cons in Hrun.
    destruct Hrun as [->|[->|[->|[->|[->|Hrun]]]]];
      [done..|by apply elem_of_nil in Hrun]. }
  assert (annotatedFrom (cleanMaze g) grid') as [Hsame _].
  { apply elem_of_cons in Hgrid as [->|Hgrid]; [done|].
    apply list_elem_of_fmap in Hgrid as (st & -> & Hst).
    unfold stepsFrom in Hs. rewrite Forall_forall in Hs. by apply Hs. }
  rewrite (cleanMaze_same (cleanMaze g) grid' HR Hsame).
  apply cleanMaze_idem.
Qed.

Lemma cleanMaze_restores_input_witness :
  ∃ dfs bfs astar mc ql,
    runDFS zeroSource 102 (cleanMaze ringMaze) = Some dfs
    ∧ runBFS 102 (cleanMaze ringMaze) = Some bfs
    ∧ runAStar (Q := list AStarNode) 102 (cleanMaze ringMaze) = Some astar
    ∧ runMonteCarloExploration (cleanMaze ringMaze) backToStart = Some mc
    ∧ runQLearningExploration zeroSource (cleanMaze ringMaze) ∅ = Some ql
    ∧ ∀ run grid', run ∈ [dfs; bfs; astar; walkRun mc; walkRun ql] →
        grid' ∈ working run :: (stepGrid <$> emitted run) →
        cleanMaze grid' = cleanMaze ringMaze.
Proof.
  apply (cleanMaze_restores_input ringMaze (0, 1) (4, 3) zeroSource
           backToStart ∅ 102).
  - apply wellFormedb_spec. vm_compute. reflexivity.
  - intros k. unfold zeroSource. split; [apply Qle_refl|reflexivity].
  - vm_compute. lia.
Defined.

(** X24.  Whatever change events the two size fields of [App] receive
    ([parseInt] of the text as [value], [NaN] as [None]), [rows] and
    [cols] stay whole numbers between 5 and 30, so that for the sizes
    [App] passes on [generateMaze] returns a grid of that size in which
    the end cell is reachable from the start cell. *)
Theorem app_sizes_always_generate (events : list AppEvent) ω :
  let st := foldl appStep appInitial events in
  let nrows := Z.to_nat st.1 in
  let ncols := Z.to_nat st.2 in
  5 ≤ st.1 ≤ 30 ∧ 5 ≤ st.2 ≤ 30
  ∧ ∃ grid, generateMaze ω (nrows * ncols + 1) nrows ncols = Some grid
      ∧ rows grid = st.1 ∧ cols grid = st.2
      ∧ reachable grid (0, 1) (st.1 - 1, st.2 - 2).
Proof.
  intros st nrows ncols.
  destruct (app_range events appInitial) as [Hr Hc];
    [unfold appInitial; simpl; lia|].
  fold st in Hr, Hc. split; [done|]. split; [done|].
  destruct (generateMaze_spec ω nrows ncols)
    as (grid & Hgen & Hrows & Hcols & WF & Hreach); [unfold nrows; lia|
                                                     unfold ncols; lia|].
  exists grid. split; [done|].
  assert (Z.of_nat nrows = st.1) as Er by (unfold nrows; lia).
  assert (Z.of_nat ncols = st.2) as Ec by (unfold ncols; lia).
  cbv zeta in WF, Hreach. rewrite Er, Ec in WF. rewrite Er in Hrows.
  rewrite Ec in Hcols.
  split_and!; [done..|]. apply Hreach. by destruct WF as (_ & _ & ? & _).
Qed.

(** X25.  The click handlers of [ValueFunctionViz], on view extents of
    whole numbers: a view extent that lies inside the data range
    [[minIndex, maxIndex]] stays inside it under every sequence of presses
    of the buttons left, right and All, and presses of the two arrows alone
    never change its width. *)
Theorem pan_buttons_keep_window mi ma ext buttons :
  mi ≤ ext.1 → ext.2 ≤ ma →
  mi ≤ (foldl (press mi ma) ext buttons).1
  ∧ (foldl (press mi ma) ext buttons).2 ≤ ma
  ∧ (ShowAll ∉ buttons →
       (foldl (press mi ma) ext buttons).2
       - (foldl (press mi ma) ext buttons).1 = ext.2 - ext.1).
Proof.
  intros H1 H2. split_and!.
  - revert ext H1 H2. induction buttons as [|b buttons IH]; intros ext H1 H2;
      [done|].
    cbn [foldl]. destruct b; cbn [press].
    + destruct (panLeft_spec mi ext) as (_ & _ & ? & Hin & _).
      apply IH; [by apply Hin|lia].
    + destruct (panRight_spec ma ext) as (_ & ? & _ & Hin & _).
      apply IH; [lia|by apply Hin].
    + by apply IH.
  - revert ext H1 H2. induction buttons as [|b buttons IH]; intros ext H1 H2;
      [done|].
    cbn [foldl]. destruct b; cbn [press].
    + destruct (panLeft_spec mi ext) as (_ & _ & ? & Hin & _).
      apply IH; [by apply Hin|lia].
    + destruct (panRight_spec ma ext) as (_ & ? & _ & Hin & _).
      apply IH; [lia|by apply Hin].
    + by apply IH.
  - intros Hall. by apply arrows_inside.
Qed.

Lemma pan_buttons_keep_window_witness :
  1 ≤ (foldl (press 1 30) (1, 21) [PanRight; PanRight; PanLeft; PanRight]).1
  ∧ (foldl (press 1 30) (1, 21) [PanRight; PanRight; PanLeft; PanRight]).2 ≤ 30
  ∧ (ShowAll ∉ [PanRight; PanRight; PanLeft; PanRight] →
       (foldl (press 1 30) (1, 21) [PanRight; PanRight; PanLeft; PanRight]).2
       - (foldl (press 1 30) (1, 21)
                [PanRight; PanRight; PanLeft; PanRight]).1
       = (1, 21).2 - (1, 21).1).
Proof.
  apply (pan_buttons_keep_window 1 30 (1, 21)
           [PanRight; PanRight; PanLeft; PanRight]).
  - simpl. lia.
  - simpl. lia.
Defined.

(** X26.  [ValueFunctionViz] with a selected cell and a history of at
    least two snapshots: [processedHistory] holds the snapshots of index
    1 to [n = length - 1], so [minIndex = 1] and [maxIndex = n], and the
    view extent is reset to [[1, min(21, n + 1)]].  With [n <= 20] that
    extent ends one past the last index and no press of the arrow buttons
    ever changes it; with [n > 20] it is [[1, 21]] and under the arrow
    buttons it stays inside [[1, n]] with width 20. *)
Theorem viz_arrows_after_reset cell history arrows :
  (1 < length history)%nat → ShowAll ∉ arrows →
  let ph := processHistory (Some cell) history in
  let n := Z.of_nat (length history) - 1 in
  let ext := foldl (press (minIndex ph) (maxIndex ph)) (resetExtent ph) arrows in
  ph.*1 = seq 1 (length history - 1)
  ∧ minIndex ph = 1 ∧ maxIndex ph = n
  ∧ (n ≤ 20 → ext = (1, n + 1))
  ∧ (20 < n → 1 ≤ ext.1 ∧ ext.2 ≤ n ∧ ext.2 - ext.1 = 20).
Proof.
  intros Hlen Hall ph n ext.
  pose proof (processHistory_indices cell history Hlen) as Hidx. fold ph in Hidx.
  assert (length ph = (length history - 1)%nat) as Hph.
  { rewrite <- (length_fmap fst ph), Hidx. apply length_seq. }
  destruct (indices_seq ph (length history - 2)) as [Hmin Hmax].
  { rewrite Hidx. f_equal. lia. }
  assert (maxIndex ph = n) as Hmax' by (rewrite Hmax; unfold n; lia).
  split_and!; [done..| |].
  - intros Hn. unfold ext. rewrite Hmin, Hmax'. unfold resetExtent.
    rewrite Hph. replace (Z.min 21 (Z.of_nat (length history - 1) + 1))
      with (n + 1) by (unfold n; lia).
    apply arrows_frozen; [simpl; lia..|done].
  - intros Hn. unfold ext. rewrite Hmin, Hmax'. unfold resetExtent.
    rewrite Hph. replace (Z.min 21 (Z.of_nat (length history - 1) + 1))
      with 21 by (unfold n in Hn; lia).
    destruct (arrows_inside 1 n arrows (1, 21)) as (? & ? & ?);
      [simpl; lia..|done|]. simpl in *. split_and!; [done..|lia].
Qed.

Lemma viz_arrows_after_reset_witness :
  let ph := processHistory (Some (0, 0)) [∅; ∅; ∅] in
  let n := Z.of_nat (length [(∅ : gmap Pos Q); ∅; ∅]) - 1 in
  let ext := foldl (press (minIndex ph) (maxIndex ph)) (resetExtent ph)
                   [PanRight; PanLeft] in
  ph.*1 = seq 1 (length [(∅ : gmap Pos Q); ∅; ∅] - 1)
  ∧ minIndex ph = 1 ∧ maxIndex ph = n
  ∧ (n ≤ 20 → ext = (1, n + 1))
  ∧ (20 < n → 1 ≤ ext.1 ∧ ext.2 ≤ n ∧ ext.2 - ext.1 = 20).
Proof.
  apply (viz_arrows_after_reset (0, 0) [∅; ∅; ∅] [PanRight; PanLeft]).
  - simpl. lia.
  - intros Hin. rewrite !elem_of_cons, elem_of_nil in Hin.
    destruct Hin as [?|[?|[]]]; discriminate.
Defined.

(** X27.  Whatever change events the parameter fields of [Maze] receive,
    the parameters it passes to the training engines keep the discount
    factor and the learning rate in [0, 1], the reward at or above 0 and
    the stuck penalty at or below 0.  Hence, on a well-formed grid and
    with the numbers taken as exact, [runMonteCarlo] called with them
    returns a value function whose values all lie between [stuckPenalty]
    and [monteCarloReward], and [runQLearning] called with them returns a
    table whose Q-values all lie between 0 and [monteCarloReward]. *)
Theorem maze_parameters_bound_values events g s e ω episodes h ig :
  WellFormed g s e → ValidRandom ω → readGrid h ig = Some g →
  let p := foldl paramStep paramsInitial events in
  (∃ st d,
     runMonteCarlo ω g episodes (epsilon p) (discountFactor p)
                   (monteCarloReward p) (stuckPenalty p) = Some st
     ∧ readDict (mcHeap st) (mcValueFunction (mcMetrics st)) = Some d
     ∧ ∀ key v, d !! key = Some v →
         (stuckPenalty p <= v)%Q ∧ (v <= monteCarloReward p)%Q)
  ∧ (∃ st table,
       runQLearning ω h ig episodes (epsilon p) (discountFactor p)
                    (learningRate p) (monteCarloReward p) (stuckPenalty p)
         = Some st
       ∧ readTable (qlHeap st) (qlQTable (qlMetrics st)) = Some table
       ∧ ∀ key l row a v,
           table !! key = Some l → readRow (qlHeap st) l = Some row →
           row !! a = Some v → (0 <= v)%Q ∧ (v <= monteCarloReward p)%Q).
Proof.
  intros WF Hω Hig p. pose proof (WellFormed_Rect g s e WF) as HR.
  pose proof (WellFormed_find g s e WF) as Hf.
  assert (openAt g s) as Hs by by destruct WF as (_ & ? & _).
  destruct (params_range events paramsInitial)
    as (Hγ0 & Hγ1 & Hα0 & Hα1 & Hrv & Hsp).
  { unfold paramsInitial. simpl. unfold Qle. simpl. lia. }
  fold p in Hγ0, Hγ1, Hα0, Hα1, Hrv, Hsp.
  split.
  - destruct (runMonteCarlo_values g s e ω episodes (epsilon p)
                (discountFactor p) (monteCarloReward p) (stuckPenalty p)
                (stuckPenalty p) (monteCarloReward p))
      as (st & Hrun & Hv & _ & (d & a & Hsh & _ & Hin) & _);
      [done..|apply Qle_refl|by eapply Qle_trans|by eapply Qle_trans
      |apply Qle_refl|].
    exists st, d. split_and!; [done| |done]. rewrite Hv. apply Hsh.
  - destruct (runQLearning_run g s e ω episodes (epsilon p) (discountFactor p)
                (learningRate p) (monteCarloReward p)
                (λ v, (0 <= v)%Q ∧ (v <= monteCarloReward p)%Q) h ig HR Hω
                (conj (Qle_refl 0) Hrv))
      with (sp := stuckPenalty p) (sp' := stuckPenalty p)
      as (st & Hrun & _ & ((table & Ht & Hrows & _) & _) & Hqt);
      [|done..|].
    { intros old m Ho Hm. apply q_update_range; try done. apply Qle_refl. }
    exists st, table. rewrite Hqt. split_and!; [done..|].
    intros key l row a v Hl Hrow Hv.
    destruct (Hrows key l Hl) as (_ & _ & row' & Hrow' & _ & HV).
    assert (row' = row) as -> by congruence. by apply (HV a).
Qed.

Lemma maze_parameters_bound_values_witness :
  let p := foldl paramStep paramsInitial
             [DiscountFactorChange (Some 5%Q); RewardChange (Some 10);
              StuckPenaltyChange (Some 3); LearningRateChange None] in
  (∃ st d,
     runMonteCarlo zeroSource ringMaze 2 (epsilon p) (discountFactor p)
                   (monteCarloReward p) (stuckPenalty p) = Some st
     ∧ readDict (mcHeap st) (mcValueFunction (mcMetrics st)) = Some d
     ∧ ∀ key v, d !! key = Some v →
         (stuckPenalty p <= v)%Q ∧ (v <= monteCarloReward p)%Q)
  ∧ (∃ st table,
       runQLearning zeroSource [GridObj ringMaze] 0%nat 2 (epsilon p)
                    (discountFactor p) (learningRate p) (monteCarloReward p)
                    (stuckPenalty p) = Some st
       ∧ readTable (qlHeap st) (qlQTable (qlMetrics st)) = Some table
       ∧ ∀ key l row a v,
           table !! key = Some l → readRow (qlHeap st) l = Some row →
           row !! a = Some v → (0 <= v)%Q ∧ (v <= monteCarloReward p)%Q).
Proof.
  apply (maze_parameters_bound_values
           [DiscountFactorChange (Some 5%Q); RewardChange (Some 10);
            StuckPenaltyChange (Some 3); LearningRateChange None]
           ringMaze (0, 1) (4, 3) zeroSource 2 [GridObj ringMaze] 0%nat).
  - apply wellFormedb_spec. vm_compute. reflexivity.
  - intros k. unfold zeroSource. split; [apply Qle_refl|reflexivity].
  - reflexivity.
Defined.

(** X28.  On a rectangular grid with at least one row the history that
    [runMonteCarlo] returns has at least two entries.  Its first entry is
    an object of its own, not the value function of the metrics, and when
    the run returns it still holds the value function as it was set up:
    [rewardValue] for the end cell, 0 for every other non-wall cell and
    nothing for a wall cell.  Every object that was in the heap when a
    step was handed to [onStep], the value function and the history array
    apart, is unchanged when the run returns, and the history of that
    moment is an initial part of the final history: what the run pushes to
    the history are snapshots that it never writes again. *)
Theorem runMonteCarlo_history_snapshots g s e ω episodes epsilon γ rv sp :
  Rect g → g ≠ [] → ValidRandom ω → findPositions g = Some (s, e) →
  ∃ st first rest d0,
    runMonteCarlo ω g episodes epsilon γ rv sp = Some st
    ∧ readArray (mcHeap st) (mcValueFunctionHistory (mcMetrics st))
      = Some (first :: rest)
    ∧ rest ≠ []
    ∧ first ≠ mcValueFunction (mcMetrics st)
    ∧ readDict (mcHeap st) first = Some d0
    ∧ d0 !! e = Some rv
    ∧ (∀ key, key ≠ e →
         (openAt g key → d0 !! key = Some 0%Q)
         ∧ (¬ openAt g key → d0 !! key = None))
    ∧ Forall (λ sh : MonteCarloStep * Heap, grewFrom sh.2 (mcHeap st))
             (mcEmitted st).
Proof.
  intros HR _ Hω Hf.
  destruct (runMonteCarlo_steps g s e ω episodes epsilon γ rv sp HR Hω Hf)
    as (st & Hrun & _).
  destruct (runMonteCarlo_snapshots g s e ω episodes epsilon γ rv sp st HR Hf
              Hrun)
    as (Hv & Hh & rest & d0 & Ha & Hrest & Hd0 & He & Hkeys & Hout).
  exists st, 2%nat, rest, d0. rewrite Hv, Hh. by split_and!.
Qed.

Lemma runMonteCarlo_history_snapshots_witness :
  ∃ st first rest d0,
    runMonteCarlo zeroSource ringMaze 3 (1 # 10) (9 # 10) 100 (-1) = Some st
    ∧ readArray (mcHeap st) (mcValueFunctionHistory (mcMetrics st))
      = Some (first :: rest)
    ∧ rest ≠ []
    ∧ first ≠ mcValueFunction (mcMetrics st)
    ∧ readDict (mcHeap st) first = Some d0
    ∧ d0 !! ((4, 3) : Pos) = Some 100%Q
    ∧ (∀ key, key ≠ (4, 3) →
         (openAt ringMaze key → d0 !! key = Some 0%Q)
         ∧ (¬ openAt ringMaze key → d0 !! key = None))
    ∧ Forall (λ sh : MonteCarloStep * Heap, grewFrom sh.2 (mcHeap st))
             (mcEmitted st).
Proof.
  apply (runMonteCarlo_history_snapshots ringMaze (0, 1) (4, 3) zeroSource 3
           (1 # 10) (9 # 10) 100 (-1)).
  - repeat constructor.
  - discriminate.
  - intros k. unfold zeroSource. split; [apply Qle_refl|reflexivity].
  - vm_compute. reflexivity.
Defined.
